(** * hf: reactivity core, scheduler and keyed reconciliation

    A shallow embedding of the parts of the hf framework that its
    specification makes claims about:

    - [Shared]     packages/shared/src/utils.js ([hasChanged], [isObject])
    - [Component]  runtime/component.js ([registerComponent])
    - [Reactive]   reactivity/reactive.js and baseHandlers.js
    - [Effect]     reactivity/dep.js and effect.js (both revisions)
    - [Ref]        reactivity/ref.js ([Reference])
    - [Scheduler]  packages/runtime/src/scheduler.js
    - [Renderer]   src/runtime/renderer.js ([patchKeyedChildren], [getSequence])

    JavaScript objects are addresses into explicit stores, global variables
    of a module are the fields of a state record that every function threads
    through, and calls into user code (effect functions, jobs, schedulers)
    are recorded as events of a trace. *)

From stdpp Require Import base decidable option list numbers strings gmap sorting.
From Stdlib Require Import ZArith Lia Ascii.

Local Open Scope Z_scope.

(* ================================================================== *)
(** * Values and packages/shared/src/utils.js *)
(* ================================================================== *)

Module Shared.

(** Numbers: [NaN] or a numeric value. Only the behaviour of [===] matters
    here: [NaN] is unequal to everything including itself, every other
    number is equal exactly to itself. *)
Inductive jsnum : Type :=
| JNaN
| JNum (z : Z).

(** Addresses of heap objects. *)
Abbreviation addr := nat (only parsing).

Inductive value : Type :=
| VUndefined
| VNull
| VBool (b : bool)
| VNumber (n : jsnum)
| VString (s : string)
| VObject (a : addr).

#[global] Instance jsnum_eq_dec : EqDecision jsnum.
Proof. solve_decision. Defined.

#[global] Instance value_eq_dec : EqDecision value.
Proof. solve_decision. Defined.

(** [a === b] *)
Definition strict_equals (a b : value) : bool :=
  match a, b with
  | VNumber JNaN, _ | _, VNumber JNaN => false
  | _, _ => bool_decide (a = b)
  end.

(** [Object.is]-like comparison used by [Array.prototype.includes]
    (SameValueZero): as [===] but [NaN] equals [NaN]. *)
Definition same_value_zero (a b : value) : bool := bool_decide (a = b).

(** [export const isObject = (value) => value != null && typeof value === "object";] *)
Definition isObject (v : value) : bool :=
  match v with
  | VObject _ => true
  | _ => false
  end.

(** [export const hasChanged = (value, oldValue) =>
       value !== oldValue && (value === value || oldValue === oldValue);] *)
Definition hasChanged (value oldValue : value) : bool :=
  negb (strict_equals value oldValue)
  && (strict_equals value value || strict_equals oldValue oldValue).

(** [str.indexOf(c)] for a one-character search string: the position of
    the first occurrence, or [-1]. *)
Fixpoint indexOf_from (c : ascii) (s : string) (pos : Z) : Z :=
  match s with
  | EmptyString => -1
  | String c' rest =>
      if bool_decide (c' = c) then pos else indexOf_from c rest (pos + 1)
  end.

Definition indexOf (s : string) (c : ascii) : Z := indexOf_from c s 0.

Lemma strict_equals_refl_not_NaN v :
  v <> VNumber JNaN -> strict_equals v v = true.
Proof.
  intros Hv. unfold strict_equals.
  destruct v as [| |b|[|z]|s|a]; try congruence;
    by rewrite bool_decide_eq_true.
Qed.

Lemma strict_equals_true a b : strict_equals a b = true -> a = b.
Proof.
  unfold strict_equals.
  destruct a as [| |?|[|?]|?|?], b as [| |?|[|?]|?|?];
    try discriminate; intros H; by apply bool_decide_eq_true in H.
Qed.

Lemma hasChanged_same v : hasChanged v v = false.
Proof.
  unfold hasChanged.
  destruct (decide (v = VNumber JNaN)) as [->|Hv]; [reflexivity|].
  by rewrite strict_equals_refl_not_NaN.
Qed.

Lemma hasChanged_true_neq a b : hasChanged a b = true -> a <> b.
Proof. intros H ->. by rewrite hasChanged_same in H. Qed.

Lemma hasChanged_neq a b : a <> b -> hasChanged a b = true.
Proof.
  intros Hab. unfold hasChanged.
  destruct (strict_equals a b) eqn:E.
  { apply strict_equals_true in E. congruence. }
  simpl.
  destruct (decide (a = VNumber JNaN)) as [->|Ha].
  - rewrite (strict_equals_refl_not_NaN b); [reflexivity | congruence].
  - by rewrite (strict_equals_refl_not_NaN a).
Qed.

Lemma hasChanged_false_iff a b : hasChanged a b = false <-> a = b.
Proof.
  split.
  - intros H. destruct (decide (a = b)) as [|Hne]; [done|].
    apply hasChanged_neq in Hne. congruence.
  - intros ->. apply hasChanged_same.
Qed.

End Shared.


(* ================================================================== *)
(** * Component registry: runtime/component.js, [registerComponent] *)
(* ================================================================== *)

Module Component.
Import Shared.

(** A component constructor, as far as [registerComponent] looks at it:
    its static [tag] field ([None] when the class declares none) and whether
    it derives from [HTMLElement]. [comp_id] is the identity of the class. *)
Record component : Type := {
  comp_id : nat;
  tag : option string;
  isHTMLElement : bool
}.

(** The two messages the function hands to [console.error]. *)
Inductive console_message : Type :=
| MissingTagField (c : nat)
| MissingHyphen (t : string).

(** Module state: the exported [componentRegister] map, what has been
    written to the console, and the browser's custom element registry. *)
Record registry (CE : Type) : Type := {
  componentRegister : gmap string component;
  console_error : list console_message;
  customElements : CE
}.
Arguments componentRegister {CE} _.
Arguments console_error {CE} _.
Arguments customElements {CE} _.

(** How a call ends: it returns, or an exception leaves it. Both carry the
    state reached. *)
Inductive outcome (S : Type) : Type :=
| Returned (s : S)
| Thrown (s : S).
Arguments Returned {S} _.
Arguments Thrown {S} _.

Section RegisterComponent.

(** The browser registry and [customElements.define], which may throw. *)
Context {CE : Type}.
Variable define : string -> component -> CE -> option CE.
(** [finalize(component)] runs the user's [props()] function; [None] stands
    for an exception thrown from it. *)
Variable finalize : component -> option component.

(** [!tag]: the field is missing or the empty string. *)
Definition tag_is_falsy (t : option string) : bool :=
  match t with
  | None => true
  | Some s => bool_decide (s = EmptyString)
  end.

(** <<
    export function registerComponent(component) {
        const tag = component.tag;
        if (!tag) {
            console.error(`Missing static tag field in component "${component}"`);
        } else if (tag.indexOf("-") < 0) {
            console.error(`Missing "-" in component tag "${tag}"`);
        } else if (!componentRegister.has(tag)) {
            finalize(component);
            componentRegister.set(tag, component);
            if (HTMLElement.prototype.isPrototypeOf(component)) {
                customElements.define(tag, component);
            }
        }
    }
    >> *)
Definition registerComponent (c : component) (s : registry CE)
  : outcome (registry CE) :=
  match tag c with
  | None =>
      Returned {| componentRegister := componentRegister s;
                  console_error := console_error s ++ [MissingTagField (comp_id c)];
                  customElements := customElements s |}
  | Some t =>
      if tag_is_falsy (Some t) then
        Returned {| componentRegister := componentRegister s;
                    console_error := console_error s ++ [MissingTagField (comp_id c)];
                    customElements := customElements s |}
      else if (indexOf t "-"%char <? 0)%Z then
        Returned {| componentRegister := componentRegister s;
                    console_error := console_error s ++ [MissingHyphen t];
                    customElements := customElements s |}
      else if bool_decide (is_Some (componentRegister s !! t)) then
        Returned s
      else
        match finalize c with
        | None => Thrown s
        | Some c' =>
            let s1 := {| componentRegister := <[t := c']> (componentRegister s);
                         console_error := console_error s;
                         customElements := customElements s |} in
            if isHTMLElement c' then
              match define t c' (customElements s1) with
              | None => Thrown s1
              | Some ce => Returned {| componentRegister := componentRegister s1;
                                       console_error := console_error s1;
                                       customElements := ce |}
              end
            else Returned s1
        end
  end.

(** The static tag is missing, empty, or has no hyphen. *)
Definition bad_tag (c : component) : Prop :=
  match tag c with
  | None => True
  | Some t => t = EmptyString \/ (indexOf t "-"%char < 0)%Z
  end.

(** What the specification asks of a registration with a bad tag. *)
Definition throws_and_keeps_registry (c : component) (s : registry CE) : Prop :=
  exists s', registerComponent c s = Thrown s'
             /\ componentRegister s' = componentRegister s.

(** What the code does instead. *)
Definition reports_and_keeps_registry (c : component) (s : registry CE) : Prop :=
  exists s' m, registerComponent c s = Returned s'
               /\ componentRegister s' = componentRegister s
               /\ customElements s' = customElements s
               /\ console_error s' = console_error s ++ [m].

End RegisterComponent.

(** A browser registry that accepts every definition, and a [finalize]
    that never throws, for evaluating the function on concrete inputs. *)
Definition define_ok (t : string) (c : component) (ce : list string)
  : option (list string) := Some (t :: ce).
Definition finalize_ok (c : component) : option component := Some c.

Definition empty_registry : registry (list string) :=
  {| componentRegister := ∅; console_error := []; customElements := [] |}.

Definition my_button : component :=
  {| comp_id := 1; tag := Some "mybutton"%string; isHTMLElement := true |}.

(** A bad tag is decided by the first two tests of the function. *)
Lemma bad_tag_cases (c : component) :
  bad_tag c ->
  tag c = None
  \/ (exists t, tag c = Some t /\ tag_is_falsy (Some t) = true)
  \/ (exists t, tag c = Some t /\ tag_is_falsy (Some t) = false
                /\ (indexOf t "-"%char <? 0)%Z = true).
Proof.
  unfold bad_tag. destruct (tag c) as [t|] eqn:Ht; [|by left].
  intros Hbad. right.
  destruct (tag_is_falsy (Some t)) eqn:Hf; [left; eauto|].
  right. exists t. split; [done|]. split; [done|].
  destruct Hbad as [->|Hlt].
  - vm_compute in Hf. discriminate.
  - by apply Z.ltb_lt.
Qed.

(** C9 (as stated, refuted): registering [my_button], whose tag "mybutton"
    has no hyphen, does not throw: the call returns. *)
Lemma registerComponent_no_hyphen_does_not_throw :
  bad_tag my_button
  /\ ~ throws_and_keeps_registry define_ok finalize_ok my_button empty_registry.
Proof.
  split.
  - right. vm_compute. reflexivity.
  - intros [s' [Hthrown _]]. vm_compute in Hthrown. discriminate.
Qed.

(** C9 (amended): registering a component whose static tag is missing,
    empty or without a hyphen never throws: whatever [finalize] and the
    browser registry would do, the call returns after writing exactly one
    message to [console.error], and neither [componentRegister] nor the
    custom element registry changes. *)
Theorem registerComponent_bad_tag_reports
    {CE : Type} (define : string -> component -> CE -> option CE)
    (finalize : component -> option component)
    (c : component) (s : registry CE) :
  bad_tag c ->
  reports_and_keeps_registry define finalize c s.
Proof.
  intros Hbad. unfold reports_and_keeps_registry, registerComponent.
  destruct (bad_tag_cases c Hbad) as [Hn | [(t & Ht & Hf) | (t & Ht & Hf & Hi)]].
  - rewrite Hn. eexists _, _. repeat split; reflexivity.
  - rewrite Ht, Hf. eexists _, _. repeat split; reflexivity.
  - rewrite Ht, Hf, Hi. eexists _, _. repeat split; reflexivity.
Qed.

Lemma registerComponent_bad_tag_reports_witness :
  bad_tag my_button
  /\ reports_and_keeps_registry define_ok finalize_ok my_button empty_registry.
Proof.
  split.
  - right. vm_compute. reflexivity.
  - apply (registerComponent_bad_tag_reports define_ok finalize_ok
             my_button empty_registry).
    right. vm_compute. reflexivity.
Defined.

(** A well-formed tag that is not yet registered is added. *)
Example registerComponent_good_tag :
  registerComponent define_ok finalize_ok
    {| comp_id := 2; tag := Some "my-button"%string; isHTMLElement := false |}
    empty_registry
  = Returned
      {| componentRegister :=
           {[ "my-button"%string :=
                {| comp_id := 2; tag := Some "my-button"%string;
                   isHTMLElement := false |} ]};
         console_error := [];
         customElements := [] |}.
Proof. reflexivity. Qed.

(** ** A tag is registered once *)

(** The state in which a call ends, however it ends. *)
Definition state_of {S : Type} (o : outcome S) : S :=
  match o with
  | Returned s | Thrown s => s
  end.

(** X15: after [registerComponent] was called with a well-formed tag
    and [finalize] did not throw, the tag is in [componentRegister], also
    when [customElements.define] threw. Every later [registerComponent]
    with this tag, for whatever component, returns without changing
    anything: [finalize] and [customElements.define] are not called again,
    and nothing is written to the console. *)
Theorem registerComponent_tag_is_registered_once
    {CE : Type} (define : string -> component -> CE -> option CE)
    (finalize : component -> option component)
    (c : component) (t : string) (s : registry CE) :
  tag c = Some t ->
  ~ bad_tag c ->
  is_Some (finalize c) ->
  let s1 := state_of (registerComponent define finalize c s) in
  is_Some (componentRegister s1 !! t)
  /\ console_error s1 = console_error s
  /\ (is_Some (componentRegister s !! t) -> s1 = s)
  /\ forall c2, tag c2 = Some t ->
       registerComponent define finalize c2 s1 = Returned s1.
Proof.
  intros Ht Hgood [c' Hfin].
  assert (Hfalsy : tag_is_falsy (Some t) = false).
  { unfold tag_is_falsy. apply bool_decide_eq_false_2. intros ->.
    apply Hgood. unfold bad_tag. rewrite Ht. by left. }
  assert (Hhyphen : (indexOf t "-"%char <? 0)%Z = false).
  { apply Z.ltb_ge. destruct (Z.lt_ge_cases (indexOf t "-"%char) 0) as [Hlt|Hge];
      [|done].
    exfalso. apply Hgood. unfold bad_tag. rewrite Ht. by right. }
  assert (Hagain : forall s', is_Some (componentRegister s' !! t) ->
                     forall c2, tag c2 = Some t ->
                       registerComponent define finalize c2 s' = Returned s').
  { intros s' Hreg c2 Ht2. unfold registerComponent.
    rewrite Ht2, Hfalsy, Hhyphen. by rewrite bool_decide_eq_true_2. }
  intros s1. unfold s1, registerComponent. rewrite Ht, Hfalsy, Hhyphen.
  case_bool_decide as Hreg.
  - cbn [state_of]. split; [done|]. split; [done|]. split; [done|].
    by apply Hagain.
  - rewrite Hfin.
    assert (Hnew : forall ce,
               is_Some (componentRegister
                          ({| componentRegister := <[t := c']> (componentRegister s);
                              console_error := console_error s;
                              customElements := ce |} : registry CE) !! t)).
    { intros ce. cbn [componentRegister]. rewrite lookup_insert_eq. by eexists. }
    destruct (isHTMLElement c'); [destruct (define t c' _)|]; cbn [state_of];
      (split; [apply Hnew|]; split; [done|]; split; [done|];
       apply Hagain, Hnew).
Qed.

(** A browser registry that rejects every definition. *)
Definition define_fails (t : string) (c : component) (ce : list string)
  : option (list string) := None.

Definition my_element : component :=
  {| comp_id := 3; tag := Some "my-element"%string; isHTMLElement := true |}.

Lemma registerComponent_tag_is_registered_once_witness :
  (exists s1, registerComponent define_fails finalize_ok my_element empty_registry
              = Thrown s1)
  /\ registerComponent define_fails finalize_ok my_element
       (state_of (registerComponent define_fails finalize_ok my_element
                    empty_registry))
     = Returned (state_of (registerComponent define_fails finalize_ok my_element
                             empty_registry)).
Proof.
  split; [by eexists|].
  assert (Hgood : ~ bad_tag my_element).
  { unfold bad_tag. cbn [tag my_element]. intros [[=] | Hlt].
    vm_compute in Hlt. discriminate. }
  destruct (registerComponent_tag_is_registered_once define_fails finalize_ok
              my_element "my-element" empty_registry eq_refl Hgood)
    as (_ & _ & _ & Hagain).
  { by eexists. }
  by apply Hagain.
Defined.

End Component.


(* ================================================================== *)
(** * The object store *)
(* ================================================================== *)

Module Store.
Import Shared.

(** Result of [toRawType(value)], i.e. the tag that
    [Object.prototype.toString] reports. *)
Inductive raw_type : Type :=
| TObject | TArray | TMap | TSet | TWeakMap | TWeakSet
| TOther.  (* Date, RegExp, Promise, ... *)

(** Property keys: strings and symbols. *)
Inductive key : Type :=
| KStr (s : string)
| KSym (n : nat).

#[global] Instance raw_type_eq_dec : EqDecision raw_type.
Proof. solve_decision. Defined.

#[global] Instance key_eq_dec : EqDecision key.
Proof. solve_decision. Defined.

#[global] Instance key_countable : Countable key.
Proof.
  refine (inj_countable'
            (λ k, match k with KStr s => inl s | KSym n => inr n end)
            (λ x, match x with inl s => KStr s | inr n => KSym n end) _).
  by intros [].
Defined.

(** The eight handler objects of baseHandlers.js and collectionHandlers.js. *)
Inductive handler_name : Type :=
| mutableHandlers | readonlyHandlers
| shallowReactiveHandlers | shallowReadonlyHandlers
| mutableCollectionHandlers | readonlyCollectionHandlers
| shallowCollectionHandlers | shallowReadonlyCollectionHandlers.

#[global] Instance handler_name_eq_dec : EqDecision handler_name.
Proof. solve_decision. Defined.

(** The attributes of an own data property that assignment and deletion
    look at. *)
Record descriptor : Type := {
  writable : bool;
  configurable : bool
}.

(** An ordinary (non-proxy) object: its [toRawType], whether it carries a
    truthy [__skip] property (set by [markRaw]), whether it is extensible,
    its own data properties, the attributes of those that are not both
    writable and configurable (after [Object.defineProperty],
    [Object.freeze] or [Object.seal]), and, for arrays, its elements. *)
Record raw_object : Type := {
  rawType : raw_type;
  skip : bool;
  extensible : bool;
  props : gmap key value;
  descriptors : gmap key descriptor;
  elements : list value
}.

(** The attributes of the property [k] of [r]. *)
Definition descriptor_of (r : raw_object) (k : key) : descriptor :=
  default {| writable := true; configurable := true |} (descriptors r !! k).

(** Objects are ordinary objects or [new Proxy(target, handlers)]. *)
Inductive object : Type :=
| Raw (r : raw_object)
| Proxy (target : addr) (h : handler_name).

(** The heap: the address of an object is its position. *)
Abbreviation heap := (list object) (only parsing).

Definition alloc (h : heap) (o : object) : heap * addr := (h ++ [o], length h).

(** The ordinary object at the end of a chain of proxies. [toString],
    [Array.isArray] and [Object.isExtensible] are not intercepted by any of
    the handler objects and so reach it. The fuel bounds the length of the
    chain, which is never longer than the heap. *)
Fixpoint root_fuel (fuel : nat) (h : heap) (a : addr) : option raw_object :=
  match h !! a with
  | Some (Raw r) => Some r
  | Some (Proxy t _) =>
      match fuel with
      | O => None
      | S fuel' => root_fuel fuel' h t
      end
  | None => None
  end.

Definition root (h : heap) (a : addr) : option raw_object :=
  root_fuel (length h) h a.

Definition toRawType (h : heap) (a : addr) : raw_type :=
  match root h a with
  | Some r => rawType r
  | None => TOther
  end.

(** [Object.isExtensible(v)] *)
Definition isExtensible (h : heap) (a : addr) : bool :=
  match root h a with
  | Some r => extensible r
  | None => false
  end.

Definition isArray (h : heap) (a : addr) : bool :=
  bool_decide (toRawType h a = TArray).

Definition isMap (h : heap) (a : addr) : bool :=
  bool_decide (toRawType h a = TMap).

(** Decimal value of a string of digits. *)
Definition digit_value (c : ascii) : option Z :=
  let n := Z.of_nat (nat_of_ascii c) in
  if bool_decide (48 <= n <= 57) then Some (n - 48) else None.

Fixpoint digits_value (s : string) (acc : Z) : option Z :=
  match s with
  | EmptyString => Some acc
  | String c rest =>
      match digit_value c with
      | Some d => digits_value rest (10 * acc + d)
      | None => None
      end
  end.

(** The natural number a string key spells, if it is the canonical decimal
    spelling of one ("0", "7", "42", but not "", "07", "-1", "1.5" or
    "NaN"). *)
Definition key_index (s : string) : option Z :=
  match s with
  | EmptyString => None
  | String "0"%char EmptyString => Some 0
  | String "0"%char _ => None
  | _ => digits_value s 0
  end.

(** The integers that a JavaScript number holds exactly, whatever their
    neighbours: those up to [2^53] in absolute value. *)
Definition safe (z : Z) : bool := (- 2 ^ 53 <=? z) && (z <=? 2 ^ 53).

(** What this development does not compute of the engine's conversions
    between strings, numbers and objects. Conversions to numbers round to
    the nearest double, so beyond [2^53] the answers depend on the binary
    expansion of the number, and the conversion of an object calls its
    [valueOf] or [toString]. These are left to the engine, about which
    nothing is assumed. *)
Record engine : Type := {
  (** [String(parseInt(s, 10)) === s], asked only for a canonical spelling
      [s] of a number above [2^53] *)
  round_trips : string -> bool;
  (** [s >= v] for a primitive value [v], asked only where [key_ge] below
      does not compute it *)
  string_ge : string -> value -> bool;
  (** [s >= o] for an object [o]; [None] when the conversion of [o]
      throws *)
  object_ge : string -> addr -> option bool
}.

(** [isIntegerKey(key)]:
    [isString(key) && key !== "NaN" && key[0] !== "-" &&
     String(parseInt(key, 10)) === key].
    [parseInt] reads the longest prefix of digits behind optional white
    space and sign, and [String] of a whole number below [10^21] is its
    canonical spelling, so the test fails for every string that is not a
    canonical spelling. For a canonical spelling of a number up to [2^53]
    [parseInt] is exact and the test holds; above, [parseInt] rounds. *)
Definition isIntegerKey (E : engine) (k : key) : bool :=
  match k with
  | KStr s =>
      match key_index s with
      | Some n => if safe n then true else round_trips E s
      | None => false
      end
  | KSym _ => false
  end.

(** [String(i)] *)
Fixpoint string_of_digits (fuel n : nat) (acc : string) : string :=
  match fuel with
  | O => acc
  | S fuel' =>
      let acc' := String (ascii_of_nat (48 + n mod 10)) acc in
      if (n / 10 =? 0)%nat then acc' else string_of_digits fuel' (n / 10) acc'
  end.

Definition String_of_nat (n : nat) : string := string_of_digits (S n) n EmptyString.

End Store.


(* ================================================================== *)
(** * Dependencies and effects: reactivity/dep.js and effect.js *)
(* ================================================================== *)

Module Effect.
Import Shared Store.

(** Effects and dependency sets are objects; they are named by their
    position in the corresponding store. *)
Abbreviation eid := nat (only parsing).
Abbreviation depid := nat (only parsing).

(** A [Dep] is a [Set<ReactiveEffect>] that carries the two bitmaps [w] and
    [n]. The set is kept as the list of its members in insertion order,
    which is the order in which JavaScript iterates it. *)
Record Dep : Type := {
  members : list eid;
  w : Z;
  n : Z
}.

(** [set.add(x)] *)
Definition Set_add (x : eid) (l : list eid) : list eid :=
  if bool_decide (x ∈ l) then l else l ++ [x].

(** [set.delete(x)] *)
Definition Set_delete (x : eid) (l : list eid) : list eid :=
  filter (λ y, y ≠ x) l.

(** [new Set(iterable)] *)
Definition Set_of (l : list eid) : list eid :=
  foldl (λ acc x, Set_add x acc) [] l.

(** <<
    export const createDep = (effects) => {
        const dep = new Set(effects);
        dep.w = 0;
        dep.n = 0;
        return dep;
    };
    >> *)
Definition createDep (effects : list eid) : Dep :=
  {| members := Set_of effects; w := 0; n := 0 |}.

(** The fields of [ReactiveEffect] that tracking and triggering look at.
    [scheduler] tells whether a scheduler function is present. *)
Record ReactiveEffect : Type := {
  active : bool;
  deps : list depid;
  computed : bool;
  allowRecurse : bool;
  scheduler : bool
}.

(** [const maxMarkerBits = 30;] *)
Definition maxMarkerBits : nat := 30.

(** The module-level variables of effect.js, with the two object stores. *)
Record state : Type := {
  dep_store : list Dep;
  effect_store : list ReactiveEffect;
  targetMap : gmap addr (list (key * depid));
  effectTrackDepth : nat;
  trackOpBit : Z;
  effectStack : list eid;
  activeEffect : option eid;
  shouldTrack : bool;
  trackStack : list bool
}.

Definition with_dep_store (s : state) (ds : list Dep) : state :=
  {| dep_store := ds; effect_store := effect_store s; targetMap := targetMap s;
     effectTrackDepth := effectTrackDepth s; trackOpBit := trackOpBit s;
     effectStack := effectStack s; activeEffect := activeEffect s;
     shouldTrack := shouldTrack s; trackStack := trackStack s |}.

Definition with_effect_store (s : state) (es : list ReactiveEffect) : state :=
  {| dep_store := dep_store s; effect_store := es; targetMap := targetMap s;
     effectTrackDepth := effectTrackDepth s; trackOpBit := trackOpBit s;
     effectStack := effectStack s; activeEffect := activeEffect s;
     shouldTrack := shouldTrack s; trackStack := trackStack s |}.

Definition with_targetMap (s : state) (tm : gmap addr (list (key * depid))) : state :=
  {| dep_store := dep_store s; effect_store := effect_store s; targetMap := tm;
     effectTrackDepth := effectTrackDepth s; trackOpBit := trackOpBit s;
     effectStack := effectStack s; activeEffect := activeEffect s;
     shouldTrack := shouldTrack s; trackStack := trackStack s |}.

Definition with_depth (s : state) (d : nat) (bit : Z) : state :=
  {| dep_store := dep_store s; effect_store := effect_store s;
     targetMap := targetMap s;
     effectTrackDepth := d; trackOpBit := bit;
     effectStack := effectStack s; activeEffect := activeEffect s;
     shouldTrack := shouldTrack s; trackStack := trackStack s |}.

Definition with_stack (s : state) (st : list eid) (a : option eid) : state :=
  {| dep_store := dep_store s; effect_store := effect_store s;
     targetMap := targetMap s;
     effectTrackDepth := effectTrackDepth s; trackOpBit := trackOpBit s;
     effectStack := st; activeEffect := a;
     shouldTrack := shouldTrack s; trackStack := trackStack s |}.

Definition with_tracking (s : state) (b : bool) (ts : list bool) : state :=
  {| dep_store := dep_store s; effect_store := effect_store s;
     targetMap := targetMap s;
     effectTrackDepth := effectTrackDepth s; trackOpBit := trackOpBit s;
     effectStack := effectStack s; activeEffect := activeEffect s;
     shouldTrack := b; trackStack := ts |}.

(** 32-bit two's complement wrap-around, and [1 << d]: JavaScript takes the
    shift count modulo 32 and yields a signed 32-bit integer. *)
Definition to_int32 (z : Z) : Z := (z + 2 ^ 31) mod 2 ^ 32 - 2 ^ 31.

Definition shl1 (d : nat) : Z := to_int32 (Z.shiftl 1 (Z.of_nat d mod 32)).

(** [export const wasTracked = (dep) => (dep.w & trackOpBit) > 0;] *)
Definition wasTracked (bit : Z) (dep : Dep) : bool := Z.land (w dep) bit >? 0.

(** [export const newTracked = (dep) => (dep.n & trackOpBit) > 0;] *)
Definition newTracked (bit : Z) (dep : Dep) : bool := Z.land (n dep) bit >? 0.

Definition set_w (dep : Dep) (z : Z) : Dep :=
  {| members := members dep; w := z; n := n dep |}.
Definition set_n (dep : Dep) (z : Z) : Dep :=
  {| members := members dep; w := w dep; n := z |}.
Definition set_members (dep : Dep) (l : list eid) : Dep :=
  {| members := l; w := w dep; n := n dep |}.

Definition effect_deps (s : state) (e : eid) : list depid :=
  match effect_store s !! e with
  | Some eff => deps eff
  | None => []
  end.

Definition set_deps (eff : ReactiveEffect) (l : list depid) : ReactiveEffect :=
  {| active := active eff; deps := l; computed := computed eff;
     allowRecurse := allowRecurse eff; scheduler := scheduler eff |}.

(** <<
    export const initDepMarkers = ({ deps }) => {
        if (deps.length) {
            for (let i = 0; i < deps.length; i++) {
                deps[i].w |= trackOpBit;
            }
        }
    };
    >> *)
Definition initDepMarkers (s : state) (e : eid) : state :=
  with_dep_store s
    (foldl (λ store i, alter (λ dep, set_w dep (Z.lor (w dep) (trackOpBit s))) i store)
           (dep_store s) (effect_deps s e)).

(** The loop of [finalizeDepMarkers]: returns the entries kept in
    [deps[0..ptr)] and the updated store. *)
Fixpoint finalize_loop (e : eid) (bit : Z) (ds : list depid) (store : list Dep)
  : list depid * list Dep :=
  match ds with
  | [] => ([], store)
  | i :: rest =>
      match store !! i with
      | Some dep =>
          let drop := wasTracked bit dep && negb (newTracked bit dep) in
          let dep1 := if drop then set_members dep (Set_delete e (members dep)) else dep in
          let dep2 := set_w dep1 (Z.land (w dep1) (Z.lnot bit)) in
          let dep3 := set_n dep2 (Z.land (n dep2) (Z.lnot bit)) in
          let '(kept, store') := finalize_loop e bit rest (<[i := dep3]> store) in
          (if drop then kept else i :: kept, store')
      | None => finalize_loop e bit rest store
      end
  end.

(** <<
    export const finalizeDepMarkers = (effect) => {
        const { deps } = effect;
        if (deps.length) {
            let ptr = 0;
            for (let i = 0; i < deps.length; i++) {
                const dep = deps[i];
                if (wasTracked(dep) && !newTracked(dep)) {
                    dep.delete(effect);
                } else {
                    deps[ptr++] = dep;
                }
                dep.w &= ~trackOpBit;
                dep.n &= ~trackOpBit;
            }
            deps.length = ptr;
        }
    };
    >> *)
Definition finalizeDepMarkers (s : state) (e : eid) : state :=
  let '(kept, store') :=
    finalize_loop e (trackOpBit s) (effect_deps s e) (dep_store s) in
  with_effect_store (with_dep_store s store')
    (alter (λ eff, set_deps eff kept) e (effect_store s)).

(** <<
    function cleanupEffect(effect) {
        const { deps } = effect;
        if (deps.length) {
            for (let i = 0; i < deps.length; i++) {
                deps[i].delete(effect);
            }
            deps.length = 0;
        }
    }
    >> *)
Definition cleanupEffect (s : state) (e : eid) : state :=
  with_effect_store
    (with_dep_store s
       (foldl (λ store i,
                 alter (λ dep, set_members dep (Set_delete e (members dep))) i store)
              (dep_store s) (effect_deps s e)))
    (alter (λ eff, set_deps eff []) e (effect_store s)).

(** [pauseTracking], [enableTracking], [resetTracking] *)
Definition pauseTracking (s : state) : state :=
  with_tracking s false (trackStack s ++ [shouldTrack s]).

Definition enableTracking (s : state) : state :=
  with_tracking s true (trackStack s ++ [shouldTrack s]).

Definition resetTracking (s : state) : state :=
  match last (trackStack s) with
  | Some b => with_tracking s b (removelast (trackStack s))
  | None => with_tracking s true (trackStack s)
  end.

(** [depsMap.get(key)] on the insertion-ordered entries of a [Map]. *)
Fixpoint Map_get (m : list (key * depid)) (k : key) : option depid :=
  match m with
  | [] => None
  | (k', i) :: rest => if bool_decide (k' = k) then Some i else Map_get rest k
  end.

Definition store_dep (s : state) (i : depid) (dep : Dep) : state :=
  with_dep_store s (<[i := dep]> (dep_store s)).

(** <<
    export function trackEffects(dep) {
        let shouldTrack = false;
        if (effectTrackDepth <= maxMarkerBits) {
            if (!newTracked(dep)) {
                dep.n |= trackOpBit;
                shouldTrack = !wasTracked(dep);
            }
        } else {
            shouldTrack = !dep.has(activeEffect);
        }
        if (shouldTrack) {
            dep.add(activeEffect);
            activeEffect?.deps.push(dep);
        }
    }
    >>
    Both callers ([track], [trackRefValue]) test [activeEffect] first, so the
    function is modelled for a defined [activeEffect]; without one it leaves
    the state as it is. *)
Definition trackEffects (s : state) (i : depid) : state :=
  match activeEffect s, dep_store s !! i with
  | Some e, Some dep =>
      let '(dep1, shouldTrack_) :=
        if (effectTrackDepth s <=? maxMarkerBits)%nat then
          if negb (newTracked (trackOpBit s) dep) then
            (set_n dep (Z.lor (n dep) (trackOpBit s)),
             negb (wasTracked (trackOpBit s) dep))
          else (dep, false)
        else (dep, negb (bool_decide (e ∈ members dep))) in
      if shouldTrack_ then
        with_effect_store
          (store_dep s i (set_members dep1 (Set_add e (members dep1))))
          (alter (λ eff, set_deps eff (deps eff ++ [i])) e (effect_store s))
      else store_dep s i dep1
  | _, _ => s
  end.

(** [isTracking()]: [shouldTrack && activeEffect !== undefined] *)
Definition isTracking (s : state) : bool :=
  shouldTrack s && bool_decide (is_Some (activeEffect s)).

(** <<
    export function track(target, type, key) {
        if (!isTracking()) { return; }
        let depsMap = targetMap.get(target);
        if (!depsMap) { targetMap.set(target, (depsMap = new Map())); }
        let dep = depsMap.get(key);
        if (!dep) { depsMap.set(key, (dep = createDep())); }
        trackEffects(dep);
    }
    >> *)
Definition track (s : state) (target : addr) (k : key) : state :=
  if negb (isTracking s) then s
  else
    let depsMap := default [] (targetMap s !! target) in
    match Map_get depsMap k with
    | Some i => trackEffects s i
    | None =>
        let i := length (dep_store s) in
        let s1 := with_dep_store s (dep_store s ++ [createDep []]) in
        let s2 := with_targetMap s1 (<[target := depsMap ++ [(k, i)]]> (targetMap s1)) in
        trackEffects s2 i
    end.

(** The function wrapped by an effect, as far as tracking sees it: the
    sequence of reactive reads [(target, key)] it performs, each of which
    reaches [track]. *)
Definition body := list (addr * key).

Definition run_fn (s : state) (fn : body) : state :=
  foldl (λ st r, track st r.1 r.2) s fn.

Definition effect_active (s : state) (e : eid) : bool :=
  match effect_store s !! e with
  | Some eff => active eff
  | None => false
  end.

(** [ReactiveEffect.prototype.run] (src/reactivity/effect.js):
    <<
    run() {
        if (!this.active) { return this.fn(); }
        if (!effectStack.length || !effectStack.includes(this)) {
            try {
                effectStack.push((activeEffect = this));
                enableTracking();
                trackOpBit = 1 << ++effectTrackDepth;
                if (effectTrackDepth <= maxMarkerBits) {
                    initDepMarkers(this);
                } else {
                    cleanupEffect(this);
                }
                return this.fn();
            } finally {
                if (effectTrackDepth <= maxMarkerBits) {
                    finalizeDepMarkers(this);
                }
                trackOpBit = 1 << --effectTrackDepth;
                resetTracking();
                effectStack.pop();
                const n = effectStack.length;
                activeEffect = n > 0 ? effectStack[n - 1] : undefined;
            }
        }
    }
    >> *)
Definition run_enter (s : state) (e : eid) : state :=
  let s1 := with_stack s (effectStack s ++ [e]) (Some e) in
  let s2 := enableTracking s1 in
  let d := S (effectTrackDepth s2) in
  let s3 := with_depth s2 d (shl1 d) in
  if (d <=? maxMarkerBits)%nat then initDepMarkers s3 e else cleanupEffect s3 e.

Definition run_leave (s : state) (e : eid) : state :=
  let s1 := if (effectTrackDepth s <=? maxMarkerBits)%nat
            then finalizeDepMarkers s e else s in
  let d := pred (effectTrackDepth s1) in
  let s2 := with_depth s1 d (shl1 d) in
  let s3 := resetTracking s2 in
  let st := removelast (effectStack s3) in
  with_stack s3 st (last st).

Definition run (s : state) (e : eid) (fn : body) : state :=
  if negb (effect_active s e) then run_fn s fn
  else if bool_decide (e ∈ effectStack s) then s
  else run_leave (run_fn (run_enter s e) fn) e.

(** [TriggerOpTypes] *)
Inductive TriggerOpType : Type := SET | ADD | DELETE | CLEAR.

#[global] Instance TriggerOpType_eq_dec : EqDecision TriggerOpType.
Proof. solve_decision. Defined.

(** [export const ITERATE_KEY = Symbol("");]
    [export const MAP_KEY_ITERATE_KEY = Symbol("");] *)
Definition ITERATE_KEY : key := KSym 0.
Definition MAP_KEY_ITERATE_KEY : key := KSym 1.

(** [a < b] on strings: the order of their code units. *)
Fixpoint string_lt (a b : string) : bool :=
  match a, b with
  | _, EmptyString => false
  | EmptyString, String _ _ => true
  | String c a', String d b' =>
      let x := nat_of_ascii c in
      let y := nat_of_ascii d in
      if (x <? y)%nat then true
      else if (y <? x)%nat then false
      else string_lt a' b'
  end.

(** [key >= newValue] in the [length] branch of [trigger]. A symbol key
    cannot be converted to a number: the comparison throws a [TypeError]
    ([None]). Two strings are compared as strings. Otherwise both sides are
    converted to numbers: [undefined] and [NaN] make the comparison false,
    [null] and [false] count as 0 and [true] as 1, and a key that spells an
    exactly held natural number is compared by its value with an exactly
    held integer. Every other comparison (a key such as "1.5" or " 7",
    numbers beyond [2^53], an object as new value) is the engine's. *)
Definition key_ge (E : engine) (k : key) (newValue : value) : option bool :=
  match k with
  | KSym _ => None
  | KStr s =>
      let numeric (n : jsnum) :=
        match n with
        | JNaN => Some false
        | JNum z =>
            match key_index s with
            | Some i =>
                Some (if safe i && safe z then z <=? i else string_ge E s newValue)
            | None => Some (string_ge E s newValue)
            end
        end in
      match newValue with
      | VString s' => Some (negb (string_lt s s'))
      | VObject o => object_ge E s o
      | VUndefined => Some false
      | VNull => numeric (JNum 0)
      | VBool b => numeric (JNum (if b then 1 else 0))
      | VNumber n => numeric n
      end
  end.

(** The [depsMap.forEach] of the [length] branch. *)
Fixpoint length_deps (E : engine) (m : list (key * depid)) (newValue : value)
  : option (list (option depid)) :=
  match m with
  | [] => Some []
  | (k, i) :: rest =>
      if bool_decide (k = KStr "length") then
        cons (Some i) <$> length_deps E rest newValue
      else
        match key_ge E k newValue with
        | None => None
        | Some true => cons (Some i) <$> length_deps E rest newValue
        | Some false => length_deps E rest newValue
        end
  end.

(** The first half of [trigger]: the array [deps] it collects, with
    [undefined] entries as [None]; the whole result is [None] when the
    collection throws. *)
Definition trigger_deps (E : engine) (h : heap) (depsMap : list (key * depid))
    (target : addr) (type : TriggerOpType) (k : option key) (newValue : value)
  : option (list (option depid)) :=
  if bool_decide (type = CLEAR) then
    Some (map (λ kv, Some kv.2) depsMap)
  else if bool_decide (k = Some (KStr "length")) && isArray h target then
    length_deps E depsMap newValue
  else
    let deps0 :=
      match k with
      | Some k' => [Map_get depsMap k']
      | None => []
      end in
    Some (deps0 ++
      match type with
      | ADD =>
          if negb (isArray h target) then
            Map_get depsMap ITERATE_KEY ::
              (if isMap h target then [Map_get depsMap MAP_KEY_ITERATE_KEY] else [])
          else if (match k with Some k' => isIntegerKey E k' | None => false end) then
            [Map_get depsMap (KStr "length")]
          else []
      | DELETE =>
          if negb (isArray h target) then
            Map_get depsMap ITERATE_KEY ::
              (if isMap h target then [Map_get depsMap MAP_KEY_ITERATE_KEY] else [])
          else []
      | SET =>
          if isMap h target then [Map_get depsMap ITERATE_KEY] else []
      | CLEAR => []
      end).

(** What [triggerEffects] does to an effect: call its scheduler or run it. *)
Inductive invocation : Type :=
| CallScheduler (e : eid)
| CallRun (e : eid).

#[global] Instance invocation_eq_dec : EqDecision invocation.
Proof. solve_decision. Defined.

Definition invoked (i : invocation) : eid :=
  match i with CallScheduler e | CallRun e => e end.

(** The guarded call shared by both revisions:
    <<
    if (effect !== activeEffect || effect.allowRecurse) {
        if (effect.scheduler) { effect.scheduler(); } else { effect.run(); }
    }
    >> *)
Definition triggerEffect (s : state) (e : eid) : list invocation :=
  match effect_store s !! e with
  | Some eff =>
      if negb (bool_decide (activeEffect s = Some e)) || allowRecurse eff then
        if scheduler eff then [CallScheduler e] else [CallRun e]
      else []
  | None => []
  end.

(** src/reactivity/effect.js:
    <<
    export function triggerEffects(dep) {
        for (const effect of isArray(dep) ? dep : [...dep]) {
            if (effect !== activeEffect || effect.allowRecurse) { ... }
        }
    }
    >> *)
Definition triggerEffects (s : state) (dep : list eid) : list invocation :=
  concat (map (triggerEffect s) dep).

Definition effect_computed (s : state) (e : eid) : bool :=
  match effect_store s !! e with
  | Some eff => computed eff
  | None => false
  end.

Definition dep_members (s : state) (i : depid) : list eid :=
  match dep_store s !! i with
  | Some dep => members dep
  | None => []
  end.

(** The second half of [trigger]:
    <<
    if (deps.length === 1) {
        if (deps[0]) { triggerEffects(deps[0]); }
    } else {
        const effects = [];
        for (const dep of deps) { if (dep) { effects.push(...dep); } }
        triggerEffects(createDep(effects));
    }
    >>
    [te] is the revision of [triggerEffects] in use. *)
Definition trigger_dispatch (te : state -> list eid -> list invocation)
    (s : state) (deps_ : list (option depid)) : list invocation :=
  match deps_ with
  | [d] =>
      match d with
      | Some i => te s (dep_members s i)
      | None => []
      end
  | _ =>
      let effects :=
        concat (map (λ d, match d with
                          | Some i => dep_members s i
                          | None => []
                          end) deps_) in
      te s (members (createDep effects))
  end.

Definition trigger_with (te : state -> list eid -> list invocation)
    (E : engine) (h : heap) (s : state)
    (target : addr) (type : TriggerOpType) (k : option key) (newValue : value)
  : option (list invocation) :=
  match targetMap s !! target with
  | None => Some []
  | Some depsMap =>
      trigger_dispatch te s <$> trigger_deps E h depsMap target type k newValue
  end.

(** [trigger(target, type, key, newValue)] of src/reactivity/effect.js. The
    result is the sequence of calls into effects it makes; [None] stands
    for an exception. *)
Definition trigger := trigger_with triggerEffects.

(** The state of a freshly loaded module:
    [effectTrackDepth = 0], [trackOpBit = 1], [shouldTrack = true], no
    effect running. *)
Definition initial_state : state :=
  {| dep_store := []; effect_store := []; targetMap := ∅;
     effectTrackDepth := 0; trackOpBit := 1;
     effectStack := []; activeEffect := None;
     shouldTrack := true; trackStack := [] |}.

(** ** Bit markers *)

Lemma land_pow2 (a k : Z) :
  (0 <= k)%Z ->
  Z.land a (2 ^ k) = if Z.testbit a k then (2 ^ k)%Z else 0%Z.
Proof.
  intros Hk. apply Z.bits_inj'. intros m Hm.
  rewrite Z.land_spec, Z.pow2_bits_eqb by done.
  destruct (Z.eqb_spec k m) as [->|Hne].
  - destruct (Z.testbit a m); simpl.
    + by rewrite Z.pow2_bits_true.
    + by rewrite Z.bits_0.
  - rewrite andb_false_r.
    destruct (Z.testbit a k).
    + by rewrite Z.pow2_bits_false.
    + by rewrite Z.bits_0.
Qed.

Lemma pow2_pos (k : Z) : (0 <= k)%Z -> (0 < 2 ^ k)%Z.
Proof. intros. by apply Z.pow_pos_nonneg. Qed.

(** Level [k] of the two bitmaps of a [Dep]. *)
Definition wbit (k : nat) (dep : Dep) : bool := Z.testbit (w dep) (Z.of_nat k).
Definition nbit (k : nat) (dep : Dep) : bool := Z.testbit (n dep) (Z.of_nat k).

Lemma wasTracked_wbit (k : nat) (dep : Dep) :
  wasTracked (2 ^ Z.of_nat k) dep = wbit k dep.
Proof.
  unfold wasTracked, wbit. rewrite land_pow2 by lia.
  pose proof (pow2_pos (Z.of_nat k)).
  destruct (Z.testbit (w dep) (Z.of_nat k)); [apply Z.gtb_lt; lia | done].
Qed.

Lemma newTracked_nbit (k : nat) (dep : Dep) :
  newTracked (2 ^ Z.of_nat k) dep = nbit k dep.
Proof.
  unfold newTracked, nbit. rewrite land_pow2 by lia.
  pose proof (pow2_pos (Z.of_nat k)).
  destruct (Z.testbit (n dep) (Z.of_nat k)); [apply Z.gtb_lt; lia | done].
Qed.

Lemma testbit_lor_pow2 (a : Z) (k j : nat) :
  Z.testbit (Z.lor a (2 ^ Z.of_nat k)) (Z.of_nat j)
  = Z.testbit a (Z.of_nat j) || bool_decide (k = j).
Proof.
  rewrite Z.lor_spec, Z.pow2_bits_eqb by lia. f_equal.
  destruct (Z.eqb_spec (Z.of_nat k) (Z.of_nat j)) as [Heq|Hne].
  - rewrite bool_decide_eq_true_2; [done | lia].
  - rewrite bool_decide_eq_false_2; [done | lia].
Qed.

Lemma testbit_land_lnot_pow2 (a : Z) (k j : nat) :
  Z.testbit (Z.land a (Z.lnot (2 ^ Z.of_nat k))) (Z.of_nat j)
  = Z.testbit a (Z.of_nat j) && negb (bool_decide (k = j)).
Proof.
  rewrite Z.land_spec, Z.lnot_spec, Z.pow2_bits_eqb by lia. f_equal. f_equal.
  destruct (Z.eqb_spec (Z.of_nat k) (Z.of_nat j)) as [Heq|Hne].
  - rewrite bool_decide_eq_true_2; [done | lia].
  - rewrite bool_decide_eq_false_2; [done | lia].
Qed.

(** Up to [maxMarkerBits] the shift does not wrap. *)
Lemma shl1_pow2 (d : nat) : (d <= maxMarkerBits)%nat -> shl1 d = (2 ^ Z.of_nat d)%Z.
Proof.
  unfold maxMarkerBits, shl1, to_int32. intros Hd.
  rewrite (Z.mod_small (Z.of_nat d)) by lia.
  rewrite Z.shiftl_1_l.
  assert (H : (0 < 2 ^ Z.of_nat d <= 2 ^ 30)%Z).
  { split; [apply pow2_pos; lia|]. apply Z.pow_le_mono_r; lia. }
  change (2 ^ 30)%Z with 1073741824%Z in H.
  change (2 ^ 31)%Z with 2147483648%Z.
  change (2 ^ 32)%Z with 4294967296%Z.
  rewrite Z.mod_small; lia.
Qed.

(** ** Subscriptions *)

(** [mem s e i]: effect [e] is in the [Dep] number [i]. *)
Definition mem (s : state) (e : eid) (i : depid) : Prop :=
  exists dep, dep_store s !! i = Some dep /\ e ∈ members dep.

(** [targetMap.get(target)?.get(key)] *)
Definition lookup_dep (s : state) (t : addr) (k : key) : option depid :=
  match targetMap s !! t with
  | Some m => Map_get m k
  | None => None
  end.

(** [e] is subscribed to the [Dep] of [(t, k)]. *)
Definition subscribed (s : state) (e : eid) (t : addr) (k : key) : Prop :=
  exists i, lookup_dep s t k = Some i /\ mem s e i.

(** What holds of the two stores and [targetMap] at all times:
    - an effect lists a [Dep] in [deps] exactly when the [Dep] contains it,
      and neither list has duplicates;
    - [targetMap] gives every [(target, key)] a [Dep] of its own. *)
Record core (s : state) : Prop := {
  core_consistent : forall e i, i ∈ effect_deps s e <-> mem s e i;
  core_nodup_deps : forall e, NoDup (effect_deps s e);
  core_nodup_members : forall i dep,
    dep_store s !! i = Some dep -> NoDup (members dep);
  core_map_valid : forall t k i,
    lookup_dep s t k = Some i -> (i < length (dep_store s))%nat;
  core_map_inj : forall t k t' k' i,
    lookup_dep s t k = Some i -> lookup_dep s t' k' = Some i -> t = t' /\ k = k'
}.

(** The invariant between runs: moreover the marker bits of all levels
    above the current depth are clear, and [activeEffect] is the top of
    [effectStack]. *)
Record inv (s : state) : Prop := {
  inv_core : core s;
  inv_clean : forall i dep k,
    dep_store s !! i = Some dep -> (effectTrackDepth s < k)%nat ->
    wbit k dep = false /\ nbit k dep = false;
  inv_active : activeEffect s = last (effectStack s)
}.

Lemma initial_state_inv : inv initial_state.
Proof.
  split; [split|..]; try done.
  - intros e i. unfold effect_deps, mem. simpl. split.
    + by intros ?%elem_of_nil.
    + by intros (dep & Hd & _).
  - intros e. unfold effect_deps. simpl. constructor.
Qed.

(** *** Sets as lists *)

Lemma elem_of_Set_add x y l : x ∈ Set_add y l <-> x = y \/ x ∈ l.
Proof.
  unfold Set_add. case_bool_decide as Hy.
  - split; [by right | by intros [-> | ?]].
  - rewrite elem_of_app, list_elem_of_singleton. tauto.
Qed.

Lemma NoDup_Set_add y l : NoDup l -> NoDup (Set_add y l).
Proof.
  intros Hl. unfold Set_add. case_bool_decide as Hy; [done|].
  apply NoDup_app. split; [done|]. split; [|apply NoDup_singleton].
  intros x Hx ->%list_elem_of_singleton. done.
Qed.

Lemma elem_of_Set_delete x y l : x ∈ Set_delete y l <-> x <> y /\ x ∈ l.
Proof. unfold Set_delete. by rewrite list_elem_of_filter. Qed.

Lemma NoDup_Set_delete y l : NoDup l -> NoDup (Set_delete y l).
Proof. apply NoDup_filter. Qed.

Lemma elem_of_Set_of x l : x ∈ Set_of l <-> x ∈ l.
Proof.
  unfold Set_of.
  assert (H : forall acc, x ∈ foldl (λ acc y, Set_add y acc) acc l <-> x ∈ acc \/ x ∈ l).
  { induction l as [|y l IH]; intros acc; simpl.
    - rewrite elem_of_nil. tauto.
    - rewrite IH, elem_of_Set_add, elem_of_cons. tauto. }
  rewrite H, elem_of_nil. tauto.
Qed.

Lemma NoDup_Set_of l : NoDup (Set_of l).
Proof.
  unfold Set_of.
  assert (H : forall acc, NoDup acc -> NoDup (foldl (λ acc y, Set_add y acc) acc l)).
  { induction l as [|y l IH]; intros acc Hacc; simpl; [done|].
    by apply IH, NoDup_Set_add. }
  apply H. constructor.
Qed.

(** *** The stores under pointwise updates *)

Lemma foldl_alter_lookup {A} (f : A -> A) (ds : list nat) (l : list A) (i : nat) :
  NoDup ds ->
  foldl (λ st j, alter f j st) l ds !! i
  = (if bool_decide (i ∈ ds) then f else id) <$> l !! i.
Proof.
  intros Hnd. revert l. induction Hnd as [|j ds Hj Hnd IH]; intros l; simpl.
  - by destruct (l !! i).
  - rewrite IH. destruct (decide (i = j)) as [->|Hne].
    + rewrite list_lookup_alter_eq.
      rewrite bool_decide_eq_false_2 by done.
      rewrite bool_decide_eq_true_2 by by left.
      by destruct (l !! j).
    + rewrite list_lookup_alter_ne by done.
      destruct (l !! i); simpl; [|done].
      case_bool_decide as H1; case_bool_decide as H2; try done.
      * exfalso. apply H2. by right.
      * apply elem_of_cons in H2 as [? | ?]; done.
Qed.

Lemma foldl_alter_length {A} (f : A -> A) (ds : list nat) (l : list A) :
  length (foldl (λ st j, alter f j st) l ds) = length l.
Proof.
  revert l. induction ds as [|j ds IH]; intros l; simpl; [done|].
  by rewrite IH, length_alter.
Qed.

Lemma effect_deps_alter s es e f :
  effect_store s = es ->
  effect_deps (with_effect_store s (alter (λ eff, set_deps eff (f (deps eff))) e es)) e
  = match es !! e with Some eff => f (deps eff) | None => [] end.
Proof.
  intros <-. unfold effect_deps. simpl. rewrite list_lookup_alter_eq.
  by destruct (effect_store s !! e).
Qed.

Lemma effect_deps_alter_ne s e e' g :
  e' <> e ->
  effect_deps (with_effect_store s (alter g e (effect_store s))) e'
  = effect_deps s e'.
Proof.
  intros Hne. unfold effect_deps. simpl. by rewrite list_lookup_alter_ne.
Qed.

(** *** The invariant while an effect runs *)

(** The fields of an effect other than [deps]. *)
Definition effect_attrs (s : state) (e : eid) : option (bool * bool * bool * bool) :=
  (λ eff, (active eff, computed eff, allowRecurse eff, scheduler eff))
    <$> effect_store s !! e.

(** [running s0 e done s]: effect [e] was entered from state [s0] (at a
    depth below [maxMarkerBits]) and its function has so far performed the
    reads [done], which led to [s]. At the level [l] of this run,
    - the [w] bit marks the [Dep]s that [e] had when it was entered,
    - the [n] bit marks the [Dep]s of the reads made so far,
    - [deps] of [e] holds both kinds,
    and nothing of any other effect has changed. *)
Record running (s0 : state) (e : eid) (done : list (addr * key)) (s : state)
  : Prop := {
  run_core : core s;
  run_valid : is_Some (effect_store s !! e);
  run_active : activeEffect s = Some e;
  run_shouldTrack : shouldTrack s = true;
  run_depth : effectTrackDepth s = S (effectTrackDepth s0);
  run_max : (S (effectTrackDepth s0) <= maxMarkerBits)%nat;
  run_bit : trackOpBit s = (2 ^ Z.of_nat (S (effectTrackDepth s0)))%Z;
  run_wbit : forall i dep, dep_store s !! i = Some dep ->
    (wbit (S (effectTrackDepth s0)) dep = true <-> i ∈ effect_deps s0 e);
  run_nbit : forall i dep, dep_store s !! i = Some dep ->
    (nbit (S (effectTrackDepth s0)) dep = true
     <-> exists t k, (t, k) ∈ done /\ lookup_dep s t k = Some i);
  run_deps : forall i,
    i ∈ effect_deps s e
    <-> i ∈ effect_deps s0 e
        \/ exists dep, dep_store s !! i = Some dep
                       /\ nbit (S (effectTrackDepth s0)) dep = true;
  run_clean : forall i dep k,
    dep_store s !! i = Some dep -> (S (effectTrackDepth s0) < k)%nat ->
    wbit k dep = false /\ nbit k dep = false;
  run_done : forall t k, (t, k) ∈ done -> is_Some (lookup_dep s t k);
  run_map_ext : forall t k i,
    lookup_dep s0 t k = Some i -> lookup_dep s t k = Some i;
  run_map_old : forall t k i,
    lookup_dep s t k = Some i -> (i < length (dep_store s0))%nat ->
    lookup_dep s0 t k = Some i;
  run_frame_mem : forall e' i, e' <> e -> (mem s e' i <-> mem s0 e' i);
  run_frame_deps : forall e', e' <> e -> effect_deps s e' = effect_deps s0 e';
  run_store_len : (length (dep_store s0) <= length (dep_store s))%nat;
  run_stack : effectStack s = effectStack s0 ++ [e];
  run_trackStack : trackStack s = trackStack s0 ++ [shouldTrack s0];
  run_attrs : forall e', effect_attrs s e' = effect_attrs s0 e'
}.

Lemma wbit_set_w_lor (l k : nat) (dep : Dep) :
  wbit k (set_w dep (Z.lor (w dep) (2 ^ Z.of_nat l))) = wbit k dep || bool_decide (l = k).
Proof. unfold wbit. simpl. apply testbit_lor_pow2. Qed.

Lemma nbit_set_n_lor (l k : nat) (dep : Dep) :
  nbit k (set_n dep (Z.lor (n dep) (2 ^ Z.of_nat l))) = nbit k dep || bool_decide (l = k).
Proof. unfold nbit. simpl. apply testbit_lor_pow2. Qed.

Lemma effect_deps_ext s s' e :
  effect_store s' = effect_store s -> effect_deps s' e = effect_deps s e.
Proof. unfold effect_deps. by intros ->. Qed.

Lemma effect_attrs_ext s s' e :
  effect_store s' = effect_store s -> effect_attrs s' e = effect_attrs s e.
Proof. unfold effect_attrs. by intros ->. Qed.

Lemma lookup_dep_ext s s' t k :
  targetMap s' = targetMap s -> lookup_dep s' t k = lookup_dep s t k.
Proof. unfold lookup_dep. by intros ->. Qed.

(** The fields of the state after [run_enter], below [maxMarkerBits]. *)
Lemma run_enter_fields (s : state) (e : eid) :
  (S (effectTrackDepth s) <= maxMarkerBits)%nat ->
  dep_store (run_enter s e)
  = foldl (λ st j, alter (λ dep, set_w dep
                            (Z.lor (w dep) (2 ^ Z.of_nat (S (effectTrackDepth s))))) j st)
          (dep_store s) (effect_deps s e)
  /\ effect_store (run_enter s e) = effect_store s
  /\ targetMap (run_enter s e) = targetMap s
  /\ effectTrackDepth (run_enter s e) = S (effectTrackDepth s)
  /\ trackOpBit (run_enter s e) = (2 ^ Z.of_nat (S (effectTrackDepth s)))%Z
  /\ effectStack (run_enter s e) = effectStack s ++ [e]
  /\ activeEffect (run_enter s e) = Some e
  /\ shouldTrack (run_enter s e) = true
  /\ trackStack (run_enter s e) = trackStack s ++ [shouldTrack s].
Proof.
  intros Hmax. unfold run_enter.
  cbn [effectTrackDepth enableTracking with_tracking with_stack].
  rewrite (proj2 (Nat.leb_le _ _) Hmax).
  unfold initDepMarkers. rewrite shl1_pow2 by done.
  repeat split; reflexivity.
Qed.

(** Entering an effect establishes [running] with no read made yet. *)
Lemma run_enter_running (s : state) (e : eid) :
  inv s ->
  is_Some (effect_store s !! e) ->
  (S (effectTrackDepth s) <= maxMarkerBits)%nat ->
  running s e [] (run_enter s e).
Proof.
  intros [Hcore Hclean Hact] Hvalid Hmax.
  destruct Hcore as [Hcons Hndd Hndm Hmv Hmi].
  destruct (run_enter_fields s e Hmax)
    as (Hds & Hes & Htm & Hd & Hb & Hst & Ha & Hsh & Hts).
  set (s' := run_enter s e) in *.
  set (f := λ dep : Dep, set_w dep (Z.lor (w dep) (2 ^ Z.of_nat (S (effectTrackDepth s))))) in *.
  assert (Hlook : forall i,
             dep_store s' !! i
             = (if bool_decide (i ∈ effect_deps s e) then f else id)
                 <$> dep_store s !! i).
  { intros i. rewrite Hds. by apply foldl_alter_lookup. }
  assert (Hlen : length (dep_store s') = length (dep_store s)).
  { rewrite Hds. apply foldl_alter_length. }
  assert (Hmem : forall e' i, mem s' e' i <-> mem s e' i).
  { intros e' i. unfold mem. rewrite Hlook.
    destruct (dep_store s !! i) as [dep|]; simpl.
    - split.
      + intros (dep' & [= <-] & He'). exists dep. split; [done|].
        by destruct (bool_decide _).
      + intros (dep' & [= <-] & He'). eexists. split; [done|].
        by destruct (bool_decide _).
    - split; by intros (dep' & Hd' & _). }
  assert (Hnb : forall i dep0, dep_store s !! i = Some dep0 ->
             nbit (S (effectTrackDepth s)) ((if bool_decide (i ∈ effect_deps s e) then f else id) dep0)
             = false).
  { intros i dep0 Hd0.
    destruct (Hclean i dep0 (S (effectTrackDepth s)) Hd0) as [_ Hn]; [lia|].
    destruct (bool_decide _); [|done]. unfold f, nbit. simpl. exact Hn. }
  split; try done.
  - split.
    + intros e' i. rewrite Hmem, (effect_deps_ext s s') by done. apply Hcons.
    + intros e'. rewrite (effect_deps_ext s s') by done. apply Hndd.
    + intros i dep. rewrite Hlook.
      destruct (dep_store s !! i) as [dep0|] eqn:Hd0; simpl; [|done].
      intros [= <-]. destruct (bool_decide _); simpl; by eapply Hndm.
    + intros t k i. rewrite (lookup_dep_ext s s') by done. rewrite Hlen.
      apply Hmv.
    + intros t k t' k' i. rewrite !(lookup_dep_ext s s') by done. apply Hmi.
  - by rewrite Hes.
  - intros i dep. rewrite Hlook.
    destruct (dep_store s !! i) as [dep0|] eqn:Hd0; simpl; [|done].
    intros [= <-].
    destruct (Hclean i dep0 (S (effectTrackDepth s)) Hd0) as [Hw _]; [lia|].
    case_bool_decide as Hin.
    + unfold f. rewrite wbit_set_w_lor, bool_decide_eq_true_2 by done.
      rewrite orb_true_r. done.
    + simpl. rewrite Hw. split; [done | by intros ?].
  - intros i dep. rewrite Hlook.
    destruct (dep_store s !! i) as [dep0|] eqn:Hd0; simpl; [|done].
    intros [= <-]. rewrite (Hnb i dep0 Hd0).
    split; [done|]. intros (t & k & Hin & _). by apply elem_of_nil in Hin.
  - intros i. rewrite (effect_deps_ext s s') by done.
    split; [by left|]. intros [Hi | (dep & Hd' & Hn)]; [done|].
    rewrite Hlook in Hd'.
    destruct (dep_store s !! i) as [dep0|] eqn:Hd0; simpl in Hd'; [|done].
    injection Hd' as <-. rewrite (Hnb i dep0 Hd0) in Hn. done.
  - intros i dep k. rewrite Hlook.
    destruct (dep_store s !! i) as [dep0|] eqn:Hd0; simpl; [|done].
    intros [= <-] Hk.
    destruct (Hclean i dep0 k Hd0) as [Hw Hn]; [lia|].
    destruct (bool_decide _); [|done].
    split.
    + unfold f. rewrite wbit_set_w_lor, Hw. simpl.
      apply bool_decide_eq_false_2. lia.
    + unfold f, nbit. simpl. exact Hn.
  - intros t k Hin. by apply elem_of_nil in Hin.
  - intros t k i. by rewrite (lookup_dep_ext s s') by done.
  - intros t k i. by rewrite (lookup_dep_ext s s') by done.
  - intros e' _. by apply effect_deps_ext.
  - by rewrite Hlen.
  - intros e'. by apply effect_attrs_ext.
Qed.

(** *** A tracked read *)

(** The [Dep] after [trackEffects] at level [l], in marker mode: the [n] bit
    is set, and the effect joins the set when neither bit was set. *)
Definition tracked_dep (l : nat) (e : eid) (dep : Dep) : Dep :=
  {| members := if nbit l dep || wbit l dep then members dep
                else Set_add e (members dep);
     w := w dep;
     n := if nbit l dep then n dep else Z.lor (n dep) (2 ^ Z.of_nat l) |}.

Lemma trackEffects_marker_fields (s : state) (e : eid) (i : depid) (dep : Dep) (l : nat) :
  activeEffect s = Some e ->
  dep_store s !! i = Some dep ->
  effectTrackDepth s = l -> (l <= maxMarkerBits)%nat ->
  trackOpBit s = (2 ^ Z.of_nat l)%Z ->
  dep_store (trackEffects s i) = <[i := tracked_dep l e dep]> (dep_store s)
  /\ effect_store (trackEffects s i)
     = (if nbit l dep || wbit l dep then effect_store s
        else alter (λ eff, set_deps eff (deps eff ++ [i])) e (effect_store s))
  /\ targetMap (trackEffects s i) = targetMap s
  /\ effectTrackDepth (trackEffects s i) = l
  /\ trackOpBit (trackEffects s i) = (2 ^ Z.of_nat l)%Z
  /\ effectStack (trackEffects s i) = effectStack s
  /\ activeEffect (trackEffects s i) = Some e
  /\ shouldTrack (trackEffects s i) = shouldTrack s
  /\ trackStack (trackEffects s i) = trackStack s.
Proof.
  intros Ha Hd Hl Hmax Hb. unfold trackEffects. rewrite Ha, Hd, Hl, Hb.
  rewrite (proj2 (Nat.leb_le _ _) Hmax).
  rewrite newTracked_nbit, wasTracked_wbit. unfold tracked_dep.
  destruct (nbit l dep) eqn:Hn; simpl.
  - destruct dep; repeat split; try reflexivity; done.
  - destruct (wbit l dep) eqn:Hw; simpl; repeat split; try reflexivity; done.
Qed.

Lemma wbit_tracked_dep l e dep k : wbit k (tracked_dep l e dep) = wbit k dep.
Proof. reflexivity. Qed.

Lemma nbit_tracked_dep l e dep k :
  nbit k (tracked_dep l e dep) = nbit k dep || bool_decide (l = k).
Proof.
  unfold tracked_dep, nbit at 1. simpl.
  destruct (nbit l dep) eqn:Hn.
  - fold (nbit k dep). case_bool_decide as Hlk.
    + subst k. by rewrite Hn.
    + by rewrite orb_false_r.
  - apply testbit_lor_pow2.
Qed.

Lemma Map_get_app m k i k' :
  Map_get (m ++ [(k, i)]) k'
  = match Map_get m k' with
    | Some j => Some j
    | None => if bool_decide (k = k') then Some i else None
    end.
Proof.
  induction m as [|[k0 i0] m IH]; simpl; [done|].
  by destruct (bool_decide (k0 = k')).
Qed.

Lemma effect_attrs_alter_deps s s' e g e' :
  effect_store s' = alter (λ eff, set_deps eff (g eff)) e (effect_store s) ->
  effect_attrs s' e' = effect_attrs s e'.
Proof.
  intros Hes. unfold effect_attrs. rewrite Hes.
  destruct (decide (e' = e)) as [->|Hne].
  - rewrite list_lookup_alter_eq. by destruct (effect_store s !! e).
  - by rewrite list_lookup_alter_ne.
Qed.

Lemma effect_deps_alter_eq s s' e g :
  effect_store s' = alter (λ eff, set_deps eff (g (deps eff))) e (effect_store s) ->
  is_Some (effect_store s !! e) ->
  effect_deps s' e = g (effect_deps s e).
Proof.
  intros Hes [eff Heff]. unfold effect_deps.
  by rewrite Hes, list_lookup_alter_eq, Heff.
Qed.

Lemma effect_deps_alter_other s s' e g e' :
  effect_store s' = alter g e (effect_store s) ->
  e' <> e ->
  effect_deps s' e' = effect_deps s e'.
Proof.
  intros Hes Hne. unfold effect_deps. by rewrite Hes, list_lookup_alter_ne.
Qed.

(** A key that has a [Dep]: one more read of it keeps [running]. *)
Lemma trackEffects_running s0 e done s t k i :
  running s0 e done s ->
  lookup_dep s t k = Some i ->
  running s0 e (done ++ [(t, k)]) (trackEffects s i).
Proof.
  intros R Hlk.
  pose proof (core_map_valid s (run_core _ _ _ _ R) t k i Hlk) as Hvalid.
  destruct (lookup_lt_is_Some_2 _ _ Hvalid) as [dep Hdep].
  destruct (trackEffects_marker_fields s e i dep (S (effectTrackDepth s0)))
    as (Hds & Hes & Htm & Hd & Hb & Hst & Ha & Hsh & Hts);
    [apply R | done | apply R | apply R | apply R |].
  set (s' := trackEffects s i) in *.
  destruct R as [[Hcons Hndd Hndm Hmv Hmi] Rvalid Ract Rsh Rdepth Rmax Rbit Rw Rn
                   Rdeps Rclean Rdone Rext Rold Rfm Rfd Rlen Rstack Rts Rattrs].
  set (bits := nbit (S (effectTrackDepth s0)) dep || wbit (S (effectTrackDepth s0)) dep) in *.
  assert (Hlook : forall j, dep_store s' !! j
                            = if decide (j = i) then Some (tracked_dep (S (effectTrackDepth s0)) e dep)
                              else dep_store s !! j).
  { intros j. rewrite Hds. destruct (decide (j = i)) as [->|Hne].
    - by apply list_lookup_insert_eq.
    - by apply list_lookup_insert_ne. }
  assert (Hlen : length (dep_store s') = length (dep_store s)).
  { rewrite Hds. apply length_insert. }
  assert (Hlk' : forall t' k', lookup_dep s' t' k' = lookup_dep s t' k').
  { intros. by apply lookup_dep_ext. }
  assert (Hbits : bits = true <-> i ∈ effect_deps s e).
  { unfold bits. rewrite orb_true_iff, (Rdeps i), (Rw i dep Hdep). split.
    - intros [Hn | Hw]; [right; eauto | by left].
    - intros [Hw | (dep' & Hd' & Hn)]; [by right | left; congruence]. }
  assert (Hde : effect_deps s' e
                = if bits then effect_deps s e else effect_deps s e ++ [i]).
  { destruct bits.
    - by apply effect_deps_ext.
    - by apply (effect_deps_alter_eq s s' e (λ ds, ds ++ [i])). }
  assert (Hdo : forall e', e' <> e -> effect_deps s' e' = effect_deps s e').
  { intros e' Hne. destruct bits.
    - by apply effect_deps_ext.
    - by eapply effect_deps_alter_other. }
  assert (Hmembers : forall e',
             e' ∈ members (tracked_dep (S (effectTrackDepth s0)) e dep)
             <-> e' ∈ members dep \/ (bits = false /\ e' = e)).
  { intros e'. unfold tracked_dep. simpl. fold bits. destruct bits.
    - split; [by left | by intros [? | [? _]]].
    - rewrite elem_of_Set_add. split; [intros [-> | ?]; eauto | intros [? | [_ ->]]; eauto]. }
  assert (Hmem : forall e' j,
             mem s' e' j
             <-> mem s e' j \/ (j = i /\ bits = false /\ e' = e)).
  { intros e' j. unfold mem. rewrite Hlook. destruct (decide (j = i)) as [->|Hne].
    - split.
      + intros (dep' & [= <-] & Hin). apply Hmembers in Hin as [Hin | [? ?]]; eauto.
      + intros [(dep' & Hd' & Hin) | (_ & Hbf & ->)].
        * eexists. split; [done|]. apply Hmembers. left. congruence.
        * eexists. split; [done|]. apply Hmembers. by right.
    - split; [by left|]. by intros [? | [? _]]. }
  split.
  - (* core *)
    split.
    + intros e' j. rewrite Hmem. destruct (decide (e' = e)) as [->|Hne].
      * rewrite Hde. destruct bits eqn:Hbv.
        -- rewrite Hcons. split; [by left|]. by intros [? | (_ & ? & _)].
        -- rewrite elem_of_app, list_elem_of_singleton, Hcons. split.
           ++ intros [? | ->]; [by left | by right].
           ++ intros [? | (-> & _)]; [by left | by right].
      * rewrite Hdo by done. rewrite Hcons. split; [by left|].
        by intros [? | (_ & _ & ?)].
    + intros e'. destruct (decide (e' = e)) as [->|Hne].
      * rewrite Hde. destruct bits eqn:Hbv; [apply Hndd|].
        apply NoDup_app. split; [apply Hndd|]. split; [|apply NoDup_singleton].
        intros x Hx ->%list_elem_of_singleton.
        apply Hbits in Hx. done.
      * rewrite Hdo by done. apply Hndd.
    + intros j dep'. rewrite Hlook. destruct (decide (j = i)) as [->|Hne].
      * intros [= <-]. unfold tracked_dep. simpl.
        destruct (nbit (S (effectTrackDepth s0)) dep || wbit (S (effectTrackDepth s0)) dep); [by eapply Hndm|].
        apply NoDup_Set_add. by eapply Hndm.
      * apply Hndm.
    + intros t' k' j. rewrite Hlk', Hlen. apply Hmv.
    + intros t1 k1 t2 k2 j. rewrite !Hlk'. apply Hmi.
  - rewrite Hes. destruct bits; [done|].
    destruct Rvalid as [eff Heff]. rewrite list_lookup_alter_eq, Heff. eauto.
  - done.
  - by rewrite Hsh.
  - done.
  - done.
  - done.
  - intros j dep'. rewrite Hlook. destruct (decide (j = i)) as [->|Hne].
    + intros [= <-]. rewrite wbit_tracked_dep. by apply Rw.
    + apply Rw.
  - intros j dep'. rewrite Hlook. destruct (decide (j = i)) as [->|Hne].
    + intros [= <-]. rewrite nbit_tracked_dep, bool_decide_eq_true_2 by done.
      rewrite orb_true_r. split; [|done]. intros _.
      exists t, k. rewrite Hlk'. split; [|done].
      apply elem_of_app. right. by apply list_elem_of_singleton.
    + intros Hd'. rewrite (Rn j dep' Hd'). split.
      * intros (t' & k' & Hin & Hl'). exists t', k'. rewrite Hlk'.
        split; [|done]. apply elem_of_app. by left.
      * intros (t' & k' & Hin & Hl'). rewrite Hlk' in Hl'.
        apply elem_of_app in Hin as [Hin | Hin]; [eauto|].
        apply list_elem_of_singleton in Hin. injection Hin as -> ->. congruence.
  - intros j. destruct (decide (j = i)) as [->|Hne].
    + split.
      * intros _. right. exists (tracked_dep (S (effectTrackDepth s0)) e dep). rewrite Hlook.
        rewrite decide_True by done. split; [done|].
        rewrite nbit_tracked_dep, bool_decide_eq_true_2 by done. apply orb_true_r.
      * intros _. rewrite Hde. destruct bits eqn:Hbv.
        -- by apply Hbits.
        -- apply elem_of_app. right. by apply list_elem_of_singleton.
    + assert (Hj : j ∈ effect_deps s' e <-> j ∈ effect_deps s e).
      { rewrite Hde. destruct bits; [done|].
        rewrite elem_of_app, list_elem_of_singleton. tauto. }
      rewrite Hj, Rdeps, Hlook. by rewrite decide_False by done.
  - intros j dep' k'. rewrite Hlook. destruct (decide (j = i)) as [->|Hne].
    + intros [= <-] Hk'. rewrite wbit_tracked_dep, nbit_tracked_dep.
      destruct (Rclean i dep k' Hdep Hk') as [-> ->]. split; [done|].
      simpl. apply bool_decide_eq_false_2. lia.
    + apply Rclean.
  - intros t' k' Hin. rewrite Hlk'.
    apply elem_of_app in Hin as [Hin | Hin]; [by apply Rdone|].
    apply list_elem_of_singleton in Hin. injection Hin as -> ->. eauto.
  - intros t' k' j. rewrite Hlk'. apply Rext.
  - intros t' k' j. rewrite Hlk'. apply Rold.
  - intros e' j Hne. rewrite Hmem, <- (Rfm e' j Hne). split; [|by left].
    by intros [? | (_ & _ & ?)].
  - intros e' Hne. rewrite Hdo by done. by apply Rfd.
  - lia.
  - by rewrite Hst.
  - by rewrite Hts.
  - intros e'. rewrite <- Rattrs. destruct bits.
    + by apply effect_attrs_ext.
    + by eapply (effect_attrs_alter_deps s s' e (λ eff, deps eff ++ [i])).
Qed.

(** The state in which [track] has created the [Dep] of a new key. *)
Definition with_new_dep (s : state) (t : addr) (k : key) : state :=
  with_targetMap
    (with_dep_store s (dep_store s ++ [createDep []]))
    (<[t := default [] (targetMap s !! t) ++ [(k, length (dep_store s))]]>
       (targetMap s)).

Lemma Map_get_default_lookup s t k :
  Map_get (default [] (targetMap s !! t)) k = lookup_dep s t k.
Proof. unfold lookup_dep. by destruct (targetMap s !! t). Qed.

Lemma lookup_dep_with_new_dep s t k t' k' :
  lookup_dep s t k = None ->
  lookup_dep (with_new_dep s t k) t' k'
  = if decide (t' = t /\ k' = k) then Some (length (dep_store s))
    else lookup_dep s t' k'.
Proof.
  intros Hnone. unfold with_new_dep, lookup_dep at 1. simpl.
  destruct (decide (t' = t)) as [->|Hne].
  - rewrite lookup_insert_eq, Map_get_app, Map_get_default_lookup.
    destruct (decide (k' = k)) as [->|Hnek].
    + rewrite Hnone, bool_decide_eq_true_2 by done.
      by rewrite decide_True.
    + rewrite bool_decide_eq_false_2 by done.
      rewrite decide_False by tauto. by destruct (lookup_dep s t k').
  - rewrite lookup_insert_ne by done.
    rewrite decide_False by tauto. reflexivity.
Qed.

Lemma track_unfold s t k :
  isTracking s = true ->
  track s t k
  = match lookup_dep s t k with
    | Some i => trackEffects s i
    | None => trackEffects (with_new_dep s t k) (length (dep_store s))
    end.
Proof.
  intros Htr. unfold track. rewrite Htr. simpl.
  rewrite Map_get_default_lookup. by destruct (lookup_dep s t k).
Qed.

Lemma wbit_createDep k : wbit k (createDep []) = false.
Proof. unfold wbit. simpl. apply Z.bits_0. Qed.

Lemma nbit_createDep k : nbit k (createDep []) = false.
Proof. unfold nbit. simpl. apply Z.bits_0. Qed.

(** Creating the [Dep] of a key that had none keeps [running]. *)
Lemma with_new_dep_running s0 e done s t k :
  running s0 e done s ->
  lookup_dep s t k = None ->
  running s0 e done (with_new_dep s t k)
  /\ lookup_dep (with_new_dep s t k) t k = Some (length (dep_store s)).
Proof.
  intros R Hnone.
  split; [|by rewrite lookup_dep_with_new_dep, decide_True by done].
  destruct R as [[Hcons Hndd Hndm Hmv Hmi] Rvalid Ract Rsh Rdepth Rmax Rbit Rw Rn
                   Rdeps Rclean Rdone Rext Rold Rfm Rfd Rlen Rstack Rts Rattrs].
  set (s' := with_new_dep s t k).
  set (len := length (dep_store s)).
  assert (Hlook : forall j, dep_store s' !! j
                            = if decide (j = len) then Some (createDep [])
                              else dep_store s !! j).
  { intros j. unfold s', with_new_dep. simpl.
    destruct (decide (j = len)) as [->|Hne].
    - by apply list_lookup_middle.
    - destruct (decide (j < len)%nat).
      + by rewrite lookup_app_l.
      + rewrite !lookup_ge_None_2; [done | unfold len in *; lia |].
        rewrite length_app. simpl. unfold len in *. lia. }
  assert (Hlk' : forall t' k', lookup_dep s' t' k'
                               = if decide (t' = t /\ k' = k) then Some len
                                 else lookup_dep s t' k').
  { intros. by apply lookup_dep_with_new_dep. }
  assert (Hde : forall e', effect_deps s' e' = effect_deps s e') by done.
  assert (Hmem : forall e' j, mem s' e' j <-> mem s e' j).
  { intros e' j. unfold mem. rewrite Hlook.
    destruct (decide (j = len)) as [->|Hne]; [|done]. split.
    - intros (dep & [= <-] & Hin). by apply elem_of_nil in Hin.
    - intros (dep & Hd & _). apply lookup_lt_Some in Hd. unfold len in Hd. lia. }
  assert (Hfresh_deps : forall e', len ∉ effect_deps s e').
  { intros e' Hin. apply Hcons in Hin as (dep & Hd & _).
    apply lookup_lt_Some in Hd. unfold len in Hd. lia. }
  assert (Hfresh0 : len ∉ effect_deps s0 e).
  { intros Hin. apply (Hfresh_deps e). apply Rdeps. by left. }
  assert (Hdone_ne : forall t' k', (t', k') ∈ done -> ~ (t' = t /\ k' = k)).
  { intros t' k' Hin [-> ->]. destruct (Rdone t k Hin) as [j Hj]. congruence. }
  split.
  - split.
    + intros e' j. rewrite Hde, Hmem. apply Hcons.
    + exact Hndd.
    + intros j dep. rewrite Hlook. destruct (decide (j = len)) as [->|Hne].
      * intros [= <-]. constructor.
      * apply Hndm.
    + intros t' k' j. rewrite Hlk'. unfold s', with_new_dep. simpl.
      rewrite length_app. simpl. fold len.
      destruct (decide (t' = t /\ k' = k)).
      * intros [= <-]. lia.
      * intros Hj. apply Hmv in Hj. fold len in Hj. lia.
    + intros t1 k1 t2 k2 j. rewrite !Hlk'.
      destruct (decide (t1 = t /\ k1 = k)) as [[-> ->]|H1];
        destruct (decide (t2 = t /\ k2 = k)) as [[-> ->]|H2].
      * done.
      * intros [= <-] Hj. apply Hmv in Hj. fold len in Hj. lia.
      * intros Hj [= <-]. apply Hmv in Hj. fold len in Hj. lia.
      * apply Hmi.
  - exact Rvalid.
  - exact Ract.
  - exact Rsh.
  - exact Rdepth.
  - exact Rmax.
  - exact Rbit.
  - intros j dep. rewrite Hlook. destruct (decide (j = len)) as [->|Hne].
    + intros [= <-]. rewrite wbit_createDep. split; [done | by intros ?].
    + apply Rw.
  - intros j dep. rewrite Hlook. destruct (decide (j = len)) as [->|Hne].
    + intros [= <-]. rewrite nbit_createDep. split; [done|].
      intros (t' & k' & Hin & Hj). rewrite Hlk' in Hj.
      rewrite decide_False in Hj by by apply Hdone_ne.
      apply Hmv in Hj. fold len in Hj. lia.
    + intros Hd. rewrite (Rn j dep Hd). split.
      * intros (t' & k' & Hin & Hj). exists t', k'. split; [done|].
        rewrite Hlk'. by rewrite decide_False by by apply Hdone_ne.
      * intros (t' & k' & Hin & Hj). exists t', k'. split; [done|].
        rewrite Hlk' in Hj. by rewrite decide_False in Hj by by apply Hdone_ne.
  - intros j. rewrite Hde, Rdeps, Hlook.
    destruct (decide (j = len)) as [->|Hne]; [|done].
    split.
    + intros [? | (dep & Hd & _)]; [done|].
      apply lookup_lt_Some in Hd. unfold len in Hd. lia.
    + intros [? | (dep & [= <-] & Hn)]; [done|].
      by rewrite nbit_createDep in Hn.
  - intros j dep k'. rewrite Hlook. destruct (decide (j = len)) as [->|Hne].
    + intros [= <-] _. by rewrite wbit_createDep, nbit_createDep.
    + apply Rclean.
  - intros t' k' Hin. rewrite Hlk'.
    rewrite decide_False by by apply Hdone_ne. by apply Rdone.
  - intros t' k' j Hj. apply Rext in Hj. rewrite Hlk'.
    rewrite decide_False; [done|]. intros [-> ->]. congruence.
  - intros t' k' j. rewrite Hlk'.
    destruct (decide (t' = t /\ k' = k)).
    + intros [= <-] Hlt. unfold len in Hlt. lia.
    + apply Rold.
  - intros e' j Hne. rewrite Hmem. by apply Rfm.
  - exact Rfd.
  - unfold s', with_new_dep. simpl. rewrite length_app. lia.
  - exact Rstack.
  - exact Rts.
  - exact Rattrs.
Qed.

(** One read keeps [running]. *)
Lemma track_running s0 e done s t k :
  running s0 e done s ->
  running s0 e (done ++ [(t, k)]) (track s t k).
Proof.
  intros R. rewrite track_unfold.
  - destruct (lookup_dep s t k) as [i|] eqn:Hlk.
    + by eapply trackEffects_running.
    + destruct (with_new_dep_running s0 e done s t k R Hlk) as [R' Hlk'].
      by eapply trackEffects_running.
  - unfold isTracking. rewrite (run_shouldTrack _ _ _ _ R), (run_active _ _ _ _ R).
    reflexivity.
Qed.

(** The whole function keeps [running]. *)
Lemma run_fn_running s0 e done s fn :
  running s0 e done s ->
  running s0 e (done ++ fn) (run_fn s fn).
Proof.
  revert done s. induction fn as [|[t k] fn IH]; intros done s R; simpl.
  - by rewrite app_nil_r.
  - replace (done ++ (t, k) :: fn) with ((done ++ [(t, k)]) ++ fn)
      by by rewrite <- app_assoc.
    apply IH. by apply track_running.
Qed.

(** While [e] runs it is subscribed to every key it has read so far. *)
Lemma running_subscribed s0 e done s t k :
  running s0 e done s -> (t, k) ∈ done -> subscribed s e t k.
Proof.
  intros R Hin. destruct (run_done _ _ _ _ R t k Hin) as [i Hi].
  exists i. split; [done|].
  apply (core_consistent _ (run_core _ _ _ _ R)).
  destruct (lookup_lt_is_Some_2 (dep_store s) i) as [dep Hdep].
  { by eapply (core_map_valid _ (run_core _ _ _ _ R)). }
  apply (run_deps _ _ _ _ R). right. exists dep. split; [done|].
  apply (run_nbit _ _ _ _ R i dep Hdep). eauto.
Qed.

(** What [finalizeDepMarkers] does to one [Dep] of the effect. *)
Definition finalized_dep (e : eid) (bit : Z) (dep : Dep) : Dep :=
  let drop := wasTracked bit dep && negb (newTracked bit dep) in
  let dep1 := if drop then set_members dep (Set_delete e (members dep)) else dep in
  let dep2 := set_w dep1 (Z.land (w dep1) (Z.lnot bit)) in
  set_n dep2 (Z.land (n dep2) (Z.lnot bit)).

Lemma finalize_loop_cons e bit i rest store :
  finalize_loop e bit (i :: rest) store
  = match store !! i with
    | Some dep =>
        let '(kept, store') :=
          finalize_loop e bit rest (<[i := finalized_dep e bit dep]> store) in
        (if wasTracked bit dep && negb (newTracked bit dep) then kept else i :: kept,
         store')
    | None => finalize_loop e bit rest store
    end.
Proof. reflexivity. Qed.

Lemma finalize_loop_spec e bit ds store kept store' :
  NoDup ds ->
  finalize_loop e bit ds store = (kept, store') ->
  length store' = length store
  /\ (forall j, store' !! j
                = if decide (j ∈ ds) then finalized_dep e bit <$> store !! j
                  else store !! j)
  /\ (forall j, j ∈ kept
                <-> j ∈ ds
                    /\ exists dep, store !! j = Some dep
                       /\ wasTracked bit dep && negb (newTracked bit dep) = false)
  /\ NoDup kept.
Proof.
  revert store kept store'.
  induction ds as [|i rest IH]; intros store kept store' Hnd Hrun.
  - injection Hrun as <- <-. split; [done|]. split; [|split].
    + intros j. rewrite decide_False; [done|]. by intros ?%elem_of_nil.
    + intros j. split; [by intros ?%elem_of_nil|]. by intros [?%elem_of_nil _].
    + constructor.
  - apply NoDup_cons in Hnd as [Hni Hnd]. rewrite finalize_loop_cons in Hrun.
    destruct (store !! i) as [dep|] eqn:Hi.
    + destruct (finalize_loop e bit rest (<[i:=finalized_dep e bit dep]> store))
        as [kept0 store0] eqn:Hrest.
      destruct (IH _ _ _ Hnd Hrest) as (Hlen & Hlook & Hkept & Hndk).
      rewrite length_insert in Hlen.
      assert (Hstore : forall j, store0 !! j
                = if decide (j ∈ i :: rest) then finalized_dep e bit <$> store !! j
                  else store !! j).
      { intros j. rewrite Hlook. destruct (decide (j = i)) as [->|Hne].
        - rewrite decide_False by done. rewrite decide_True by by left.
          rewrite Hi. simpl. apply list_lookup_insert_eq. by eapply lookup_lt_Some.
        - rewrite list_lookup_insert_ne by done.
          destruct (decide (j ∈ rest)).
          + by rewrite decide_True by by right.
          + rewrite decide_False; [done|]. by intros [?|?]%elem_of_cons. }
      assert (Hk0 : forall j, j ∈ kept0
                <-> j ∈ rest
                    /\ exists dep', store !! j = Some dep'
                       /\ wasTracked bit dep' && negb (newTracked bit dep') = false).
      { intros j. rewrite Hkept. split.
        - intros [Hin (dep' & Hd & Hdrop)]. split; [done|].
          rewrite list_lookup_insert_ne in Hd by by intros <-. eauto.
        - intros [Hin (dep' & Hd & Hdrop)]. split; [done|].
          rewrite list_lookup_insert_ne by by intros <-. eauto. }
      destruct (wasTracked bit dep && negb (newTracked bit dep)) eqn:Hdrop;
        cbn beta iota zeta in Hrun; injection Hrun as <- <-.
      * split; [done|]. split; [done|]. split; [|done].
        intros j. rewrite Hk0. split.
        -- intros [Hin Hd]. split; [by right | done].
        -- intros [[->|Hin]%elem_of_cons (dep' & Hd & Hdrop')]; [|eauto].
           congruence.
      * split; [done|]. split; [done|]. split.
        -- intros j. rewrite elem_of_cons, Hk0. split.
           ++ intros [->|[Hin Hd]].
              ** split; [by left | eauto].
              ** split; [by right | done].
           ++ intros [[->|Hin]%elem_of_cons Hd]; [by left | by right].
        -- apply NoDup_cons. split; [|done]. rewrite Hk0. tauto.
    + destruct (IH _ _ _ Hnd Hrun) as (Hlen & Hlook & Hkept & Hndk).
      split; [done|]. split; [|split; [|done]].
      * intros j. rewrite Hlook. destruct (decide (j = i)) as [->|Hne].
        -- rewrite decide_False by done. rewrite decide_True by by left.
           by rewrite Hi.
        -- destruct (decide (j ∈ rest)).
           ++ by rewrite decide_True by by right.
           ++ rewrite decide_False; [done|]. by intros [?|?]%elem_of_cons.
      * intros j. rewrite Hkept. split.
        -- intros [Hin Hd]. split; [by right | done].
        -- intros [[->|Hin]%elem_of_cons (dep' & Hd & Hdrop')]; [congruence | eauto].
Qed.

Lemma finalized_dep_members e l dep e' :
  e' ∈ members (finalized_dep e (2 ^ Z.of_nat l) dep)
  <-> e' ∈ members dep /\ (e' = e -> wbit l dep && negb (nbit l dep) = false).
Proof.
  unfold finalized_dep. rewrite wasTracked_wbit, newTracked_nbit.
  destruct (wbit l dep && negb (nbit l dep)); simpl.
  - rewrite elem_of_Set_delete. split.
    + intros [Hne Hin]. split; [done|]. by intros ->.
    + intros [Hin Hne]. split; [|done]. intros Heq. by specialize (Hne Heq).
  - tauto.
Qed.

Lemma finalized_dep_nodup e bit dep :
  NoDup (members dep) -> NoDup (members (finalized_dep e bit dep)).
Proof.
  intros Hnd. unfold finalized_dep.
  destruct (wasTracked bit dep && negb (newTracked bit dep)); simpl; [|done].
  by apply NoDup_Set_delete.
Qed.

Lemma finalized_dep_wbit e l dep k :
  wbit k (finalized_dep e (2 ^ Z.of_nat l) dep)
  = wbit k dep && negb (bool_decide (l = k)).
Proof.
  unfold finalized_dep, wbit.
  destruct (wasTracked _ dep && negb (newTracked _ dep)); simpl;
    apply testbit_land_lnot_pow2.
Qed.

Lemma finalized_dep_nbit e l dep k :
  nbit k (finalized_dep e (2 ^ Z.of_nat l) dep)
  = nbit k dep && negb (bool_decide (l = k)).
Proof.
  unfold finalized_dep, nbit.
  destruct (wasTracked _ dep && negb (newTracked _ dep)); simpl;
    apply testbit_land_lnot_pow2.
Qed.

(** *** Leaving the run *)

(** What a completed run of [e] with the reads [fn] leaves behind. *)
Record ran (s0 : state) (e : eid) (fn : body) (s' : state) : Prop := {
  ran_inv : inv s';
  ran_subscribed : forall t k, subscribed s' e t k <-> (t, k) ∈ fn;
  ran_frame : forall e' t k,
    e' <> e -> (subscribed s' e' t k <-> subscribed s0 e' t k);
  ran_frame_mem : forall e' i, e' <> e -> (mem s' e' i <-> mem s0 e' i);
  ran_depth : effectTrackDepth s' = effectTrackDepth s0;
  ran_stack : effectStack s' = effectStack s0;
  ran_attrs : forall e', effect_attrs s' e' = effect_attrs s0 e'
}.

Lemma run_leave_fields s e kept store' :
  (effectTrackDepth s <= maxMarkerBits)%nat ->
  finalize_loop e (trackOpBit s) (effect_deps s e) (dep_store s) = (kept, store') ->
  dep_store (run_leave s e) = store'
  /\ effect_store (run_leave s e)
     = alter (λ eff, set_deps eff kept) e (effect_store s)
  /\ targetMap (run_leave s e) = targetMap s
  /\ effectTrackDepth (run_leave s e) = pred (effectTrackDepth s)
  /\ effectStack (run_leave s e) = removelast (effectStack s)
  /\ activeEffect (run_leave s e) = last (removelast (effectStack s)).
Proof.
  intros Hmax Hfin. unfold run_leave.
  rewrite (proj2 (Nat.leb_le _ _) Hmax).
  unfold finalizeDepMarkers. rewrite Hfin.
  unfold resetTracking. simpl.
  by destruct (last (trackStack s)).
Qed.

Lemma run_leave_ran s0 e done s :
  running s0 e done s -> ran s0 e done (run_leave s e).
Proof.
  intros R.
  destruct (finalize_loop e (trackOpBit s) (effect_deps s e) (dep_store s))
    as [kept store'] eqn:Hfin.
  destruct R as [[Hcons Hndd Hndm Hmv Hmi] Rvalid Ract Rsh Rdepth Rmax Rbit Rw Rn
                   Rdeps Rclean Rdone Rext Rold Rfm Rfd Rlen Rstack Rts Rattrs].
  assert (Hmax : (effectTrackDepth s <= maxMarkerBits)%nat) by by rewrite Rdepth.
  pose proof (run_leave_fields s e kept store' Hmax Hfin) as F.
  remember (run_leave s e) as s' eqn:Hs'. clear Hs'.
  destruct F as (Hds & Hes & Htm & Hd & Hst & Hae).
  rewrite Rbit in Hfin.
  destruct (finalize_loop_spec _ _ _ _ _ _ (Hndd e) Hfin)
    as (Hlen & Hlook & Hkept & Hndk).
  rewrite <- Hds in Hlen, Hlook. clear Hds Hfin.
  assert (Hlk : forall t k, lookup_dep s' t k = lookup_dep s t k).
  { intros. by apply lookup_dep_ext. }
  assert (Hkept' : forall j, j ∈ kept
            <-> exists dep, dep_store s !! j = Some dep
                            /\ nbit (S (effectTrackDepth s0)) dep = true).
  { intros j. rewrite Hkept. split.
    - intros (Hin & dep & Hdep & Hdrop). exists dep. split; [done|].
      rewrite wasTracked_wbit, newTracked_nbit in Hdrop.
      apply Rdeps in Hin as [Hin | (dep' & Hdep' & Hn)]; [|congruence].
      apply (Rw j dep Hdep) in Hin. rewrite Hin in Hdrop.
      by destruct (nbit _ dep).
    - intros (dep & Hdep & Hn). split.
      + apply Rdeps. right. eauto.
      + exists dep. split; [done|].
        rewrite wasTracked_wbit, newTracked_nbit, Hn. apply andb_false_r. }
  assert (Hdeps_e : effect_deps s' e = kept).
  { by apply (effect_deps_alter_eq s s' e (λ _, kept)). }
  assert (Hdeps_o : forall e', e' <> e -> effect_deps s' e' = effect_deps s e').
  { intros e' Hne. by eapply effect_deps_alter_other. }
  assert (Hmem_e : forall j, mem s' e j <-> j ∈ kept).
  { intros j. unfold mem. rewrite Hlook, Hkept.
    destruct (decide (j ∈ effect_deps s e)) as [Hin|Hnin].
    - split.
      + intros (dep' & Hdep' & He). split; [done|].
        destruct (dep_store s !! j) as [dep|]; [|done].
        injection Hdep' as <-. exists dep. split; [done|].
        apply finalized_dep_members in He as [_ He].
        rewrite wasTracked_wbit, newTracked_nbit. by apply He.
      + intros (_ & dep & Hdep & Hdrop). rewrite Hdep. simpl.
        exists (finalized_dep e (2 ^ Z.of_nat (S (effectTrackDepth s0))) dep).
        split; [done|]. apply finalized_dep_members.
        rewrite wasTracked_wbit, newTracked_nbit in Hdrop. split; [|done].
        apply Hcons in Hin as (dep' & Hdep' & He). congruence.
    - split; [|tauto]. intros Hm. by apply Hcons in Hm. }
  assert (Hmem_o : forall e' j, e' <> e -> (mem s' e' j <-> mem s e' j)).
  { intros e' j Hne. unfold mem. rewrite Hlook.
    destruct (decide (j ∈ effect_deps s e)) as [Hin|Hnin]; [|done].
    destruct (dep_store s !! j) as [dep|]; simpl.
    - split.
      + intros (dep' & [= <-] & He). exists dep. split; [done|].
        by apply finalized_dep_members in He as [He _].
      + intros (dep' & [= <-] & He). eexists. split; [done|].
        apply finalized_dep_members. split; [done|]. by intros ->.
    - split; by intros (dep' & ? & _). }
  assert (Hdepth' : effectTrackDepth s' = effectTrackDepth s0).
  { by rewrite Hd, Rdepth. }
  assert (Hstack' : effectStack s' = effectStack s0).
  { by rewrite Hst, Rstack, removelast_last. }
  split.
  - split; [split|..].
    + intros e' j. destruct (decide (e' = e)) as [->|Hne].
      * by rewrite Hdeps_e, Hmem_e.
      * rewrite Hdeps_o, Hmem_o by done. apply Hcons.
    + intros e'. destruct (decide (e' = e)) as [->|Hne].
      * by rewrite Hdeps_e.
      * rewrite Hdeps_o by done. apply Hndd.
    + intros j dep'. rewrite Hlook.
      destruct (decide (j ∈ effect_deps s e)) as [Hin|Hnin]; [|apply Hndm].
      destruct (dep_store s !! j) as [dep|] eqn:Hdep; [|done].
      intros [= <-]. apply finalized_dep_nodup. by eapply Hndm.
    + intros t k i. rewrite Hlk, Hlen. apply Hmv.
    + intros t k t' k' i. rewrite !Hlk. apply Hmi.
    + intros j dep' k. rewrite Hdepth', Hlook. intros Hdep' Hk.
      destruct (decide (j ∈ effect_deps s e)) as [Hin|Hnin].
      * destruct (dep_store s !! j) as [dep|] eqn:Hdep; [|done].
        injection Hdep' as <-.
        rewrite finalized_dep_wbit, finalized_dep_nbit.
        destruct (decide (S (effectTrackDepth s0) = k)) as [<-|Hne].
        -- rewrite bool_decide_eq_true_2 by done. by rewrite !andb_false_r.
        -- destruct (Rclean j dep k Hdep) as [-> ->]; [lia | done].
      * destruct (decide (S (effectTrackDepth s0) = k)) as [<-|Hne].
        -- split.
           ++ destruct (wbit _ dep') eqn:Hw; [|done]. exfalso. apply Hnin.
              apply Rdeps. left. by apply (Rw j dep').
           ++ destruct (nbit _ dep') eqn:Hn; [|done]. exfalso. apply Hnin.
              apply Rdeps. right. eauto.
        -- apply (Rclean j dep' k Hdep'). lia.
    + by rewrite Hae, Hst.
  - intros t k. unfold subscribed. split.
    + intros (i & Hi & Hm). rewrite Hlk in Hi.
      apply Hmem_e, Hkept' in Hm as (dep & Hdep & Hn).
      apply (Rn i dep Hdep) in Hn as (t' & k' & Hin & Hi').
      by destruct (Hmi _ _ _ _ _ Hi Hi') as [-> ->].
    + intros Hin. destruct (Rdone t k Hin) as [i Hi]. exists i.
      rewrite Hlk. split; [done|]. apply Hmem_e, Hkept'.
      destruct (lookup_lt_is_Some_2 (dep_store s) i) as [dep Hdep];
        [by eapply Hmv|].
      exists dep. split; [done|]. apply (Rn i dep Hdep). eauto.
  - intros e' t k Hne. unfold subscribed. split.
    + intros (i & Hi & Hm). rewrite Hlk in Hi.
      apply Hmem_o, Rfm in Hm; [|done..]. exists i. split; [|done].
      apply Rold; [done|]. destruct Hm as (dep & Hdep & _).
      by eapply lookup_lt_Some.
    + intros (i & Hi & Hm). exists i. rewrite Hlk. split; [by apply Rext|].
      apply Hmem_o; [done|]. by apply Rfm.
  - intros e' j Hne. rewrite Hmem_o by done. by apply Rfm.
  - done.
  - done.
  - intros e'. rewrite <- Rattrs.
    by apply (effect_attrs_alter_deps s s' e (λ _, kept)).
Qed.

(** *** Above [maxMarkerBits]: the run with [cleanupEffect] *)

(** [running_c s0 e done s]: effect [e] was entered from [s0] at a depth
    above [maxMarkerBits], where [run] empties its [Dep]s first and uses
    no marker bits, and its function has so far performed the reads
    [done]. The effect is in exactly the [Dep]s of these reads. *)
Record running_c (s0 : state) (e : eid) (done : list (addr * key)) (s : state)
  : Prop := {
  rc_core : core s;
  rc_valid : is_Some (effect_store s !! e);
  rc_active : activeEffect s = Some e;
  rc_shouldTrack : shouldTrack s = true;
  rc_depth : effectTrackDepth s = S (effectTrackDepth s0);
  rc_max : (maxMarkerBits < S (effectTrackDepth s0))%nat;
  rc_mem : forall i,
    mem s e i <-> exists t k, (t, k) ∈ done /\ lookup_dep s t k = Some i;
  rc_clean : forall i dep k,
    dep_store s !! i = Some dep -> (effectTrackDepth s0 < k)%nat ->
    wbit k dep = false /\ nbit k dep = false;
  rc_done : forall t k, (t, k) ∈ done -> is_Some (lookup_dep s t k);
  rc_map_ext : forall t k i,
    lookup_dep s0 t k = Some i -> lookup_dep s t k = Some i;
  rc_map_old : forall t k i,
    lookup_dep s t k = Some i -> (i < length (dep_store s0))%nat ->
    lookup_dep s0 t k = Some i;
  rc_frame_mem : forall e' i, e' <> e -> (mem s e' i <-> mem s0 e' i);
  rc_frame_deps : forall e', e' <> e -> effect_deps s e' = effect_deps s0 e';
  rc_store_len : (length (dep_store s0) <= length (dep_store s))%nat;
  rc_stack : effectStack s = effectStack s0 ++ [e];
  rc_trackStack : trackStack s = trackStack s0 ++ [shouldTrack s0];
  rc_attrs : forall e', effect_attrs s e' = effect_attrs s0 e'
}.

Lemma run_enter_fields_c (s : state) (e : eid) :
  (maxMarkerBits < S (effectTrackDepth s))%nat ->
  dep_store (run_enter s e)
  = foldl (λ st j, alter (λ dep, set_members dep (Set_delete e (members dep))) j st)
          (dep_store s) (effect_deps s e)
  /\ effect_store (run_enter s e)
     = alter (λ eff, set_deps eff []) e (effect_store s)
  /\ targetMap (run_enter s e) = targetMap s
  /\ effectTrackDepth (run_enter s e) = S (effectTrackDepth s)
  /\ effectStack (run_enter s e) = effectStack s ++ [e]
  /\ activeEffect (run_enter s e) = Some e
  /\ shouldTrack (run_enter s e) = true
  /\ trackStack (run_enter s e) = trackStack s ++ [shouldTrack s].
Proof.
  intros Hmax. unfold run_enter.
  cbn [effectTrackDepth enableTracking with_tracking with_stack].
  rewrite (proj2 (Nat.leb_gt _ _) Hmax).
  unfold cleanupEffect. repeat split; reflexivity.
Qed.

(** Entering an effect above [maxMarkerBits] takes it out of all its
    [Dep]s. *)
Lemma run_enter_running_c (s : state) (e : eid) :
  inv s ->
  is_Some (effect_store s !! e) ->
  (maxMarkerBits < S (effectTrackDepth s))%nat ->
  running_c s e [] (run_enter s e).
Proof.
  intros [Hcore Hclean Hact] Hvalid Hmax.
  destruct Hcore as [Hcons Hndd Hndm Hmv Hmi].
  destruct (run_enter_fields_c s e Hmax)
    as (Hds & Hes & Htm & Hd & Hst & Ha & Hsh & Hts).
  remember (run_enter s e) as s' eqn:Hs'. clear Hs'.
  set (f := λ dep : Dep, set_members dep (Set_delete e (members dep))) in *.
  assert (Hlook : forall i,
             dep_store s' !! i
             = (if bool_decide (i ∈ effect_deps s e) then f else id)
                 <$> dep_store s !! i).
  { intros i. rewrite Hds. by apply foldl_alter_lookup. }
  assert (Hlen : length (dep_store s') = length (dep_store s)).
  { rewrite Hds. apply foldl_alter_length. }
  assert (Hmem_e : forall i, ~ mem s' e i).
  { intros i (dep' & Hdep' & He). rewrite Hlook in Hdep'.
    destruct (dep_store s !! i) as [dep|] eqn:Hdep; simpl in Hdep'; [|done].
    injection Hdep' as <-. case_bool_decide as Hin.
    - unfold f in He. simpl in He. apply elem_of_Set_delete in He as [? _]. done.
    - apply Hin, Hcons. by exists dep. }
  assert (Hmem_o : forall e' i, e' <> e -> (mem s' e' i <-> mem s e' i)).
  { intros e' i Hne. unfold mem. rewrite Hlook.
    destruct (dep_store s !! i) as [dep|]; simpl.
    - split.
      + intros (dep' & [= <-] & He'). exists dep. split; [done|].
        destruct (bool_decide _); [|done].
        unfold f in He'. simpl in He'. by apply elem_of_Set_delete in He' as [_ ?].
      + intros (dep' & [= <-] & He'). eexists. split; [done|].
        destruct (bool_decide _); [|done].
        unfold f. simpl. by apply elem_of_Set_delete.
    - split; by intros (dep' & Hd' & _). }
  assert (Hdeps_e : effect_deps s' e = []).
  { by apply (effect_deps_alter_eq s s' e (λ _, [])). }
  assert (Hdeps_o : forall e', e' <> e -> effect_deps s' e' = effect_deps s e').
  { intros e' Hne. by eapply effect_deps_alter_other. }
  split; try done.
  - split.
    + intros e' i. destruct (decide (e' = e)) as [->|Hne].
      * rewrite Hdeps_e. split; [by intros ?%elem_of_nil | by intros ?%Hmem_e].
      * rewrite Hdeps_o, Hmem_o by done. apply Hcons.
    + intros e'. destruct (decide (e' = e)) as [->|Hne].
      * rewrite Hdeps_e. constructor.
      * rewrite Hdeps_o by done. apply Hndd.
    + intros i dep. rewrite Hlook.
      destruct (dep_store s !! i) as [dep0|] eqn:Hd0; simpl; [|done].
      intros [= <-]. destruct (bool_decide _); simpl.
      * apply NoDup_Set_delete. by eapply Hndm.
      * by eapply Hndm.
    + intros t k i. rewrite (lookup_dep_ext s s') by done. rewrite Hlen.
      apply Hmv.
    + intros t k t' k' i. rewrite !(lookup_dep_ext s s') by done. apply Hmi.
  - rewrite Hes. destruct Hvalid as [eff Heff].
    rewrite list_lookup_alter_eq, Heff. by eexists.
  - intros i. split; [by intros ?%Hmem_e|].
    intros (t & k & Hin & _). by apply elem_of_nil in Hin.
  - intros i dep k. rewrite Hlook.
    destruct (dep_store s !! i) as [dep0|] eqn:Hd0; simpl; [|done].
    intros [= <-] Hk.
    destruct (Hclean i dep0 k Hd0) as [Hw Hn]; [lia|].
    by destruct (bool_decide _).
  - intros t k Hin. by apply elem_of_nil in Hin.
  - intros t k i. by rewrite (lookup_dep_ext s s') by done.
  - intros t k i. by rewrite (lookup_dep_ext s s') by done.
  - by rewrite Hlen.
  - intros e'. by apply (effect_attrs_alter_deps s s' e (λ _, [])).
Qed.

Lemma trackEffects_cleanup_fields (s : state) (e : eid) (i : depid) (dep : Dep) :
  activeEffect s = Some e ->
  dep_store s !! i = Some dep ->
  (maxMarkerBits < effectTrackDepth s)%nat ->
  dep_store (trackEffects s i)
  = <[i := set_members dep (Set_add e (members dep))]> (dep_store s)
  /\ effect_store (trackEffects s i)
     = (if bool_decide (e ∈ members dep) then effect_store s
        else alter (λ eff, set_deps eff (deps eff ++ [i])) e (effect_store s))
  /\ targetMap (trackEffects s i) = targetMap s
  /\ effectTrackDepth (trackEffects s i) = effectTrackDepth s
  /\ effectStack (trackEffects s i) = effectStack s
  /\ activeEffect (trackEffects s i) = Some e
  /\ shouldTrack (trackEffects s i) = shouldTrack s
  /\ trackStack (trackEffects s i) = trackStack s.
Proof.
  intros Ha Hd Hmax. unfold trackEffects. rewrite Ha, Hd.
  rewrite (proj2 (Nat.leb_gt _ _) Hmax).
  unfold Set_add. case_bool_decide as Hin; simpl.
  - destruct dep; repeat split; try reflexivity; done.
  - repeat split; try reflexivity; done.
Qed.

(** A key that has a [Dep]: one more read of it keeps [running_c]. *)
Lemma trackEffects_running_c s0 e done s t k i :
  running_c s0 e done s ->
  lookup_dep s t k = Some i ->
  running_c s0 e (done ++ [(t, k)]) (trackEffects s i).
Proof.
  intros R Hi.
  destruct R as [[Hcons Hndd Hndm Hmv Hmi] Rvalid Ract Rsh Rdepth Rmax Rmem Rclean
                   Rdone Rext Rold Rfm Rfd Rlen Rstack Rts Rattrs].
  destruct (lookup_lt_is_Some_2 (dep_store s) i) as [dep Hdep]; [by eapply Hmv|].
  assert (Hmax : (maxMarkerBits < effectTrackDepth s)%nat) by by rewrite Rdepth.
  destruct (trackEffects_cleanup_fields s e i dep Ract Hdep Hmax)
    as (Hds & Hes & Htm & Hd & Hst & Ha & Hsh & Hts).
  remember (trackEffects s i) as s' eqn:Hs'. clear Hs'.
  assert (Hlk : forall t' k', lookup_dep s' t' k' = lookup_dep s t' k').
  { intros. by apply lookup_dep_ext. }
  assert (Hlen : length (dep_store s') = length (dep_store s)).
  { by rewrite Hds, length_insert. }
  assert (Hlook : forall j, dep_store s' !! j
             = if decide (j = i)
               then Some (set_members dep (Set_add e (members dep)))
               else dep_store s !! j).
  { intros j. rewrite Hds. destruct (decide (j = i)) as [->|Hne].
    - apply list_lookup_insert_eq. by eapply lookup_lt_Some.
    - by rewrite list_lookup_insert_ne. }
  assert (Hmem : forall e' j, mem s' e' j <-> (e' = e /\ j = i) \/ mem s e' j).
  { intros e' j. unfold mem. rewrite Hlook.
    destruct (decide (j = i)) as [->|Hne].
    - split.
      + intros (dep' & [= <-] & He'). simpl in He'.
        apply elem_of_Set_add in He' as [->|He']; [by left|].
        right. by exists dep.
      + intros [[-> _]|(dep' & Hdep' & He')].
        * eexists. split; [done|]. simpl. apply elem_of_Set_add. by left.
        * eexists. split; [done|]. simpl. apply elem_of_Set_add. right.
          congruence.
    - split; [by right|]. by intros [[_ ?]|?]. }
  assert (Hde : effect_deps s' e
                = if bool_decide (e ∈ members dep) then effect_deps s e
                  else effect_deps s e ++ [i]).
  { case_bool_decide as Hin.
    - by apply effect_deps_ext.
    - by apply (effect_deps_alter_eq s s' e (λ l, l ++ [i])). }
  assert (Hdo : forall e', e' <> e -> effect_deps s' e' = effect_deps s e').
  { intros e' Hne. destruct (bool_decide (e ∈ members dep)).
    - by apply effect_deps_ext.
    - by eapply effect_deps_alter_other. }
  assert (Hin_mem : e ∈ members dep <-> mem s e i).
  { split; [by exists dep|]. intros (dep' & ? & ?). congruence. }
  split.
  - split.
    + intros e' j. rewrite Hmem. destruct (decide (e' = e)) as [->|Hne].
      * rewrite Hde. case_bool_decide as Hin.
        -- rewrite Hcons. split; [by right|].
           intros [[_ ->]|?]; [by apply Hin_mem | done].
        -- rewrite elem_of_app, list_elem_of_singleton, Hcons. tauto.
      * rewrite Hdo, Hcons by done. split; [by right|]. by intros [[? _]|?].
    + intros e'. destruct (decide (e' = e)) as [->|Hne].
      * rewrite Hde. case_bool_decide as Hin; [apply Hndd|].
        apply NoDup_app. split; [apply Hndd|]. split; [|apply NoDup_singleton].
        intros j Hj ->%list_elem_of_singleton. apply Hin, Hin_mem. by apply Hcons.
      * rewrite Hdo by done. apply Hndd.
    + intros j dep'. rewrite Hlook. destruct (decide (j = i)) as [->|Hne].
      * intros [= <-]. simpl. apply NoDup_Set_add. by eapply Hndm.
      * apply Hndm.
    + intros t' k' j. rewrite Hlk, Hlen. apply Hmv.
    + intros t1 k1 t2 k2 j. rewrite !Hlk. apply Hmi.
  - destruct Rvalid as [eff Heff]. rewrite Hes. case_bool_decide; [by eexists|].
    rewrite list_lookup_alter_eq, Heff. by eexists.
  - done.
  - by rewrite Hsh.
  - by rewrite Hd.
  - done.
  - intros j. rewrite Hmem, Rmem. split.
    + intros [[_ ->]|(t' & k' & Hin & Hj)].
      * exists t, k. rewrite Hlk. split; [|done]. apply elem_of_app. right. by left.
      * exists t', k'. rewrite Hlk. split; [|done]. apply elem_of_app. by left.
    + intros (t' & k' & [Hin|Hin%list_elem_of_singleton]%elem_of_app & Hj);
        rewrite Hlk in Hj.
      * right. eauto.
      * injection Hin as -> ->. left. split; [done | congruence].
  - intros j dep' k'. rewrite Hlook. destruct (decide (j = i)) as [->|Hne].
    + intros [= <-]. apply (Rclean i dep k' Hdep).
    + apply Rclean.
  - intros t' k' [Hin|Hin%list_elem_of_singleton]%elem_of_app; rewrite Hlk.
    + by apply Rdone.
    + injection Hin as -> ->. by eexists.
  - intros t' k' j. rewrite Hlk. apply Rext.
  - intros t' k' j. rewrite Hlk. apply Rold.
  - intros e' j Hne. rewrite Hmem, <- Rfm by done. split; [|by right].
    by intros [[? _]|?].
  - intros e' Hne. rewrite Hdo by done. by apply Rfd.
  - by rewrite Hlen.
  - by rewrite Hst.
  - by rewrite Hts.
  - intros e'. rewrite <- Rattrs. destruct (bool_decide (e ∈ members dep)).
    + by apply effect_attrs_ext.
    + by apply (effect_attrs_alter_deps s s' e (λ eff, deps eff ++ [i])).
Qed.

(** Creating the [Dep] of a key that had none keeps [running_c]. *)
Lemma with_new_dep_running_c s0 e done s t k :
  running_c s0 e done s ->
  lookup_dep s t k = None ->
  running_c s0 e done (with_new_dep s t k)
  /\ lookup_dep (with_new_dep s t k) t k = Some (length (dep_store s)).
Proof.
  intros R Hnone.
  split; [|by rewrite lookup_dep_with_new_dep, decide_True by done].
  destruct R as [[Hcons Hndd Hndm Hmv Hmi] Rvalid Ract Rsh Rdepth Rmax Rmem Rclean
                   Rdone Rext Rold Rfm Rfd Rlen Rstack Rts Rattrs].
  set (s' := with_new_dep s t k).
  set (len := length (dep_store s)).
  assert (Hlook : forall j, dep_store s' !! j
                            = if decide (j = len) then Some (createDep [])
                              else dep_store s !! j).
  { intros j. unfold s', with_new_dep. simpl.
    destruct (decide (j = len)) as [->|Hne].
    - by apply list_lookup_middle.
    - destruct (decide (j < len)%nat).
      + by rewrite lookup_app_l.
      + rewrite !lookup_ge_None_2; [done | unfold len in *; lia |].
        rewrite length_app. simpl. unfold len in *. lia. }
  assert (Hlk' : forall t' k', lookup_dep s' t' k'
                               = if decide (t' = t /\ k' = k) then Some len
                                 else lookup_dep s t' k').
  { intros. by apply lookup_dep_with_new_dep. }
  assert (Hmem : forall e' j, mem s' e' j <-> mem s e' j).
  { intros e' j. unfold mem. rewrite Hlook.
    destruct (decide (j = len)) as [->|Hne]; [|done]. split.
    - intros (dep & [= <-] & Hin). by apply elem_of_nil in Hin.
    - intros (dep & Hd & _). apply lookup_lt_Some in Hd. unfold len in Hd. lia. }
  assert (Hdone_ne : forall t' k', (t', k') ∈ done -> ~ (t' = t /\ k' = k)).
  { intros t' k' Hin [-> ->]. destruct (Rdone t k Hin) as [j Hj]. congruence. }
  split.
  - split.
    + intros e' j. rewrite Hmem. apply Hcons.
    + exact Hndd.
    + intros j dep. rewrite Hlook. destruct (decide (j = len)) as [->|Hne].
      * intros [= <-]. constructor.
      * apply Hndm.
    + intros t' k' j. rewrite Hlk'. unfold s', with_new_dep. simpl.
      rewrite length_app. simpl. fold len.
      destruct (decide (t' = t /\ k' = k)).
      * intros [= <-]. lia.
      * intros Hj. apply Hmv in Hj. fold len in Hj. lia.
    + intros t1 k1 t2 k2 j. rewrite !Hlk'.
      destruct (decide (t1 = t /\ k1 = k)) as [[-> ->]|H1];
        destruct (decide (t2 = t /\ k2 = k)) as [[-> ->]|H2].
      * done.
      * intros [= <-] Hj. apply Hmv in Hj. fold len in Hj. lia.
      * intros Hj [= <-]. apply Hmv in Hj. fold len in Hj. lia.
      * apply Hmi.
  - exact Rvalid.
  - exact Ract.
  - exact Rsh.
  - exact Rdepth.
  - exact Rmax.
  - intros j. rewrite Hmem, Rmem. split.
    + intros (t' & k' & Hin & Hj). exists t', k'. split; [done|].
      rewrite Hlk'. by rewrite decide_False by by apply Hdone_ne.
    + intros (t' & k' & Hin & Hj). exists t', k'. split; [done|].
      rewrite Hlk' in Hj. by rewrite decide_False in Hj by by apply Hdone_ne.
  - intros j dep k'. rewrite Hlook. destruct (decide (j = len)) as [->|Hne].
    + intros [= <-] _. by rewrite wbit_createDep, nbit_createDep.
    + apply Rclean.
  - intros t' k' Hin. rewrite Hlk'.
    rewrite decide_False by by apply Hdone_ne. by apply Rdone.
  - intros t' k' j Hj. apply Rext in Hj. rewrite Hlk'.
    rewrite decide_False; [done|]. intros [-> ->]. congruence.
  - intros t' k' j. rewrite Hlk'.
    destruct (decide (t' = t /\ k' = k)).
    + intros [= <-] Hlt. unfold len in Hlt. lia.
    + apply Rold.
  - intros e' j Hne. rewrite Hmem. by apply Rfm.
  - exact Rfd.
  - unfold s', with_new_dep. simpl. rewrite length_app. lia.
  - exact Rstack.
  - exact Rts.
  - exact Rattrs.
Qed.

Lemma track_running_c s0 e done s t k :
  running_c s0 e done s ->
  running_c s0 e (done ++ [(t, k)]) (track s t k).
Proof.
  intros R. rewrite track_unfold.
  - destruct (lookup_dep s t k) as [i|] eqn:Hlk.
    + by eapply trackEffects_running_c.
    + destruct (with_new_dep_running_c s0 e done s t k R Hlk) as [R' Hlk'].
      by eapply trackEffects_running_c.
  - unfold isTracking. rewrite (rc_shouldTrack _ _ _ _ R), (rc_active _ _ _ _ R).
    reflexivity.
Qed.

Lemma run_fn_running_c s0 e done s fn :
  running_c s0 e done s ->
  running_c s0 e (done ++ fn) (run_fn s fn).
Proof.
  revert done s. induction fn as [|[t k] fn IH]; intros done s R; simpl.
  - by rewrite app_nil_r.
  - replace (done ++ (t, k) :: fn) with ((done ++ [(t, k)]) ++ fn)
      by by rewrite <- app_assoc.
    apply IH. by apply track_running_c.
Qed.

Lemma running_c_subscribed s0 e done s t k :
  running_c s0 e done s -> (t, k) ∈ done -> subscribed s e t k.
Proof.
  intros R Hin. destruct (rc_done _ _ _ _ R t k Hin) as [i Hi].
  exists i. split; [done|]. apply (rc_mem _ _ _ _ R). eauto.
Qed.

Lemma run_leave_fields_c s e :
  (maxMarkerBits < effectTrackDepth s)%nat ->
  dep_store (run_leave s e) = dep_store s
  /\ effect_store (run_leave s e) = effect_store s
  /\ targetMap (run_leave s e) = targetMap s
  /\ effectTrackDepth (run_leave s e) = pred (effectTrackDepth s)
  /\ effectStack (run_leave s e) = removelast (effectStack s)
  /\ activeEffect (run_leave s e) = last (removelast (effectStack s)).
Proof.
  intros Hmax. unfold run_leave.
  rewrite (proj2 (Nat.leb_gt _ _) Hmax).
  unfold resetTracking. simpl.
  by destruct (last (trackStack s)).
Qed.

Lemma run_leave_ran_c s0 e done s :
  running_c s0 e done s -> ran s0 e done (run_leave s e).
Proof.
  intros R.
  destruct R as [[Hcons Hndd Hndm Hmv Hmi] Rvalid Ract Rsh Rdepth Rmax Rmem Rclean
                   Rdone Rext Rold Rfm Rfd Rlen Rstack Rts Rattrs].
  assert (Hmax : (maxMarkerBits < effectTrackDepth s)%nat) by by rewrite Rdepth.
  destruct (run_leave_fields_c s e Hmax) as (Hds & Hes & Htm & Hd & Hst & Hae).
  remember (run_leave s e) as s' eqn:Hs'. clear Hs'.
  assert (Hlk : forall t k, lookup_dep s' t k = lookup_dep s t k).
  { intros. by apply lookup_dep_ext. }
  assert (Hmem : forall e' j, mem s' e' j <-> mem s e' j).
  { intros e' j. unfold mem. by rewrite Hds. }
  assert (Hdeps : forall e', effect_deps s' e' = effect_deps s e').
  { intros e'. by apply effect_deps_ext. }
  split.
  - split; [split|..].
    + intros e' j. rewrite Hdeps, Hmem. apply Hcons.
    + intros e'. rewrite Hdeps. apply Hndd.
    + intros j dep. rewrite Hds. apply Hndm.
    + intros t k i. rewrite Hlk, Hds. apply Hmv.
    + intros t k t' k' i. rewrite !Hlk. apply Hmi.
    + intros j dep k. rewrite Hds, Hd, Rdepth. apply Rclean.
    + by rewrite Hae, Hst.
  - intros t k. unfold subscribed. split.
    + intros (i & Hi & Hm). rewrite Hlk in Hi.
      apply Hmem, Rmem in Hm as (t' & k' & Hin & Hi').
      by destruct (Hmi _ _ _ _ _ Hi Hi') as [-> ->].
    + intros Hin. destruct (Rdone t k Hin) as [i Hi]. exists i.
      rewrite Hlk. split; [done|]. apply Hmem, Rmem. eauto.
  - intros e' t k Hne. unfold subscribed. split.
    + intros (i & Hi & Hm). rewrite Hlk in Hi.
      apply Hmem, Rfm in Hm; [|done]. exists i. split; [|done].
      apply Rold; [done|]. destruct Hm as (dep & Hdep & _).
      by eapply lookup_lt_Some.
    + intros (i & Hi & Hm). exists i. rewrite Hlk. split; [by apply Rext|].
      apply Hmem. by apply Rfm.
  - intros e' j Hne. rewrite Hmem. by apply Rfm.
  - by rewrite Hd, Rdepth.
  - by rewrite Hst, Rstack, removelast_last.
  - intros e'. rewrite <- Rattrs. by apply effect_attrs_ext.
Qed.

(** *** Either way of running *)

(** [in_run s0 e done s]: effect [e] was entered from [s0] and has made
    the reads [done]. *)
Definition in_run (s0 : state) (e : eid) (done : list (addr * key)) (s : state)
  : Prop :=
  running s0 e done s \/ running_c s0 e done s.

Lemma run_enter_in_run s e :
  inv s -> is_Some (effect_store s !! e) -> in_run s e [] (run_enter s e).
Proof.
  intros Hinv Hvalid.
  destruct (decide (S (effectTrackDepth s) <= maxMarkerBits)%nat).
  - left. by apply run_enter_running.
  - right. apply run_enter_running_c; [done | done | lia].
Qed.

Lemma run_fn_in_run s0 e done s fn :
  in_run s0 e done s -> in_run s0 e (done ++ fn) (run_fn s fn).
Proof.
  intros [R|R]; [left; by apply run_fn_running | right; by apply run_fn_running_c].
Qed.

Lemma in_run_subscribed s0 e done s t k :
  in_run s0 e done s -> (t, k) ∈ done -> subscribed s e t k.
Proof.
  intros [R|R];
    [by apply (running_subscribed s0 e done) | by apply (running_c_subscribed s0 e done)].
Qed.

Lemma run_leave_in_run s0 e done s :
  in_run s0 e done s -> ran s0 e done (run_leave s e).
Proof.
  intros [R|R]; [by apply run_leave_ran | by apply run_leave_ran_c].
Qed.

(** *** A whole run *)

Lemma effect_active_is_Some s e :
  effect_active s e = true -> is_Some (effect_store s !! e).
Proof. unfold effect_active. destruct (effect_store s !! e); [eauto | done]. Qed.

Lemma effect_active_attrs s s' e :
  effect_attrs s' e = effect_attrs s e -> effect_active s' e = effect_active s e.
Proof.
  unfold effect_attrs, effect_active.
  destruct (effect_store s' !! e), (effect_store s !! e); simpl; congruence.
Qed.

(** A run of an active effect that is not already running subscribes it
    to exactly the keys its function reads, at any depth. *)
Lemma run_ran s e fn :
  inv s ->
  effect_active s e = true ->
  e ∉ effectStack s ->
  ran s e fn (run s e fn).
Proof.
  intros Hinv Hact Hstack. unfold run.
  rewrite Hact, bool_decide_eq_false_2 by done. simpl.
  apply run_leave_in_run.
  apply (run_fn_in_run s e [] (run_enter s e) fn).
  apply run_enter_in_run; [done | by apply effect_active_is_Some].
Qed.

(** [new ReactiveEffect(fn, scheduler)]: [active = true], [deps = []]. *)
Definition new_ReactiveEffect (s : state) (sched : bool) : state * eid :=
  (with_effect_store s
     (effect_store s ++
        [{| active := true; deps := []; computed := false;
            allowRecurse := false; scheduler := sched |}]),
   length (effect_store s)).

Lemma new_ReactiveEffect_inv s sched :
  inv s -> inv (new_ReactiveEffect s sched).1.
Proof.
  intros [[Hcons Hndd Hndm Hmv Hmi] Hclean Hactive].
  assert (Hdeps : forall e, effect_deps (new_ReactiveEffect s sched).1 e
                            = effect_deps s e).
  { intros e. unfold effect_deps, new_ReactiveEffect. simpl.
    destruct (decide (e < length (effect_store s))%nat) as [Hlt|Hge].
    - by rewrite lookup_app_l.
    - rewrite (lookup_ge_None_2 (effect_store s)) by lia.
      destruct (decide (e = length (effect_store s))) as [->|Hne].
      + by rewrite list_lookup_middle.
      + rewrite lookup_ge_None_2; [done|]. rewrite length_app. simpl. lia. }
  split; [split|..]; try done.
  - intros e i. rewrite Hdeps. apply Hcons.
  - intros e. rewrite Hdeps. apply Hndd.
Qed.

(** ** Who gets called by [trigger] *)

(** How often [e] is called in a sequence of calls. *)
Definition calls_of (e : eid) (l : list invocation) : nat :=
  length (filter (λ c, invoked c = e) l).

Lemma calls_of_app e l1 l2 :
  calls_of e (l1 ++ l2) = (calls_of e l1 + calls_of e l2)%nat.
Proof. unfold calls_of. by rewrite filter_app, length_app. Qed.


(** ** Who gets called by [triggerEffects] *)

(** The guard of [triggerEffect]: the effect is not the running one, or it
    allows recursion. *)
Definition may_trigger (s : state) (e : eid) : Prop :=
  exists eff, effect_store s !! e = Some eff
              /\ (activeEffect s <> Some e \/ allowRecurse eff = true).

Lemma triggerEffect_invoked s e i :
  i ∈ triggerEffect s e -> invoked i = e /\ may_trigger s e.
Proof.
  unfold triggerEffect, may_trigger.
  destruct (effect_store s !! e) as [eff|] eqn:He; [|by intros ?%elem_of_nil].
  destruct (negb (bool_decide (activeEffect s = Some e)) || allowRecurse eff) eqn:Hg;
    [|by intros ?%elem_of_nil].
  intros Hi. split.
  - destruct (scheduler eff); apply list_elem_of_singleton in Hi; by subst i.
  - exists eff. split; [done|].
    apply orb_true_iff in Hg as [Hg|Hg]; [left|by right].
    apply negb_true_iff, bool_decide_eq_false in Hg. done.
Qed.

Lemma triggerEffect_may_trigger s e :
  may_trigger s e ->
  triggerEffect s e = [CallScheduler e] \/ triggerEffect s e = [CallRun e].
Proof.
  intros (eff & He & Hg). unfold triggerEffect. rewrite He.
  assert (Hb : negb (bool_decide (activeEffect s = Some e)) || allowRecurse eff = true).
  { destruct Hg as [Hg|Hg]; [|by rewrite Hg, orb_true_r].
    by rewrite bool_decide_eq_false_2. }
  rewrite Hb. destruct (scheduler eff); eauto.
Qed.

Lemma elem_of_concat_map_triggerEffect s (l : list eid) i :
  i ∈ concat (map (triggerEffect s) l) <-> exists e, e ∈ l /\ i ∈ triggerEffect s e.
Proof.
  induction l as [|x l IH]; simpl.
  - split; [by intros ?%elem_of_nil | by intros (e & ?%elem_of_nil & _)].
  - rewrite elem_of_app, IH. split.
    + intros [Hi | (e & He & Hi)].
      * exists x. split; [by left | done].
      * exists e. split; [by right | done].
    + intros (e & He & Hi). apply elem_of_cons in He as [-> | He]; eauto.
Qed.

Lemma calls_of_triggerEffect_ne s e x :
  x <> e -> calls_of e (triggerEffect s x) = 0%nat.
Proof.
  intros Hne. unfold calls_of.
  destruct (filter (λ c, invoked c = e) (triggerEffect s x)) as [|c l] eqn:Hf; [done|].
  assert (Hc : c ∈ filter (λ c, invoked c = e) (triggerEffect s x))
    by (rewrite Hf; by left).
  apply list_elem_of_filter in Hc as [Hinv Hc].
  apply triggerEffect_invoked in Hc as [Hx _]. congruence.
Qed.

Lemma calls_of_triggerEffect_eq s e :
  may_trigger s e -> calls_of e (triggerEffect s e) = 1%nat.
Proof.
  intros Hm. unfold calls_of.
  destruct (triggerEffect_may_trigger s e Hm) as [-> | ->];
    by rewrite filter_cons, decide_True.
Qed.

Lemma calls_of_triggerEffects_notin s e (dep : list eid) :
  e ∉ dep -> calls_of e (triggerEffects s dep) = 0%nat.
Proof.
  unfold triggerEffects. induction dep as [|x dep IH]; intros Hnin; simpl.
  - done.
  - apply not_elem_of_cons in Hnin as [Hne Hnin].
    rewrite calls_of_app, IH by done.
    by rewrite calls_of_triggerEffect_ne.
Qed.

Lemma calls_of_triggerEffects_in s e (dep : list eid) :
  NoDup dep -> e ∈ dep -> may_trigger s e ->
  calls_of e (triggerEffects s dep) = 1%nat.
Proof.
  intros Hnd Hin Hm. induction dep as [|x dep IH]; [by apply elem_of_nil in Hin|].
  apply NoDup_cons in Hnd as [Hx Hnd].
  change (triggerEffects s (x :: dep))
    with (triggerEffect s x ++ triggerEffects s dep).
  rewrite calls_of_app.
  apply elem_of_cons in Hin as [->|Hin].
  - by rewrite calls_of_triggerEffect_eq, calls_of_triggerEffects_notin.
  - rewrite calls_of_triggerEffect_ne, IH by (done || by intros ->). done.
Qed.

Lemma elem_of_dep_members s e i : e ∈ dep_members s i <-> mem s e i.
Proof.
  unfold dep_members, mem. destruct (dep_store s !! i) as [dep|].
  - split; [eauto | by intros (dep' & [= <-] & ?)].
  - split; [by intros ?%elem_of_nil | by intros (dep' & ? & _)].
Qed.

Lemma NoDup_dep_members s i : core s -> NoDup (dep_members s i).
Proof.
  intros Hcore. unfold dep_members.
  destruct (dep_store s !! i) as [dep|] eqn:Hdep; [|constructor].
  by eapply core_nodup_members.
Qed.

(** [trigger(target, SET, key, newValue)] on a target that is not a [Map]
    and, when the key is [length], not an array: [e] is called once if it
    is subscribed to the key and not at all if it is not. *)
Lemma trigger_SET_calls E h s e t k v :
  core s ->
  may_trigger s e ->
  isMap h t = false ->
  (k = KStr "length" -> isArray h t = false) ->
  exists calls,
    trigger E h s t SET (Some k) v = Some calls
    /\ (subscribed s e t k -> calls_of e calls = 1%nat)
    /\ (~ subscribed s e t k -> calls_of e calls = 0%nat).
Proof.
  intros Hcore Hm Hmap Hlen. unfold trigger, trigger_with, subscribed, lookup_dep.
  destruct (targetMap s !! t) as [depsMap|]; simpl.
  - unfold trigger_deps. rewrite bool_decide_eq_false_2 by done.
    assert (Hb : bool_decide (Some k = Some (KStr "length")) && isArray h t = false).
    { destruct (decide (k = KStr "length")) as [Hk|Hk].
      - by rewrite Hlen, andb_false_r.
      - rewrite bool_decide_eq_false_2; [done|]. by intros [= ?]. }
    rewrite Hb, Hmap. simpl.
    destruct (Map_get depsMap k) as [i|].
    + eexists. split; [done|]. split.
      * intros (i' & [= <-] & Hmem).
        apply calls_of_triggerEffects_in; [by apply NoDup_dep_members| |done].
        by apply elem_of_dep_members.
      * intros Hns. apply calls_of_triggerEffects_notin.
        intros Hin%elem_of_dep_members. apply Hns. eauto.
    + eexists. split; [done|]. split; [by intros (i & ? & _) | done].
  - eexists. split; [done|]. split; [by intros (i & ? & _) | done].
Qed.

(** An effect that is not running may be triggered. *)
Lemma may_trigger_not_running s e :
  inv s -> is_Some (effect_store s !! e) -> e ∉ effectStack s -> may_trigger s e.
Proof.
  intros Hinv [eff Heff] Hstack. exists eff. split; [done|]. left.
  rewrite (inv_active _ Hinv). intros Hlast. apply Hstack.
  by apply last_Some_elem_of.
Qed.


(** ** Dependency precision *)

(** An engine for the examples, none of which asks it anything. *)
Definition an_engine : engine :=
  {| round_trips := λ _, false;
     string_ge := λ _ _, false;
     object_ge := λ _ _, None |}.

(** One effect without a scheduler, and nothing else. *)
Definition one_effect : state := (new_ReactiveEffect initial_state false).1.

Lemma one_effect_inv : inv one_effect.
Proof. apply new_ReactiveEffect_inv, initial_state_inv. Qed.

(** A heap that holds one array of six elements. *)
Definition an_array : heap :=
  [Raw {| rawType := TArray; skip := false; extensible := true; props := ∅; descriptors := ∅;
          elements := replicate 6 (VNumber (JNum 7)) |}].

(** The effect reads element [5] of the array and nothing else; it never
    reads [length]. Setting [length] to [0] runs it all the same: the
    [length] branch of [trigger] collects the [Dep] of every index that is
    not below the new length. *)
Lemma trigger_length_calls_index_reader :
  ((0%nat, KStr "length") ∉ [(0%nat, KStr "5")])
  /\ forall E,
       trigger E an_array (run one_effect 0 [(0%nat, KStr "5")]) 0 SET
         (Some (KStr "length")) (VNumber (JNum 0))
       = Some [CallRun 0].
Proof.
  split.
  - by intros [=]%list_elem_of_singleton.
  - intros E. vm_compute. reflexivity.
Qed.


(** ** The scenario of the specification: a reference [R], a computed [C]
    over it, and a plain effect [A] that reads both *)

Module Scenario.

(** [A = effect(() => log(R.value, C.value))] is effect 0 and the effect
    behind [C = computed(() => 2 * R.value)] is effect 1. [A] read
    [R.value] before it first read [C.value], so the [Dep] of [R] is the set
    [{A, C.effect}] in this order, and the [Dep] of [C] is [{A}]. *)
Definition A : eid := 0%nat.
Definition C : eid := 1%nat.

Definition effects : state :=
  {| dep_store := [ {| members := [A; C]; w := 0; n := 0 |};
                    {| members := [A]; w := 0; n := 0 |} ];
     effect_store :=
       [ {| active := true; deps := [0%nat; 1%nat]; computed := false;
            allowRecurse := false; scheduler := false |};
         {| active := true; deps := [0%nat]; computed := true;
            allowRecurse := false; scheduler := true |} ];
     targetMap := ∅;
     effectTrackDepth := 0; trackOpBit := 1;
     effectStack := []; activeEffect := None;
     shouldTrack := true; trackStack := [] |}.

(** The values involved: [R.value], the [#dirty] flag and cached [#value]
    of [C], and what [A] has logged, as pairs [(R.value, C.value)]. *)
Record values : Type := {
  R_value : Z;
  C_dirty : bool;
  C_value : Z;
  A_log : list (Z * Z)
}.

(** [ComputedReference.get value]:
    [if (self.#dirty) { self.#dirty = false; self.#value = self.effect.run(); }
     return self.#value;] *)
Definition C_get_value (v : values) : values :=
  if C_dirty v then
    {| R_value := R_value v; C_dirty := false; C_value := 2 * R_value v;
       A_log := A_log v |}
  else v.

(** [A.run()] *)
Definition A_run (v : values) : values :=
  let v1 := C_get_value v in
  {| R_value := R_value v1; C_dirty := C_dirty v1; C_value := C_value v1;
     A_log := A_log v1 ++ [(R_value v1, C_value v1)] |}.

(** The scheduler of [C.effect]:
    [() => { if (!this.#dirty) { this.#dirty = true; triggerRefValue(this); } }],
    where triggering the [Dep] of [C] runs [A]. *)
Definition C_scheduler (v : values) : values :=
  if C_dirty v then v
  else A_run {| R_value := R_value v; C_dirty := true; C_value := C_value v;
                A_log := A_log v |}.

Definition perform (v : values) (i : invocation) : values :=
  match i with
  | CallRun 0 => A_run v
  | CallScheduler 1 => C_scheduler v
  | _ => v
  end.

(** [R.value = z], with the given revision of [triggerEffects]. *)
Definition write_R (te : state -> list eid -> list invocation)
    (v : values) (z : Z) : values :=
  foldl perform
    {| R_value := z; C_dirty := C_dirty v; C_value := C_value v; A_log := A_log v |}
    (te effects (dep_members effects 0)).

(** After the first run of [A]: [R.value = 1], [C] is clean and caches 2. *)
Definition settled : values :=
  {| R_value := 1; C_dirty := false; C_value := 2; A_log := [] |}.

(** What [A] logs is consistent when the second component is the value
    derived from the first. *)
Definition consistent (entry : Z * Z) : bool := (entry.2 =? 2 * entry.1)%Z.

End Scenario.

(** C2, on src/reactivity/effect.js: [triggerEffects] walks the [Dep] in
    insertion order. For the [Dep] [{A, C.effect}] it runs the plain effect
    [A] before the scheduler of the computed effect, and in the scenario
    [A] then logs the new [R.value] next to the stale cache of [C]. *)
Lemma triggerEffects_src_plain_before_computed :
  triggerEffects Scenario.effects [Scenario.A; Scenario.C]
  = [CallRun Scenario.A; CallScheduler Scenario.C]
  /\ effect_computed Scenario.effects Scenario.A = false
  /\ effect_computed Scenario.effects Scenario.C = true
  /\ Scenario.A_log (Scenario.write_R triggerEffects Scenario.settled 5)
     = [(5, 2); (5, 10)]
  /\ forallb Scenario.consistent
       (Scenario.A_log (Scenario.write_R triggerEffects Scenario.settled 5))
     = false.
Proof. vm_compute. repeat split; reflexivity. Qed.

(** The revision in packages/reactivity/src/effect.js. *)
Module Packages.

(** <<
    export function triggerEffects(dep) {
        const effects = isArray(dep) ? dep : [...dep];
        for (const effect of effects) {
            if (effect.computed) { triggerEffect(effect); }
        }
        for (const effect of effects) {
            if (!effect.computed) { triggerEffect(effect); }
        }
    }
    >> *)
Definition triggerEffects (s : state) (dep : list eid) : list invocation :=
  concat (map (triggerEffect s) (filter (λ e, effect_computed s e = true) dep))
  ++ concat (map (triggerEffect s) (filter (λ e, effect_computed s e ≠ true) dep)).

Definition trigger := trigger_with triggerEffects.

Lemma triggerEffects_sound s (dep : list eid) i :
  i ∈ triggerEffects s dep -> invoked i ∈ dep /\ may_trigger s (invoked i).
Proof.
  unfold triggerEffects. rewrite elem_of_app, !elem_of_concat_map_triggerEffect.
  intros [(e & He & Hi) | (e & He & Hi)];
    apply list_elem_of_filter in He as [_ He];
    destruct (triggerEffect_invoked s e i Hi) as [-> Hm]; done.
Qed.

Lemma triggerEffects_complete s (dep : list eid) e :
  e ∈ dep -> may_trigger s e -> e ∈ invoked <$> triggerEffects s dep.
Proof.
  intros He Hm. apply list_elem_of_fmap.
  assert (Hi : exists i, i ∈ triggerEffect s e /\ invoked i = e).
  { destruct (triggerEffect_may_trigger s e Hm) as [-> | ->];
      eexists; (split; [apply list_elem_of_singleton; reflexivity | reflexivity]). }
  destruct Hi as (i & Hi & Hinv). exists i. split; [done|].
  unfold triggerEffects. rewrite elem_of_app, !elem_of_concat_map_triggerEffect.
  destruct (decide (effect_computed s e = true)) as [Hc|Hc].
  - left. exists e. split; [|done]. by apply list_elem_of_filter.
  - right. exists e. split; [|done]. by apply list_elem_of_filter.
Qed.

(** In the trace of [triggerEffects], computed effects come first. *)
Lemma triggerEffects_split s (dep : list eid) :
  exists l1 l2,
    triggerEffects s dep = l1 ++ l2
    /\ (forall i, i ∈ l1 -> effect_computed s (invoked i) = true)
    /\ (forall i, i ∈ l2 -> effect_computed s (invoked i) <> true).
Proof.
  unfold triggerEffects. eexists _, _. split; [reflexivity|].
  split; intros i Hi; apply elem_of_concat_map_triggerEffect in Hi
    as (e & He & Hi); apply list_elem_of_filter in He as [He _];
    by destruct (triggerEffect_invoked s e i Hi) as [-> _].
Qed.

(** X8: computed-before-plain, for the [triggerEffects] of
    packages/reactivity/src/effect.js: in the sequence of calls that
    [triggerEffects(dep)] makes, every call of a computed effect stands
    before every call of a plain one. *)
Theorem triggerEffects_computed_before_plain
    (s : state) (dep : list eid) (i j : nat) (ic ip : invocation) :
  triggerEffects s dep !! i = Some ic ->
  triggerEffects s dep !! j = Some ip ->
  effect_computed s (invoked ic) = true ->
  effect_computed s (invoked ip) <> true ->
  (i < j)%nat.
Proof.
  destruct (triggerEffects_split s dep) as (l1 & l2 & -> & H1 & H2).
  intros Hi Hj Hc Hp.
  apply lookup_app_Some in Hi as [Hi | [Hge Hi]].
  - apply lookup_app_Some in Hj as [Hj | [Hge Hj]].
    + apply list_elem_of_lookup_2 in Hj. by apply H1 in Hj.
    + apply lookup_lt_Some in Hi. lia.
  - apply list_elem_of_lookup_2 in Hi. by apply H2 in Hi.
Qed.

(** The same write with this revision: the computed effect is marked dirty
    first, and everything [A] logs is consistent. *)
Example triggerEffects_scenario :
  triggerEffects Scenario.effects [Scenario.A; Scenario.C]
  = [CallScheduler Scenario.C; CallRun Scenario.A]
  /\ Scenario.A_log (Scenario.write_R triggerEffects Scenario.settled 5)
     = [(5, 10); (5, 10)].
Proof. vm_compute. split; reflexivity. Qed.

End Packages.

(* ------------------------------------------------------------------ *)
(** ** Further properties of effect.js *)

(** *** [trigger] in general *)

(** The [Dep]s that [trigger] collects; [None] when collecting throws. *)
Definition collected_deps (E : engine) (h : heap) (s : state)
    (target : addr) (type : TriggerOpType) (k : option key) (newValue : value)
  : option (list (option depid)) :=
  match targetMap s !! target with
  | None => Some []
  | Some depsMap => trigger_deps E h depsMap target type k newValue
  end.

Lemma trigger_collected E h s target type k newValue :
  trigger E h s target type k newValue
  = match targetMap s !! target with
    | None => Some []
    | Some _ =>
        trigger_dispatch triggerEffects s
          <$> collected_deps E h s target type k newValue
    end.
Proof.
  unfold trigger, trigger_with, collected_deps.
  by destruct (targetMap s !! target).
Qed.

Lemma calls_of_no_trigger s e (dep : list eid) :
  ~ may_trigger s e -> calls_of e (triggerEffects s dep) = 0%nat.
Proof.
  intros Hno. unfold calls_of.
  destruct (filter (λ c, invoked c = e) (triggerEffects s dep)) as [|c l] eqn:Hf;
    [done|].
  assert (Hc : c ∈ filter (λ c, invoked c = e) (triggerEffects s dep))
    by (rewrite Hf; by left).
  apply list_elem_of_filter in Hc as [Hinv Hc].
  apply elem_of_concat_map_triggerEffect in Hc as (x & _ & Hc).
  apply triggerEffect_invoked in Hc as [Hx Hm]. exfalso. apply Hno. congruence.
Qed.

(** The effects in the [Dep]s of a collected list. *)
Definition in_collected (s : state) (e : eid) (ds : list (option depid)) : Prop :=
  exists i, Some i ∈ ds /\ mem s e i.

Lemma elem_of_collected_members s e (ds : list (option depid)) :
  e ∈ concat (map (λ d, match d with
                        | Some i => dep_members s i
                        | None => []
                        end) ds)
  <-> in_collected s e ds.
Proof.
  unfold in_collected. induction ds as [|d ds IH]; simpl.
  - split; [by intros ?%elem_of_nil | by intros (i & ?%elem_of_nil & _)].
  - rewrite elem_of_app, IH. split.
    + intros [He | (i & Hi & Hm)].
      * destruct d as [i|]; [|by apply elem_of_nil in He].
        exists i. split; [by left | by apply elem_of_dep_members].
      * exists i. split; [by right | done].
    + intros (i & [<-|Hi]%elem_of_cons & Hm).
      * left. by apply elem_of_dep_members.
      * right. eauto.
Qed.

Lemma trigger_dispatch_calls s e (ds : list (option depid)) :
  core s ->
  (may_trigger s e -> in_collected s e ds ->
   calls_of e (trigger_dispatch triggerEffects s ds) = 1%nat)
  /\ (~ (may_trigger s e /\ in_collected s e ds) ->
      calls_of e (trigger_dispatch triggerEffects s ds) = 0%nat).
Proof.
  intros Hcore.
  assert (Hmulti :
    (may_trigger s e -> in_collected s e ds ->
     calls_of e (triggerEffects s (members (createDep
       (concat (map (λ d, match d with
                          | Some i => dep_members s i
                          | None => []
                          end) ds))))) = 1%nat)
    /\ (~ (may_trigger s e /\ in_collected s e ds) ->
        calls_of e (triggerEffects s (members (createDep
          (concat (map (λ d, match d with
                             | Some i => dep_members s i
                             | None => []
                             end) ds))))) = 0%nat)).
  { cbn [members createDep]. split.
    - intros Hm Hin. apply calls_of_triggerEffects_in; [apply NoDup_Set_of| |done].
      by apply elem_of_Set_of, elem_of_collected_members.
    - intros Hno. destruct (decide (e ∈ Set_of (concat (map (λ d,
        match d with Some i => dep_members s i | None => [] end) ds)))) as [Hin|Hin].
      + apply calls_of_no_trigger. intros Hm. apply Hno. split; [done|].
        by apply elem_of_collected_members, elem_of_Set_of.
      + by apply calls_of_triggerEffects_notin. }
  destruct ds as [|d [|d' ds]]; [exact Hmulti | | exact Hmulti].
  cbn [trigger_dispatch]. destruct d as [i|].
  - split.
    + intros Hm (i' & Hi'%list_elem_of_singleton & Hmem). injection Hi' as ->.
      apply calls_of_triggerEffects_in; [by apply NoDup_dep_members| |done].
      by apply elem_of_dep_members.
    + intros Hno. destruct (decide (e ∈ dep_members s i)) as [Hin|Hin].
      * apply calls_of_no_trigger. intros Hm. apply Hno. split; [done|].
        exists i. split; [by left | by apply elem_of_dep_members].
      * by apply calls_of_triggerEffects_notin.
  - split; [|done]. intros _ (i' & Hi'%list_elem_of_singleton & _). done.
Qed.

(** X1: whatever the operation and the key, [trigger] calls (runs or
    schedules) exactly the effects that are in one of the [Dep]s it
    collects and pass the guard of [triggerEffects], and it calls each of
    them once, also when an effect is in several of these [Dep]s. *)
Theorem trigger_calls_each_subscriber_once E h s target type k newValue ds e :
  core s ->
  collected_deps E h s target type k newValue = Some ds ->
  exists calls,
    trigger E h s target type k newValue = Some calls
    /\ (may_trigger s e -> in_collected s e ds -> calls_of e calls = 1%nat)
    /\ (~ (may_trigger s e /\ in_collected s e ds) -> calls_of e calls = 0%nat).
Proof.
  intros Hcore Hds. rewrite trigger_collected. unfold collected_deps in Hds.
  destruct (targetMap s !! target) as [depsMap|] eqn:Ht.
  - unfold collected_deps. rewrite Ht, Hds. cbn [fmap option_fmap option_map].
    eexists. split; [reflexivity|]. by apply trigger_dispatch_calls.
  - injection Hds as <-. eexists. split; [reflexivity|]. split; [|done].
    intros _ (i & Hi%elem_of_nil & _). done.
Qed.

(** A heap that holds one plain object. *)
Definition an_object : heap :=
  [Raw {| rawType := TObject; skip := false; extensible := true; props := ∅; descriptors := ∅;
          elements := [] |}].

Lemma trigger_calls_each_subscriber_once_witness :
  exists calls,
    trigger an_engine an_object
      (run one_effect 0 [(0%nat, KStr "x"); (0%nat, ITERATE_KEY)])
      0 ADD (Some (KStr "x")) VUndefined = Some calls
    /\ calls_of 0 calls = 1%nat.
Proof.
  assert (Hstack : 0%nat ∉ effectStack one_effect) by by intros ?%elem_of_nil.
  pose proof (ran_inv _ _ _ _
                (run_ran one_effect 0%nat [(0%nat, KStr "x"); (0%nat, ITERATE_KEY)]
                   one_effect_inv eq_refl Hstack)) as Hinv.
  destruct (trigger_calls_each_subscriber_once an_engine an_object
              (run one_effect 0 [(0%nat, KStr "x"); (0%nat, ITERATE_KEY)])
              0%nat ADD (Some (KStr "x")) VUndefined [Some 0%nat; Some 1%nat] 0%nat
              (inv_core _ Hinv) eq_refl)
    as (calls & Hcalls & Hone & _).
  exists calls. split; [done|]. apply Hone.
  - eexists. split; [reflexivity|]. left. discriminate.
  - exists 0%nat. split; [by left|].
    eexists. split; [reflexivity|]. vm_compute. by left.
Defined.

(** X2: an effect that iterated the keys of an object, and is therefore
    in the [Dep] of [ITERATE_KEY], is called exactly once when a key is
    added to or deleted from the object; an effect that read the [length]
    of an array is called exactly once when an element is added at a key
    that [isIntegerKey] accepts: the canonical spelling of a natural number
    up to [2^53], and beyond that whatever spelling survives
    [String(parseInt(key, 10))]. *)
Theorem trigger_calls_iterating_effects E h s t k v e :
  core s ->
  may_trigger s e ->
  (isArray h t = false ->
   subscribed s e t ITERATE_KEY ->
   forall type, type = ADD \/ type = DELETE ->
   exists calls,
     trigger E h s t type (Some k) v = Some calls /\ calls_of e calls = 1%nat)
  /\ (isArray h t = true ->
      isIntegerKey E k = true ->
      subscribed s e t (KStr "length") ->
      exists calls,
        trigger E h s t ADD (Some k) v = Some calls /\ calls_of e calls = 1%nat).
Proof.
  intros Hcore Hm. split.
  - intros Harr (i & Hi & Hmem) type Htype. rewrite trigger_collected.
    unfold collected_deps, lookup_dep in *.
    destruct (targetMap s !! t) as [depsMap|]; [|done].
    unfold trigger_deps. rewrite Harr, andb_false_r.
    destruct Htype as [-> | ->]; cbn [bool_decide decide_rel negb fmap option_fmap
                                       option_map app];
      rewrite bool_decide_eq_false_2 by done;
      (eexists; split; [reflexivity|]);
      apply trigger_dispatch_calls; try done;
      exists i; (split; [|done]);
      apply elem_of_cons; right; apply elem_of_cons; by left.
  - intros Harr Hint (i & Hi & Hmem). rewrite trigger_collected.
    unfold collected_deps, lookup_dep in *.
    destruct (targetMap s !! t) as [depsMap|]; [|done].
    unfold trigger_deps. rewrite Harr, Hint.
    rewrite bool_decide_eq_false_2 by done.
    rewrite (bool_decide_eq_false_2 (Some k = Some (KStr "length"))).
    2: { intros [= ->]. vm_compute in Hint. discriminate. }
    cbn [andb negb fmap option_fmap option_map app].
    eexists. split; [reflexivity|].
    apply trigger_dispatch_calls; try done.
    exists i. split; [|done]. rewrite <- Hi. apply elem_of_cons. right. by left.
Qed.

Lemma trigger_calls_iterating_effects_witness :
  exists calls,
    trigger an_engine an_object (run one_effect 0 [(0%nat, ITERATE_KEY)])
      0 DELETE (Some (KStr "x")) VUndefined = Some calls
    /\ calls_of 0 calls = 1%nat.
Proof.
  assert (Hstack : 0%nat ∉ effectStack one_effect) by by intros ?%elem_of_nil.
  pose proof (ran_inv _ _ _ _
                (run_ran one_effect 0%nat [(0%nat, ITERATE_KEY)]
                   one_effect_inv eq_refl Hstack)) as Hinv.
  assert (Hm : may_trigger (run one_effect 0 [(0%nat, ITERATE_KEY)]) 0).
  { eexists. split; [reflexivity|]. left. discriminate. }
  destruct (trigger_calls_iterating_effects an_engine an_object
              (run one_effect 0 [(0%nat, ITERATE_KEY)]) 0%nat (KStr "x") VUndefined
              0%nat (inv_core _ Hinv) Hm) as [Hobj _].
  apply Hobj; [reflexivity | | by right].
  exists 0%nat. split; [reflexivity|].
  eexists. split; [reflexivity|]. vm_compute. by left.
Defined.

(** *** A symbol key among the [Dep]s of an array *)

Lemma length_deps_symbol E m n i v :
  Map_get m (KSym n) = Some i -> length_deps E m v = None.
Proof.
  induction m as [|[k' i'] m IH]; [done|]. cbn [Map_get length_deps].
  case_bool_decide as Hk.
  - subst k'. intros _. rewrite bool_decide_eq_false_2 by done. reflexivity.
  - intros Hget. specialize (IH Hget).
    case_bool_decide; [by rewrite IH|].
    destruct (key_ge E k' v) as [[|]|]; by rewrite ?IH.
Qed.

(** X3: once some key of an array that is a symbol has a [Dep] (an
    effect read [arr[sym]] for a symbol that is not built in), every
    [trigger] for the key [length] of that array throws: the loop over the
    [Dep]s compares each key with the new length by [>=], and a symbol
    cannot be converted to a number. *)
Theorem trigger_length_throws_on_symbol_key E h s t n type v :
  isArray h t = true ->
  is_Some (lookup_dep s t (KSym n)) ->
  type <> CLEAR ->
  trigger E h s t type (Some (KStr "length")) v = None.
Proof.
  intros Harr [i Hi] Htype. unfold trigger, trigger_with, lookup_dep in *.
  destruct (targetMap s !! t) as [depsMap|]; [|done].
  unfold trigger_deps. rewrite bool_decide_eq_false_2 by done.
  rewrite bool_decide_eq_true_2 by done. rewrite Harr. cbn [andb].
  by rewrite (length_deps_symbol E depsMap n i v Hi).
Qed.

Lemma trigger_length_throws_on_symbol_key_witness :
  trigger an_engine an_array (run one_effect 0 [(0%nat, KSym 7)]) 0 SET
    (Some (KStr "length")) (VNumber (JNum 0))
  = None.
Proof.
  apply (trigger_length_throws_on_symbol_key an_engine an_array _ 0%nat 7%nat SET).
  - reflexivity.
  - by eexists.
  - discriminate.
Defined.

(** *** [stop] *)

Definition set_active (eff : ReactiveEffect) (b : bool) : ReactiveEffect :=
  {| active := b; deps := deps eff; computed := computed eff;
     allowRecurse := allowRecurse eff; scheduler := scheduler eff |}.

(** <<
    stop() {
        if (this.active) {
            cleanupEffect(this);
            if (this.onStop) { this.onStop(); }
            this.active = false;
        }
    }
    >>
    [onStop] is the effect's hook, if it has one, as the change it makes
    to the state. *)
Definition stop (s : state) (e : eid) (onStop : option (state -> state)) : state :=
  if effect_active s e then
    let s1 := cleanupEffect s e in
    let s2 := match onStop with
              | Some hook => hook s1
              | None => s1
              end in
    with_effect_store s2 (alter (λ eff, set_active eff false) e (effect_store s2))
  else s.

(** [cleanupEffect] takes the effect out of all its [Dep]s and touches
    nothing else. *)
Lemma cleanupEffect_spec (s : state) (e : eid) :
  core s ->
  is_Some (effect_store s !! e) ->
  core (cleanupEffect s e)
  /\ effect_deps (cleanupEffect s e) e = []
  /\ (forall i, ~ mem (cleanupEffect s e) e i)
  /\ (forall e' i, e' <> e -> (mem (cleanupEffect s e) e' i <-> mem s e' i))
  /\ (forall i dep', dep_store (cleanupEffect s e) !! i = Some dep' ->
        exists dep, dep_store s !! i = Some dep /\ w dep' = w dep /\ n dep' = n dep)
  /\ (forall e', effect_attrs (cleanupEffect s e) e' = effect_attrs s e').
Proof.
  intros [Hcons Hndd Hndm Hmv Hmi] Hvalid.
  assert (Hds : dep_store (cleanupEffect s e)
                = foldl (λ st j, alter (λ dep, set_members dep
                                                 (Set_delete e (members dep))) j st)
                        (dep_store s) (effect_deps s e)) by reflexivity.
  assert (Hes : effect_store (cleanupEffect s e)
                = alter (λ eff, set_deps eff []) e (effect_store s)) by reflexivity.
  assert (Htm : targetMap (cleanupEffect s e) = targetMap s) by reflexivity.
  remember (cleanupEffect s e) as s' eqn:Hs'. clear Hs'.
  set (f := λ dep : Dep, set_members dep (Set_delete e (members dep))) in *.
  assert (Hlook : forall i,
             dep_store s' !! i
             = (if bool_decide (i ∈ effect_deps s e) then f else id)
                 <$> dep_store s !! i).
  { intros i. rewrite Hds. by apply foldl_alter_lookup. }
  assert (Hlen : length (dep_store s') = length (dep_store s)).
  { rewrite Hds. apply foldl_alter_length. }
  assert (Hmem_e : forall i, ~ mem s' e i).
  { intros i (dep' & Hdep' & He). rewrite Hlook in Hdep'.
    destruct (dep_store s !! i) as [dep|] eqn:Hdep; simpl in Hdep'; [|done].
    injection Hdep' as <-. case_bool_decide as Hin.
    - unfold f in He. simpl in He. apply elem_of_Set_delete in He as [? _]. done.
    - apply Hin, Hcons. by exists dep. }
  assert (Hmem_o : forall e' i, e' <> e -> (mem s' e' i <-> mem s e' i)).
  { intros e' i Hne. unfold mem. rewrite Hlook.
    destruct (dep_store s !! i) as [dep|]; simpl.
    - split.
      + intros (dep' & [= <-] & He'). exists dep. split; [done|].
        destruct (bool_decide _); [|done].
        unfold f in He'. simpl in He'. by apply elem_of_Set_delete in He' as [_ ?].
      + intros (dep' & [= <-] & He'). eexists. split; [done|].
        destruct (bool_decide _); [|done].
        unfold f. simpl. by apply elem_of_Set_delete.
    - split; by intros (dep' & Hd' & _). }
  assert (Hdeps_e : effect_deps s' e = []).
  { by apply (effect_deps_alter_eq s s' e (λ _, [])). }
  assert (Hdeps_o : forall e', e' <> e -> effect_deps s' e' = effect_deps s e').
  { intros e' Hne. by eapply effect_deps_alter_other. }
  split.
  { split.
    - intros e' i. destruct (decide (e' = e)) as [->|Hne].
      + rewrite Hdeps_e. split; [by intros ?%elem_of_nil | by intros ?%Hmem_e].
      + rewrite Hdeps_o, Hmem_o by done. apply Hcons.
    - intros e'. destruct (decide (e' = e)) as [->|Hne].
      + rewrite Hdeps_e. constructor.
      + rewrite Hdeps_o by done. apply Hndd.
    - intros i dep. rewrite Hlook.
      destruct (dep_store s !! i) as [dep0|] eqn:Hd0; simpl; [|done].
      intros [= <-]. destruct (bool_decide _); simpl.
      + apply NoDup_Set_delete. by eapply Hndm.
      + by eapply Hndm.
    - intros t k i. rewrite (lookup_dep_ext s s') by done. rewrite Hlen.
      apply Hmv.
    - intros t k t' k' i. rewrite !(lookup_dep_ext s s') by done. apply Hmi. }
  split; [done|]. split; [done|]. split; [done|]. split.
  - intros i dep'. rewrite Hlook.
    destruct (dep_store s !! i) as [dep0|] eqn:Hd0; simpl; [|done].
    intros [= <-]. exists dep0. by destruct (bool_decide _).
  - intros e'. by apply (effect_attrs_alter_deps s s' e (λ _, [])).
Qed.

(** With tracking off or no effect running, calling a function tracks
    nothing. *)
Lemma run_fn_not_tracking s fn : isTracking s = false -> run_fn s fn = s.
Proof.
  intros Hno. unfold run_fn. induction fn as [|r fn IH]; [done|].
  simpl. unfold track at 2. by rewrite Hno.
Qed.

Lemma stop_fields s e :
  effect_active s e = true ->
  dep_store (stop s e None) = dep_store (cleanupEffect s e)
  /\ effect_store (stop s e None)
     = alter (λ eff, set_active eff false) e (effect_store (cleanupEffect s e))
  /\ targetMap (stop s e None) = targetMap s
  /\ effectTrackDepth (stop s e None) = effectTrackDepth s
  /\ effectStack (stop s e None) = effectStack s
  /\ activeEffect (stop s e None) = activeEffect s
  /\ shouldTrack (stop s e None) = shouldTrack s.
Proof. intros Ha. unfold stop. rewrite Ha. repeat split; reflexivity. Qed.

Lemma mem_ext s s' e i : dep_store s' = dep_store s -> mem s' e i <-> mem s e i.
Proof. unfold mem. by intros ->. Qed.

Lemma effect_deps_set_active s' s1 e e' :
  effect_store s' = alter (λ eff, set_active eff false) e (effect_store s1) ->
  effect_deps s' e' = effect_deps s1 e'.
Proof.
  intros Hes. unfold effect_deps. rewrite Hes.
  destruct (decide (e' = e)) as [->|Hne].
  - rewrite list_lookup_alter_eq. by destruct (effect_store s1 !! e).
  - by rewrite list_lookup_alter_ne.
Qed.

(** [stop] on an active effect, without an [onStop] hook: what it changes
    and what it leaves. *)
Lemma stop_spec s e :
  inv s ->
  effect_active s e = true ->
  inv (stop s e None)
  /\ effect_active (stop s e None) e = false
  /\ is_Some (effect_store (stop s e None) !! e)
  /\ (forall i, ~ mem (stop s e None) e i)
  /\ (forall e' i, e' <> e -> (mem (stop s e None) e' i <-> mem s e' i))
  /\ (forall e' t k, e' <> e ->
        (subscribed (stop s e None) e' t k <-> subscribed s e' t k))
  /\ (forall e', e' <> e -> effect_attrs (stop s e None) e' = effect_attrs s e')
  /\ effectStack (stop s e None) = effectStack s.
Proof.
  intros [Hcore Hclean Hactive] Hact.
  pose proof (effect_active_is_Some s e Hact) as Hvalid.
  destruct (cleanupEffect_spec s e Hcore Hvalid)
    as ([Hcons Hndd Hndm Hmv Hmi] & Hdeps_e & Hmem_e & Hmem_o & Hbits & Hattrs).
  destruct (stop_fields s e Hact) as (Hds & Hes & Htm & Hd & Hst & Ha & Hsh).
  assert (Htm1 : targetMap (cleanupEffect s e) = targetMap s) by reflexivity.
  remember (cleanupEffect s e) as s1 eqn:Hs1. clear Hs1.
  remember (stop s e None) as s' eqn:Hs'.
  assert (Hcore' : core s').
  { split.
    - intros e' i. rewrite (effect_deps_set_active s' s1 e e' Hes).
      rewrite (mem_ext s1 s') by done. apply Hcons.
    - intros e'. rewrite (effect_deps_set_active s' s1 e e' Hes). apply Hndd.
    - intros i dep. rewrite Hds. apply Hndm.
    - intros t k i. rewrite (lookup_dep_ext s1 s') by congruence. rewrite Hds.
      apply Hmv.
    - intros t k t' k' i. rewrite !(lookup_dep_ext s1 s') by congruence.
      apply Hmi. }
  assert (Hinactive : effect_active s' e = false).
  { unfold effect_active. rewrite Hes, list_lookup_alter_eq.
    by destruct (effect_store s1 !! e). }
  assert (Hmem' : forall e' i, e' <> e -> (mem s' e' i <-> mem s e' i)).
  { intros e' i Hne. rewrite (mem_ext s1 s' e' i Hds). by apply Hmem_o. }
  split; [|split; [done|]; split; [|split; [|split; [done|split; [|split]]]]].
  - split; [done| |congruence].
    intros i dep' k. rewrite Hds, Hd. intros Hdep' Hk.
    destruct (Hbits i dep' Hdep') as (dep & Hdep & Hw & Hn).
    destruct (Hclean i dep k Hdep Hk) as [Hwk Hnk].
    unfold wbit, nbit in *. by rewrite Hw, Hn.
  - rewrite Hes, list_lookup_alter_eq.
    assert (Hv1 : is_Some (effect_store s1 !! e)).
    { specialize (Hattrs e). unfold effect_attrs in Hattrs.
      destruct Hvalid as [eff Heff]. rewrite Heff in Hattrs.
      destruct (effect_store s1 !! e); [eauto | done]. }
    destruct Hv1 as [eff1 ->]. by eexists.
  - intros i Hm. apply (Hmem_e i). by apply (mem_ext s1 s').
  - intros e' t k Hne. unfold subscribed.
    setoid_rewrite (lookup_dep_ext s s' t k Htm).
    by setoid_rewrite (Hmem' e' _ Hne).
  - intros e' Hne. rewrite <- Hattrs. unfold effect_attrs.
    by rewrite Hes, list_lookup_alter_ne.
  - done.
Qed.

(** *** Pausing *)

(** X5: reads made between [pauseTracking()] and the matching
    [resetTracking()] subscribe no effect to anything, whatever effect is
    running, and the pair leaves the whole tracking state as it was; so
    does a pair of [enableTracking()] and [resetTracking()] around nothing.
    With an empty [trackStack], [resetTracking] turns tracking on. *)
Theorem pauseTracking_resetTracking_bracket s fn :
  resetTracking (run_fn (pauseTracking s) fn) = s
  /\ resetTracking (enableTracking s) = s
  /\ (trackStack s = [] -> shouldTrack (resetTracking s) = true).
Proof.
  assert (Hlast : forall b, last (trackStack s ++ [b]) = Some b).
  { intros b. by rewrite last_snoc. }
  assert (Hrem : forall b, removelast (trackStack s ++ [b]) = trackStack s).
  { intros b. by rewrite removelast_last. }
  split; [|split].
  - rewrite run_fn_not_tracking by reflexivity.
    unfold resetTracking, pauseTracking. cbn [trackStack with_tracking].
    rewrite Hlast, Hrem. by destruct s.
  - unfold resetTracking, enableTracking. cbn [trackStack with_tracking].
    rewrite Hlast, Hrem. by destruct s.
  - intros Hts. unfold resetTracking. by rewrite Hts.
Qed.

Lemma pauseTracking_resetTracking_bracket_witness :
  shouldTrack (resetTracking initial_state) = true.
Proof.
  exact (proj2 (proj2 (pauseTracking_resetTracking_bracket initial_state []))
           eq_refl).
Defined.

(** *** The two revisions of [triggerEffects] *)

Lemma triggerEffects_cons s e (dep : list eid) :
  triggerEffects s (e :: dep) = triggerEffect s e ++ triggerEffects s dep.
Proof. reflexivity. Qed.

Lemma Packages_triggerEffects_Permutation s (dep : list eid) :
  Packages.triggerEffects s dep ≡ₚ triggerEffects s dep.
Proof.
  unfold Packages.triggerEffects.
  induction dep as [|e dep IH]; [done|].
  rewrite triggerEffects_cons, !filter_cons.
  destruct (decide (effect_computed s e = true)) as [Hc|Hc].
  - rewrite decide_False by (by intros []).
    cbn [map concat]. rewrite <- (assoc (++)). by f_equiv.
  - rewrite (decide_True (P := effect_computed s e ≠ true)) by done.
    cbn [map concat]. rewrite <- IH.
    apply Permutation_app_swap_app.
Qed.

(** X6: the [triggerEffects] of packages/reactivity/src/effect.js and
    the one of src/reactivity/effect.js make the same calls, each as
    often; only the order differs. The same holds of the two [trigger]s,
    which also throw on the same arguments. *)
Theorem trigger_revisions_make_the_same_calls E h s (dep : list eid) t type k v :
  Packages.triggerEffects s dep ≡ₚ triggerEffects s dep
  /\ match Packages.trigger E h s t type k v, trigger E h s t type k v with
     | Some calls', Some calls => calls' ≡ₚ calls
     | None, None => True
     | _, _ => False
     end.
Proof.
  split; [apply Packages_triggerEffects_Permutation|].
  unfold Packages.trigger, trigger, trigger_with.
  destruct (targetMap s !! t) as [depsMap|]; [|done].
  destruct (trigger_deps E h depsMap t type k v) as [ds|]; [|done].
  cbn [fmap option_fmap option_map]. unfold trigger_dispatch.
  destruct ds as [|[i|] [|d ds]]; try done;
    apply Packages_triggerEffects_Permutation.
Qed.

(** *** [effect] *)

(** The options of [effect] that tracking and triggering look at:
    [scheduler] tells whether a scheduler is given, [allowRecurse] whether
    the option is set to a true value. *)
Record ReactiveEffectOptions : Type := {
  opt_lazy : bool;
  opt_scheduler : bool;
  opt_allowRecurse : bool
}.

(** [assign(_effect, options)] on a new effect, whose [scheduler] is [null]
    and whose [allowRecurse] is [undefined]. *)
Definition assign_options (o : ReactiveEffectOptions) (eff : ReactiveEffect)
  : ReactiveEffect :=
  {| active := active eff; deps := deps eff; computed := computed eff;
     allowRecurse := opt_allowRecurse o; scheduler := opt_scheduler o |}.

(** <<
    export function effect(fn, options) {
        if (fn.effect) { fn = fn.effect.fn; }
        const _effect = new ReactiveEffect(fn);
        if (options) {
            assign(_effect, options);
            if (options.scope) { recordEffectScope(_effect, options.scope); }
        }
        if (!options || !options.lazy) { _effect.run(); }
        const runner = _effect.run.bind(_effect);
        runner.effect = _effect;
        return runner;
    }
    >>
    [fn] is the function that ends up in [_effect.fn]; the runner is named
    by its effect. *)
Definition effect (s : state) (fn : body) (options : option ReactiveEffectOptions)
  : state * eid :=
  let '(s1, e) := new_ReactiveEffect s false in
  let s2 := match options with
            | Some o =>
                with_effect_store s1 (alter (assign_options o) e (effect_store s1))
            | None => s1
            end in
  let is_lazy := match options with
                 | Some o => opt_lazy o
                 | None => false
                 end in
  (if is_lazy then s2 else run s2 e fn, e).

Lemma assign_options_inv s e o :
  inv s -> inv (with_effect_store s (alter (assign_options o) e (effect_store s))).
Proof.
  intros [[Hcons Hndd Hndm Hmv Hmi] Hclean Hactive].
  assert (Hdeps : forall e',
             effect_deps
               (with_effect_store s (alter (assign_options o) e (effect_store s))) e'
             = effect_deps s e').
  { intros e'. unfold effect_deps. simpl.
    destruct (decide (e' = e)) as [->|Hne].
    - rewrite list_lookup_alter_eq. by destruct (effect_store s !! e).
    - by rewrite list_lookup_alter_ne. }
  split; [split|..]; try done.
  - intros e' i. rewrite Hdeps. apply Hcons.
  - intros e'. rewrite Hdeps. apply Hndd.
Qed.

(** An effect that is not in the store is in no [Dep]. *)
Lemma core_unknown_effect s e i :
  core s -> effect_store s !! e = None -> ~ mem s e i.
Proof.
  intros Hcore He Hm. apply (core_consistent s Hcore) in Hm.
  unfold effect_deps in Hm. rewrite He in Hm. by apply elem_of_nil in Hm.
Qed.

(** X7: let the stores satisfy their invariant [inv] (as they do
    initially and after every call of [effect], [run] and [stop] made while
    no effect is running, when the functions of the effects only read, see
    [steps_outside]; an effect stopped by its own function leaves them
    outside it), and let every running effect be an
    effect of the store. Then [effect(fn, options)] makes a new effect and,
    unless [options.lazy] is set, runs it at once: afterwards the new
    effect is subscribed to exactly the keys that [fn] read, and with
    [lazy] to nothing. The subscriptions of the effects that existed before
    stay as they were, and the invariant holds again. *)
Theorem effect_subscribes_new_effect_to_its_reads s fn options :
  inv s ->
  Forall (λ x, (x < length (effect_store s))%nat) (effectStack s) ->
  let s' := (effect s fn options).1 in
  let e := (effect s fn options).2 in
  e = length (effect_store s)
  /\ inv s'
  /\ effect_active s' e = true
  /\ (forall t k,
        subscribed s' e t k
        <-> (t, k) ∈ fn /\ (forall o, options = Some o -> opt_lazy o = false))
  /\ (forall e' t k, e' <> e -> (subscribed s' e' t k <-> subscribed s e' t k)).
Proof.
  intros Hinv Hstack. unfold effect.
  pose proof (new_ReactiveEffect_inv s false Hinv) as Hinv1.
  unfold new_ReactiveEffect in *. cbn [fst snd] in *.
  set (e := length (effect_store s)).
  set (s1 := with_effect_store s _) in *.
  set (s2 := match options with
             | Some o =>
                 with_effect_store s1 (alter (assign_options o) e (effect_store s1))
             | None => s1
             end).
  assert (Hinv2 : inv s2).
  { unfold s2. destruct options; [by apply assign_options_inv | done]. }
  assert (Hact2 : effect_active s2 e = true).
  { unfold s2, effect_active. destruct options as [o|]; simpl.
    - rewrite list_lookup_alter_eq. unfold e. by rewrite list_lookup_middle.
    - unfold e. by rewrite list_lookup_middle. }
  assert (Hsub2 : forall e' t k, subscribed s2 e' t k <-> subscribed s e' t k).
  { intros e' t k. unfold s2. by destruct options. }
  assert (Hnew : forall t k, ~ subscribed s e t k).
  { intros t k (i & _ & Hm). revert Hm. apply core_unknown_effect.
    - apply Hinv.
    - apply lookup_ge_None_2. unfold e. lia. }
  assert (Hst2 : e ∉ effectStack s2).
  { assert (Heq : effectStack s2 = effectStack s) by (unfold s2; by destruct options).
    rewrite Heq. intros Hin.
    apply (proj1 (Forall_forall _ _) Hstack) in Hin. unfold e in Hin. lia. }
  destruct (match options with Some o => opt_lazy o | None => false end) eqn:Hlazy;
    cbn [fst snd].
  - split; [done|]. split; [done|]. split; [done|]. split.
    + intros t k. rewrite Hsub2. split; [by intros ?%Hnew|].
      intros [_ Ho]. destruct options as [o|]; [|done].
      specialize (Ho o eq_refl). congruence.
    + intros e' t k _. apply Hsub2.
  - destruct (run_ran s2 e fn Hinv2 Hact2 Hst2)
      as [Hinv' Hsub' Hframe' _ _ _ Hattrs'].
    split; [done|]. split; [done|]. split.
    { rewrite <- Hact2. by apply effect_active_attrs. }
    split.
    + intros t k. rewrite Hsub'. split; [|by intros [? _]].
      intros Hin. split; [done|]. intros o ->. done.
    + intros e' t k Hne. rewrite Hframe' by done. apply Hsub2.
Qed.

Lemma effect_subscribes_new_effect_to_its_reads_witness :
  subscribed (effect initial_state [(0%nat, KStr "x")] None).1 0 0%nat (KStr "x")
  /\ ~ subscribed
         (effect initial_state [(0%nat, KStr "x")]
            (Some {| opt_lazy := true; opt_scheduler := false;
                     opt_allowRecurse := false |})).1
         0 0%nat (KStr "x").
Proof.
  split.
  - destruct (effect_subscribes_new_effect_to_its_reads initial_state
                [(0%nat, KStr "x")] None initial_state_inv (Forall_nil_2 _))
      as (_ & _ & _ & Hsub & _).
    apply Hsub. split; [by left | done].
  - destruct (effect_subscribes_new_effect_to_its_reads initial_state
                [(0%nat, KStr "x")]
                (Some {| opt_lazy := true; opt_scheduler := false;
                         opt_allowRecurse := false |})
                initial_state_inv (Forall_nil_2 _))
      as (_ & _ & _ & Hsub & _).
    intros Hs. apply Hsub in Hs as [_ Ho]. by specialize (Ho _ eq_refl).
Defined.

(** *** Calls made while no effect is running *)

(** The invariant of the stores, with no effect running. *)
Definition outside (s : state) : Prop := inv s /\ effectStack s = [].

Lemma initial_state_outside : outside initial_state.
Proof. split; [apply initial_state_inv | done]. Qed.

Lemma outside_not_tracking s : outside s -> isTracking s = false.
Proof.
  intros [Hinv Hst]. unfold isTracking.
  rewrite (inv_active s Hinv), Hst. apply andb_false_r.
Qed.

(** A stopped effect, or one that does not exist, only calls its
    function; with no effect running the reads subscribe nobody. *)
Lemma run_inactive_outside s e fn :
  outside s -> effect_active s e = false -> run s e fn = s.
Proof.
  intros Hout Hoff. unfold run. rewrite Hoff. simpl.
  by apply run_fn_not_tracking, outside_not_tracking.
Qed.

Lemma run_outside s e fn : outside s -> outside (run s e fn).
Proof.
  intros Hout. destruct (effect_active s e) eqn:Hact.
  - destruct Hout as [Hinv Hst].
    assert (Hnin : e ∉ effectStack s) by (rewrite Hst; by intros ?%elem_of_nil).
    destruct (run_ran s e fn Hinv Hact Hnin) as [Hinv' _ _ _ _ Hst' _].
    split; [done | congruence].
  - by rewrite run_inactive_outside.
Qed.

Lemma stop_outside s e : outside s -> outside (stop s e None).
Proof.
  intros [Hinv Hst]. destruct (effect_active s e) eqn:Hact.
  - destruct (stop_spec s e Hinv Hact) as (Hinv' & _ & _ & _ & _ & _ & _ & Hst').
    split; [done | congruence].
  - unfold stop. by rewrite Hact.
Qed.

(** [effect] adds one effect and leaves the others as they are. *)
Lemma effect_outside s fn options :
  outside s ->
  outside (effect s fn options).1
  /\ forall e', is_Some (effect_store s !! e') ->
       effect_attrs (effect s fn options).1 e' = effect_attrs s e'
       /\ forall i, mem (effect s fn options).1 e' i <-> mem s e' i.
Proof.
  intros [Hinv Hst]. unfold effect.
  pose proof (new_ReactiveEffect_inv s false Hinv) as Hinv1.
  unfold new_ReactiveEffect in *. cbn [fst snd] in *.
  set (e := length (effect_store s)).
  set (s1 := with_effect_store s _) in *.
  set (s2 := match options with
             | Some o =>
                 with_effect_store s1 (alter (assign_options o) e (effect_store s1))
             | None => s1
             end).
  assert (Hinv2 : inv s2).
  { unfold s2. destruct options; [by apply assign_options_inv | done]. }
  assert (Hst2 : effectStack s2 = []).
  { unfold s2. by destruct options. }
  assert (Hact2 : effect_active s2 e = true).
  { unfold s2, effect_active. destruct options as [o|]; simpl.
    - rewrite list_lookup_alter_eq. unfold e. by rewrite list_lookup_middle.
    - unfold e. by rewrite list_lookup_middle. }
  assert (Hattrs2 : forall e', is_Some (effect_store s !! e') ->
            e' <> e /\ effect_attrs s2 e' = effect_attrs s e').
  { intros e' Hsome. apply lookup_lt_is_Some in Hsome.
    assert (Hne : e' <> e) by (unfold e; lia). split; [done|].
    unfold effect_attrs, s2. destruct options as [o|]; simpl.
    - rewrite list_lookup_alter_ne by done. by rewrite lookup_app_l.
    - by rewrite lookup_app_l. }
  assert (Hmem2 : forall e' i, mem s2 e' i <-> mem s e' i).
  { intros e' i. unfold s2. by destruct options. }
  destruct (match options with Some o => opt_lazy o | None => false end);
    cbn [fst snd].
  - split; [done|]. intros e' Hsome.
    destruct (Hattrs2 e' Hsome) as [_ Ha]. split; [done | intros i; apply Hmem2].
  - assert (Hnin : e ∉ effectStack s2) by (rewrite Hst2; by intros ?%elem_of_nil).
    destruct (run_ran s2 e fn Hinv2 Hact2 Hnin) as [Hinv' _ _ Hfm _ Hst' Hattrs'].
    split; [split; [done | congruence]|].
    intros e' Hsome. destruct (Hattrs2 e' Hsome) as [Hne Ha].
    split; [by rewrite Hattrs'|].
    intros i. rewrite Hfm by done. apply Hmem2.
Qed.

(** [steps s0 s]: calls of [effect], of [run] (or a runner, or what
    [trigger] calls) and of [stop] lead from [s0] to [s], each made while no
    effect is running. The functions of the effects only read. *)
Inductive steps (s0 : state) : state -> Prop :=
| steps_refl : steps s0 s0
| steps_effect s fn options : steps s0 s -> steps s0 (effect s fn options).1
| steps_run s e fn : steps s0 s -> steps s0 (run s e fn)
| steps_stop s e : steps s0 s -> steps s0 (stop s e None).

(** Such calls keep the invariant of the stores. *)
Lemma steps_outside s0 s : outside s0 -> steps s0 s -> outside s.
Proof.
  intros Hout. induction 1 as [|s fn options _ IH|s e fn _ IH|s e _ IH].
  - done.
  - by apply effect_outside.
  - by apply run_outside.
  - by apply stop_outside.
Qed.

(** Every state that such calls reach from the freshly loaded module
    satisfies the invariant. *)
Lemma steps_initial_state_inv s : steps initial_state s -> inv s.
Proof. intros Hs. by apply (steps_outside initial_state s initial_state_outside). Qed.

(** [e] is stopped and in no [Dep]. *)
Definition stopped (s : state) (e : eid) : Prop :=
  is_Some (effect_store s !! e)
  /\ effect_active s e = false
  /\ forall i, ~ mem s e i.

Lemma stopped_attrs s s' e :
  effect_attrs s' e = effect_attrs s e ->
  (forall i, mem s' e i <-> mem s e i) ->
  stopped s e -> stopped s' e.
Proof.
  intros Ha Hm (Hsome & Hoff & Hnot). split; [|split].
  - unfold effect_attrs in Ha. destruct Hsome as [eff Heff].
    rewrite Heff in Ha. destruct (effect_store s' !! e); [eauto | done].
  - by rewrite (effect_active_attrs s s' e Ha).
  - intros i Hi. apply (Hnot i). by apply Hm.
Qed.

(** Nothing subscribes a stopped effect again, as long as the calls are
    made while no effect is running. *)
Lemma steps_stopped s0 s e :
  outside s0 -> stopped s0 e -> steps s0 s -> stopped s e.
Proof.
  intros Hout Hstopped. induction 1 as [|s fn options Hs IH|s e2 fn Hs IH|s e2 Hs IH].
  - done.
  - pose proof (steps_outside s0 s Hout Hs) as Hout'.
    destruct (effect_outside s fn options Hout') as [_ Hframe].
    destruct (Hframe e (proj1 IH)) as [Ha Hm].
    by apply (stopped_attrs s).
  - pose proof (steps_outside s0 s Hout Hs) as Hout'.
    destruct (effect_active s e2) eqn:Hact2; [|by rewrite run_inactive_outside].
    assert (Hne : e <> e2).
    { intros ->. destruct IH as (_ & Hoff & _). congruence. }
    destruct Hout' as [Hinv Hst].
    assert (Hnin : e2 ∉ effectStack s) by (rewrite Hst; by intros ?%elem_of_nil).
    destruct (run_ran s e2 fn Hinv Hact2 Hnin) as [_ _ _ Hfm _ _ Hattrs].
    apply (stopped_attrs s); [apply Hattrs | intros i; by apply Hfm | done].
  - pose proof (steps_outside s0 s Hout Hs) as [Hinv Hst].
    destruct (effect_active s e2) eqn:Hact2; [|unfold stop; by rewrite Hact2].
    assert (Hne : e <> e2).
    { intros ->. destruct IH as (_ & Hoff & _). congruence. }
    destruct (stop_spec s e2 Hinv Hact2) as (_ & _ & _ & _ & Hfm & _ & Hattrs & _).
    apply (stopped_attrs s); [by apply Hattrs | intros i; by apply Hfm | done].
Qed.

(** No [trigger] calls an effect that is in no [Dep]. *)
Lemma trigger_not_member E h s e t type k v calls :
  core s -> (forall i, ~ mem s e i) ->
  trigger E h s t type k v = Some calls -> calls_of e calls = 0%nat.
Proof.
  intros Hcore Hnot. rewrite trigger_collected.
  destruct (targetMap s !! t) as [depsMap|]; [|by intros [= <-]].
  destruct (collected_deps E h s t type k v) as [ds|]; [|done].
  intros [= <-].
  apply (proj2 (trigger_dispatch_calls s e ds Hcore)).
  intros [_ (i & _ & Hm)]. by apply Hnot in Hm.
Qed.

(** X4: [stop], called on an active effect while no effect is running
    (and without an [onStop] hook), takes the effect out of every [Dep] and
    marks it inactive, and leaves the subscriptions of all other effects as
    they are. Whatever calls of [effect], [run] and [stop] follow while no
    effect is running, the effect stays inactive and subscribed to nothing,
    no [trigger] calls it, its own [run] changes nothing, and a second
    [stop] does nothing. *)
Theorem stop_unsubscribes s e :
  inv s ->
  effectStack s = [] ->
  effect_active s e = true ->
  (forall e' t k, e' <> e ->
     (subscribed (stop s e None) e' t k <-> subscribed s e' t k))
  /\ forall s', steps (stop s e None) s' ->
       inv s'
       /\ effect_active s' e = false
       /\ (forall t k, ~ subscribed s' e t k)
       /\ (forall E h t type k v calls,
             trigger E h s' t type k v = Some calls -> calls_of e calls = 0%nat)
       /\ (forall fn, run s' e fn = s')
       /\ stop s' e None = s'.
Proof.
  intros Hinv Hst Hact.
  destruct (stop_spec s e Hinv Hact)
    as (Hinv1 & Hoff1 & Hsome1 & Hnot1 & _ & Hframe & _ & Hst1).
  split; [exact Hframe|].
  intros s' Hsteps.
  assert (Hout1 : outside (stop s e None)) by (split; [done | congruence]).
  pose proof (steps_outside _ _ Hout1 Hsteps) as Hout'.
  destruct (steps_stopped _ _ e Hout1 (conj Hsome1 (conj Hoff1 Hnot1)) Hsteps)
    as (Hsome' & Hoff' & Hnot').
  split; [apply Hout'|]. split; [done|]. split; [|split; [|split]].
  - intros t k (i & _ & Hm). by apply Hnot' in Hm.
  - intros E h t type k v calls.
    apply trigger_not_member; [apply Hout' | done].
  - intros fn. by apply run_inactive_outside.
  - unfold stop. by rewrite Hoff'.
Qed.

Lemma stop_unsubscribes_witness :
  effect_active (stop (run one_effect 0 [(0%nat, KStr "x")]) 0 None) 0 = false
  /\ ~ subscribed
        (run (stop (run one_effect 0 [(0%nat, KStr "x")]) 0 None) 0
           [(0%nat, KStr "x")])
        0 0%nat (KStr "x").
Proof.
  split; [reflexivity|].
  assert (Hstack : 0%nat ∉ effectStack one_effect) by by intros ?%elem_of_nil.
  destruct (run_ran one_effect 0%nat [(0%nat, KStr "x")]
              one_effect_inv eq_refl Hstack) as [Hinv _ _ _ _ Hst _].
  destruct (stop_unsubscribes (run one_effect 0 [(0%nat, KStr "x")]) 0%nat
              Hinv Hst eq_refl) as [_ Hlater].
  destruct (Hlater _ (steps_run _ _ 0%nat [(0%nat, KStr "x")] (steps_refl _)))
    as (_ & _ & Hnot & _).
  apply Hnot.
Defined.

(** *** [stop] called by the effect's own function *)

(** Effect 0 reads [x] and then stops itself: the state after
    <<
    const runner = effect(() => { o.x; stop(runner); }, { lazy: true });
    runner();
    >> *)
Definition self_stopped : state :=
  run_leave (stop (run_fn (run_enter one_effect 0) [(0%nat, KStr "x")]) 0 None) 0.

(** [stop] has emptied [deps], so [finalizeDepMarkers] finds no [Dep] to
    clear: the [Dep] of [x] keeps the [n] bit of level 1 although no effect
    is running, and the invariant of the stores is lost. The next effect
    that reads [x] at this level finds the bit set: [trackEffects] takes
    the [Dep] for tracked already and does not add the effect, which a
    later write of [x] therefore does not call. *)
Lemma stop_inside_own_run_leaves_stale_markers :
  effectStack self_stopped = []
  /\ effect_active self_stopped 0 = false
  /\ nbit 1 <$> dep_store self_stopped !! 0%nat = Some true
  /\ ~ inv self_stopped
  /\ (effect self_stopped [(0%nat, KStr "x")] None).2 = 1%nat
  /\ ~ subscribed (effect self_stopped [(0%nat, KStr "x")] None).1 1 0%nat (KStr "x")
  /\ forall E,
       trigger E an_object (effect self_stopped [(0%nat, KStr "x")] None).1
         0 SET (Some (KStr "x")) VUndefined
       = Some [].
Proof.
  split; [reflexivity|]. split; [reflexivity|]. split; [reflexivity|].
  split; [|split; [reflexivity|split]].
  - intros Hinv.
    destruct (inv_clean _ Hinv 0%nat _ 1%nat eq_refl) as [_ Hn]; [vm_compute; lia|].
    vm_compute in Hn. discriminate.
  - intros (i & Hi & dep & Hdep & Hin).
    vm_compute in Hi. injection Hi as <-.
    vm_compute in Hdep. injection Hdep as <-.
    by apply elem_of_nil in Hin.
  - intros E. vm_compute. reflexivity.
Qed.

(** *** Writes to the [length] of an array *)

Lemma Map_get_is_Some_tail m k0 i0 k :
  is_Some (Map_get m k) -> is_Some (Map_get ((k0, i0) :: m) k).
Proof. intros Hk. cbn [Map_get]. by case_bool_decide. Qed.

(** The [Dep]s that the [length] branch collects, when no comparison
    throws: those of [length] and of every key that is [>=] the new
    value. *)
Lemma length_deps_collects E m v :
  (forall k, is_Some (Map_get m k) -> k = KStr "length" \/ is_Some (key_ge E k v)) ->
  exists ds,
    length_deps E m v = Some ds
    /\ forall k i, Map_get m k = Some i ->
         k = KStr "length" \/ key_ge E k v = Some true -> Some i ∈ ds.
Proof.
  induction m as [|[k0 i0] m IH]; intros Hok.
  - exists []. split; [done|]. by intros k i [=].
  - destruct IH as (ds & Hds & Hin).
    { intros k Hk. by apply Hok, Map_get_is_Some_tail. }
    assert (Hhead : k0 = KStr "length" \/ is_Some (key_ge E k0 v)).
    { apply Hok. cbn [Map_get]. rewrite bool_decide_eq_true_2 by done. by eexists. }
    cbn [length_deps Map_get]. rewrite Hds.
    case_bool_decide as Hlen.
    + eexists. split; [reflexivity|]. intros k i Hget Hk.
      case_bool_decide; [injection Hget as <-; by left | right; by eapply Hin].
    + destruct Hhead as [?|[b Hb]]; [done|]. rewrite Hb. destruct b.
      * eexists. split; [reflexivity|]. intros k i Hget Hk.
        case_bool_decide; [injection Hget as <-; by left | right; by eapply Hin].
      * exists ds. split; [done|]. intros k i Hget Hk.
        case_bool_decide as Hk0; [|by eapply Hin].
        subst k. destruct Hk as [?|Hk]; congruence.
Qed.

(** [trigger(arr, type, "length", v)] calls, exactly once, an effect that
    is subscribed to [length] or to a key that is [>=] the new value. *)
Lemma trigger_length_calls E h s e t type k v :
  core s ->
  may_trigger s e ->
  isArray h t = true ->
  type <> CLEAR ->
  subscribed s e t k ->
  k = KStr "length" \/ key_ge E k v = Some true ->
  (forall k', is_Some (lookup_dep s t k') ->
     k' = KStr "length" \/ is_Some (key_ge E k' v)) ->
  exists calls,
    trigger E h s t type (Some (KStr "length")) v = Some calls
    /\ calls_of e calls = 1%nat.
Proof.
  intros Hcore Hm Harr Htype (i & Hi & Hmem) Hk Hok.
  rewrite trigger_collected. unfold collected_deps, lookup_dep in *.
  destruct (targetMap s !! t) as [depsMap|]; [|done].
  unfold trigger_deps. rewrite bool_decide_eq_false_2 by done.
  rewrite bool_decide_eq_true_2 by done. rewrite Harr. cbn [andb].
  destruct (length_deps_collects E depsMap v Hok) as (ds & -> & Hin).
  cbn [fmap option_fmap option_map]. eexists. split; [reflexivity|].
  apply trigger_dispatch_calls; [done..|].
  exists i. split; [by eapply Hin | done].
Qed.

(** A key that spells a natural number is compared by its value. *)
Lemma key_ge_index E si i z :
  key_index si = Some i -> safe i = true -> safe z = true ->
  key_ge E (KStr si) (VNumber (JNum z)) = Some (z <=? i).
Proof. intros Hi Hsi Hsz. cbn [key_ge]. by rewrite Hi, Hsi, Hsz. Qed.

Lemma key_ge_number E si n : is_Some (key_ge E (KStr si) (VNumber n)).
Proof.
  cbn [key_ge]. destruct n as [|z]; [by eexists|].
  destruct (key_index si); by eexists.
Qed.

(** *** Dependency precision *)

(** C1 (as amended): let the stores satisfy their invariant [inv] (as
    they do initially and after every call of [effect], [run] and [stop]
    made while no effect is running, when the functions of the effects
    only read, see [steps_outside]), and let [e] be an
    active effect that is not running, whose function reads the keys [fn].
    After [e.run()], at any nesting depth,
    - the invariant holds again;
    - [e] is subscribed to the [Dep] of [(t, k)] exactly when the run read
      [(t, k)], and the subscriptions of all other effects are as before;
    - [trigger(t, SET, k, v)], for a target that is not a [Map] and, when
      [k] is [length], not an array, calls [e] exactly once when the run
      read [(t, k)] and does not call it otherwise;
    - [trigger(arr, SET, "length", z)] on an array calls [e] exactly once
      when the run read an index [i] of it that is not below the new length
      [z] (both held exactly, that is up to [2^53]), whether or not it read
      [length], provided no symbol key of the array has a [Dep];
    - after a further run with the reads [fn'], [e] is subscribed to
      exactly [fn']: [finalizeDepMarkers] (or, above [maxMarkerBits],
      [cleanupEffect]) has removed it from the [Dep] of every key that is
      no longer read. *)
Theorem run_subscribes_to_exactly_the_reads s e fn :
  inv s ->
  effect_active s e = true ->
  e ∉ effectStack s ->
  inv (run s e fn)
  /\ (forall t k, subscribed (run s e fn) e t k <-> (t, k) ∈ fn)
  /\ (forall e' t k,
        e' <> e -> (subscribed (run s e fn) e' t k <-> subscribed s e' t k))
  /\ (forall E h t k v,
        isMap h t = false ->
        (k = KStr "length" -> isArray h t = false) ->
        exists calls,
          trigger E h (run s e fn) t SET (Some k) v = Some calls
          /\ calls_of e calls = if bool_decide ((t, k) ∈ fn) then 1%nat else 0%nat)
  /\ (forall E h t si i z,
        isArray h t = true ->
        (t, KStr si) ∈ fn ->
        key_index si = Some i -> safe i = true -> safe z = true -> z <= i ->
        (forall n, lookup_dep (run s e fn) t (KSym n) = None) ->
        exists calls,
          trigger E h (run s e fn) t SET (Some (KStr "length")) (VNumber (JNum z))
          = Some calls
          /\ calls_of e calls = 1%nat)
  /\ (forall fn' t k,
        subscribed (run (run s e fn) e fn') e t k <-> (t, k) ∈ fn').
Proof.
  intros Hinv Hact Hstack.
  destruct (run_ran s e fn Hinv Hact Hstack)
    as [Hinv' Hsub Hframe _ Hd Hst Hattrs].
  assert (Hact' : effect_active (run s e fn) e = true).
  { by rewrite (effect_active_attrs s). }
  assert (Hstack' : e ∉ effectStack (run s e fn)) by by rewrite Hst.
  assert (Hmay : may_trigger (run s e fn) e).
  { apply may_trigger_not_running; [done | | done].
    by apply effect_active_is_Some. }
  split; [done|]. split; [done|]. split; [done|]. split; [|split].
  - intros E h t k v Hmap Hlen.
    destruct (trigger_SET_calls E h (run s e fn) e t k v) as (calls & Hc & H1 & H0);
      [by apply inv_core | done..|].
    exists calls. split; [done|]. case_bool_decide as Hin.
    + by apply H1, Hsub.
    + apply H0. by rewrite Hsub.
  - intros E h t si i z Harr Hin Hi Hsi Hsz Hle Hnosym.
    apply (trigger_length_calls E h (run s e fn) e t SET (KStr si));
      [by apply inv_core | done | done | done | by apply Hsub | |].
    + right. rewrite (key_ge_index E si i z) by done.
      f_equal. by apply Z.leb_le.
    + intros [s'|n] Hsome.
      * right. apply key_ge_number.
      * rewrite Hnosym in Hsome. by destruct Hsome.
  - intros fn' t k.
    apply (ran_subscribed (run s e fn) e fn').
    by apply run_ran.
Qed.

Lemma run_subscribes_to_exactly_the_reads_witness :
  subscribed (run one_effect 0 [(0%nat, KStr "x")]) 0 0 (KStr "x")
  /\ ~ subscribed (run (run one_effect 0 [(0%nat, KStr "x")]) 0 [(0%nat, KStr "y")])
         0 0 (KStr "x").
Proof.
  assert (Hstack : 0%nat ∉ effectStack one_effect) by by intros ?%elem_of_nil.
  destruct (run_subscribes_to_exactly_the_reads one_effect 0%nat
              [(0%nat, KStr "x")] one_effect_inv eq_refl Hstack)
    as (_ & Hsub & _ & _ & _ & Hagain).
  split.
  - apply Hsub. by left.
  - rewrite Hagain. by intros [=]%list_elem_of_singleton.
Defined.

Lemma triggerEffects_computed_before_plain_witness :
  Packages.triggerEffects Scenario.effects [Scenario.A; Scenario.C] !! 0%nat
  = Some (CallScheduler Scenario.C)
  /\ Packages.triggerEffects Scenario.effects [Scenario.A; Scenario.C] !! 1%nat
     = Some (CallRun Scenario.A)
  /\ (0 < 1)%nat.
Proof.
  split; [reflexivity|]. split; [reflexivity|].
  apply (Packages.triggerEffects_computed_before_plain Scenario.effects
           [Scenario.A; Scenario.C] 0 1
           (CallScheduler Scenario.C) (CallRun Scenario.A)).
  - reflexivity.
  - reflexivity.
  - reflexivity.
  - discriminate.
Defined.

(** *** Running a stopped effect *)

Lemma run_fn_app s fn1 fn2 : run_fn s (fn1 ++ fn2) = run_fn (run_fn s fn1) fn2.
Proof. unfold run_fn. apply foldl_app. Qed.

Lemma in_run_attrs s0 e done s e' :
  in_run s0 e done s -> effect_attrs s e' = effect_attrs s0 e'.
Proof. intros [R|R]; [apply (run_attrs _ _ _ _ R) | apply (rc_attrs _ _ _ _ R)]. Qed.

(** X18: [run()] on a stopped effect only calls its function. When
    this happens while another effect [e] is running, the reads of the
    function count as reads of [e]: the run of [e] ends in the same state
    as if [e] had made these reads itself. If [e] was entered in a state
    that satisfies the invariant [inv] of the stores (see [steps_outside])
    as an active effect that was not running yet, [e] is afterwards
    subscribed to them as to its own reads, and the stopped effect is
    subscribed to nothing more than before. *)
Theorem run_of_stopped_effect_subscribes_the_caller s e e' body1 fn body2 :
  inv s ->
  effect_active s e = true ->
  e ∉ effectStack s ->
  effect_active s e' = false ->
  let s1 := run_fn (run_enter s e) body1 in
  let s3 := run_leave (run_fn (run s1 e' fn) body2) e in
  run s1 e' fn = run_fn s1 fn
  /\ s3 = run s e (body1 ++ fn ++ body2)
  /\ (forall t k, subscribed s3 e t k <-> (t, k) ∈ body1 ++ fn ++ body2)
  /\ (forall t k, subscribed s3 e' t k <-> subscribed s e' t k).
Proof.
  intros Hinv Hact Hstack Hstopped s1 s3.
  assert (Hrun : in_run s e body1 s1).
  { apply (run_fn_in_run s e [] (run_enter s e) body1).
    apply run_enter_in_run; [done | by apply effect_active_is_Some]. }
  assert (Hinner : run s1 e' fn = run_fn s1 fn).
  { unfold run.
    rewrite (effect_active_attrs s s1 e' (in_run_attrs _ _ _ _ e' Hrun)).
    by rewrite Hstopped. }
  assert (Hwhole : s3 = run s e (body1 ++ fn ++ body2)).
  { unfold s3. rewrite Hinner. unfold s1, run.
    rewrite Hact, bool_decide_eq_false_2 by done. cbn [negb].
    by rewrite !run_fn_app. }
  split; [done|]. split; [done|].
  destruct (run_ran s e (body1 ++ fn ++ body2) Hinv Hact Hstack)
    as [_ Hsub Hframe _ _ _ _].
  rewrite Hwhole. split; [exact Hsub|].
  intros t k. apply Hframe. intros ->. congruence.
Qed.

(** An effect that was stopped before it ever ran, next to [one_effect]. *)
Definition with_stopped_effect : state :=
  let s := (new_ReactiveEffect one_effect false).1 in
  with_effect_store s (alter (λ eff, set_active eff false) 1%nat (effect_store s)).

Lemma set_active_inv s e b :
  inv s ->
  inv (with_effect_store s (alter (λ eff, set_active eff b) e (effect_store s))).
Proof.
  intros [[Hcons Hndd Hndm Hmv Hmi] Hclean Hactive].
  assert (Hdeps : forall e',
             effect_deps
               (with_effect_store s
                  (alter (λ eff, set_active eff b) e (effect_store s))) e'
             = effect_deps s e').
  { intros e'. unfold effect_deps. cbn [effect_store with_effect_store].
    destruct (decide (e' = e)) as [->|Hne].
    - rewrite list_lookup_alter_eq. by destruct (effect_store s !! e).
    - by rewrite list_lookup_alter_ne. }
  split; [split|..]; try done.
  - intros e' i. rewrite Hdeps. apply Hcons.
  - intros e'. rewrite Hdeps. apply Hndd.
Qed.

Lemma run_of_stopped_effect_subscribes_the_caller_witness :
  subscribed
    (run_leave
       (run_fn
          (run (run_fn (run_enter with_stopped_effect 0) [])
               1 [(0%nat, KStr "x")])
          [])
       0)
    0 0%nat (KStr "x").
Proof.
  assert (Hinv : inv with_stopped_effect).
  { apply set_active_inv, new_ReactiveEffect_inv, one_effect_inv. }
  assert (Hstack : 0%nat ∉ effectStack with_stopped_effect)
    by by intros ?%elem_of_nil.
  destruct (run_of_stopped_effect_subscribes_the_caller with_stopped_effect
              0%nat 1%nat [] [(0%nat, KStr "x")] [] Hinv eq_refl Hstack eq_refl)
    as (_ & _ & Hsub & _).
  apply Hsub. by left.
Defined.

End Effect.


(* ================================================================== *)
(** * Reactive proxies: reactivity/reactive.js and baseHandlers.js *)
(* ================================================================== *)

Module Reactive.
Import Shared Store.

(** The heap, the four [WeakMap]s of reactive.js, and the state of
    effect.js, which the [get] traps reach through [track]. *)
Record world : Type := {
  objects : heap;
  reactiveMap : gmap addr addr;
  shallowReactiveMap : gmap addr addr;
  readonlyMap : gmap addr addr;
  shallowReadonlyMap : gmap addr addr;
  eff : Effect.state
}.

Inductive map_name : Type :=
| ReactiveMap | ShallowReactiveMap | ReadonlyMap | ShallowReadonlyMap.

#[global] Instance map_name_eq_dec : EqDecision map_name.
Proof. solve_decision. Defined.

Definition get_map (w : world) (m : map_name) : gmap addr addr :=
  match m with
  | ReactiveMap => reactiveMap w
  | ShallowReactiveMap => shallowReactiveMap w
  | ReadonlyMap => readonlyMap w
  | ShallowReadonlyMap => shallowReadonlyMap w
  end.

Definition with_objects (w : world) (h : heap) : world :=
  {| objects := h; reactiveMap := reactiveMap w;
     shallowReactiveMap := shallowReactiveMap w; readonlyMap := readonlyMap w;
     shallowReadonlyMap := shallowReadonlyMap w; eff := eff w |}.

Definition with_eff (w : world) (e : Effect.state) : world :=
  {| objects := objects w; reactiveMap := reactiveMap w;
     shallowReactiveMap := shallowReactiveMap w; readonlyMap := readonlyMap w;
     shallowReadonlyMap := shallowReadonlyMap w; eff := e |}.

(** [proxyMap.set(target, proxy)] *)
Definition set_map (w : world) (m : map_name) (t p : addr) : world :=
  {| objects := objects w;
     reactiveMap :=
       if bool_decide (m = ReactiveMap) then <[t := p]> (reactiveMap w)
       else reactiveMap w;
     shallowReactiveMap :=
       if bool_decide (m = ShallowReactiveMap) then <[t := p]> (shallowReactiveMap w)
       else shallowReactiveMap w;
     readonlyMap :=
       if bool_decide (m = ReadonlyMap) then <[t := p]> (readonlyMap w)
       else readonlyMap w;
     shallowReadonlyMap :=
       if bool_decide (m = ShallowReadonlyMap) then <[t := p]> (shallowReadonlyMap w)
       else shallowReadonlyMap w;
     eff := eff w |}.

(** The arguments with which each handler object's [get] was created:
    [createGetter(isReadonly, shallow)] and
    [createCollectionGetter(isReadonly, isShallow)]. *)
Definition handler_isReadonly (h : handler_name) : bool :=
  match h with
  | readonlyHandlers | shallowReadonlyHandlers
  | readonlyCollectionHandlers | shallowReadonlyCollectionHandlers => true
  | _ => false
  end.

Definition handler_shallow (h : handler_name) : bool :=
  match h with
  | shallowReactiveHandlers | shallowReadonlyHandlers
  | shallowCollectionHandlers | shallowReadonlyCollectionHandlers => true
  | _ => false
  end.

Definition handler_is_collection (h : handler_name) : bool :=
  match h with
  | mutableCollectionHandlers | readonlyCollectionHandlers
  | shallowCollectionHandlers | shallowReadonlyCollectionHandlers => true
  | _ => false
  end.

(** The map that [createGetter] compares the receiver against:
    [(isReadonly ? shallow ? shallowReadonlyMap : readonlyMap
                 : shallow ? shallowReactiveMap : reactiveMap)] *)
Definition getter_map (isReadonly shallow : bool) : map_name :=
  if isReadonly then (if shallow then ShallowReadonlyMap else ReadonlyMap)
  else (if shallow then ShallowReactiveMap else ReactiveMap).

Definition track_in (w : world) (target : addr) (k : key) : world :=
  with_eff w (Effect.track (eff w) target k).

(** [obj["__raw"]] with the given receiver.

    An ordinary object is taken to have no property of this name
    ([ReactiveFlags.flagless] below says so where a statement depends on
    it). On a proxy the [get] trap answers:
    - collection handlers: [key === ReactiveFlags.RAW] gives [target];
    - base handlers: [key === ReactiveFlags.RAW && receiver === map.get(target)]
      gives [target]; otherwise the trap falls through to
      [Reflect.get(target, key, receiver)] and, when not readonly,
      [track(target, GET, key)].
    After the fall-through the trap would wrap an object result in
    [reactive]/[readonly]; the model returns the result as it is. In a
    well-formed world (see [wf], [get_RAW_registered]) a proxy read with
    itself as receiver never takes the fall-through. *)
Fixpoint get_RAW (fuel : nat) (w : world) (a receiver : addr)
  : world * option addr :=
  match objects w !! a with
  | Some (Proxy t h) =>
      if handler_is_collection h then (w, Some t)
      else if bool_decide
                (get_map w (getter_map (handler_isReadonly h) (handler_shallow h)) !! t
                 = Some receiver)
      then (w, Some t)
      else
        match fuel with
        | O => (w, None)
        | S fuel' =>
            let '(w1, res) := get_RAW fuel' w t receiver in
            (if handler_isReadonly h then w1 else track_in w1 t (KStr "__raw"), res)
        end
  | _ => (w, None)
  end.

(** [obj["__skip"]], as a boolean. No handler treats this key specially:
    a base [get] trap reads it from its target and, when not readonly,
    tracks it; a collection [get] trap reads it from its target. *)
Fixpoint get_SKIP (fuel : nat) (w : world) (a : addr) : world * bool :=
  match objects w !! a with
  | Some (Raw r) => (w, skip r)
  | Some (Proxy t h) =>
      match fuel with
      | O => (w, false)
      | S fuel' =>
          let '(w1, res) := get_SKIP fuel' w t in
          (if handler_is_collection h || handler_isReadonly h then w1
           else track_in w1 t (KStr "__skip"), res)
      end
  | None => (w, false)
  end.

(** [obj["__isReactive"]] and [obj["__isReadonly"]]: both getters answer
    these keys first, without looking at the target. An ordinary object is
    taken to have no property of these names ([ReactiveFlags.flagless]
    below says so where a statement depends on it). *)
Definition get_IS_REACTIVE (w : world) (a : addr) : bool :=
  match objects w !! a with
  | Some (Proxy _ h) => negb (handler_isReadonly h)
  | _ => false
  end.

Definition get_IS_READONLY (w : world) (a : addr) : bool :=
  match objects w !! a with
  | Some (Proxy _ h) => handler_isReadonly h
  | _ => false
  end.

(** [export function isReadonly(value) {
       return !!(value && value[ReactiveFlags.IS_READONLY]); }] *)
Definition isReadonly (w : world) (v : value) : bool :=
  match v with
  | VObject a => get_IS_READONLY w a
  | _ => false
  end.

(** [TargetType] and [targetTypeMap] *)
Inductive TargetType : Type := INVALID | COMMON | COLLECTION.

#[global] Instance TargetType_eq_dec : EqDecision TargetType.
Proof. solve_decision. Defined.

Definition targetTypeMap (rawType : raw_type) : TargetType :=
  match rawType with
  | TObject | TArray => COMMON
  | TMap | TSet | TWeakMap | TWeakSet => COLLECTION
  | TOther => INVALID
  end.

(** <<
    function getTargetType(value) {
        return value[ReactiveFlags.SKIP] || !Object.isExtensible(value)
            ? TargetType.INVALID
            : targetTypeMap(toRawType(value));
    }
    >> *)
Definition getTargetType (w : world) (a : addr) : world * TargetType :=
  let '(w1, sk) := get_SKIP (length (objects w)) w a in
  (w1, if sk || negb (isExtensible (objects w1) a) then INVALID
       else targetTypeMap (toRawType (objects w1) a)).

(** <<
    function createReactiveObject(target, isReadonly, baseHandlers,
                                  collectionHandlers, proxyMap) {
        if (!isObject(target)) { return target; }
        if (target[ReactiveFlags.RAW] &&
            !(isReadonly && target[ReactiveFlags.IS_REACTIVE])) { return target; }
        const existingProxy = proxyMap.get(target);
        if (existingProxy) { return existingProxy; }
        const targetType = getTargetType(target);
        if (targetType === TargetType.INVALID) { return target; }
        const proxy = new Proxy(target,
            targetType === TargetType.COLLECTION ? collectionHandlers : baseHandlers);
        proxyMap.set(target, proxy);
        return proxy;
    }
    >> *)
Definition createReactiveObject (w : world) (target : value) (isReadonly_ : bool)
    (baseHandlers collectionHandlers : handler_name) (proxyMap : map_name)
  : world * value :=
  match target with
  | VObject a =>
      let '(w1, raw) := get_RAW (length (objects w)) w a a in
      if bool_decide (is_Some raw) && negb (isReadonly_ && get_IS_REACTIVE w1 a)
      then (w1, target)
      else
        match get_map w1 proxyMap !! a with
        | Some existingProxy => (w1, VObject existingProxy)
        | None =>
            let '(w2, targetType) := getTargetType w1 a in
            if bool_decide (targetType = INVALID) then (w2, target)
            else
              let '(h', proxy) :=
                alloc (objects w2)
                      (Proxy a (if bool_decide (targetType = COLLECTION)
                                then collectionHandlers else baseHandlers)) in
              (set_map (with_objects w2 h') proxyMap a proxy, VObject proxy)
        end
  | _ => (w, target)
  end.

(** [reactive], [shallowReactive], [readonly], [shallowReadonly] *)
Definition reactive (w : world) (target : value) : world * value :=
  if isReadonly w target then (w, target)
  else createReactiveObject w target false
         mutableHandlers mutableCollectionHandlers ReactiveMap.

Definition shallowReactive (w : world) (target : value) : world * value :=
  createReactiveObject w target false
    shallowReactiveHandlers shallowCollectionHandlers ShallowReactiveMap.

Definition readonly (w : world) (target : value) : world * value :=
  createReactiveObject w target true
    readonlyHandlers readonlyCollectionHandlers ReadonlyMap.

Definition shallowReadonly (w : world) (target : value) : world * value :=
  createReactiveObject w target true
    shallowReadonlyHandlers shallowReadonlyCollectionHandlers ShallowReadonlyMap.

(** <<
    export function toRaw(observed) {
        const raw = observed && observed[ReactiveFlags.RAW];
        return raw ? toRaw(raw) : observed;
    }
    >> *)
Fixpoint toRaw_fuel (fuel : nat) (w : world) (a : addr) : world * addr :=
  let '(w1, raw) := get_RAW (length (objects w)) w a a in
  match raw, fuel with
  | Some r, S fuel' => toRaw_fuel fuel' w1 r
  | _, _ => (w1, a)
  end.

Definition toRaw (w : world) (observed : value) : world * value :=
  match observed with
  | VObject a =>
      let '(w1, r) := toRaw_fuel (length (objects w)) w a in (w1, VObject r)
  | _ => (w, observed)
  end.

(** <<
    export function markRaw(value) {
        def(value, ReactiveFlags.SKIP, true);
        return value;
    }
    >>
    for an ordinary extensible object ([Object.defineProperty] throws on a
    non-extensible one, and on a proxy it reaches the target). *)
Definition markRaw (w : world) (a : addr) : option world :=
  match objects w !! a with
  | Some (Raw r) =>
      if extensible r then
        Some (with_objects w
                (<[a := Raw {| rawType := rawType r; skip := true;
                               extensible := extensible r; props := props r; descriptors := descriptors r;
                               elements := elements r |}]> (objects w)))
      else None
  | _ => None
  end.

(** [export const toReactive = (value) => isObject(value) ? reactive(value) : value;] *)
Definition toReactive (w : world) (v : value) : world * value :=
  if isObject v then reactive w v else (w, v).

(** ** Well-formed worlds *)

(** The map in which a proxy with the given handlers is registered. *)
Definition handler_map (h : handler_name) : map_name :=
  getter_map (handler_isReadonly h) (handler_shallow h).

(** [root_at h a r]: following proxy targets from [a] ends at the ordinary
    object [r]. *)
Inductive root_at (h : heap) : addr -> raw_object -> Prop :=
| root_at_raw a r :
    h !! a = Some (Raw r) -> root_at h a r
| root_at_proxy a t hd r :
    h !! a = Some (Proxy t hd) -> root_at h t r -> root_at h a r.

Definition is_collection_type (ty : raw_type) : bool :=
  bool_decide (targetTypeMap ty = COLLECTION).

(** The invariant that the four constructors maintain: a proxy is younger
    than its target, is registered for its target in the map of its kind,
    has collection handlers exactly when it stands for a collection, and
    the maps hold nothing else. *)
Record wf (w : world) : Prop := {
  wf_target : forall a t h,
    objects w !! a = Some (Proxy t h) -> (t < a)%nat;
  wf_registered : forall a t h,
    objects w !! a = Some (Proxy t h) -> get_map w (handler_map h) !! t = Some a;
  wf_handlers : forall a t h,
    objects w !! a = Some (Proxy t h) ->
    exists r, root_at (objects w) t r
              /\ handler_is_collection h = is_collection_type (rawType r);
  wf_maps : forall m t p,
    get_map w m !! t = Some p ->
    exists h, objects w !! p = Some (Proxy t h) /\ handler_map h = m
}.

(** A world of ordinary objects only, before any proxy was made. *)
Definition initial_world (h : heap) (e : Effect.state) : world :=
  {| objects := h; reactiveMap := ∅; shallowReactiveMap := ∅;
     readonlyMap := ∅; shallowReadonlyMap := ∅; eff := e |}.

Definition all_raw (h : heap) : Prop :=
  forall a o, h !! a = Some o -> exists r, o = Raw r.

(** The four constructors, by the map they use. *)
Definition construct (m : map_name) : world -> value -> world * value :=
  match m with
  | ReactiveMap => reactive
  | ShallowReactiveMap => shallowReactive
  | ReadonlyMap => readonly
  | ShallowReadonlyMap => shallowReadonly
  end.

Definition map_isReadonly (m : map_name) : bool :=
  match m with
  | ReadonlyMap | ShallowReadonlyMap => true
  | _ => false
  end.

Definition map_baseHandlers (m : map_name) : handler_name :=
  match m with
  | ReactiveMap => mutableHandlers
  | ShallowReactiveMap => shallowReactiveHandlers
  | ReadonlyMap => readonlyHandlers
  | ShallowReadonlyMap => shallowReadonlyHandlers
  end.

Definition map_collectionHandlers (m : map_name) : handler_name :=
  match m with
  | ReactiveMap => mutableCollectionHandlers
  | ShallowReactiveMap => shallowCollectionHandlers
  | ReadonlyMap => readonlyCollectionHandlers
  | ShallowReadonlyMap => shallowReadonlyCollectionHandlers
  end.

Lemma initial_world_wf h e : all_raw h -> wf (initial_world h e).
Proof.
  intros Hraw. split.
  - intros a t hd Ha. destruct (Hraw _ _ Ha) as [r Hr]. discriminate.
  - intros a t hd Ha. destruct (Hraw _ _ Ha) as [r Hr]. discriminate.
  - intros a t hd Ha. destruct (Hraw _ _ Ha) as [r Hr]. discriminate.
  - intros m t p. destruct m; simpl; rewrite lookup_empty; discriminate.
Qed.

Lemma get_map_with_eff w e m : get_map (with_eff w e) m = get_map w m.
Proof. by destruct m. Qed.

Lemma wf_with_eff w e : wf w -> wf (with_eff w e).
Proof.
  intros [H1 H2 H3 H4]. split; simpl.
  - exact H1.
  - intros a t h Ha. rewrite get_map_with_eff. eauto.
  - exact H3.
  - intros m t p. rewrite get_map_with_eff. eauto.
Qed.

Lemma with_eff_with_eff w e e' : with_eff (with_eff w e) e' = with_eff w e'.
Proof. reflexivity. Qed.

Lemma with_eff_id w : with_eff w (eff w) = w.
Proof. by destruct w. Qed.

(** In a well-formed world [a["__raw"]] is answered by the first test of
    the trap: the target for a proxy, [undefined] otherwise. *)
Lemma get_RAW_registered fuel w a :
  wf w ->
  get_RAW fuel w a a
  = (w, match objects w !! a with
        | Some (Proxy t _) => Some t
        | _ => None
        end).
Proof.
  intros Hwf. destruct fuel; cbn -[get_map getter_map];
    destruct (objects w !! a) as [[r|t h]|] eqn:Ha; try reflexivity;
    destruct (handler_is_collection h); try reflexivity;
    pose proof (wf_registered w Hwf a t h Ha) as Hreg;
    unfold handler_map in Hreg;
    by rewrite bool_decide_eq_true_2.
Qed.

(** Reading [__skip] changes nothing but the state of effect.js, and its
    result depends on the heap alone. *)
Fixpoint skip_of (fuel : nat) (h : heap) (a : addr) : bool :=
  match h !! a with
  | Some (Raw r) => skip r
  | Some (Proxy t _) =>
      match fuel with
      | O => false
      | S fuel' => skip_of fuel' h t
      end
  | None => false
  end.

Lemma get_SKIP_spec fuel w a :
  exists e, get_SKIP fuel w a = (with_eff w e, skip_of fuel (objects w) a).
Proof.
  revert w a. induction fuel as [|fuel IH]; intros w a; simpl.
  - destruct (objects w !! a) as [[r|t h]|]; exists (eff w);
      by rewrite with_eff_id.
  - destruct (objects w !! a) as [[r|t h]|];
      try (exists (eff w); by rewrite with_eff_id).
    destruct (IH w t) as [e ->].
    destruct (handler_is_collection h || handler_isReadonly h).
    + by exists e.
    + eexists. unfold track_in. simpl. reflexivity.
Qed.

Lemma get_SKIP_raw fuel w a r :
  objects w !! a = Some (Raw r) -> get_SKIP fuel w a = (w, skip r).
Proof. intros Ha. destruct fuel; simpl; by rewrite Ha. Qed.

(** The type test proper, on the heap. *)
Definition targetType_of (h : heap) (a : addr) : TargetType :=
  if skip_of (length h) h a || negb (isExtensible h a) then INVALID
  else targetTypeMap (toRawType h a).

Lemma getTargetType_spec w a :
  exists e, getTargetType w a = (with_eff w e, targetType_of (objects w) a).
Proof.
  unfold getTargetType.
  destruct (get_SKIP_spec (length (objects w)) w a) as [e ->].
  by exists e.
Qed.

Lemma getTargetType_raw w a r :
  objects w !! a = Some (Raw r) ->
  getTargetType w a = (w, targetType_of (objects w) a).
Proof.
  intros Ha. unfold getTargetType, targetType_of.
  rewrite (get_SKIP_raw _ w a r Ha).
  destruct (length (objects w)); simpl; by rewrite Ha.
Qed.

Lemma targetType_dangling h a : h !! a = None -> targetType_of h a = INVALID.
Proof.
  intros Ha. unfold targetType_of, isExtensible, root.
  destruct (length h); simpl; rewrite Ha; reflexivity.
Qed.

Definition is_proxy (w : world) (a : addr) : bool :=
  match objects w !! a with
  | Some (Proxy _ _) => true
  | _ => false
  end.

Lemma get_map_set_map w m t p m' :
  get_map (set_map w m t p) m'
  = if decide (m' = m) then <[t := p]> (get_map w m') else get_map w m'.
Proof. destruct m, m'; reflexivity. Qed.

Lemma get_map_with_objects w h m : get_map (with_objects w h) m = get_map w m.
Proof. by destruct m. Qed.

(** The world after [new Proxy(target, handlers)] and [proxyMap.set]. *)
Definition add_proxy (w : world) (m : map_name) (a : addr) (h : handler_name)
  : world :=
  set_map (with_objects w (objects w ++ [Proxy a h])) m a (length (objects w)).

(** [createReactiveObject] in a well-formed world, with the property reads
    resolved. *)
Lemma createReactiveObject_wf_unfold w a ro bh ch m :
  wf w ->
  createReactiveObject w (VObject a) ro bh ch m
  = if is_proxy w a && negb (ro && get_IS_REACTIVE w a) then (w, VObject a)
    else match get_map w m !! a with
         | Some p => (w, VObject p)
         | None =>
             let '(w2, ty) := getTargetType w a in
             if bool_decide (ty = INVALID) then (w2, VObject a)
             else (add_proxy w2 m a
                     (if bool_decide (ty = COLLECTION) then ch else bh),
                   VObject (length (objects w2)))
         end.
Proof.
  intros Hwf. unfold createReactiveObject, is_proxy.
  rewrite (get_RAW_registered _ w a Hwf).
  destruct (objects w !! a) as [[r|t h]|] eqn:Ha; reflexivity.
Qed.

(** Registering a fresh proxy for an unregistered, existing target keeps
    the world well-formed. *)
Lemma root_at_app h l a r : root_at h a r -> root_at (h ++ l) a r.
Proof.
  induction 1 as [a r Ha | a t hd r Ha _ IH].
  - apply root_at_raw. by apply lookup_app_l_Some.
  - eapply root_at_proxy; [by apply lookup_app_l_Some | exact IH].
Qed.

Lemma root_fuel_root_at fuel h a r :
  root_fuel fuel h a = Some r -> root_at h a r.
Proof.
  revert a. induction fuel as [|fuel IH]; intros a; simpl;
    destruct (h !! a) as [[r'|t hd]|] eqn:Ha; try discriminate.
  - intros [= ->]. by apply root_at_raw.
  - intros [= ->]. by apply root_at_raw.
  - intros Hr. eapply root_at_proxy; [exact Ha | by apply IH].
Qed.

Lemma add_proxy_wf w m a h :
  wf w ->
  is_Some (objects w !! a) ->
  get_map w m !! a = None ->
  handler_map h = m ->
  (exists r, root_at (objects w) a r
             /\ handler_is_collection h = is_collection_type (rawType r)) ->
  wf (add_proxy w m a h).
Proof.
  intros Hwf Ha Hnone Hh Hroot.
  assert (Hlt : (a < length (objects w))%nat).
  { destruct Ha as [o Ho]. by apply lookup_lt_Some in Ho. }
  unfold add_proxy. split; simpl.
  - intros a' t h' Ha'.
    apply lookup_app_Some in Ha' as [Ha' | [Hge Ha']].
    + by apply (wf_target w Hwf a' t h').
    + apply list_lookup_singleton_Some in Ha' as [Hz Heq].
      injection Heq as <- <-. lia.
  - intros a' t h' Ha'.
    rewrite get_map_set_map, get_map_with_objects.
    apply lookup_app_Some in Ha' as [Ha' | [Hge Ha']].
    + pose proof (wf_registered w Hwf a' t h' Ha') as Hreg.
      destruct (decide (handler_map h' = m)) as [Hm|Hm]; [|done].
      destruct (decide (a = t)) as [->|Hne].
      * rewrite Hm in Hreg. congruence.
      * by rewrite lookup_insert_ne.
    + apply list_lookup_singleton_Some in Ha' as [Hz Heq].
      injection Heq as <- <-.
      rewrite decide_True by done.
      rewrite lookup_insert_eq. f_equal. lia.
  - intros a' t h' Ha'.
    apply lookup_app_Some in Ha' as [Ha' | [Hge Ha']].
    + destruct (wf_handlers w Hwf a' t h' Ha') as (r & Hr & Hc).
      exists r. split; [by apply root_at_app | done].
    + apply list_lookup_singleton_Some in Ha' as [Hz Heq].
      injection Heq as <- <-.
      destruct Hroot as (r & Hr & Hc).
      exists r. split; [by apply root_at_app | done].
  - intros m' t p.
    rewrite get_map_set_map, get_map_with_objects.
    destruct (decide (m' = m)) as [->|Hm].
    + destruct (decide (a = t)) as [<-|Hne].
      * rewrite lookup_insert_eq. intros [= <-].
        exists h. split; [|done].
        by apply list_lookup_middle.
      * rewrite lookup_insert_ne by done. intros Hp.
        destruct (wf_maps w Hwf m t p Hp) as (h' & Hobj & Hh').
        exists h'. split; [|done]. by apply lookup_app_l_Some.
    + intros Hp.
      destruct (wf_maps w Hwf m' t p Hp) as (h' & Hobj & Hh').
      exists h'. split; [|done]. by apply lookup_app_l_Some.
Qed.

(** A target that passes the type test has a root, and the handlers chosen
    for it are collection handlers exactly when the root is a collection. *)
Lemma targetType_handlers h a m :
  targetType_of h a <> INVALID ->
  exists r, root_at h a r
            /\ handler_is_collection
                 (if bool_decide (targetType_of h a = COLLECTION)
                  then map_collectionHandlers m else map_baseHandlers m)
               = is_collection_type (rawType r).
Proof.
  unfold targetType_of, isExtensible, toRawType, root.
  destruct (skip_of (length h) h a); [done|]. simpl.
  destruct (root_fuel (length h) h a) as [r|] eqn:Hr; [|done].
  destruct (extensible r); [|done]. simpl.
  intros Hinv. exists r. split; [by eapply root_fuel_root_at|].
  unfold is_collection_type.
  destruct (bool_decide (targetTypeMap (rawType r) = COLLECTION)); by destruct m.
Qed.

Lemma handler_map_base m : handler_map (map_baseHandlers m) = m.
Proof. by destruct m. Qed.

Lemma handler_map_collection m : handler_map (map_collectionHandlers m) = m.
Proof. by destruct m. Qed.

(** Every constructor is [createReactiveObject] at its own handlers and
    map, [reactive] after its [isReadonly] test. *)
Lemma construct_unfold m w v :
  construct m w v
  = if bool_decide (m = ReactiveMap) && isReadonly w v then (w, v)
    else createReactiveObject w v (map_isReadonly m)
           (map_baseHandlers m) (map_collectionHandlers m) m.
Proof.
  destruct m; reflexivity.
Qed.

(** The constructors keep the world well-formed. *)
Lemma construct_wf m w v :
  wf w -> wf (construct m w v).1.
Proof.
  intros Hwf. rewrite construct_unfold.
  destruct (bool_decide (m = ReactiveMap) && isReadonly w v); [done|].
  destruct v as [| |b|n|s|a]; try done.
  rewrite createReactiveObject_wf_unfold by done.
  destruct (is_proxy w a && _); [done|].
  destruct (get_map w m !! a) as [p|] eqn:Hmap; [done|].
  destruct (getTargetType_spec w a) as [e ->].
  destruct (bool_decide (targetType_of (objects w) a = INVALID)) eqn:Hinv; simpl.
  { by apply wf_with_eff. }
  apply add_proxy_wf.
  - by apply wf_with_eff.
  - simpl. destruct (objects w !! a) eqn:Ha; [eauto|].
    apply targetType_dangling in Ha.
    apply bool_decide_eq_false in Hinv. done.
  - by rewrite get_map_with_eff.
  - destruct (bool_decide (_ = COLLECTION));
      [apply handler_map_collection | apply handler_map_base].
  - apply (targetType_handlers _ _ m). by apply bool_decide_eq_false in Hinv.
Qed.

Lemma add_proxy_lookup_old w m a h a' :
  (a' < length (objects w))%nat ->
  objects (add_proxy w m a h) !! a' = objects w !! a'.
Proof.
  intros Hlt. unfold add_proxy, set_map, with_objects. cbn [objects].
  by apply lookup_app_l.
Qed.

Lemma add_proxy_lookup_map w m a h :
  get_map (add_proxy w m a h) m !! a = Some (length (objects w)).
Proof.
  unfold add_proxy. rewrite get_map_set_map, decide_True by done.
  by rewrite lookup_insert_eq.
Qed.

(** A value that is not an object is handed back. *)
Lemma construct_non_object m w v :
  isObject v = false -> construct m w v = (w, v).
Proof.
  intros Hv. rewrite construct_unfold.
  destruct v; try discriminate; by destruct (_ && _).
Qed.

(** A proxy made by the same constructor is handed back. *)
Lemma construct_matching_proxy m w a t h :
  wf w ->
  objects w !! a = Some (Proxy t h) ->
  handler_map h = m ->
  construct m w (VObject a) = (w, VObject a).
Proof.
  intros Hwf Ha Hh. rewrite construct_unfold.
  destruct (bool_decide (m = ReactiveMap) && isReadonly w (VObject a));
    [done|].
  rewrite createReactiveObject_wf_unfold by done.
  unfold is_proxy, get_IS_REACTIVE. rewrite Ha.
  subst m. by destruct h.
Qed.

(** An ordinary object carrying the skip flag, for which the constructor's
    map holds no proxy, is handed back and the world stays as it is. *)
Lemma construct_skip_unregistered m w a r :
  wf w ->
  objects w !! a = Some (Raw r) ->
  skip r = true ->
  get_map w m !! a = None ->
  construct m w (VObject a) = (w, VObject a).
Proof.
  intros Hwf Ha Hskip Hnone. rewrite construct_unfold.
  unfold isReadonly, get_IS_READONLY. rewrite Ha, andb_false_r.
  rewrite createReactiveObject_wf_unfold by done.
  unfold is_proxy. rewrite Ha, Hnone. simpl.
  rewrite (getTargetType_raw w a r Ha).
  unfold targetType_of.
  assert (Hs : skip_of (length (objects w)) (objects w) a = true).
  { destruct (length (objects w)); simpl; by rewrite Ha. }
  by rewrite Hs.
Qed.

(** An object for which the constructor's map already holds a proxy gets
    that proxy, whatever flags it carries now; nothing is allocated. *)
Lemma construct_registered m w a r p :
  wf w ->
  objects w !! a = Some (Raw r) ->
  get_map w m !! a = Some p ->
  construct m w (VObject a) = (w, VObject p).
Proof.
  intros Hwf Ha Hmap. rewrite construct_unfold.
  unfold isReadonly, get_IS_READONLY. rewrite Ha, andb_false_r.
  rewrite createReactiveObject_wf_unfold by done.
  unfold is_proxy. by rewrite Ha, Hmap.
Qed.

(** Calling a constructor again on the same argument returns what the
    first call returned. *)
Lemma construct_twice m w v :
  wf w ->
  (construct m (construct m w v).1 v).2 = (construct m w v).2.
Proof.
  intros Hwf.
  destruct (isObject v) eqn:Hobj; [|by rewrite !construct_non_object].
  destruct v as [| |b|n|s|a]; try discriminate. clear Hobj.
  rewrite (construct_unfold m w).
  destruct (bool_decide (m = ReactiveMap) && isReadonly w (VObject a)) eqn:Hpre.
  { simpl. rewrite construct_unfold, Hpre. reflexivity. }
  rewrite createReactiveObject_wf_unfold by done.
  destruct (is_proxy w a && negb (map_isReadonly m && get_IS_REACTIVE w a)) eqn:HP.
  { simpl. rewrite construct_unfold, Hpre.
    rewrite createReactiveObject_wf_unfold by done. by rewrite HP. }
  destruct (get_map w m !! a) as [p|] eqn:Hmap.
  { simpl. rewrite construct_unfold, Hpre.
    rewrite createReactiveObject_wf_unfold by done. by rewrite HP, Hmap. }
  destruct (getTargetType_spec w a) as [e He]. rewrite He.
  destruct (bool_decide (targetType_of (objects w) a = INVALID)) eqn:Hinv; simpl.
  - rewrite construct_unfold.
    assert (Hpre' : bool_decide (m = ReactiveMap) && isReadonly (with_eff w e) (VObject a)
                    = false) by exact Hpre.
    rewrite Hpre'.
    rewrite createReactiveObject_wf_unfold by by apply wf_with_eff.
    assert (HP' : is_proxy (with_eff w e) a
                  && negb (map_isReadonly m && get_IS_REACTIVE (with_eff w e) a)
                  = false) by exact HP.
    rewrite HP', get_map_with_eff, Hmap.
    destruct (getTargetType_spec (with_eff w e) a) as [e' ->].
    simpl. by rewrite Hinv.
  - assert (Hval : (a < length (objects w))%nat).
    { destruct (objects w !! a) eqn:Ha; [by apply lookup_lt_Some in Ha|].
      apply targetType_dangling in Ha. apply bool_decide_eq_false in Hinv. done. }
    set (h := if bool_decide (targetType_of (objects w) a = COLLECTION)
              then map_collectionHandlers m else map_baseHandlers m).
    set (w' := add_proxy (with_eff w e) m a h).
    assert (Hwf' : wf w').
    { apply add_proxy_wf.
      - by apply wf_with_eff.
      - simpl. by apply lookup_lt_is_Some.
      - by rewrite get_map_with_eff.
      - unfold h. destruct (bool_decide (_ = COLLECTION));
          [apply handler_map_collection | apply handler_map_base].
      - apply (targetType_handlers _ _ m). by apply bool_decide_eq_false in Hinv. }
    assert (Hobj : objects w' !! a = objects w !! a).
    { unfold w'. by rewrite add_proxy_lookup_old. }
    rewrite construct_unfold.
    assert (Hpre' : bool_decide (m = ReactiveMap) && isReadonly w' (VObject a) = false).
    { rewrite <- Hpre. unfold isReadonly, get_IS_READONLY. by rewrite Hobj. }
    rewrite Hpre'.
    rewrite createReactiveObject_wf_unfold by done.
    assert (HP' : is_proxy w' a && negb (map_isReadonly m && get_IS_REACTIVE w' a)
                  = false).
    { rewrite <- HP. unfold is_proxy, get_IS_REACTIVE. by rewrite Hobj. }
    rewrite HP'. unfold w'. by rewrite add_proxy_lookup_map.
Qed.

(** ** Writing through a proxy: the [set] and [deleteProperty] traps *)

(** A [set] trap [(target, key, value, receiver)] and a [deleteProperty]
    trap [(target, key)]: the new world, the boolean the trap returns, and
    the calls into effects it caused. *)
Definition set_trap : Type :=
  world -> addr -> key -> value -> addr -> world * bool * list Effect.invocation.
Definition delete_trap : Type :=
  world -> addr -> key -> world * bool * list Effect.invocation.

(** [readonlyHandlers]:
    <<
    export const readonlyHandlers = {
        get: readonlyGet,
        set() { return true; },
        deleteProperty() { return true; }
    };
    >> *)
Definition readonlyHandlers_set : set_trap :=
  λ w _ _ _ _, (w, true, []).
Definition readonlyHandlers_deleteProperty : delete_trap :=
  λ w _ _, (w, true, []).

Section Traps.

(** The traps of [mutableHandlers], which this development does not look
    into: [createSetter(shallow)] and [deleteProperty]. *)
Variable createSetter : bool -> set_trap.
Variable deleteProperty : delete_trap.

(** The [set] trap of each handler object, if it has one.
    [shallowReactiveHandlers = assign({}, mutableHandlers, {get: shallowGet, set: shallowSet})],
    [shallowReadonlyHandlers = assign({}, readonlyHandlers, {get: shallowReadonlyGet})],
    and the collection handler objects define [get] only. *)
Definition handler_set (h : handler_name) : option set_trap :=
  match h with
  | mutableHandlers => Some (createSetter false)
  | shallowReactiveHandlers => Some (createSetter true)
  | readonlyHandlers | shallowReadonlyHandlers => Some readonlyHandlers_set
  | _ => None
  end.

Definition handler_deleteProperty (h : handler_name) : option delete_trap :=
  match h with
  | mutableHandlers | shallowReactiveHandlers => Some deleteProperty
  | readonlyHandlers | shallowReadonlyHandlers => Some readonlyHandlers_deleteProperty
  | _ => None
  end.

Definition set_props (r : raw_object) (p : gmap key value) : raw_object :=
  {| rawType := rawType r; skip := skip r; extensible := extensible r;
     props := p; descriptors := descriptors r; elements := elements r |}.

(** What an assignment or a deletion does: the new world, the boolean it
    reports ([None] when it throws a [TypeError]), and the calls into
    effects it caused. *)
Definition outcome : Type := world * option bool * list Effect.invocation.

(** A new property is writable and configurable. *)
Definition create_prop (r : raw_object) (k : key) (v : value) : raw_object :=
  {| rawType := rawType r; skip := skip r; extensible := extensible r;
     props := <[k := v]> (props r); descriptors := delete k (descriptors r);
     elements := elements r |}.

(** Assignment to a named data property of an ordinary object: it
    succeeds when the property exists and is writable, or does not exist
    while the object is extensible. (The elements and the [length] of an
    array are not assigned to here: every proxy of an array has a [set]
    trap.) *)
Definition ordinary_set (w : world) (a : addr) (r : raw_object) (k : key) (v : value)
  : outcome :=
  match props r !! k with
  | Some _ =>
      if writable (descriptor_of r k) then
        (with_objects w (<[a := Raw (set_props r (<[k := v]> (props r)))]> (objects w)),
         Some true, [])
      else (w, Some false, [])
  | None =>
      if extensible r then
        (with_objects w (<[a := Raw (create_prop r k v)]> (objects w)), Some true, [])
      else (w, Some false, [])
  end.

Definition delete_prop (r : raw_object) (k : key) : raw_object :=
  {| rawType := rawType r; skip := skip r; extensible := extensible r;
     props := delete k (props r); descriptors := delete k (descriptors r);
     elements := elements r |}.

(** Deletion of a property of an ordinary object: it fails for a property
    that is not configurable. *)
Definition ordinary_delete (w : world) (a : addr) (r : raw_object) (k : key)
  : outcome :=
  if bool_decide (is_Some (props r !! k)) && negb (configurable (descriptor_of r k))
  then (w, Some false, [])
  else (with_objects w (<[a := Raw (delete_prop r k)]> (objects w)), Some true, []).

(** The value of the own property [k] of [r]: a named property, or an
    element of an array. *)
Definition own_value (r : raw_object) (k : key) : option value :=
  match props r !! k with
  | Some v => Some v
  | None =>
      match rawType r, k with
      | TArray, KStr s =>
          match key_index s with
          | Some i => elements r !! Z.to_nat i
          | None => None
          end
      | _, _ => None
      end
  end.

(** The check that [[Set]] of a proxy makes after its trap has reported
    success: the target must not have a non-configurable, non-writable own
    data property under the key whose value differs (by [SameValue]) from
    the value assigned. [target.[[GetOwnProperty]]] reaches the ordinary
    object behind the target, no handler object having a
    [getOwnPropertyDescriptor] trap. *)
Definition set_invariant_broken (w : world) (t : addr) (k : key) (v : value) : bool :=
  match root (objects w) t with
  | Some r =>
      match own_value r k with
      | Some pv =>
          negb (configurable (descriptor_of r k))
          && negb (writable (descriptor_of r k))
          && negb (bool_decide (v = pv))
      | None => false
      end
  | None => false
  end.

(** The check that [[Delete]] of a proxy makes after its trap has reported
    success: the target must not still have the property if that property
    is not configurable or the target is not extensible. *)
Definition delete_invariant_broken (w : world) (t : addr) (k : key) : bool :=
  match root (objects w) t with
  | Some r =>
      bool_decide (is_Some (own_value r k))
      && (negb (configurable (descriptor_of r k)) || negb (extensible r))
  | None => false
  end.

(** [obj[key] = value], that is [obj.[[Set]](key, value, receiver)]: a
    proxy calls the [set] trap of its handler object and, when the trap
    reports success, checks the invariant; without such a trap the
    operation reaches the target. *)
Fixpoint object_set (fuel : nat) (w : world) (a : addr) (k : key) (v : value)
    (receiver : addr) : outcome :=
  match objects w !! a with
  | Some (Raw r) => ordinary_set w a r k v
  | Some (Proxy t h) =>
      match handler_set h with
      | Some trap =>
          let '(w', b, calls) := trap w t k v receiver in
          if b then
            (w', if set_invariant_broken w' t k v then None else Some true, calls)
          else (w', Some false, calls)
      | None =>
          match fuel with
          | O => (w, Some false, [])
          | S fuel' => object_set fuel' w t k v receiver
          end
      end
  | None => (w, Some false, [])
  end.

(** [delete obj[key]], that is [obj.[[Delete]](key)] *)
Fixpoint object_delete (fuel : nat) (w : world) (a : addr) (k : key) : outcome :=
  match objects w !! a with
  | Some (Raw r) => ordinary_delete w a r k
  | Some (Proxy t h) =>
      match handler_deleteProperty h with
      | Some trap =>
          let '(w', b, calls) := trap w t k in
          if b then
            (w', if delete_invariant_broken w' t k then None else Some true, calls)
          else (w', Some false, calls)
      | None =>
          match fuel with
          | O => (w, Some false, [])
          | S fuel' => object_delete fuel' w t k
          end
      end
  | None => (w, Some false, [])
  end.

Definition assign (w : world) (a : addr) (k : key) (v : value) : outcome :=
  object_set (length (objects w)) w a k v a.

Definition delete_property (w : world) (a : addr) (k : key) : outcome :=
  object_delete (length (objects w)) w a k.

End Traps.

(** ** Concrete worlds for evaluation *)

Definition plain_object : raw_object :=
  {| rawType := TObject; skip := false; extensible := true;
     props := {[ KStr "x" := VNumber (JNum 1) ]}; descriptors := ∅;
     elements := [] |}.

Definition a_Map : raw_object :=
  {| rawType := TMap; skip := false; extensible := true;
     props := ∅; descriptors := ∅; elements := [] |}.

(** A heap with one plain object at address 0 and one [Map] at address 1. *)
Definition world0 : world :=
  initial_world [Raw plain_object; Raw a_Map] Effect.initial_state.

Lemma world0_wf : wf world0.
Proof.
  apply initial_world_wf. intros a o Ha.
  destruct a as [|[|a]]; simpl in Ha; [| |done]; injection Ha as <-; eauto.
Qed.

(** Traps for [mutableHandlers] that do nothing, for evaluation only. *)
Definition no_setter : bool -> set_trap := λ _ w _ _ _ _, (w, true, []).
Definition no_deleter : delete_trap := λ w _ _, (w, true, []).

Lemma root_at_insert_raw h a r0 r1 t r :
  h !! a = Some (Raw r0) ->
  rawType r1 = rawType r0 ->
  root_at h t r ->
  exists r', root_at (<[a := Raw r1]> h) t r' /\ rawType r' = rawType r.
Proof.
  intros Ha Hty. induction 1 as [t r Ht | t t' hd r Ht _ IH].
  - destruct (decide (t = a)) as [->|Hne].
    + exists r1. split; [|congruence].
      apply root_at_raw. apply list_lookup_insert_eq. by eapply lookup_lt_Some.
    + exists r. split; [|done]. apply root_at_raw.
      by rewrite list_lookup_insert_ne.
  - destruct IH as (r' & Hr' & Hty').
    exists r'. split; [|done].
    eapply root_at_proxy; [|exact Hr'].
    rewrite list_lookup_insert_ne; [done|]. intros ->. congruence.
Qed.

(** [markRaw] keeps the world well-formed. *)
Lemma markRaw_wf w a w' : wf w -> markRaw w a = Some w' -> wf w'.
Proof.
  intros Hwf. unfold markRaw.
  destruct (objects w !! a) as [[r|t h]|] eqn:Ha; try discriminate.
  destruct (extensible r); [|discriminate]. intros [= <-].
  assert (Hproxy : forall a' t h,
             <[a := Raw {| rawType := rawType r; skip := true;
                           extensible := true; props := props r; descriptors := descriptors r;
                           elements := elements r |}]> (objects w) !! a'
             = Some (Proxy t h) -> objects w !! a' = Some (Proxy t h)).
  { intros a' t h Ha'. destruct (decide (a' = a)) as [->|Hne].
    - rewrite list_lookup_insert_eq in Ha' by by eapply lookup_lt_Some.
      discriminate.
    - by rewrite list_lookup_insert_ne in Ha'. }
  split; simpl.
  - intros a' t h Ha'. eapply wf_target; eauto.
  - intros a' t h Ha'. rewrite get_map_with_objects.
    eapply wf_registered; eauto.
  - intros a' t h Ha'.
    destruct (wf_handlers w Hwf a' t h (Hproxy _ _ _ Ha')) as (r' & Hr' & Hc).
    destruct (root_at_insert_raw (objects w) a r
                {| rawType := rawType r; skip := true; extensible := true;
                   props := props r; descriptors := descriptors r; elements := elements r |} t r' Ha eq_refl Hr')
      as (r'' & Hr'' & Hty).
    exists r''. split; [done|]. by rewrite Hty.
  - intros m t p. rewrite get_map_with_objects. intros Hp.
    destruct (wf_maps w Hwf m t p Hp) as (h & Hobj & Hh).
    exists h. split; [|done].
    rewrite list_lookup_insert_ne; [done|]. intros ->. congruence.
Qed.

(** What a constructor returns for an ordinary object: the object itself,
    or the proxy that the constructor's map now holds for it. *)
Lemma construct_raw_result m w x r w1 v :
  wf w ->
  objects w !! x = Some (Raw r) ->
  construct m w (VObject x) = (w1, v) ->
  wf w1 /\ objects w1 !! x = Some (Raw r)
  /\ (v = VObject x \/ exists p, v = VObject p /\ get_map w1 m !! x = Some p).
Proof.
  intros Hwf Hx Hc.
  split. { replace w1 with (construct m w (VObject x)).1 by by rewrite Hc.
           by apply construct_wf. }
  revert Hc. rewrite construct_unfold.
  unfold isReadonly, get_IS_READONLY. rewrite Hx, andb_false_r.
  rewrite createReactiveObject_wf_unfold by done.
  unfold is_proxy. rewrite Hx. simpl.
  destruct (get_map w m !! x) as [p|] eqn:Hmap.
  { intros [= <- <-]. eauto. }
  rewrite (getTargetType_raw w x r Hx).
  destruct (bool_decide (targetType_of (objects w) x = INVALID)).
  { intros [= <- <-]. eauto. }
  intros [= <- <-]. split.
  - rewrite add_proxy_lookup_old; [done | by eapply lookup_lt_Some].
  - right. eexists. split; [done|]. apply add_proxy_lookup_map.
Qed.

Lemma root_at_raw_inv h a r r' :
  h !! a = Some (Raw r) -> root_at h a r' -> r' = r.
Proof. intros Ha. inversion 1; congruence. Qed.

(** C7 (as stated, refuted), the clause on skip-marked objects: every
    constructor hands a skip-marked object back. *)
Definition skip_marked_returns_argument : Prop :=
  forall m w a r,
    wf w -> objects w !! a = Some (Raw r) -> skip r = true ->
    (construct m w (VObject a)).2 = VObject a.

(** [const o = {x: 1}; const p = reactive(o); markRaw(o);] then
    [reactive(o)] is [p], not [o]: the map is consulted before the flag. *)
Lemma reactive_skip_marked_after_proxying_returns_proxy :
  ~ skip_marked_returns_argument.
Proof.
  intros Hclaim.
  destruct (reactive world0 (VObject 0)) as [w1 p] eqn:H1.
  destruct (markRaw w1 0) as [w2|] eqn:H2; [|by vm_compute in H1; injection H1 as <- <-].
  assert (Hwf2 : wf w2).
  { apply (markRaw_wf w1 0); [|done].
    replace w1 with (construct ReactiveMap world0 (VObject 0)).1
      by (simpl; by rewrite H1).
    apply construct_wf, world0_wf. }
  assert (Hobj : exists r, objects w2 !! 0%nat = Some (Raw r) /\ skip r = true).
  { vm_compute in H1. injection H1 as <- <-.
    vm_compute in H2. injection H2 as <-. eexists. split; reflexivity. }
  destruct Hobj as (r & Hr & Hskip).
  specialize (Hclaim ReactiveMap w2 0%nat r Hwf2 Hr Hskip).
  vm_compute in H1. injection H1 as <- <-.
  vm_compute in H2. injection H2 as <-.
  vm_compute in Hclaim. discriminate.
Qed.

(** C7 (amended): in a well-formed world, for each of [reactive],
    [shallowReactive], [readonly], [shallowReadonly] ([construct m]):
    - calling it again on the same value returns what the first call
      returned;
    - a non-object is returned unchanged, and so is a proxy made by the same
      constructor;
    - an ordinary object for which the constructor's map already holds a
      proxy gets that proxy, also when it has been skip-marked since; the
      world does not change;
    - a skip-marked object without such an entry is returned unchanged and
      no proxy is created. *)
Theorem proxy_identity_and_passthrough (m : map_name) (w : world) (v : value) :
  wf w ->
  (construct m (construct m w v).1 v).2 = (construct m w v).2
  /\ (isObject v = false -> construct m w v = (w, v))
  /\ (forall a t h, v = VObject a -> objects w !! a = Some (Proxy t h) ->
        handler_map h = m -> construct m w v = (w, v))
  /\ (forall a r p, v = VObject a -> objects w !! a = Some (Raw r) ->
        get_map w m !! a = Some p -> construct m w v = (w, VObject p))
  /\ (forall a r, v = VObject a -> objects w !! a = Some (Raw r) ->
        skip r = true -> get_map w m !! a = None -> construct m w v = (w, v)).
Proof.
  intros Hwf. split; [by apply construct_twice|].
  split; [by apply construct_non_object|].
  split; [intros a t h -> Ha Hh; by eapply construct_matching_proxy|].
  split; [intros a r p -> Ha Hp; by eapply construct_registered|].
  intros a r -> Ha Hs Hn. by eapply construct_skip_unregistered.
Qed.

Lemma proxy_identity_and_passthrough_witness :
  wf world0
  /\ (construct ReactiveMap (construct ReactiveMap world0 (VObject 0)).1 (VObject 0)).2
     = (construct ReactiveMap world0 (VObject 0)).2.
Proof.
  split; [exact world0_wf|].
  exact (proj1 (proxy_identity_and_passthrough ReactiveMap world0 (VObject 0) world0_wf)).
Defined.

(** The proxy of the plain object of [world0] is a new object. *)
Example reactive_world0 :
  (reactive world0 (VObject 0)).2 = VObject 2
  /\ (readonly world0 (VObject 0)).2 = VObject 2
  /\ (reactive world0 (VNumber JNaN)).2 = VNumber JNaN.
Proof. vm_compute. done. Qed.

(** A plain object whose property [x] is neither writable nor
    configurable: [Object.defineProperty({}, "x", {value: 1})]. The object
    is extensible (a frozen object gets no proxy at all). *)
Definition constant_object : raw_object :=
  {| rawType := TObject; skip := false; extensible := true;
     props := {[ KStr "x" := VNumber (JNum 1) ]};
     descriptors := {[ KStr "x" := {| writable := false; configurable := false |} ]};
     elements := [] |}.

Definition constant_world : world :=
  initial_world [Raw constant_object] Effect.initial_state.

Lemma constant_world_wf : wf constant_world.
Proof.
  apply initial_world_wf. intros a o Ha.
  destruct a as [|a]; simpl in Ha; [|done]. injection Ha as <-. eauto.
Qed.


Lemma own_value_object r k : rawType r = TObject -> own_value r k = props r !! k.
Proof. intros Hty. unfold own_value. rewrite Hty. by destruct (props r !! k). Qed.

(** The ordinary object behind an ordinary object is the object itself. *)
Lemma root_raw h a r : h !! a = Some (Raw r) -> root h a = Some r.
Proof. intros Ha. unfold root. destruct (length h); simpl; by rewrite Ha. Qed.



(** The restriction to plain objects matters: the handler objects for
    collections define no [set] trap, so an assignment through a readonly
    proxy of a [Map] reaches the [Map] object itself. *)
Example readonly_Map_proxy_assignment_reaches_target :
  let w1 := (readonly world0 (VObject 1)).1 in
  (readonly world0 (VObject 1)).2 = VObject 2
  /\ objects (assign no_setter w1 2 (KStr "x") (VNumber (JNum 5))).1.1 !! 1%nat
     = Some (Raw (set_props a_Map {[ KStr "x" := VNumber (JNum 5) ]})).
Proof. vm_compute. done. Qed.

End Reactive.


(* ================================================================== *)
(** * The array search methods of baseHandlers.js *)
(* ================================================================== *)

Module ArrayOperations.
Import Shared Store Reactive.

(** The keys [["includes", "indexOf", "lastIndexOf"]]. *)
Inductive search_key : Type := K_includes | K_indexOf | K_lastIndexOf.

(** ** [Array.prototype.includes], [indexOf] and [lastIndexOf] on an
    ordinary array

    The arguments are the search element and an optional [fromIndex],
    which the model takes to be a number when it is present. *)

(** [ToIntegerOrInfinity]: [NaN] becomes [0]. *)
Definition ToInteger (x : jsnum) : Z :=
  match x with
  | JNaN => 0
  | JNum z => z
  end.

(** The first position at which [f] holds. *)
Fixpoint find_index (f : value -> bool) (l : list value) : option nat :=
  match l with
  | [] => None
  | x :: rest => if f x then Some 0%nat else S <$> find_index f rest
  end.

(** The last position at which [f] holds. *)
Fixpoint find_last_index (f : value -> bool) (l : list value) : option nat :=
  match l with
  | [] => None
  | x :: rest =>
      match find_last_index f rest with
      | Some i => Some (S i)
      | None => if f x then Some 0%nat else None
      end
  end.

(** Where [includes] and [indexOf] start:
    [n >= 0 ? n : max(len + n, 0)] with [n = ToIntegerOrInfinity(fromIndex)]. *)
Definition start_index (len : nat) (fromIndex : option jsnum) : nat :=
  let n := default 0 (ToInteger <$> fromIndex) in
  if (0 <=? n)%Z then Z.to_nat n else Z.to_nat (Z.max (Z.of_nat len + n) 0).

(** Where [lastIndexOf] starts, plus one:
    [n >= 0 ? min(n, len - 1) : len + n] with [n = len - 1] when
    [fromIndex] is absent. *)
Definition stop_index (len : nat) (fromIndex : option jsnum) : nat :=
  let n := default (Z.of_nat len - 1) (ToInteger <$> fromIndex) in
  let k := if (0 <=? n)%Z then Z.min n (Z.of_nat len - 1) else Z.of_nat len + n in
  Z.to_nat (k + 1).

Definition index_result (start : nat) (found : option nat) : value :=
  match found with
  | Some i => VNumber (JNum (Z.of_nat (start + i)))
  | None => VNumber (JNum (-1))
  end.

Definition Array_includes (elems : list value) (v : value) (fromIndex : option jsnum)
  : value :=
  let k := start_index (length elems) fromIndex in
  VBool (bool_decide (is_Some (find_index (same_value_zero v) (drop k elems)))).

Definition Array_indexOf (elems : list value) (v : value) (fromIndex : option jsnum)
  : value :=
  let k := start_index (length elems) fromIndex in
  index_result k (find_index (strict_equals v) (drop k elems)).

Definition Array_lastIndexOf (elems : list value) (v : value)
    (fromIndex : option jsnum) : value :=
  let k := stop_index (length elems) fromIndex in
  index_result 0 (find_last_index (strict_equals v) (take k elems)).

(** [arr[key](...args)] *)
Definition Array_search (key : search_key)
  : list value -> value -> option jsnum -> value :=
  match key with
  | K_includes => Array_includes
  | K_indexOf => Array_indexOf
  | K_lastIndexOf => Array_lastIndexOf
  end.

(** ** The operations that the [get] trap hands out *)

(** [createGetter]:
    <<
    if (!isReadonly && targetIsArray && hasOwn(arrayOperations, key)) {
        return Reflect.get(arrayOperations, key, receiver);
    }
    >>
    The proxies whose [includes], [indexOf] and [lastIndexOf] are the
    functions of [arrayOperations]. *)
Definition has_arrayOperations (w : world) (a : addr) : bool :=
  match objects w !! a with
  | Some (Proxy t h) =>
      negb (handler_is_collection h) && negb (handler_isReadonly h)
      && isArray (objects w) t
  | _ => false
  end.

(** [obj.length]: an ordinary array answers with its length; a base [get]
    trap reads it from its target and, when not readonly, tracks it. *)
Fixpoint get_length (fuel : nat) (w : world) (a : addr) : world * nat :=
  match objects w !! a with
  | Some (Raw r) => (w, length (elements r))
  | Some (Proxy t h) =>
      match fuel with
      | O => (w, 0%nat)
      | S fuel' =>
          let '(w1, l) := get_length fuel' w t in
          (if handler_is_collection h || handler_isReadonly h then w1
           else track_in w1 t (KStr "length"), l)
      end
  | None => (w, 0%nat)
  end.

(** The elements of the ordinary array at an address. *)
Definition elements_at (w : world) (a : addr) : list value :=
  match objects w !! a with
  | Some (Raw r) => elements r
  | _ => []
  end.

(** <<
    for (let i = 0, l = this.length; i < l; i++) {
        track(arr, TrackOpTypes.GET, String(i));
    }
    >> *)
Definition track_indices (w : world) (arr : addr) (l : nat) : world :=
  foldl (λ w' i, track_in w' arr (KStr (String_of_nat i))) w (seq 0 l).

(** [res === -1 || res === false] *)
Definition not_found (res : value) : bool :=
  strict_equals res (VNumber (JNum (-1))) || strict_equals res (VBool false).

(** <<
    operations[key] = function (...args) {
        const arr = toRaw(this);
        for (let i = 0, l = this.length; i < l; i++) {
            track(arr, TrackOpTypes.GET, String(i));
        }
        const res = arr[key](...args);
        if (res === -1 || res === false) {
            return arr[key](...args.map(toRaw));
        } else {
            return res;
        }
    };
    >>
    [toRaw] leaves a number as it is, so of the arguments only the search
    element is mapped. *)
Definition operation (key : search_key) (w : world) (this : addr)
    (v : value) (fromIndex : option jsnum) : world * value :=
  let '(w1, arr) := toRaw_fuel (length (objects w)) w this in
  let '(w2, l) := get_length (length (objects w1)) w1 this in
  let w3 := track_indices w2 arr l in
  let res := Array_search key (elements_at w3 arr) v fromIndex in
  if not_found res then
    let '(w4, v') := toRaw w3 v in
    (w4, Array_search key (elements_at w4 arr) v' fromIndex)
  else (w3, res).

(** ** What the operations do on the proxy of an array *)

(** [toRaw] on a heap: follow the targets down to an ordinary object. *)
Fixpoint raw_of (fuel : nat) (h : heap) (a : addr) : addr :=
  match h !! a, fuel with
  | Some (Proxy t _), S fuel' => raw_of fuel' h t
  | _, _ => a
  end.

Definition toRaw_value (h : heap) (v : value) : value :=
  match v with
  | VObject a => VObject (raw_of (length h) h a)
  | _ => v
  end.

(** The reads that an operation makes on the array [arr] of length [l]. *)
Definition reads (arr : addr) (l : nat) : Effect.body :=
  (arr, KStr "length") :: map (λ i, (arr, KStr (String_of_nat i))) (seq 0 l).

Lemma toRaw_fuel_wf fuel w a :
  wf w -> toRaw_fuel fuel w a = (w, raw_of fuel (objects w) a).
Proof.
  intros Hwf. revert a. induction fuel as [|fuel IH]; intros a.
  - cbn [toRaw_fuel raw_of]. rewrite get_RAW_registered by done.
    by destruct (objects w !! a) as [[r|t h]|].
  - cbn [toRaw_fuel raw_of]. rewrite get_RAW_registered by done.
    destruct (objects w !! a) as [[r|t h]|]; [done | apply IH | done].
Qed.

Lemma toRaw_wf w v : wf w -> toRaw w v = (w, toRaw_value (objects w) v).
Proof.
  intros Hwf. destruct v as [| |b|x|s|a]; try reflexivity.
  unfold toRaw. by rewrite toRaw_fuel_wf.
Qed.

Lemma raw_of_proxy_of_raw h p x hx rx :
  h !! p = Some (Proxy x hx) -> h !! x = Some (Raw rx) ->
  raw_of (length h) h p = x.
Proof.
  intros Hp Hx. destruct (length h) as [|fuel] eqn:Hlen.
  - apply lookup_lt_Some in Hp. lia.
  - cbn [raw_of]. rewrite Hp. destruct fuel; cbn [raw_of]; by rewrite Hx.
Qed.

Lemma track_indices_objects w arr l :
  track_indices w arr l
  = with_eff w (Effect.run_fn (eff w)
                  (map (λ i, (arr, KStr (String_of_nat i))) (seq 0 l))).
Proof.
  unfold track_indices, Effect.run_fn. generalize (seq 0 l) as idx.
  intros idx. revert w. induction idx as [|i idx IH]; intros w; simpl.
  - by rewrite with_eff_id.
  - rewrite IH. unfold track_in. by rewrite with_eff_with_eff.
Qed.

Lemma find_index_is_Some f l x :
  x ∈ l -> f x = true -> is_Some (find_index f l).
Proof.
  intros Hin Hf. induction l as [|y l IH]; [by apply elem_of_nil in Hin|].
  simpl. destruct (f y) eqn:Hy; [eauto|].
  apply elem_of_cons in Hin as [->|Hin]; [congruence|].
  destruct (IH Hin) as [i ->]. simpl. eauto.
Qed.

Lemma find_last_index_is_Some f l x :
  x ∈ l -> f x = true -> is_Some (find_last_index f l).
Proof.
  intros Hin Hf. induction l as [|y l IH]; [by apply elem_of_nil in Hin|].
  simpl. apply elem_of_cons in Hin as [->|Hin].
  - destruct (find_last_index f l); [eauto|]. rewrite Hf. eauto.
  - destruct (IH Hin) as [i ->]. eauto.
Qed.

(** What a found position is: an element that the comparison accepts. *)
Lemma find_index_Some f l i :
  find_index f l = Some i -> exists x, l !! i = Some x /\ f x = true.
Proof.
  revert i. induction l as [|y l IH]; intros i; simpl; [done|].
  destruct (f y) eqn:Hy.
  - intros [= <-]. eauto.
  - destruct (find_index f l) as [j|]; [|done]. intros [= <-]. by apply IH.
Qed.

Lemma find_last_index_Some f l i :
  find_last_index f l = Some i -> exists x, l !! i = Some x /\ f x = true.
Proof.
  revert i. induction l as [|y l IH]; intros i; simpl; [done|].
  destruct (find_last_index f l) as [j|].
  - intros [= <-]. by apply IH.
  - destruct (f y) eqn:Hy; [|done]. intros [= <-]. eauto.
Qed.

Lemma not_found_index_result k i : not_found (index_result k (Some i)) = false.
Proof.
  unfold not_found, index_result, strict_equals.
  rewrite bool_decide_eq_false_2; [done|]. intros [= ?]. lia.
Qed.

(** Without [fromIndex], each of the three searches finds an object that
    is among the elements. *)
Lemma Array_search_object key elems x :
  VObject x ∈ elems -> not_found (Array_search key elems (VObject x) None) = false.
Proof.
  intros Hin.
  assert (Hs : strict_equals (VObject x) (VObject x) = true)
    by by apply strict_equals_refl_not_NaN.
  destruct key; simpl.
  - unfold Array_includes, start_index. simpl. rewrite drop_0.
    rewrite bool_decide_eq_true_2; [done|].
    eapply find_index_is_Some; [done|]. by apply bool_decide_eq_true_2.
  - unfold Array_indexOf, start_index. simpl. rewrite drop_0.
    destruct (find_index_is_Some (strict_equals (VObject x)) elems _ Hin Hs)
      as [i ->].
    apply not_found_index_result.
  - unfold Array_lastIndexOf.
    assert (Hstop : stop_index (length elems) None = length elems).
    { unfold stop_index. simpl.
      assert (0 < length elems)%nat.
      { destruct elems; [by apply elem_of_nil in Hin | simpl; lia]. }
      rewrite (proj2 (Z.leb_le _ _)) by lia. lia. }
    rewrite Hstop, take_ge by done.
    destruct (find_last_index_is_Some (strict_equals (VObject x)) elems _ Hin Hs)
      as [i ->].
    apply not_found_index_result.
Qed.

Lemma has_arrayOperations_handler w a t h :
  has_arrayOperations w a = true ->
  objects w !! a = Some (Proxy t h) ->
  handler_is_collection h = false /\ handler_isReadonly h = false.
Proof.
  unfold has_arrayOperations. intros Hops Ha. rewrite Ha in Hops.
  apply andb_true_iff in Hops as [Hops _].
  apply andb_true_iff in Hops as [Hc Hr].
  by apply negb_true_iff in Hc, Hr.
Qed.

(** The operation as a whole: it reads [length] and every index, searches
    first for the argument as given and then, if that failed, for its raw
    form. *)
Lemma operation_unfold key w a t h r v fromIndex :
  wf w ->
  has_arrayOperations w a = true ->
  objects w !! a = Some (Proxy t h) ->
  objects w !! t = Some (Raw r) ->
  operation key w a v fromIndex
  = (with_eff w (Effect.run_fn (eff w) (reads t (length (elements r)))),
     if not_found (Array_search key (elements r) v fromIndex)
     then Array_search key (elements r) (toRaw_value (objects w) v) fromIndex
     else Array_search key (elements r) v fromIndex).
Proof.
  intros Hwf Hops Ha Ht.
  destruct (has_arrayOperations_handler w a t h Hops Ha) as [Hc Hr].
  unfold operation. rewrite toRaw_fuel_wf by done.
  rewrite (raw_of_proxy_of_raw (objects w) a t h r Ha Ht).
  assert (Hlen : get_length (length (objects w)) w a
                 = (track_in w t (KStr "length"), length (elements r))).
  { destruct (length (objects w)) as [|fuel] eqn:Hl.
    - apply lookup_lt_Some in Ha. lia.
    - cbn [get_length]. rewrite Ha.
      assert (Hraw : get_length fuel w t = (w, length (elements r))).
      { destruct fuel; cbn [get_length]; by rewrite Ht. }
      by rewrite Hraw, Hc, Hr. }
  rewrite Hlen, track_indices_objects.
  unfold track_in. rewrite with_eff_with_eff. simpl eff.
  change (Effect.run_fn (Effect.track (eff w) t (KStr "length"))
            (map (λ i, (t, KStr (String_of_nat i))) (seq 0 (length (elements r)))))
    with (Effect.run_fn (eff w) (reads t (length (elements r)))).
  set (w3 := with_eff w _).
  assert (He : elements_at w3 t = elements r).
  { unfold elements_at, w3. simpl. by rewrite Ht. }
  rewrite He.
  destruct (not_found (Array_search key (elements r) v fromIndex)); [|done].
  rewrite toRaw_wf by by apply wf_with_eff.
  by rewrite He.
Qed.

(** ** Array search through a reactive proxy *)

(** An array that holds one object, and that object. *)
Definition array_heap : heap :=
  [Raw {| rawType := TArray; skip := false; extensible := true; props := ∅; descriptors := ∅;
          elements := [VObject 1] |};
   Raw plain_object].

(** Both made reactive, in this order, while effect [0] is running: the
    proxy of the array is at address [2], that of the object at [3]. *)
Definition array_world : world :=
  (reactive
     (reactive
        (initial_world array_heap (Effect.run_enter Effect.one_effect 0))
        (VObject 0)).1
     (VObject 1)).1.

Lemma array_world_wf : wf array_world.
Proof.
  apply (construct_wf ReactiveMap), (construct_wf ReactiveMap).
  apply initial_world_wf. intros a o Ha.
  destruct a as [|[|a]]; simpl in Ha; [| |done]; injection Ha as <-; eauto.
Qed.



(** [a.indexOf(p)] for the proxy [p] of the stored object finds the
    object at index [0]; searching for the object itself does too. *)
Example indexOf_proxy_of_element :
  (operation K_indexOf array_world 2 (VObject 3) None).2 = VNumber (JNum 0)
  /\ (operation K_indexOf array_world 2 (VObject 1) None).2 = VNumber (JNum 0)
  /\ (operation K_includes array_world 2 (VObject 3) None).2 = VBool true
  /\ (operation K_lastIndexOf array_world 2 (VObject 2) None).2 = VNumber (JNum (-1)).
Proof. vm_compute. done. Qed.

End ArrayOperations.


(* ================================================================== *)
(** * The predicates of reactivity/reactive.js *)
(* ================================================================== *)

Module ReactiveFlags.
Import Shared Store Reactive ArrayOperations.

(** <<
    export function isReactive(value) {
        if (isReadonly(value)) {
            return isReactive(value[ReactiveFlags.RAW]);
        }
        return !!(value && value[ReactiveFlags.IS_REACTIVE]);
    }
    >>
    The recursion follows [__raw]; the fuel bounds it by the size of the
    heap. A value that is not an object has none of the flags. *)
Fixpoint isReactive_fuel (fuel : nat) (w : world) (a : addr) : world * bool :=
  if get_IS_READONLY w a then
    let '(w1, raw) := get_RAW (length (objects w)) w a a in
    match raw, fuel with
    | Some r, S fuel' => isReactive_fuel fuel' w1 r
    | _, _ => (w1, false)
    end
  else (w, get_IS_REACTIVE w a).

Definition isReactive (w : world) (v : value) : world * bool :=
  match v with
  | VObject a => isReactive_fuel (length (objects w)) w a
  | _ => (w, false)
  end.

(** [export function isProxy(value) {
       return isReactive(value) || isReadonly(value); }] *)
Definition isProxy (w : world) (v : value) : world * bool :=
  let '(w1, b) := isReactive w v in
  if b then (w1, true) else (w1, isReadonly w1 v).

(** [export const toReadonly = (value) => isObject(value) ? readonly(value) : value;] *)
Definition toReadonly (w : world) (v : value) : world * value :=
  if isObject v then readonly w v else (w, v).

(** ** Ordinary objects without flags

    The reserved keys are ordinary property names: a program can give an
    object a property [__raw], [__isReactive] or [__isReadonly],
    and [target[ReactiveFlags.RAW]], [isReadonly], [isReactive] and [toRaw]
    then answer with that property. The functions [get_RAW],
    [get_IS_REACTIVE] and [get_IS_READONLY] answer for the objects of this
    library's making: on an ordinary object they find no flag. What is said
    below of an ordinary object is said of an object without such
    properties. The property [__skip] of an object is its field [skip],
    not an entry of [props]. *)
Definition flagless (r : raw_object) : Prop :=
  props r !! KStr "__raw" = None
  /\ props r !! KStr "__isReactive" = None
  /\ props r !! KStr "__isReadonly" = None
  /\ props r !! KStr "__skip" = None.

(** No ordinary object of the world has a flag property. *)
Definition flagless_world (w : world) : Prop :=
  forall a r, objects w !! a = Some (Raw r) -> flagless r.

Lemma plain_object_flagless : flagless plain_object.
Proof. by vm_compute. Qed.

Lemma world0_flagless : flagless_world world0.
Proof.
  intros a r Ha. destruct a as [|[|a]]; simpl in Ha; [| |done];
    injection Ha as <-; by vm_compute.
Qed.

(** ** The type test on the heap *)

Lemma targetType_of_raw h x r :
  h !! x = Some (Raw r) ->
  targetType_of h x
  = if skip r || negb (extensible r) then INVALID else targetTypeMap (rawType r).
Proof.
  intros Hx. unfold targetType_of, isExtensible, toRawType, root.
  destruct (length h); simpl; by rewrite Hx.
Qed.

(** No handler intercepts the type test: a proxy of an ordinary object has
    the target type of that object. *)
Lemma targetType_of_proxy h p x hd r :
  h !! p = Some (Proxy x hd) -> h !! x = Some (Raw r) ->
  targetType_of h p = targetType_of h x.
Proof.
  intros Hp Hx. rewrite (targetType_of_raw h x r Hx).
  unfold targetType_of, isExtensible, toRawType, root.
  destruct (length h) as [|fuel] eqn:Hlen.
  { apply lookup_lt_Some in Hp. lia. }
  simpl. rewrite Hp. destruct fuel; simpl; by rewrite Hx.
Qed.

Lemma handler_map_isReadonly hd :
  handler_isReadonly hd = map_isReadonly (handler_map hd).
Proof. by destruct hd. Qed.

(** ** When a constructor makes or finds a proxy *)

(** Past the two early returns and the type test, a constructor answers
    with the proxy that its map holds for the argument; it makes that
    proxy if there is none yet. Nothing that existed is changed. *)
Lemma construct_makes_proxy m w a :
  wf w ->
  is_proxy w a && negb (map_isReadonly m && get_IS_REACTIVE w a) = false ->
  bool_decide (m = ReactiveMap) && isReadonly w (VObject a) = false ->
  targetType_of (objects w) a <> INVALID ->
  exists w1 q hd,
    construct m w (VObject a) = (w1, VObject q)
    /\ wf w1
    /\ objects w1 !! q = Some (Proxy a hd)
    /\ handler_map hd = m
    /\ (length (objects w) <= length (objects w1))%nat
    /\ (forall a', (a' < length (objects w))%nat ->
          objects w1 !! a' = objects w !! a').
Proof.
  intros Hwf Hc1 Hc2 Hty.
  pose proof (construct_wf m w (VObject a) Hwf) as Hwf1.
  revert Hwf1. rewrite construct_unfold, Hc2.
  rewrite createReactiveObject_wf_unfold by done. rewrite Hc1.
  destruct (get_map w m !! a) as [p|] eqn:Hmap.
  - intros _. destruct (wf_maps w Hwf m a p Hmap) as (hd & Hp & Hhd).
    exists w, p, hd. split; [done|]. split; [done|]. split; [done|].
    split; [done|]. split; [lia | done].
  - destruct (getTargetType_spec w a) as [e ->].
    rewrite bool_decide_eq_false_2 by done.
    cbn [fst]. intros Hwf1.
    eexists _, _, _. split; [reflexivity|]. split; [exact Hwf1|].
    split; [|split; [|split]].
    + unfold add_proxy. cbn [objects with_objects set_map with_eff].
      apply list_lookup_middle. reflexivity.
    + destruct (bool_decide (targetType_of (objects w) a = COLLECTION));
        [apply handler_map_collection | apply handler_map_base].
    + unfold add_proxy. cbn [objects with_objects set_map with_eff].
      rewrite length_app. lia.
    + intros a' Hlt. by rewrite add_proxy_lookup_old.
Qed.

(** ** The flags of a proxy of an ordinary object *)

Lemma flags_of_proxy w p x hd r :
  wf w ->
  objects w !! p = Some (Proxy x hd) ->
  objects w !! x = Some (Raw r) ->
  isReadonly w (VObject p) = handler_isReadonly hd
  /\ isReactive w (VObject p) = (w, negb (handler_isReadonly hd))
  /\ isProxy w (VObject p) = (w, true)
  /\ toRaw w (VObject p) = (w, VObject x).
Proof.
  intros Hwf Hp Hx.
  assert (Hro : isReadonly w (VObject p) = handler_isReadonly hd).
  { unfold isReadonly, get_IS_READONLY. by rewrite Hp. }
  assert (Hre : isReactive w (VObject p) = (w, negb (handler_isReadonly hd))).
  { unfold isReactive.
    destruct (length (objects w)) as [|fuel] eqn:Hlen.
    { apply lookup_lt_Some in Hp. lia. }
    cbn [isReactive_fuel]. rewrite get_RAW_registered by done.
    unfold get_IS_READONLY at 1, get_IS_REACTIVE at 1. rewrite Hp.
    destruct (handler_isReadonly hd); [|done].
    destruct fuel; cbn [isReactive_fuel];
      unfold get_IS_READONLY, get_IS_REACTIVE; by rewrite Hx. }
  split; [done|]. split; [done|]. split.
  - unfold isProxy. rewrite Hre, Hro. by destruct (handler_isReadonly hd).
  - rewrite toRaw_wf by done. cbn [toRaw_value].
    by rewrite (raw_of_proxy_of_raw _ p x hd r).
Qed.

(** X9: each of [reactive], [shallowReactive], [readonly] and
    [shallowReadonly], called on an ordinary object that passes the type
    test and has no property under [__raw], [__isReactive] or
    [__isReadonly], answers with a proxy [p] that is not the object, and
    [toRaw(p)] is the object again. [isReadonly(p)] holds exactly for the
    two readonly constructors, [isReactive(p)] exactly for the other two,
    and [isProxy(p)] for all four; the object itself is no proxy and is
    its own [toRaw]. *)
Theorem constructed_proxy_round_trip_and_flags m w x r :
  wf w ->
  objects w !! x = Some (Raw r) ->
  flagless r ->
  targetType_of (objects w) x <> INVALID ->
  exists w1 p,
    construct m w (VObject x) = (w1, VObject p)
    /\ p <> x
    /\ wf w1
    /\ toRaw w1 (VObject p) = (w1, VObject x)
    /\ isReadonly w1 (VObject p) = map_isReadonly m
    /\ isReactive w1 (VObject p) = (w1, negb (map_isReadonly m))
    /\ isProxy w1 (VObject p) = (w1, true)
    /\ isProxy w1 (VObject x) = (w1, false)
    /\ toRaw w1 (VObject x) = (w1, VObject x).
Proof.
  intros Hwf Hx _ Hty.
  destruct (construct_makes_proxy m w x Hwf)
    as (w1 & p & hd & Hc & Hwf1 & Hp & Hhd & _ & Hold).
  { unfold is_proxy. by rewrite Hx. }
  { unfold isReadonly, get_IS_READONLY. rewrite Hx. apply andb_false_r. }
  { done. }
  assert (Hx1 : objects w1 !! x = Some (Raw r)).
  { rewrite Hold; [done | by eapply lookup_lt_Some]. }
  destruct (flags_of_proxy w1 p x hd r Hwf1 Hp Hx1) as (Hro & Hre & Hpr & Hraw).
  rewrite handler_map_isReadonly, Hhd in Hro, Hre.
  exists w1, p. split; [done|]. split; [congruence|]. split; [done|].
  split; [done|]. split; [done|]. split; [done|]. split; [done|]. split.
  - unfold isProxy, isReactive.
    destruct (length (objects w1)); cbn [isReactive_fuel];
      unfold isReadonly, get_IS_READONLY, get_IS_REACTIVE; rewrite ?Hx1;
      reflexivity.
  - rewrite toRaw_wf by done. cbn [toRaw_value].
    destruct (length (objects w1)); cbn [raw_of]; rewrite ?Hx1; reflexivity.
Qed.

Lemma constructed_proxy_round_trip_and_flags_witness :
  exists w1 p,
    readonly world0 (VObject 0) = (w1, VObject p)
    /\ toRaw w1 (VObject p) = (w1, VObject 0)
    /\ isReadonly w1 (VObject p) = true.
Proof.
  destruct (constructed_proxy_round_trip_and_flags ReadonlyMap world0 0%nat
              plain_object world0_wf eq_refl plain_object_flagless)
    as (w1 & p & Hc & _ & _ & Hraw & Hro & _).
  { vm_compute. discriminate. }
  exists w1, p. split; [exact Hc|]. split; [exact Hraw | exact Hro].
Defined.

(** X10: [readonly(reactive(x))] for an ordinary object [x] that passes
    the type test and has no property under [__raw], [__isReactive] or
    [__isReadonly] is a proxy [q] of the reactive proxy:
    a second layer.
    [q] is both readonly and reactive, [toRaw(q)] is [x], and [reactive]
    and [readonly] hand [q] back as it is. *)
Theorem readonly_of_reactive_is_second_layer w x r :
  wf w ->
  objects w !! x = Some (Raw r) ->
  flagless r ->
  targetType_of (objects w) x <> INVALID ->
  exists w1 p w2 q,
    reactive w (VObject x) = (w1, VObject p)
    /\ readonly w1 (VObject p) = (w2, VObject q)
    /\ q <> p /\ q <> x
    /\ wf w2
    /\ (exists hd, objects w2 !! q = Some (Proxy p hd))
    /\ isReadonly w2 (VObject q) = true
    /\ isReactive w2 (VObject q) = (w2, true)
    /\ toRaw w2 (VObject q) = (w2, VObject x)
    /\ reactive w2 (VObject q) = (w2, VObject q)
    /\ readonly w2 (VObject q) = (w2, VObject q).
Proof.
  intros Hwf Hx _ Hty.
  destruct (construct_makes_proxy ReactiveMap w x Hwf)
    as (w1 & p & hp & Hc1 & Hwf1 & Hp & Hhp & _ & Hold1).
  { unfold is_proxy. by rewrite Hx. }
  { unfold isReadonly, get_IS_READONLY. rewrite Hx. apply andb_false_r. }
  { done. }
  assert (Hx1 : objects w1 !! x = Some (Raw r)).
  { rewrite Hold1; [done | by eapply lookup_lt_Some]. }
  assert (Hhp_ro : handler_isReadonly hp = false).
  { by rewrite handler_map_isReadonly, Hhp. }
  destruct (construct_makes_proxy ReadonlyMap w1 p Hwf1)
    as (w2 & q & hq & Hc2 & Hwf2 & Hq & Hhq & _ & Hold2).
  { unfold is_proxy, get_IS_REACTIVE. rewrite Hp, Hhp_ro. reflexivity. }
  { reflexivity. }
  { rewrite (targetType_of_proxy _ p x hp r Hp Hx1).
    rewrite (targetType_of_raw _ x r Hx1).
    by rewrite <- (targetType_of_raw _ x r Hx). }
  assert (Hp2 : objects w2 !! p = Some (Proxy x hp)).
  { rewrite Hold2; [done | by eapply lookup_lt_Some]. }
  assert (Hx2 : objects w2 !! x = Some (Raw r)).
  { rewrite Hold2; [done | by eapply lookup_lt_Some]. }
  assert (Hhq_ro : handler_isReadonly hq = true).
  { by rewrite handler_map_isReadonly, Hhq. }
  pose proof (wf_target w2 Hwf2 q p hq Hq) as Hpq.
  pose proof (wf_target w2 Hwf2 p x hp Hp2) as Hxp.
  pose proof (lookup_lt_Some _ _ _ Hq) as Hlen.
  assert (Hro : isReadonly w2 (VObject q) = true).
  { unfold isReadonly, get_IS_READONLY. by rewrite Hq. }
  exists w1, p, w2, q.
  split; [exact Hc1|]. split; [exact Hc2|]. split; [lia|]. split; [lia|].
  split; [done|]. split; [by eexists|]. split; [done|]. split; [|split; [|split]].
  - unfold isReactive.
    destruct (length (objects w2)) as [|fuel]; [lia|].
    cbn [isReactive_fuel]. rewrite get_RAW_registered by done.
    unfold get_IS_READONLY at 1. rewrite Hq, Hhq_ro.
    destruct fuel; cbn [isReactive_fuel];
      unfold get_IS_READONLY, get_IS_REACTIVE; by rewrite Hp2, Hhp_ro.
  - rewrite toRaw_wf by done. cbn [toRaw_value].
    destruct (length (objects w2)) as [|[|fuel]]; [lia | lia |].
    cbn [raw_of]. rewrite Hq, Hp2.
    destruct fuel; cbn [raw_of]; by rewrite Hx2.
  - unfold reactive. by rewrite Hro.
  - by apply (construct_matching_proxy ReadonlyMap w2 q p hq).
Qed.

Lemma readonly_of_reactive_is_second_layer_witness :
  exists w1 p w2 q,
    reactive world0 (VObject 0) = (w1, VObject p)
    /\ readonly w1 (VObject p) = (w2, VObject q)
    /\ toRaw w2 (VObject q) = (w2, VObject 0).
Proof.
  destruct (readonly_of_reactive_is_second_layer world0 0%nat plain_object
              world0_wf eq_refl plain_object_flagless)
    as (w1 & p & w2 & q & Hc1 & Hc2 & _ & _ & _ & _ & _ & _ & Hraw & _).
  { vm_compute. discriminate. }
  exists w1, p, w2, q. split; [exact Hc1|]. split; [exact Hc2 | exact Hraw].
Defined.

(** ** [toRaw] after [toReactive] *)

(** In a well-formed world [toRaw] ends at an object that is no proxy. *)
Lemma raw_of_not_proxy w fuel a :
  wf w -> (a < fuel)%nat -> is_proxy w (raw_of fuel (objects w) a) = false.
Proof.
  intros Hwf. revert a. induction fuel as [|fuel IH]; intros a Ha; [lia|].
  cbn [raw_of]. destruct (objects w !! a) as [[r|t hd]|] eqn:Hobj.
  - unfold is_proxy. by rewrite Hobj.
  - apply IH. pose proof (wf_target w Hwf a t hd Hobj). lia.
  - unfold is_proxy. by rewrite Hobj.
Qed.

Lemma raw_of_no_proxy h fuel a :
  (forall t hd, h !! a ≠ Some (Proxy t hd)) -> raw_of fuel h a = a.
Proof.
  intros Hno. destruct fuel; cbn [raw_of]; [by destruct (h !! a) as [[?|? ?]|]|].
  destruct (h !! a) as [[r|t hd]|] eqn:Ha; try done. by destruct (Hno t hd).
Qed.

Lemma is_proxy_false w a :
  is_proxy w a = false -> forall t hd, objects w !! a ≠ Some (Proxy t hd).
Proof. unfold is_proxy. intros H t hd Ha. by rewrite Ha in H. Qed.

Lemma toRaw_value_not_proxy w v :
  wf w ->
  match toRaw_value (objects w) v with
  | VObject a => is_proxy w a = false
  | _ => True
  end.
Proof.
  intros Hwf. destruct v as [| |b|x|s|a]; try done. cbn [toRaw_value].
  destruct (decide (a < length (objects w))%nat) as [Hlt|Hge].
  - by apply raw_of_not_proxy.
  - rewrite raw_of_no_proxy.
    + unfold is_proxy. rewrite lookup_ge_None_2; [done | lia].
    + intros t hd. rewrite lookup_ge_None_2; [done | lia].
Qed.

(** [reactive] on an object that is no proxy answers with the object or
    with a proxy of it, and the object is still no proxy afterwards. *)
Lemma reactive_of_raw w a :
  wf w ->
  is_proxy w a = false ->
  exists w1 v,
    reactive w (VObject a) = (w1, v)
    /\ wf w1
    /\ is_proxy w1 a = false
    /\ toRaw w1 v = (w1, VObject a).
Proof.
  intros Hwf Hnp.
  pose proof (construct_wf ReactiveMap w (VObject a) Hwf) as Hwf1.
  cbn [construct] in Hwf1. revert Hwf1.
  unfold reactive.
  assert (Hro : isReadonly w (VObject a) = false).
  { unfold isReadonly, get_IS_READONLY. unfold is_proxy in Hnp.
    by destruct (objects w !! a) as [[?|? ?]|]. }
  rewrite Hro. rewrite createReactiveObject_wf_unfold by done.
  rewrite Hnp. cbn [andb].
  assert (Hself : forall w', wf w' -> is_proxy w' a = false ->
                             toRaw w' (VObject a) = (w', VObject a)).
  { intros w' Hwf' Hnp'. rewrite toRaw_wf by done. cbn [toRaw_value].
    rewrite raw_of_no_proxy; [done | by apply is_proxy_false]. }
  destruct (get_map w ReactiveMap !! a) as [p|] eqn:Hmap.
  - intros _. destruct (wf_maps w Hwf _ _ _ Hmap) as (hd & Hp & _).
    exists w, (VObject p). split; [done|]. split; [done|]. split; [done|].
    rewrite toRaw_wf by done. cbn [toRaw_value].
    destruct (length (objects w)) as [|fuel] eqn:Hlen.
    { apply lookup_lt_Some in Hp. lia. }
    cbn [raw_of]. rewrite Hp.
    rewrite raw_of_no_proxy; [done | by apply is_proxy_false].
  - destruct (getTargetType_spec w a) as [e ->].
    case_bool_decide as Hty.
    + cbn [fst]. intros Hwf1. exists (with_eff w e), (VObject a).
      split; [done|]. split; [done|]. split; [done|]. by apply Hself.
    + cbn [fst]. intros Hwf1.
      destruct (targetType_handlers (objects w) a ReactiveMap Hty) as (r & Hroot & _).
      assert (Hlt : (a < length (objects w))%nat).
      { inversion Hroot; by eapply lookup_lt_Some. }
      eexists _, _. split; [reflexivity|]. split; [exact Hwf1|].
      assert (Hnp1 : is_proxy (add_proxy (with_eff w e) ReactiveMap a
                                 (if bool_decide (targetType_of (objects w) a = COLLECTION)
                                  then mutableCollectionHandlers else mutableHandlers)) a
                     = false).
      { unfold is_proxy. rewrite add_proxy_lookup_old by done. exact Hnp. }
      split; [exact Hnp1|].
      rewrite toRaw_wf by done. cbn [toRaw_value].
      match goal with
      | |- context [raw_of ?n ?h ?p] =>
          assert (Hp : h !! p = Some (Proxy a
                         (if bool_decide (targetType_of (objects w) a = COLLECTION)
                          then mutableCollectionHandlers else mutableHandlers)))
      end.
      { unfold add_proxy. cbn [objects with_objects set_map with_eff].
        by apply list_lookup_middle. }
      match goal with
      | |- context [raw_of ?n ?h ?p] => destruct n as [|fuel] eqn:Hlen
      end.
      { apply lookup_lt_Some in Hp. lia. }
      cbn [raw_of]. rewrite Hp.
      rewrite raw_of_no_proxy; [done | by apply is_proxy_false].
Qed.

(** [toReactive(v)] has the raw form of [v]. *)
Lemma toRaw_toReactive w v :
  wf w ->
  exists w1 v',
    toReactive w v = (w1, v')
    /\ wf w1
    /\ toRaw w1 v' = toRaw w1 v
    /\ toRaw_value (objects w1) v = toRaw_value (objects w) v
    /\ (forall a, v = VObject a -> is_proxy w1 a = is_proxy w a).
Proof.
  intros Hwf. unfold toReactive.
  destruct v as [| |b|x|s|a]; cbn [isObject];
    try (eexists _, _; split; [reflexivity|];
         split; [done|]; split; [done|]; split; [done|]; by intros ? [=]).
  destruct (is_proxy w a) eqn:Hp.
  - (* a proxy is handed back *)
    exists w, (VObject a).
    split; [|split; [done|]; split; [done|]; split; [done|]; by intros ? [= <-]].
    unfold reactive. destruct (isReadonly w (VObject a)) eqn:Hro; [done|].
    rewrite createReactiveObject_wf_unfold by done. by rewrite Hp.
  - destruct (reactive_of_raw w a Hwf Hp) as (w1 & v' & Hr & Hwf1 & Hnp1 & Hraw).
    exists w1, v'. split; [done|]. split; [done|]. split; [|split].
    + rewrite Hraw. rewrite toRaw_wf by done. cbn [toRaw_value].
      rewrite raw_of_no_proxy; [done | by apply is_proxy_false].
    + cbn [toRaw_value]. f_equal.
      rewrite !raw_of_no_proxy; [done | by apply is_proxy_false
                                 | by apply is_proxy_false].
    + intros a' [= <-]. congruence.
Qed.

End ReactiveFlags.


(* ================================================================== *)
(** * References: reactivity/ref.js *)
(* ================================================================== *)

Module Ref.
Import Shared Store Reactive.

(** An instance of [class Reference]: the private fields [#isShallow],
    [#value], [#rawValue] and the public field [dep], the [Dep] of the
    reference once one was created by [trackRefValue]. *)
Record Reference : Type := {
  isShallow : bool;
  value_ : value;
  rawValue : value;
  dep : option nat
}.

(** <<
    constructor(rawValue, isShallow) {
        this.#isShallow = isShallow;
        this.#value = isShallow ? rawValue : toReactive(rawValue);
        this.#rawValue = isShallow ? rawValue : toRaw(rawValue);
    }
    >> *)
Definition new_Reference (w : world) (rawValue_ : value) (isShallow_ : bool)
  : world * Reference :=
  if isShallow_ then
    (w, {| isShallow := true; value_ := rawValue_; rawValue := rawValue_; dep := None |})
  else
    let '(w1, v) := toReactive w rawValue_ in
    let '(w2, raw) := toRaw w1 rawValue_ in
    (w2, {| isShallow := false; value_ := v; rawValue := raw; dep := None |}).

(** <<
    export function triggerRefValue(ref) {
        ref = toRaw(ref);
        if (ref.dep) { triggerEffects(ref.dep); }
    }
    >>
    A [Reference] instance has no [__raw] property, so [toRaw(ref)] is
    [ref]. [triggerEffects] is the one of packages/reactivity. *)
Definition triggerRefValue (w : world) (r : Reference) : list Effect.invocation :=
  match dep r with
  | Some d => Effect.Packages.triggerEffects (eff w) (Effect.dep_members (eff w) d)
  | None => []
  end.

(** The first statement of the setter:
    [newVal = this.#isShallow ? newVal : toRaw(newVal);] *)
Definition setter_operand (w : world) (r : Reference) (newVal : value)
  : world * value :=
  if isShallow r then (w, newVal) else toRaw w newVal.

(** <<
    set value(newVal) {
        newVal = this.#isShallow ? newVal : toRaw(newVal);
        if (hasChanged(newVal, this.#rawValue)) {
            this.#rawValue = newVal;
            this.#value = this.#isShallow ? newVal : toReactive(newVal);
            triggerRefValue(this);
        }
    }
    >> *)
Definition set_value (w : world) (r : Reference) (newVal : value)
  : world * Reference * list Effect.invocation :=
  let '(w1, newVal1) := setter_operand w r newVal in
  if hasChanged newVal1 (rawValue r) then
    let '(w2, v) := if isShallow r then (w1, newVal1) else toReactive w1 newVal1 in
    let r' := {| isShallow := isShallow r; value_ := v; rawValue := newVal1;
                 dep := dep r |} in
    (w2, r', triggerRefValue w2 r')
  else (w1, r, []).

(** The reference [ref(NaN)] with one subscribed effect, for evaluation. *)
Definition effect0 : Effect.ReactiveEffect :=
  {| Effect.active := true; Effect.deps := [0%nat]; Effect.computed := false;
     Effect.allowRecurse := false; Effect.scheduler := false |}.

Definition subscribed_state : Effect.state :=
  {| Effect.dep_store := [ {| Effect.members := [0%nat]; Effect.w := 0; Effect.n := 0 |} ];
     Effect.effect_store := [effect0];
     Effect.targetMap := ∅;
     Effect.effectTrackDepth := 0; Effect.trackOpBit := 1;
     Effect.effectStack := []; Effect.activeEffect := None;
     Effect.shouldTrack := true; Effect.trackStack := [] |}.

Definition world_NaN : world := initial_world [] subscribed_state.

Definition ref_NaN : Reference :=
  {| isShallow := false; value_ := VNumber JNaN; rawValue := VNumber JNaN;
     dep := Some 0%nat |}.

Lemma setter_operand_primitive w r v :
  isObject v = false -> setter_operand w r v = (w, v).
Proof. unfold setter_operand. destruct (isShallow r), v; done. Qed.

(** [const o = {x: 1}; const r = ref(o);] and one effect that read
    [r.value]: the reference holds [o] as raw value and hands out
    [reactive(o)], the proxy at address 1. *)
Definition world_o : world :=
  (reactive (initial_world [Raw plain_object] subscribed_state) (VObject 0)).1.

Definition ref_o : Reference :=
  {| isShallow := false; value_ := VObject 1; rawValue := VObject 0;
     dep := Some 0%nat |}.

(** C6 (as stated, refuted): [r.value = reactive(o)], which is what
    [r.value = r.value] does, assigns a value for which [hasChanged] holds
    against the stored raw value [o], the proxy being another object than
    [o]. The setter compares [toRaw] of the value, which is [o] again:
    nothing is updated and the subscriber is not called. (A change to [1]
    does call it.) *)
Lemma Reference_set_value_proxy_of_raw_value :
  new_Reference (initial_world [Raw plain_object] subscribed_state) (VObject 0) false
  = (world_o, {| isShallow := false; value_ := VObject 1; rawValue := VObject 0;
                 dep := None |})
  /\ hasChanged (value_ ref_o) (rawValue ref_o) = true
  /\ set_value world_o ref_o (value_ ref_o) = (world_o, ref_o, [])
  /\ (set_value world_o ref_o (VNumber (JNum 1))).2 = [Effect.CallRun 0].
Proof. vm_compute. done. Qed.

(** C6 (as amended): let [nv] be the operand the setter compares: the
    assigned value itself for a shallow reference, [toRaw] of it
    otherwise. [hasChanged] is false exactly of two values that are the
    same, [NaN] and [NaN] included.
    - If [hasChanged(nv, rawValue)] is false, the reference is left exactly
      as it was and no effect is called; in particular assigning [NaN] to a
      reference whose raw value is [NaN] does nothing.
    - If it is true, the raw value becomes [nv] and [triggerEffects] runs
      on the reference's [Dep]: the effects called are exactly the
      subscribed effects that pass the guard of [triggerEffect]. *)
Theorem Reference_set_value_hasChanged (w : world) (r : Reference) (newVal : value) :
  (forall a b, hasChanged a b = false <-> a = b)
  /\ (isShallow r = true -> setter_operand w r newVal = (w, newVal))
  /\ (isShallow r = false -> setter_operand w r newVal = toRaw w newVal)
  /\ (forall w1 nv, setter_operand w r newVal = (w1, nv) ->
        hasChanged nv (rawValue r) = false ->
        set_value w r newVal = (w1, r, []))
  /\ (rawValue r = VNumber JNaN ->
      set_value w r (VNumber JNaN) = (w, r, []))
  /\ (forall w1 nv, setter_operand w r newVal = (w1, nv) ->
        hasChanged nv (rawValue r) = true ->
        exists w2 r' trace,
          set_value w r newVal = (w2, r', trace)
          /\ rawValue r' = nv /\ dep r' = dep r /\ isShallow r' = isShallow r
          /\ trace = triggerRefValue w2 r'
          /\ (dep r = None -> trace = [])
          /\ forall d e, dep r = Some d ->
               (e ∈ Effect.invoked <$> trace
                <-> e ∈ Effect.dep_members (eff w2) d
                    /\ Effect.may_trigger (eff w2) e)).
Proof.
  split; [exact hasChanged_false_iff|].
  split; [unfold setter_operand; by intros ->|].
  split; [unfold setter_operand; by intros ->|].
  split; [|split].
  - intros w1 nv Hop Hch. unfold set_value. by rewrite Hop, Hch.
  - intros Hraw. unfold set_value.
    rewrite setter_operand_primitive by done.
    by rewrite Hraw.
  - intros w1 nv Hop Hch. unfold set_value. rewrite Hop, Hch.
    destruct (if isShallow r then (w1, nv) else toReactive w1 nv) as [w2 v].
    eexists _, _, _. split; [reflexivity|].
    split; [reflexivity|]. split; [reflexivity|]. split; [reflexivity|].
    split; [reflexivity|]. split.
    + intros Hd. unfold triggerRefValue. simpl. by rewrite Hd.
    + intros d e Hd. unfold triggerRefValue. simpl. rewrite Hd. split.
      * intros (i & -> & Hi)%list_elem_of_fmap.
        by apply Effect.Packages.triggerEffects_sound.
      * intros [He Hm]. by apply Effect.Packages.triggerEffects_complete.
Qed.

Lemma Reference_set_value_hasChanged_witness :
  set_value world_NaN ref_NaN (VNumber JNaN) = (world_NaN, ref_NaN, [])
  /\ exists w2 r' trace,
       set_value world_NaN ref_NaN (VNumber (JNum 1)) = (w2, r', trace)
       /\ rawValue r' = VNumber (JNum 1)
       /\ 0%nat ∈ Effect.invoked <$> trace.
Proof.
  destruct (Reference_set_value_hasChanged world_NaN ref_NaN (VNumber (JNum 1)))
    as (_ & _ & _ & _ & Hnan & Hch).
  split; [by apply Hnan|].
  destruct (Hch world_NaN (VNumber (JNum 1)) eq_refl eq_refl)
    as (w2 & r' & trace & Hset & Hraw & Hdep & _ & Htr & _ & Hall).
  exists w2, r', trace. split; [done|]. split; [done|].
  assert (Hw2 : w2 = world_NaN).
  { vm_compute in Hset. by injection Hset as <- _ _. }
  subst w2. apply (Hall 0%nat 0%nat); [reflexivity|]. split.
  - vm_compute. by left.
  - exists effect0. split; [reflexivity|]. left. discriminate.
Defined.

(** [ref(NaN).value = NaN] with a subscriber: nothing is called. A change to
    [1] calls the subscriber. *)
Example ref_NaN_assign_NaN :
  set_value world_NaN ref_NaN (VNumber JNaN) = (world_NaN, ref_NaN, [])
  /\ (set_value world_NaN ref_NaN (VNumber (JNum 1))).2 = [Effect.CallRun 0].
Proof. split; vm_compute; reflexivity. Qed.

(** ** What a reference holds *)

Import ArrayOperations ReactiveFlags.

(** [#rawValue] is the raw form of [#value]: the same value for a shallow
    reference, [toRaw(#value)] otherwise. *)
Definition coherent (w : world) (r : Reference) : Prop :=
  if isShallow r then value_ r = rawValue r
  else toRaw w (value_ r) = (w, rawValue r).

Lemma toRaw_value_idem w v :
  wf w ->
  toRaw_value (objects w) (toRaw_value (objects w) v) = toRaw_value (objects w) v.
Proof.
  intros Hwf. pose proof (toRaw_value_not_proxy w v Hwf) as Hnp.
  destruct (toRaw_value (objects w) v) as [| |b|x|s|a]; try done.
  cbn [toRaw_value]. f_equal. apply raw_of_no_proxy. by apply is_proxy_false.
Qed.

(** X14: where no ordinary object has a property under [__raw],
    [__isReactive] or [__isReadonly], a reference made by [ref(v)] or
    [shallowRef(v)], and a reference after any assignment [r.value = v],
    holds in [#rawValue] the
    raw form of what it hands out as [value]: for a shallow reference both
    are [v]; otherwise [#rawValue] is [toRaw(v)] and [toRaw] of [#value]
    is [#rawValue], also when the assignment changes nothing. *)
Theorem Reference_value_round_trip (w : world) :
  wf w ->
  flagless_world w ->
  (forall v b,
     exists w' r,
       new_Reference w v b = (w', r)
       /\ wf w' /\ coherent w' r /\ isShallow r = b
       /\ rawValue r = if b then v else toRaw_value (objects w) v)
  /\ (forall r v,
        coherent w r ->
        exists w' r' trace,
          set_value w r v = (w', r', trace)
          /\ wf w' /\ coherent w' r' /\ isShallow r' = isShallow r
          /\ rawValue r' = if isShallow r then v else toRaw_value (objects w) v).
Proof.
  intros Hwf _. split.
  - intros v [|]; unfold new_Reference.
    + eexists _, _. split; [reflexivity|]. split; [done|]. by repeat split.
    + destruct (toRaw_toReactive w v Hwf) as (w1 & v' & -> & Hwf1 & Hraw & Hsame & _).
      rewrite (toRaw_wf w1 v Hwf1) in *.
      eexists _, _. split; [reflexivity|]. split; [done|].
      split; [exact Hraw|]. split; [done|]. exact Hsame.
  - intros r v Hco. unfold set_value, setter_operand.
    unfold coherent in Hco. destruct (isShallow r) eqn:Hsh.
    + destruct (hasChanged v (rawValue r)) eqn:Hch.
      * eexists _, _, _. split; [reflexivity|]. split; [done|].
        unfold coherent. cbn [isShallow value_ rawValue]. by repeat split.
      * apply hasChanged_false_iff in Hch.
        eexists _, _, _. split; [reflexivity|]. split; [done|].
        unfold coherent. rewrite Hsh. by repeat split.
    + rewrite (toRaw_wf w v Hwf).
      set (nv := toRaw_value (objects w) v).
      destruct (hasChanged nv (rawValue r)) eqn:Hch.
      * destruct (toRaw_toReactive w nv Hwf)
          as (w2 & v2 & -> & Hwf2 & Hraw & Hsame & _).
        rewrite (toRaw_wf w2 nv Hwf2), Hsame in Hraw.
        unfold nv in Hraw. rewrite toRaw_value_idem in Hraw by done.
        fold nv in Hraw.
        eexists _, _, _. split; [reflexivity|]. split; [done|].
        unfold coherent. cbn [isShallow value_ rawValue]. by repeat split.
      * apply hasChanged_false_iff in Hch.
        eexists _, _, _. split; [reflexivity|]. split; [done|].
        unfold coherent. rewrite Hsh. by repeat split.
Qed.

Lemma Reference_value_round_trip_witness :
  exists w' r,
    new_Reference world0 (VObject 0) false = (w', r)
    /\ rawValue r = VObject 0
    /\ toRaw w' (value_ r) = (w', VObject 0).
Proof.
  destruct (proj1 (Reference_value_round_trip world0 world0_wf world0_flagless)
              (VObject 0) false)
    as (w' & r & Hnew & _ & Hco & Hsh & Hraw).
  exists w', r. split; [exact Hnew|].
  unfold coherent in Hco. rewrite Hsh in Hco. rewrite Hraw in Hco.
  split; [exact Hraw | exact Hco].
Defined.

End Ref.


(* ================================================================== *)
(** * Computed references: reactivity/computed.js *)
(* ================================================================== *)

Module Computed.
Import Shared.

(** The fields [_dirty] and [_value] of a [ComputedReference]. *)
Record ComputedReference : Type := {
  _dirty : bool;
  _value : value
}.

(** What the getter and the scheduler call. *)
Inductive event : Type :=
| TrackRefValue
| RunGetter
| TriggerRefValue.

#[global] Instance event_eq_dec : EqDecision event.
Proof. solve_decision. Defined.

(** The constructor: [this._value = undefined; this._dirty = true;]. *)
Definition new_ComputedReference : ComputedReference :=
  {| _dirty := true; _value := VUndefined |}.

(** <<
    get value() {
        const self = toRaw(this);
        trackRefValue(self);
        if (self._dirty) {
            self._dirty = false;
            self._value = self.effect.run();
        }
        return self._value;
    }
    >>
    [result] is what [self.effect.run()], the getter function, returns if
    it is called. *)
Definition get_value (c : ComputedReference) (result : value)
  : ComputedReference * value * list event :=
  if _dirty c then
    ({| _dirty := false; _value := result |}, result, [TrackRefValue; RunGetter])
  else (c, _value c, [TrackRefValue]).

(** The scheduler of [this.effect]:
    <<
    () => {
        if (!this._dirty) {
            this._dirty = true;
            triggerRefValue(this);
        }
    }
    >> *)
Definition scheduler (c : ComputedReference) : ComputedReference * list event :=
  if _dirty c then (c, [])
  else ({| _dirty := true; _value := _value c |}, [TriggerRefValue]).

(** What is done with a computed reference: it is read, or [trigger]
    calls the scheduler of its effect. *)
Inductive call : Type :=
| Get (result : value)
| Scheduler.

(** The reference, what was called so far, and the values the reads
    returned. *)
Definition step (st : ComputedReference * list event * list value) (op : call)
  : ComputedReference * list event * list value :=
  let '(c, trace, reads) := st in
  match op with
  | Get result =>
      let '(c', v, evs) := get_value c result in (c', trace ++ evs, reads ++ [v])
  | Scheduler =>
      let '(c', evs) := scheduler c in (c', trace ++ evs, reads)
  end.

Definition history (ops : list call) : ComputedReference * list event * list value :=
  foldl step (new_ComputedReference, [], []) ops.

(** [n] calls that alternate between the getter and [triggerRefValue],
    the getter first. *)
Definition alternating (n : nat) : list event :=
  map (λ i, if Nat.even i then RunGetter else TriggerRefValue) (seq 0 n).

Lemma alternating_S n :
  alternating (S n)
  = alternating n ++ [if Nat.even n then RunGetter else TriggerRefValue].
Proof. unfold alternating. by rewrite seq_S, map_app. Qed.

(** X17: however reads of a computed reference and calls of its
    scheduler are interleaved, the runs of the getter function and the
    calls of [triggerRefValue] alternate, the getter first: the getter
    runs at most once between two invalidations, and the subscribers are
    notified at most once between two runs. The reference is dirty exactly
    when the getter has not run since the last notification. *)
Theorem computed_getter_and_trigger_alternate (ops : list call) :
  exists n,
    filter (λ e, e ≠ TrackRefValue) (history ops).1.2 = alternating n
    /\ _dirty (history ops).1.1 = Nat.even n.
Proof.
  unfold history. induction ops as [|op ops IH] using rev_ind.
  - by exists 0%nat.
  - rewrite foldl_app. cbn [foldl].
    destruct (foldl step (new_ComputedReference, [], []) ops) as [[c trace] reads].
    destruct IH as (n & Htrace & Hdirty). cbn [fst snd] in *.
    destruct op as [result|]; cbn [step].
    + unfold get_value. destruct (_dirty c) eqn:Hd; cbn [fst snd].
      * exists (S n). rewrite filter_app, Htrace, alternating_S, <- Hdirty.
        split; [reflexivity|]. cbn [_dirty].
        rewrite Nat.even_succ, <- Nat.negb_even, <- Hdirty. reflexivity.
      * exists n. rewrite filter_app, Htrace. split; [|congruence].
        rewrite filter_cons, decide_False by (by intros []).
        apply app_nil_r.
    + unfold scheduler. destruct (_dirty c) eqn:Hd; cbn [fst snd].
      * exists n. rewrite app_nil_r. split; [done | congruence].
      * exists (S n). rewrite filter_app, Htrace, alternating_S, <- Hdirty.
        split; [reflexivity|]. cbn [_dirty].
        rewrite Nat.even_succ, <- Nat.negb_even, <- Hdirty. reflexivity.
Qed.

End Computed.


(* ================================================================== *)
(** * The scheduler: packages/runtime/src/scheduler.js *)
(* ================================================================== *)

Module Scheduler.

(** Jobs and callbacks are function objects; a queue holds references to
    them. A reference is the position of the job in a table that gives the
    properties the scheduler reads and what the function does when called. *)
Abbreviation jobref := nat (only parsing).

(** What a job or callback does to the scheduler while it runs. *)
Inductive action : Type :=
| CallQueueJob (j : jobref)
| CallQueuePreFlushCallback (cb : jobref)
| CallQueuePostFlushCallback (cb : jobref).

(** [id] is [None] when [job.id == null]; [active] is [false] only when
    [job.active === false]. *)
Record Job : Type := {
  id : option Z;
  active : bool;
  allowRecurse : bool;
  body : list action
}.

(** The three loops that call jobs. *)
Inductive phase : Type := PreFlush | MainQueue | PostFlush.

#[global] Instance phase_eq_dec : EqDecision phase.
Proof. solve_decision. Defined.

(** The module-level variables, and [log]: which job was called in which
    loop, in the order of the calls. *)
Record state : Type := {
  isFlushing : bool;
  isFlushPending : bool;
  queue : list jobref;
  flushIndex : nat;
  pendingPreFlushCallbacks : list jobref;
  activePreFlushCallbacks : option (list jobref);
  preFlushIndex : nat;
  pendingPostFlushCallbacks : list jobref;
  activePostFlushCallbacks : option (list jobref);
  postFlushIndex : nat;
  currentPreFlushParentJob : option jobref;
  log : list (phase * jobref)
}.

Definition initial_state : state :=
  {| isFlushing := false; isFlushPending := false; queue := []; flushIndex := 0;
     pendingPreFlushCallbacks := []; activePreFlushCallbacks := None;
     preFlushIndex := 0;
     pendingPostFlushCallbacks := []; activePostFlushCallbacks := None;
     postFlushIndex := 0;
     currentPreFlushParentJob := None; log := [] |}.

Definition set_flags (s : state) (flushing pending : bool) : state :=
  {| isFlushing := flushing; isFlushPending := pending; queue := queue s;
     flushIndex := flushIndex s;
     pendingPreFlushCallbacks := pendingPreFlushCallbacks s;
     activePreFlushCallbacks := activePreFlushCallbacks s;
     preFlushIndex := preFlushIndex s;
     pendingPostFlushCallbacks := pendingPostFlushCallbacks s;
     activePostFlushCallbacks := activePostFlushCallbacks s;
     postFlushIndex := postFlushIndex s;
     currentPreFlushParentJob := currentPreFlushParentJob s; log := log s |}.

Definition set_queue (s : state) (q : list jobref) (i : nat) : state :=
  {| isFlushing := isFlushing s; isFlushPending := isFlushPending s; queue := q;
     flushIndex := i;
     pendingPreFlushCallbacks := pendingPreFlushCallbacks s;
     activePreFlushCallbacks := activePreFlushCallbacks s;
     preFlushIndex := preFlushIndex s;
     pendingPostFlushCallbacks := pendingPostFlushCallbacks s;
     activePostFlushCallbacks := activePostFlushCallbacks s;
     postFlushIndex := postFlushIndex s;
     currentPreFlushParentJob := currentPreFlushParentJob s; log := log s |}.

Definition set_pre (s : state) (pending : list jobref)
    (act : option (list jobref)) (i : nat) (parent : option jobref) : state :=
  {| isFlushing := isFlushing s; isFlushPending := isFlushPending s;
     queue := queue s; flushIndex := flushIndex s;
     pendingPreFlushCallbacks := pending;
     activePreFlushCallbacks := act;
     preFlushIndex := i;
     pendingPostFlushCallbacks := pendingPostFlushCallbacks s;
     activePostFlushCallbacks := activePostFlushCallbacks s;
     postFlushIndex := postFlushIndex s;
     currentPreFlushParentJob := parent; log := log s |}.

Definition set_post (s : state) (pending : list jobref)
    (act : option (list jobref)) (i : nat) : state :=
  {| isFlushing := isFlushing s; isFlushPending := isFlushPending s;
     queue := queue s; flushIndex := flushIndex s;
     pendingPreFlushCallbacks := pendingPreFlushCallbacks s;
     activePreFlushCallbacks := activePreFlushCallbacks s;
     preFlushIndex := preFlushIndex s;
     pendingPostFlushCallbacks := pending;
     activePostFlushCallbacks := act;
     postFlushIndex := i;
     currentPreFlushParentJob := currentPreFlushParentJob s; log := log s |}.

Definition add_log (s : state) (p : phase) (j : jobref) : state :=
  {| isFlushing := isFlushing s; isFlushPending := isFlushPending s;
     queue := queue s; flushIndex := flushIndex s;
     pendingPreFlushCallbacks := pendingPreFlushCallbacks s;
     activePreFlushCallbacks := activePreFlushCallbacks s;
     preFlushIndex := preFlushIndex s;
     pendingPostFlushCallbacks := pendingPostFlushCallbacks s;
     activePostFlushCallbacks := activePostFlushCallbacks s;
     postFlushIndex := postFlushIndex s;
     currentPreFlushParentJob := currentPreFlushParentJob s;
     log := log s ++ [(p, j)] |}.

(** [array.includes(x, fromIndex)] *)
Definition includes_from (l : list jobref) (x : jobref) (from : nat) : bool :=
  bool_decide (x ∈ drop from l).

(** [array.splice(i, 0, x)]: a start beyond the end inserts at the end. *)
Definition splice_insert (l : list jobref) (i : nat) (x : jobref) : list jobref :=
  take i l ++ x :: drop i l.

(** [[...new Set(array)]]: duplicates removed, first occurrences kept. *)
Definition dedupe (l : list jobref) : list jobref :=
  foldl (λ acc x, if bool_decide (x ∈ acc) then acc else acc ++ [x]) [] l.

Section Jobs.

(** The job table. *)
Variable jobs : list Job.

Definition job_id (j : jobref) : option Z :=
  match jobs !! j with
  | Some job => id job
  | None => None
  end.

Definition job_allowRecurse (j : jobref) : bool :=
  match jobs !! j with
  | Some job => allowRecurse job
  | None => false
  end.

Definition job_active (j : jobref) : bool :=
  match jobs !! j with
  | Some job => active job
  | None => true
  end.

Definition job_body (j : jobref) : list action :=
  match jobs !! j with
  | Some job => body job
  | None => []
  end.

(** [const getId = (job) => job.id == null ? Infinity : job.id;]
    The result is a number or [Infinity] ([None]). [id_lt a b] is [a < b]
    and [id_le a b] is [!(b < a)] on such results. *)
Definition getId (j : jobref) : option Z := job_id j.

Definition id_lt (a b : option Z) : bool :=
  match a, b with
  | Some x, Some y => (x <? y)%Z
  | Some _, None => true
  | None, _ => false
  end.

Definition id_le (a b : option Z) : bool := negb (id_lt b a).

(** The loop of [findInsertionIndex]; each turn at least halves
    [end - start], so [end - start] turns are enough. *)
Fixpoint findInsertionIndex_loop (turns : nat) (q : list jobref) (idv : Z)
    (start end_ : nat) : nat :=
  match turns with
  | O => start
  | S turns' =>
      if (start <? end_)%nat then
        let middle := ((start + end_) / 2)%nat in
        let middleJobId := match q !! middle with
                           | Some j => getId j
                           | None => None
                           end in
        if id_lt middleJobId (Some idv)
        then findInsertionIndex_loop turns' q idv (middle + 1) end_
        else findInsertionIndex_loop turns' q idv start middle
      else start
  end.

(** <<
    function findInsertionIndex(id) {
        let start = flushIndex + 1;
        let end = queue.length;
        while (start < end) {
            const middle = (start + end) >>> 1;
            const middleJobId = getId(queue[middle]);
            if (middleJobId < id) { start = middle + 1; } else { end = middle; }
        }
        return start;
    }
    >> *)
Definition findInsertionIndex (s : state) (idv : Z) : nat :=
  let start := S (flushIndex s) in
  let end_ := length (queue s) in
  findInsertionIndex_loop (end_ - start) (queue s) idv start end_.

(** <<
    function queueFlush() {
        if (!isFlushing && !isFlushPending) {
            isFlushPending = true;
            currentFlushPromise = resolvedPromise.then(flushJobs);
        }
    }
    >> *)
Definition queueFlush (s : state) : state :=
  if negb (isFlushing s) && negb (isFlushPending s)
  then set_flags s (isFlushing s) true
  else s.

(** <<
    export function queueJob(job) {
        if ((queue.length === 0 ||
             !queue.includes(job,
                 isFlushing && job.allowRecurse ? flushIndex + 1 : flushIndex)
            ) && job !== currentPreFlushParentJob) {
            if (job.id == null) {
                queue.push(job);
            } else {
                queue.splice(findInsertionIndex(job.id), 0, job);
            }
            queueFlush();
        }
    }
    >> *)
Definition queueJob (s : state) (job : jobref) : state :=
  if ((length (queue s) =? 0)%nat
      || negb (includes_from (queue s) job
                 (if isFlushing s && job_allowRecurse job
                  then S (flushIndex s) else flushIndex s)))
     && negb (bool_decide (currentPreFlushParentJob s = Some job))
  then
    let q := match job_id job with
             | None => queue s ++ [job]
             | Some idv => splice_insert (queue s) (findInsertionIndex s idv) job
             end in
    queueFlush (set_queue s q (flushIndex s))
  else s.

(** The queue that [queueCallback] pushes to. *)
Inductive pending_queue : Type := PendingPre | PendingPost.

(** <<
    function queueCallback(cb, activeQueue, pendingQueue, index) {
        if (!isArray(cb)) {
            if (!activeQueue ||
                !activeQueue.includes(cb, cb.allowRecurse ? index + 1 : index)) {
                pendingQueue.push(cb);
            }
        } else {
            pendingQueue.push(...cb);
        }
        queueFlush();
    }
    >>
    for a single callback. *)
Definition queueCallback (s : state) (cb : jobref)
    (activeQueue : option (list jobref)) (pendingQueue : pending_queue)
    (index : nat) : state :=
  let push :=
    match activeQueue with
    | None => true
    | Some aq =>
        negb (includes_from aq cb (if job_allowRecurse cb then S index else index))
    end in
  let s1 :=
    if push then
      match pendingQueue with
      | PendingPre =>
          set_pre s (pendingPreFlushCallbacks s ++ [cb])
            (activePreFlushCallbacks s) (preFlushIndex s)
            (currentPreFlushParentJob s)
      | PendingPost =>
          set_post s (pendingPostFlushCallbacks s ++ [cb])
            (activePostFlushCallbacks s) (postFlushIndex s)
      end
    else s in
  queueFlush s1.

(** <<
    export function queuePreFlushCallback(cb) {
        queueCallback(cb, activePreFlushCallbacks, pendingPostFlushCallbacks, preFlushIndex);
    }
    >> *)
Definition queuePreFlushCallback (s : state) (cb : jobref) : state :=
  queueCallback s cb (activePreFlushCallbacks s) PendingPost (preFlushIndex s).

(** <<
    export function queuePostFlushCallback(cb) {
        queueCallback(cb, activePostFlushCallbacks, pendingPostFlushCallbacks, postFlushIndex);
    }
    >> *)
Definition queuePostFlushCallback (s : state) (cb : jobref) : state :=
  queueCallback s cb (activePostFlushCallbacks s) PendingPost (postFlushIndex s).

(** Calling a job: the call is logged, then the function body runs. *)
Definition perform (s : state) (a : action) : state :=
  match a with
  | CallQueueJob j => queueJob s j
  | CallQueuePreFlushCallback cb => queuePreFlushCallback s cb
  | CallQueuePostFlushCallback cb => queuePostFlushCallback s cb
  end.

Definition call (p : phase) (s : state) (j : jobref) : state :=
  foldl perform (add_log s p j) (job_body j).

(** [array.sort((a, b) => getId(a) - getId(b))]: the sort is stable, and
    the difference of two [Infinity] is [NaN], which [sort] takes as 0. The
    stable sorted arrangement is unique; it is computed here by insertion. *)
Fixpoint insert_by_id (x : jobref) (l : list jobref) : list jobref :=
  match l with
  | [] => [x]
  | y :: r =>
      if id_lt (getId y) (getId x) then y :: insert_by_id x r else x :: y :: r
  end.

Fixpoint sort_by_id (l : list jobref) : list jobref :=
  match l with
  | [] => []
  | x :: r => insert_by_id x (sort_by_id r)
  end.

(** The [for] loop of [flushPreFlushCallbacks]. A callback may queue more
    work without end, so the loops take fuel; [None] is "out of fuel". *)
Fixpoint preFlush_loop (fuel : nat) (s : state) : option state :=
  match fuel with
  | O => None
  | S fuel' =>
      match activePreFlushCallbacks s with
      | Some aq =>
          match aq !! preFlushIndex s with
          | Some cb =>
              let s1 := call PreFlush s cb in
              preFlush_loop fuel'
                (set_pre s1 (pendingPreFlushCallbacks s1)
                   (activePreFlushCallbacks s1) (S (preFlushIndex s1))
                   (currentPreFlushParentJob s1))
          | None => Some s
          end
      | None => Some s
      end
  end.

(** <<
    export function flushPreFlushCallbacks(parentJob) {
        if (pendingPreFlushCallbacks.length > 0) {
            currentPreFlushParentJob = parentJob;
            activePreFlushCallbacks = [...new Set(pendingPreFlushCallbacks)];
            pendingPreFlushCallbacks.length = 0;
            for (preFlushIndex = 0; preFlushIndex < activePreFlushCallbacks.length;
                 preFlushIndex++) {
                activePreFlushCallbacks[preFlushIndex]();
            }
            activePreFlushCallbacks = null;
            preFlushIndex = 0;
            currentPreFlushParentJob = null;
            flushPreFlushCallbacks(parentJob);
        }
    }
    >> *)
Fixpoint flushPreFlushCallbacks (fuel : nat) (s : state) (parentJob : option jobref)
  : option state :=
  match fuel with
  | O => None
  | S fuel' =>
      if (0 <? length (pendingPreFlushCallbacks s))%nat then
        let s1 := set_pre s [] (Some (dedupe (pendingPreFlushCallbacks s))) 0 parentJob in
        match preFlush_loop fuel' s1 with
        | Some s2 =>
            flushPreFlushCallbacks fuel'
              (set_pre s2 (pendingPreFlushCallbacks s2) None 0 None) parentJob
        | None => None
        end
      else Some s
  end.

(** The [for] loop of [flushPostFlushCallbacks]. *)
Fixpoint postFlush_loop (fuel : nat) (s : state) : option state :=
  match fuel with
  | O => None
  | S fuel' =>
      match activePostFlushCallbacks s with
      | Some aq =>
          match aq !! postFlushIndex s with
          | Some cb =>
              let s1 := call PostFlush s cb in
              postFlush_loop fuel'
                (set_post s1 (pendingPostFlushCallbacks s1)
                   (activePostFlushCallbacks s1) (S (postFlushIndex s1)))
          | None => Some s
          end
      | None => Some s
      end
  end.

(** <<
    export function flushPostFlushCallbacks() {
        if (pendingPostFlushCallbacks.length > 0) {
            const deduped = [...new Set(pendingPostFlushCallbacks)];
            pendingPostFlushCallbacks.length = 0;
            if (activePostFlushCallbacks) {
                activePostFlushCallbacks.push(...deduped);
                return;
            }
            activePostFlushCallbacks = deduped;
            activePostFlushCallbacks.sort((a, b) => getId(a) - getId(b));
            for (postFlushIndex = 0; postFlushIndex < activePostFlushCallbacks.length;
                 postFlushIndex++) {
                activePostFlushCallbacks[postFlushIndex]();
            }
            activePostFlushCallbacks = null;
            postFlushIndex = 0;
        }
    }
    >> *)
Definition flushPostFlushCallbacks (fuel : nat) (s : state) : option state :=
  if (0 <? length (pendingPostFlushCallbacks s))%nat then
    let deduped := dedupe (pendingPostFlushCallbacks s) in
    match activePostFlushCallbacks s with
    | Some aq => Some (set_post s [] (Some (aq ++ deduped)) (postFlushIndex s))
    | None =>
        match postFlush_loop fuel (set_post s [] (Some (sort_by_id deduped)) 0) with
        | Some s1 => Some (set_post s1 (pendingPostFlushCallbacks s1) None 0)
        | None => None
        end
    end
  else Some s.

(** One turn of the [for] loop of [flushJobs], for [flushIndex] within the
    queue:
    <<
    for (flushIndex = 0; flushIndex < queue.length; flushIndex++) {
        const job = queue[flushIndex];
        if (job && job.active !== false) { job(); }
    }
    >> *)
Definition flushJobs_turn (s : state) : option state :=
  match queue s !! flushIndex s with
  | Some job =>
      let s1 := if job_active job then call MainQueue s job else s in
      Some (set_queue s1 (queue s1) (S (flushIndex s1)))
  | None => None
  end.

Fixpoint flushJobs_loop (fuel : nat) (s : state) : option state :=
  match fuel with
  | O => None
  | S fuel' =>
      match flushJobs_turn s with
      | Some s1 => flushJobs_loop fuel' s1
      | None => Some s
      end
  end.

(** <<
    function flushJobs() {
        isFlushPending = false;
        isFlushing = true;
        flushPreFlushCallbacks();
        queue.sort((a, b) => getId(a) - getId(b));
        try {
            for (...) { ... }
        } finally {
            flushIndex = 0;
            queue.length = 0;
            flushPostFlushCallbacks();
            isFlushing = false;
            currentFlushPromise = null;
            if (queue.length > 0 || pendingPreFlushCallbacks.length > 0 ||
                pendingPostFlushCallbacks.length > 0) {
                flushJobs();
            }
        }
    }
    >>
    for jobs that return normally. *)
Fixpoint flushJobs (fuel : nat) (s : state) : option state :=
  match fuel with
  | O => None
  | S fuel' =>
      let s1 := set_flags s true false in
      match flushPreFlushCallbacks fuel' s1 None with
      | None => None
      | Some s2 =>
          let s3 := set_queue s2 (sort_by_id (queue s2)) 0 in
          match flushJobs_loop fuel' s3 with
          | None => None
          | Some s4 =>
              let s5 := set_queue s4 [] 0 in
              match flushPostFlushCallbacks fuel' s5 with
              | None => None
              | Some s6 =>
                  let s7 := set_flags s6 false (isFlushPending s6) in
                  if (0 <? length (queue s7))%nat
                     || (0 <? length (pendingPreFlushCallbacks s7))%nat
                     || (0 <? length (pendingPostFlushCallbacks s7))%nat
                  then flushJobs fuel' s7
                  else Some s7
              end
          end
      end
  end.

(** ** Facts about the queues *)

Lemma queueFlush_fields s :
  queue (queueFlush s) = queue s
  /\ flushIndex (queueFlush s) = flushIndex s
  /\ pendingPreFlushCallbacks (queueFlush s) = pendingPreFlushCallbacks s
  /\ pendingPostFlushCallbacks (queueFlush s) = pendingPostFlushCallbacks s
  /\ isFlushing (queueFlush s) = isFlushing s
  /\ log (queueFlush s) = log s.
Proof. unfold queueFlush. by destruct (_ && _). Qed.

Lemma queueJob_pre_log s j :
  pendingPreFlushCallbacks (queueJob s j) = pendingPreFlushCallbacks s
  /\ log (queueJob s j) = log s.
Proof.
  unfold queueJob. destruct (_ && _); [|done].
  destruct (queueFlush_fields
              (set_queue s match job_id j with
                           | Some idv => splice_insert (queue s) (findInsertionIndex s idv) j
                           | None => queue s ++ [j]
                           end (flushIndex s)))
    as (_ & _ & -> & _ & _ & ->). done.
Qed.

(** [queuePreFlushCallback] never adds to [pendingPreFlushCallbacks]: what
    it accepts goes to [pendingPostFlushCallbacks]. *)
Lemma queuePreFlushCallback_pending s cb :
  pendingPreFlushCallbacks (queuePreFlushCallback s cb) = pendingPreFlushCallbacks s
  /\ log (queuePreFlushCallback s cb) = log s
  /\ (activePreFlushCallbacks s = None ->
      pendingPostFlushCallbacks (queuePreFlushCallback s cb)
      = pendingPostFlushCallbacks s ++ [cb]).
Proof.
  unfold queuePreFlushCallback, queueCallback.
  destruct (activePreFlushCallbacks s) as [aq|] eqn:Haq.
  - destruct (negb (includes_from aq cb _));
      match goal with
      | |- context [queueFlush ?x] =>
          destruct (queueFlush_fields x) as (_ & _ & -> & _ & _ & ->)
      end; done.
  - match goal with
    | |- context [queueFlush ?x] =>
        destruct (queueFlush_fields x) as (_ & _ & -> & -> & _ & ->)
    end. done.
Qed.

Lemma queuePostFlushCallback_pre_log s cb :
  pendingPreFlushCallbacks (queuePostFlushCallback s cb) = pendingPreFlushCallbacks s
  /\ log (queuePostFlushCallback s cb) = log s.
Proof.
  unfold queuePostFlushCallback, queueCallback.
  match goal with
  | |- context [queueFlush ?x] =>
      destruct (queueFlush_fields x) as (_ & _ & -> & _ & _ & ->)
  end.
  destruct (activePostFlushCallbacks s) as [aq|]; [destruct (negb _)|]; done.
Qed.

Lemma perform_pre_log s a :
  pendingPreFlushCallbacks (perform s a) = pendingPreFlushCallbacks s
  /\ log (perform s a) = log s.
Proof.
  destruct a; simpl.
  - apply queueJob_pre_log.
  - destruct (queuePreFlushCallback_pending s cb) as (? & ? & _). done.
  - apply queuePostFlushCallback_pre_log.
Qed.

Lemma call_pre_log p s j :
  pendingPreFlushCallbacks (call p s j) = pendingPreFlushCallbacks s
  /\ log (call p s j) = log s ++ [(p, j)].
Proof.
  unfold call.
  assert (H : forall l s0,
             pendingPreFlushCallbacks (foldl perform s0 l) = pendingPreFlushCallbacks s0
             /\ log (foldl perform s0 l) = log s0).
  { induction l as [|a l IH]; intros s0; simpl; [done|].
    destruct (IH (perform s0 a)) as [-> ->]. apply perform_pre_log. }
  destruct (H (job_body j) (add_log s p j)) as [-> ->]. done.
Qed.

(** ** The pre-flush loop has nothing to run *)

Lemma flushPreFlushCallbacks_empty fuel s parent :
  pendingPreFlushCallbacks s = [] ->
  flushPreFlushCallbacks (S fuel) s parent = Some s.
Proof. intros H. simpl. by rewrite H. Qed.

Lemma flushPostFlushCallbacks_empty fuel s :
  pendingPostFlushCallbacks s = [] ->
  flushPostFlushCallbacks fuel s = Some s.
Proof. intros H. unfold flushPostFlushCallbacks. by rewrite H. Qed.

(** A step keeps [pendingPreFlushCallbacks] empty and logs no call from the
    pre-flush loop. *)
Definition pre_idle (s s' : state) : Prop :=
  pendingPreFlushCallbacks s' = []
  /\ forall j, (PreFlush, j) ∈ log s' -> (PreFlush, j) ∈ log s.

Lemma flushJobs_loop_pre_idle fuel s s' :
  pendingPreFlushCallbacks s = [] ->
  flushJobs_loop fuel s = Some s' -> pre_idle s s'.
Proof.
  revert s. induction fuel as [|fuel IH]; intros s Hpre; simpl; [done|].
  unfold flushJobs_turn.
  destruct (queue s !! flushIndex s) as [job|]; [|by intros [= <-]].
  intros Hloop. apply IH in Hloop as [Hp Hl].
  - split; [done|]. intros j Hj. specialize (Hl j Hj). simpl in Hl.
    destruct (job_active job); [|done].
    destruct (call_pre_log MainQueue s job) as [_ Hlog]. rewrite Hlog in Hl.
    apply elem_of_app in Hl as [Hl|Hl]; [done|].
    apply list_elem_of_singleton in Hl. discriminate.
  - simpl. destruct (job_active job); [|done].
    by destruct (call_pre_log MainQueue s job) as [-> _].
Qed.

Lemma postFlush_loop_pre_idle fuel s s' :
  pendingPreFlushCallbacks s = [] ->
  postFlush_loop fuel s = Some s' -> pre_idle s s'.
Proof.
  revert s. induction fuel as [|fuel IH]; intros s Hpre; simpl; [done|].
  destruct (activePostFlushCallbacks s) as [aq|]; [|by intros [= <-]].
  destruct (aq !! postFlushIndex s) as [cb|]; [|by intros [= <-]].
  intros Hloop. apply IH in Hloop as [Hp Hl].
  - split; [done|]. intros j Hj. specialize (Hl j Hj). simpl in Hl.
    destruct (call_pre_log PostFlush s cb) as [_ Hlog]. rewrite Hlog in Hl.
    apply elem_of_app in Hl as [Hl|Hl]; [done|].
    apply list_elem_of_singleton in Hl. discriminate.
  - simpl. by destruct (call_pre_log PostFlush s cb) as [-> _].
Qed.

Lemma flushPostFlushCallbacks_pre_idle fuel s s' :
  pendingPreFlushCallbacks s = [] ->
  flushPostFlushCallbacks fuel s = Some s' -> pre_idle s s'.
Proof.
  intros Hpre. unfold flushPostFlushCallbacks.
  destruct (0 <? length (pendingPostFlushCallbacks s))%nat; [|by intros [= <-]].
  destruct (activePostFlushCallbacks s) as [aq|]; [by intros [= <-]|].
  destruct (postFlush_loop fuel _) as [s1|] eqn:Hloop; [|done].
  intros [= <-]. apply postFlush_loop_pre_idle in Hloop as [Hp Hl]; done.
Qed.

(** Whatever the jobs do, as long as [pendingPreFlushCallbacks] is empty
    when a flush starts it is empty when the flush ends, and the flush calls
    nothing from the pre-flush loop. *)
Lemma flushJobs_pre_idle fuel s s' :
  pendingPreFlushCallbacks s = [] ->
  flushJobs fuel s = Some s' -> pre_idle s s'.
Proof.
  revert s. induction fuel as [|fuel IH]; intros s Hpre; simpl; [done|].
  destruct fuel as [|fuel']; [done|].
  rewrite flushPreFlushCallbacks_empty by done.
  destruct (flushJobs_loop (S fuel') _) as [s4|] eqn:H4; [|done].
  apply flushJobs_loop_pre_idle in H4 as [Hp4 Hl4]; [|done].
  destruct (flushPostFlushCallbacks (S fuel') _) as [s6|] eqn:H6; [|done].
  apply flushPostFlushCallbacks_pre_idle in H6 as [Hp6 Hl6]; [|done].
  assert (Hidle : pre_idle s (set_flags s6 false (isFlushPending s6))).
  { split; [done|]. intros j Hj. by apply Hl4, Hl6. }
  destruct (_ || _); [|by intros [= <-]].
  intros Hrec. apply IH in Hrec as [Hp Hl]; [|done].
  split; [done|]. intros j Hj. apply Hidle. by apply Hl.
Qed.

(** ** Order of the jobs in one flush *)

(** [job_le a b]: the id of [a] is not above the id of [b]; a job without
    id counts as [Infinity]. *)
Definition job_le (a b : jobref) : Prop := id_le (getId a) (getId b) = true.

Lemma id_lt_irrefl a : id_lt a a = false.
Proof. destruct a as [x|]; simpl; [apply Z.ltb_irrefl | done]. Qed.

Lemma id_lt_trans a b c : id_lt a b = true -> id_lt b c = true -> id_lt a c = true.
Proof.
  destruct a as [x|], b as [y|], c as [z|]; simpl; try done.
  rewrite !Z.ltb_lt. lia.
Qed.

Lemma id_le_trans a b c : id_le a b = true -> id_le b c = true -> id_le a c = true.
Proof.
  unfold id_le. rewrite !negb_true_iff.
  destruct a as [x|], b as [y|], c as [z|]; simpl; try done.
  rewrite !Z.ltb_ge. lia.
Qed.

Lemma id_lt_le a b : id_lt a b = true -> id_le a b = true.
Proof.
  unfold id_le. rewrite negb_true_iff.
  destruct a as [x|], b as [y|]; simpl; try done.
  rewrite Z.ltb_lt, Z.ltb_ge. lia.
Qed.

Lemma job_le_trans a b c : job_le a b -> job_le b c -> job_le a c.
Proof. apply id_le_trans. Qed.

Lemma insert_by_id_Permutation x l : insert_by_id x l ≡ₚ x :: l.
Proof.
  induction l as [|y l IH]; simpl; [done|].
  destruct (id_lt (getId y) (getId x)); [|done].
  rewrite IH. apply Permutation_swap.
Qed.

Lemma sort_by_id_Permutation l : sort_by_id l ≡ₚ l.
Proof.
  induction l as [|x l IH]; simpl; [done|].
  by rewrite insert_by_id_Permutation, IH.
Qed.

Lemma insert_by_id_sorted x l :
  StronglySorted job_le l -> StronglySorted job_le (insert_by_id x l).
Proof.
  induction 1 as [|y l Hs IH Hall]; simpl.
  - repeat constructor.
  - destruct (id_lt (getId y) (getId x)) eqn:Hlt.
    + constructor; [done|].
      rewrite insert_by_id_Permutation. constructor; [|done].
      by apply id_lt_le.
    + constructor; [by constructor|].
      assert (Hxy : job_le x y) by (unfold job_le, id_le; by rewrite Hlt).
      constructor; [done|].
      eapply Forall_impl; [exact Hall|]. intros z Hz.
      by apply (job_le_trans x y z).
Qed.

Lemma sort_by_id_sorted l : StronglySorted job_le (sort_by_id l).
Proof.
  induction l as [|x l IH]; simpl; [constructor | by apply insert_by_id_sorted].
Qed.

Lemma StronglySorted_filter_jobs (P : jobref -> Prop) `{!forall j, Decision (P j)} l :
  StronglySorted job_le l -> StronglySorted job_le (filter P l).
Proof.
  induction 1 as [|y l Hs IH Hall]; [constructor|].
  rewrite filter_cons. destruct (decide (P y)); [|done].
  constructor; [done|].
  apply Forall_forall. intros z Hz. apply list_elem_of_filter in Hz as [_ Hz].
  by eapply Forall_forall in Hall.
Qed.

Lemma splice_insert_Permutation l i x : splice_insert l i x ≡ₚ x :: l.
Proof.
  unfold splice_insert. rewrite <- Permutation_middle.
  by rewrite take_drop.
Qed.

(** A job whose function does not call back into the scheduler. *)
Definition quiet (j : jobref) : Prop := job_body j = [].

Lemma call_quiet p s j : quiet j -> call p s j = add_log s p j.
Proof. unfold quiet, call. by intros ->. Qed.

(** Outside a flush, [queueJob] adds the job unless the queue has it. *)
Definition idle (s : state) : Prop :=
  isFlushing s = false /\ flushIndex s = 0%nat /\ currentPreFlushParentJob s = None
  /\ pendingPreFlushCallbacks s = [] /\ pendingPostFlushCallbacks s = []
  /\ activePostFlushCallbacks s = None /\ log s = [].

Lemma queueJob_idle s j :
  idle s -> NoDup (queue s) ->
  idle (queueJob s j) /\ NoDup (queue (queueJob s j))
  /\ forall x, x ∈ queue (queueJob s j) <-> x = j \/ x ∈ queue s.
Proof.
  intros (Hf & Hi & Hp & Hpre & Hpost & Hact & Hlog) Hnd.
  unfold queueJob. rewrite Hf, Hi, Hp. simpl.
  rewrite andb_true_r. unfold includes_from. rewrite drop_0.
  destruct (decide (j ∈ queue s)) as [Hin|Hin].
  - assert (Hne : (length (queue s) =? 0)%nat = false).
    { apply Nat.eqb_neq. destruct (queue s); [by apply elem_of_nil in Hin | done]. }
    rewrite Hne, bool_decide_eq_true_2 by done. simpl.
    split; [done|]. split; [done|]. intros x. split; [eauto|].
    by intros [-> | ?].
  - assert (Hc : (length (queue s) =? 0)%nat || negb (bool_decide (j ∈ queue s)) = true).
    { rewrite bool_decide_eq_false_2 by done. apply orb_true_r. }
    rewrite Hc.
    set (q := match job_id j with
              | Some idv => splice_insert (queue s) (findInsertionIndex s idv) j
              | None => queue s ++ [j]
              end).
    assert (Hq : q ≡ₚ j :: queue s).
    { unfold q. destruct (job_id j).
      - apply splice_insert_Permutation.
      - by rewrite Permutation_app_comm. }
    destruct (queueFlush_fields (set_queue s q 0))
      as (Hq' & Hi' & Hpre' & Hpost' & Hf' & Hlog').
    split; [|split].
    + unfold idle. rewrite Hf', Hi', Hpre', Hpost', Hlog'.
      unfold queueFlush. destruct (_ && _); simpl; by rewrite ?Hp, ?Hact.
    + rewrite Hq'. simpl. rewrite Hq. by constructor.
    + intros x. rewrite Hq'. simpl. rewrite Hq. apply elem_of_cons.
Qed.

Lemma queueJobs_idle js :
  let s := foldl queueJob initial_state js in
  idle s /\ NoDup (queue s) /\ forall x, x ∈ queue s <-> x ∈ js.
Proof.
  induction js as [|j js IH] using rev_ind; simpl.
  - split; [by repeat split|]. split; [constructor|]. done.
  - rewrite foldl_app. simpl. destruct IH as (Hidle & Hnd & Hmem).
    destruct (queueJob_idle _ j Hidle Hnd) as (Hidle' & Hnd' & Hmem').
    split; [done|]. split; [done|].
    intros x. rewrite Hmem', Hmem, elem_of_app, list_elem_of_singleton. tauto.
Qed.

(** The main loop over quiet jobs calls the active ones in queue order. *)
Lemma flushJobs_loop_quiet fuel s :
  (forall j, j ∈ queue s -> quiet j) ->
  (length (queue s) - flushIndex s < fuel)%nat ->
  exists s',
    flushJobs_loop fuel s = Some s'
    /\ log s' = log s ++ ((λ j, (MainQueue, j)) <$>
                            filter (λ j, job_active j = true)
                                   (drop (flushIndex s) (queue s)))
    /\ pendingPreFlushCallbacks s' = pendingPreFlushCallbacks s
    /\ pendingPostFlushCallbacks s' = pendingPostFlushCallbacks s
    /\ activePostFlushCallbacks s' = activePostFlushCallbacks s
    /\ isFlushPending s' = isFlushPending s.
Proof.
  revert s. induction fuel as [|fuel IH]; intros s Hq Hfuel; [lia|]. simpl.
  unfold flushJobs_turn.
  destruct (queue s !! flushIndex s) as [job|] eqn:Hjob.
  - assert (Hquiet : quiet job) by (eapply Hq, list_elem_of_lookup_2; eauto).
    rewrite (call_quiet MainQueue s job Hquiet).
    pose proof (lookup_lt_Some _ _ _ Hjob) as Hlt.
    rewrite (drop_S _ _ _ Hjob).
    destruct (job_active job) eqn:Hact.
    + destruct (IH (set_queue (add_log s MainQueue job) (queue s) (S (flushIndex s))))
        as (s' & Hs' & Hlog & Hrest); [done | simpl; lia |].
      exists s'. split; [exact Hs'|]. split; [|done].
      rewrite Hlog, filter_cons, decide_True by exact Hact. simpl.
      by rewrite <- app_assoc.
    + destruct (IH (set_queue s (queue s) (S (flushIndex s))))
        as (s' & Hs' & Hlog & Hrest); [done | simpl; lia |].
      exists s'. split; [exact Hs'|]. split; [|done].
      rewrite Hlog, filter_cons, decide_False; [done|]. by rewrite Hact.
  - exists s. split; [done|].
    apply lookup_ge_None in Hjob. rewrite drop_ge by done.
    rewrite filter_nil. simpl. by rewrite app_nil_r.
Qed.

Lemma snd_tagged (p : phase) (l : list jobref) : ((λ j, (p, j)) <$> l).*2 = l.
Proof. induction l as [|x l IH]; [done|]. simpl. f_equal. exact IH. Qed.

(** Jobs queued before the flush starts, in any order, and whose functions
    do not call back into the scheduler, are called by the flush in
    ascending order of their ids (a job without id last); each active one
    exactly once, and nothing else is called. *)
Lemma flushJobs_quiet_jobs_in_id_order (js : list jobref) (fuel : nat) :
  (forall j, j ∈ js -> quiet j) ->
  (length js + 2 <= fuel)%nat ->
  exists s',
    flushJobs fuel (foldl queueJob initial_state js) = Some s'
    /\ StronglySorted job_le ((log s').*2)
    /\ NoDup (log s')
    /\ forall p j, (p, j) ∈ log s' <-> p = MainQueue /\ j ∈ js /\ job_active j = true.
Proof.
  intros Hquiet Hfuel.
  destruct (queueJobs_idle js) as (Hidle & Hnd & Hmem).
  set (s0 := foldl queueJob initial_state js) in *.
  destruct Hidle as (Hf & Hi & Hp & Hpre & Hpost & Hact & Hlog).
  assert (Hlen : (length (queue s0) <= length js)%nat).
  { apply submseteq_length, NoDup_submseteq; [done|]. intros x. by rewrite Hmem. }
  destruct fuel as [|[|fuel]]; [lia | lia |].
  cbn [flushJobs].
  rewrite flushPreFlushCallbacks_empty by done.
  set (s3 := set_queue (set_flags s0 true false)
               (sort_by_id (queue (set_flags s0 true false))) 0).
  destruct (flushJobs_loop_quiet (S fuel) s3)
    as (s4 & -> & Hlog4 & Hpre4 & Hpost4 & Hact4 & Hpend4).
  { intros j Hj. apply Hquiet, Hmem. simpl in Hj.
    by rewrite sort_by_id_Permutation in Hj. }
  { unfold s3. simpl. rewrite sort_by_id_Permutation. lia. }
  rewrite flushPostFlushCallbacks_empty
    by (cbn [pendingPostFlushCallbacks set_queue]; by rewrite Hpost4).
  set (s7 := set_flags (set_queue s4 [] 0) false (isFlushPending (set_queue s4 [] 0))).
  assert (Hcond : (0 <? length (queue s7))%nat
                  || (0 <? length (pendingPreFlushCallbacks s7))%nat
                  || (0 <? length (pendingPostFlushCallbacks s7))%nat = false).
  { unfold s7. cbn [queue pendingPreFlushCallbacks pendingPostFlushCallbacks
                    set_flags set_queue].
    rewrite Hpre4, Hpost4. simpl. by rewrite Hpre, Hpost. }
  rewrite Hcond.
  exists s7. split; [reflexivity|].
  assert (Hlog7 : log s7 = (λ j, (MainQueue, j)) <$>
                    filter (λ j, job_active j = true) (sort_by_id (queue s0))).
  { unfold s7. cbn [log set_flags set_queue]. rewrite Hlog4. simpl.
    by rewrite Hlog, drop_0. }
  rewrite Hlog7.
  split; [|split].
  - rewrite snd_tagged.
    apply StronglySorted_filter_jobs, sort_by_id_sorted.
  - apply NoDup_fmap_2; [by intros ?? [= ->]|].
    apply NoDup_filter. by rewrite sort_by_id_Permutation.
  - intros p j. rewrite list_elem_of_fmap. split.
    + intros (j' & [= -> ->] & Hj').
      apply list_elem_of_filter in Hj' as [Ha Hj'].
      rewrite sort_by_id_Permutation in Hj'. by rewrite <- Hmem.
    + intros (-> & Hj & Ha). exists j. split; [done|].
      apply list_elem_of_filter. split; [done|].
      rewrite sort_by_id_Permutation. by apply Hmem.
Qed.

(** Whatever is done between flushes, a flush never calls a callback from
    the pre-flush loop: [queuePreFlushCallback] feeds the post-flush queue. *)
Theorem flushJobs_never_runs_pre_flush_loop
    (acts : list action) (fuel : nat) (s' : state) :
  flushJobs fuel (foldl perform initial_state acts) = Some s' ->
  forall j, (PreFlush, j) ∉ log s'.
Proof.
  intros Hflush j Hj.
  assert (H0 : pendingPreFlushCallbacks (foldl perform initial_state acts) = []
               /\ log (foldl perform initial_state acts) = []).
  { clear Hflush. induction acts as [|a acts IH] using rev_ind; [done|].
    rewrite foldl_app. simpl.
    destruct (perform_pre_log (foldl perform initial_state acts) a) as [-> ->].
    exact IH. }
  destruct H0 as [Hpre Hlog].
  destruct (flushJobs_pre_idle fuel _ s' Hpre Hflush) as [_ Hl].
  specialize (Hl j Hj). rewrite Hlog in Hl. by apply elem_of_nil in Hl.
Qed.

(** ** Jobs queued while a flush is running *)

(** The entries of [q] from position [lo] on are in ascending id order. *)
Definition sorted_from (lo : nat) (q : list jobref) : Prop :=
  forall i k a b, (lo <= i)%nat -> (i < k)%nat ->
    q !! i = Some a -> q !! k = Some b -> job_le a b.

Lemma id_le_lt_trans a b c : id_le a b = true -> id_lt b c = true -> id_lt a c = true.
Proof.
  unfold id_le. rewrite negb_true_iff.
  destruct a as [x|], b as [y|], c as [z|]; simpl; try done.
  rewrite Z.ltb_ge, !Z.ltb_lt. lia.
Qed.

Lemma id_lt_false_le_trans a b c :
  id_lt a c = false -> id_le a b = true -> id_lt b c = false.
Proof.
  unfold id_le. rewrite negb_true_iff.
  destruct a as [x|], b as [y|], c as [z|]; simpl; try done.
  rewrite !Z.ltb_ge. lia.
Qed.

Lemma sort_by_id_sorted_from l : sorted_from 0 (sort_by_id l).
Proof.
  pose proof (sort_by_id_sorted l) as Hs.
  induction Hs as [|x q Hs IH Hall]; intros i k a b _ Hik Ha Hb.
  - by rewrite lookup_nil in Ha.
  - destruct k as [|k]; [lia|]. simpl in Hb.
    destruct i as [|i]; simpl in Ha.
    + injection Ha as <-. eapply Forall_forall in Hall; [done|].
      by eapply list_elem_of_lookup_2.
    + apply (IH i k a b); [lia | lia | done | done].
Qed.

(** The binary search returns the first position, from [lo] on, whose job
    does not have an id below [idv]. *)
Lemma findInsertionIndex_loop_spec turns q idv lo start end_ :
  sorted_from lo q ->
  (lo <= start)%nat -> (start <= end_)%nat -> (end_ <= length q)%nat ->
  (end_ - start <= turns)%nat ->
  (forall i j, (lo <= i < start)%nat -> q !! i = Some j ->
               id_lt (getId j) (Some idv) = true) ->
  (forall i j, (end_ <= i)%nat -> q !! i = Some j ->
               id_lt (getId j) (Some idv) = false) ->
  let p := findInsertionIndex_loop turns q idv start end_ in
  (start <= p <= end_)%nat
  /\ (forall i j, (lo <= i < p)%nat -> q !! i = Some j ->
                  id_lt (getId j) (Some idv) = true)
  /\ (forall i j, (p <= i)%nat -> q !! i = Some j ->
                  id_lt (getId j) (Some idv) = false).
Proof.
  intros Hsorted. revert start end_.
  induction turns as [|turns IH]; intros start end_ Hlo Hse Hlen Hturns Hbelow Habove;
    cbn [findInsertionIndex_loop]; cbn zeta.
  - assert (start = end_) as -> by lia. split; [lia|]. split; done.
  - destruct (start <? end_)%nat eqn:Hlt.
    + apply Nat.ltb_lt in Hlt.
      set (middle := ((start + end_) / 2)%nat).
      assert (Hmid : (start <= middle < end_)%nat).
      { unfold middle. split.
        - apply Nat.div_le_lower_bound; lia.
        - apply Nat.Div0.div_lt_upper_bound; lia. }
      destruct (q !! middle) as [jm|] eqn:Hjm;
        [|apply lookup_ge_None in Hjm; lia].
      destruct (id_lt (getId jm) (Some idv)) eqn:Hcmp.
      * destruct (IH (middle + 1)%nat end_) as (Hp & Hb & Ha);
          [lia | lia | lia | lia | | done |].
        { intros i j Hi Hj.
          destruct (decide (i = middle)) as [->|Hne]; [congruence|].
          apply (id_le_lt_trans _ (getId jm)); [|done].
          apply (Hsorted i middle j jm); [lia | lia | done | done]. }
        split; [lia|]. split; done.
      * destruct (IH start middle) as (Hp & Hb & Ha);
          [lia | lia | lia | lia | done | |].
        { intros i j Hi Hj.
          destruct (decide (i = middle)) as [->|Hne]; [congruence|].
          apply (id_lt_false_le_trans (getId jm)); [done|].
          apply (Hsorted middle i jm j); [lia | lia | done | done]. }
        split; [lia|]. split; done.
    + apply Nat.ltb_ge in Hlt. assert (start = end_) as -> by lia.
      split; [lia|]. split; done.
Qed.

Lemma lookup_splice_insert q p x i :
  (p <= length q)%nat ->
  splice_insert q p x !! i
  = if decide (i < p)%nat then q !! i
    else if decide (i = p) then Some x else q !! (i - 1)%nat.
Proof.
  intros Hp. unfold splice_insert.
  destruct (decide (i < p)%nat) as [Hlt|Hge].
  - rewrite lookup_app_l by (rewrite length_take; lia).
    by rewrite lookup_take_lt.
  - rewrite lookup_app_r by (rewrite length_take; lia).
    rewrite length_take, Nat.min_l by lia.
    destruct (decide (i = p)) as [->|Hne].
    + by rewrite Nat.sub_diag.
    + destruct (i - p)%nat as [|d] eqn:Hd; [lia|]. simpl.
      rewrite lookup_drop. f_equal. lia.
Qed.

Lemma splice_insert_ge q p x :
  (length q <= p)%nat -> splice_insert q p x = q ++ [x].
Proof.
  intros Hp. unfold splice_insert. by rewrite take_ge, drop_ge.
Qed.

(** [queueJob] keeps the part of the queue behind the running job in
    ascending id order, whether it inserts by binary search or appends. *)
Lemma queueJob_sorted s j :
  sorted_from (S (flushIndex s)) (queue s) ->
  flushIndex (queueJob s j) = flushIndex s
  /\ sorted_from (S (flushIndex s)) (queue (queueJob s j)).
Proof.
  intros Hsorted. unfold queueJob.
  destruct (_ && _); [|done].
  match goal with
  | |- context [queueFlush ?x] =>
      destruct (queueFlush_fields x) as (-> & -> & _)
  end.
  split; [done|]. simpl.
  destruct (job_id j) as [idv|] eqn:Hid.
  - destruct (decide (S (flushIndex s) <= length (queue s))%nat) as [Hle|Hgt].
    + destruct (findInsertionIndex_loop_spec
                  (length (queue s) - S (flushIndex s)) (queue s) idv
                  (S (flushIndex s)) (S (flushIndex s)) (length (queue s)))
        as (Hp & Hbelow & Habove); [done | lia | lia | lia | lia | | |].
      { intros i x Hi. lia. }
      { intros i x Hi Hx. apply lookup_lt_Some in Hx. lia. }
      fold (findInsertionIndex s idv) in Hp, Hbelow, Habove.
      set (p := findInsertionIndex s idv) in *.
      intros i k a b Hi Hik.
      rewrite !lookup_splice_insert by lia.
      repeat case_decide; try lia; intros Ha Hb.
      * by apply (Hsorted i k a b).
      * injection Hb as <-. apply id_lt_le. unfold getId at 2. rewrite Hid.
        apply (Hbelow i a); [lia | done].
      * apply (Hsorted i (k - 1)%nat a b); [lia | lia | done | done].
      * injection Ha as <-. unfold job_le, id_le. unfold getId at 2. rewrite Hid.
        rewrite (Habove (k - 1)%nat b); [done | lia | done].
      * apply (Hsorted (i - 1)%nat (k - 1)%nat a b); [lia | lia | done | done].
    + unfold findInsertionIndex.
      replace (length (queue s) - S (flushIndex s))%nat with 0%nat by lia. simpl.
      rewrite splice_insert_ge by lia.
      intros i k a b Hi Hik Ha Hb.
      apply lookup_lt_Some in Hb. rewrite length_app in Hb. simpl in Hb. lia.
  - intros i k a b Hi Hik Ha Hb.
    apply lookup_app_Some in Hb as [Hb | [Hge Hb]].
    + rewrite lookup_app_l in Ha by (apply lookup_lt_Some in Hb; lia).
      by apply (Hsorted i k a b).
    + apply list_lookup_singleton_Some in Hb as [_ <-].
      unfold job_le, id_le, getId. rewrite Hid. by destruct (job_id a).
Qed.

Lemma perform_sorted s a :
  sorted_from (S (flushIndex s)) (queue s) ->
  flushIndex (perform s a) = flushIndex s
  /\ sorted_from (S (flushIndex s)) (queue (perform s a)).
Proof.
  intros Hs. destruct a as [j|cb|cb]; simpl.
  - by apply queueJob_sorted.
  - unfold queuePreFlushCallback, queueCallback.
    match goal with
    | |- context [queueFlush ?x] =>
        destruct (queueFlush_fields x) as (-> & -> & _)
    end.
    destruct (activePreFlushCallbacks s) as [aq|]; [destruct (negb _)|]; done.
  - unfold queuePostFlushCallback, queueCallback.
    match goal with
    | |- context [queueFlush ?x] =>
        destruct (queueFlush_fields x) as (-> & -> & _)
    end.
    destruct (activePostFlushCallbacks s) as [aq|]; [destruct (negb _)|]; done.
Qed.

Lemma call_sorted p s j :
  sorted_from (S (flushIndex s)) (queue s) ->
  flushIndex (call p s j) = flushIndex s
  /\ sorted_from (S (flushIndex s)) (queue (call p s j)).
Proof.
  unfold call.
  assert (H : forall l s0,
             sorted_from (S (flushIndex s0)) (queue s0) ->
             flushIndex (foldl perform s0 l) = flushIndex s0
             /\ sorted_from (S (flushIndex s0)) (queue (foldl perform s0 l))).
  { induction l as [|a l IH]; intros s0 Hs0; simpl; [done|].
    destruct (perform_sorted s0 a Hs0) as [Hfi Hs1].
    destruct (IH (perform s0 a)) as [Hfi' Hs']; [by rewrite Hfi|].
    rewrite Hfi', Hfi. split; [done|]. by rewrite <- Hfi. }
  intros Hs. by apply (H (job_body j) (add_log s p j)).
Qed.

(** A turn of the main loop keeps the queue in ascending id order from
    [flushIndex] on, whatever the called job queues; the job about to be
    called next has the least id of all jobs waiting in the queue. *)
Lemma flushJobs_turn_sorted (s s' : state) :
  sorted_from (flushIndex s) (queue s) ->
  flushJobs_turn s = Some s' ->
  sorted_from (flushIndex s') (queue s')
  /\ flushIndex s' = S (flushIndex s)
  /\ forall job k j, queue s' !! flushIndex s' = Some job ->
       (flushIndex s' < k)%nat -> queue s' !! k = Some j -> job_le job j.
Proof.
  intros Hsorted. unfold flushJobs_turn.
  destruct (queue s !! flushIndex s) as [job|]; [|done].
  intros [= <-].
  assert (Hs1 : sorted_from (S (flushIndex s)) (queue s)).
  { intros i k a b Hi Hik. apply Hsorted. lia. done. }
  assert (H : flushIndex (if job_active job then call MainQueue s job else s)
              = flushIndex s
              /\ sorted_from (S (flushIndex s))
                   (queue (if job_active job then call MainQueue s job else s))).
  { destruct (job_active job); [by apply call_sorted | done]. }
  destruct H as [Hfi Hs']. simpl. rewrite Hfi.
  split; [done|]. split; [done|].
  intros job' k j Hjob' Hk Hj. by apply (Hs' (S (flushIndex s)) k job' j).
Qed.

(** C5 (amended).
    - Jobs queued before the flush starts, in any order, and whose functions
      do not queue jobs themselves, are called by the flush in ascending
      order of their ids, each active one exactly once.
    - In general the flush sorts the queue, and every turn of the main loop
      keeps the waiting part of the queue in ascending id order: the job
      called next has the least id among the jobs waiting at that time. A
      job queued by the running job is placed by id among the waiting jobs,
      so it is called after the running job even when its id is smaller. *)
Theorem flushJobs_runs_jobs_in_id_order :
  (forall (js : list jobref) (fuel : nat),
     (forall j, j ∈ js -> quiet j) ->
     (length js + 2 <= fuel)%nat ->
     exists s',
       flushJobs fuel (foldl queueJob initial_state js) = Some s'
       /\ StronglySorted job_le ((log s').*2)
       /\ NoDup (log s')
       /\ forall p j, (p, j) ∈ log s' <->
            p = MainQueue /\ j ∈ js /\ job_active j = true)
  /\ (forall q, sorted_from 0 (sort_by_id q))
  /\ (forall s s',
        sorted_from (flushIndex s) (queue s) ->
        flushJobs_turn s = Some s' ->
        sorted_from (flushIndex s') (queue s')
        /\ flushIndex s' = S (flushIndex s)
        /\ forall job k j, queue s' !! flushIndex s' = Some job ->
             (flushIndex s' < k)%nat -> queue s' !! k = Some j -> job_le job j).
Proof.
  split; [exact flushJobs_quiet_jobs_in_id_order|].
  split; [exact sort_by_id_sorted_from | exact flushJobs_turn_sorted].
Qed.

(** ** Removing a job, and the callbacks after the queue *)

(** [array.indexOf(x)]; [None] stands for [-1]. *)
Fixpoint indexOf (l : list jobref) (x : jobref) : option nat :=
  match l with
  | [] => None
  | y :: r => if bool_decide (y = x) then Some 0%nat else S <$> indexOf r x
  end.

(** <<
    export function invalidateJob(job) {
        const idx = queue.indexOf(job);
        if (idx > flushIndex) { queue.splice(idx, 1); }
    }
    >> *)
Definition invalidateJob (s : state) (job : jobref) : state :=
  match indexOf (queue s) job with
  | Some idx =>
      if (flushIndex s <? idx)%nat
      then set_queue s (delete idx (queue s)) (flushIndex s)
      else s
  | None => s
  end.

Lemma indexOf_None l x : indexOf l x = None <-> x ∉ l.
Proof.
  induction l as [|y l IH]; simpl.
  - split; [intros _; by intros ?%elem_of_nil | done].
  - case_bool_decide as Hy.
    + split; [done|]. intros Hn. exfalso. apply Hn. subst. by left.
    + rewrite not_elem_of_cons, <- IH.
      destruct (indexOf l x); simpl; split; try done; intros [? ?]; done.
Qed.

(** [indexOf] finds the first occurrence. *)
Lemma indexOf_Some l x i :
  indexOf l x = Some i ->
  l !! i = Some x /\ forall k, (k < i)%nat -> l !! k <> Some x.
Proof.
  revert i. induction l as [|y l IH]; intros i; simpl; [done|].
  case_bool_decide as Hy.
  - intros [= <-]. split; [by subst|]. intros k Hk. lia.
  - destruct (indexOf l x) as [i'|]; simpl; [|done].
    intros [= <-]. destruct (IH i' eq_refl) as [Hi Hfirst].
    split; [done|]. intros [|k] Hk; simpl.
    + congruence.
    + apply Hfirst. lia.
Qed.

Lemma filter_ne_notin (l : list jobref) x :
  x ∉ l -> filter (λ y, y ≠ x) l = l.
Proof.
  induction l as [|y l IH]; [done|]. intros [Hne Hl]%not_elem_of_cons.
  rewrite filter_cons, decide_True by done. f_equal. by apply IH.
Qed.

Lemma delete_NoDup_filter (l : list jobref) i x :
  NoDup l -> l !! i = Some x -> delete i l = filter (λ y, y ≠ x) l.
Proof.
  intros Hnd. revert i. induction Hnd as [|y l Hy Hnd IH]; intros i; [done|].
  destruct i as [|i]; simpl.
  - intros [= ->]. rewrite filter_cons, decide_False by (by intros []).
    symmetry. by apply filter_ne_notin.
  - intros Hi. rewrite filter_cons, decide_True.
    + f_equal. by apply IH.
    + intros ->. apply Hy. by eapply list_elem_of_lookup_2.
Qed.

Lemma length_dedupe_le l : (length (dedupe l) <= length l)%nat.
Proof.
  unfold dedupe.
  assert (H : forall acc,
             (length (foldl (λ acc x, if bool_decide (x ∈ acc) then acc else acc ++ [x])
                            acc l)
              <= length acc + length l)%nat).
  { induction l as [|x l IH]; intros acc; simpl; [lia|].
    specialize (IH (if bool_decide (x ∈ acc) then acc else acc ++ [x])).
    destruct (bool_decide (x ∈ acc)); [lia|].
    rewrite length_app in IH. simpl in IH. lia. }
  apply (H []).
Qed.

(** The loop of [flushPostFlushCallbacks] over callbacks that do not call
    back into the scheduler calls them in the order of the active queue. *)
Lemma postFlush_loop_quiet fuel s aq :
  (forall j, quiet j) ->
  activePostFlushCallbacks s = Some aq ->
  (length aq - postFlushIndex s < fuel)%nat ->
  exists s',
    postFlush_loop fuel s = Some s'
    /\ log s' = log s ++ ((λ j, (PostFlush, j)) <$> drop (postFlushIndex s) aq)
    /\ queue s' = queue s
    /\ flushIndex s' = flushIndex s
    /\ pendingPreFlushCallbacks s' = pendingPreFlushCallbacks s
    /\ pendingPostFlushCallbacks s' = pendingPostFlushCallbacks s
    /\ isFlushPending s' = isFlushPending s.
Proof.
  intros Hq. revert s. induction fuel as [|fuel IH]; intros s Haq Hfuel; [lia|].
  simpl. rewrite Haq.
  destruct (aq !! postFlushIndex s) as [cb|] eqn:Hcb.
  - rewrite (call_quiet PostFlush s cb (Hq cb)).
    pose proof (lookup_lt_Some _ _ _ Hcb) as Hlt.
    rewrite (drop_S _ _ _ Hcb).
    destruct (IH (set_post (add_log s PostFlush cb)
                    (pendingPostFlushCallbacks (add_log s PostFlush cb))
                    (activePostFlushCallbacks (add_log s PostFlush cb))
                    (S (postFlushIndex (add_log s PostFlush cb)))))
      as (s' & Hs' & Hlog & Hrest); [done | simpl; lia |].
    exists s'. split; [exact Hs'|]. split; [|exact Hrest].
    rewrite Hlog. simpl. by rewrite <- app_assoc.
  - exists s. split; [done|].
    apply lookup_ge_None in Hcb. rewrite drop_ge by done.
    simpl. by rewrite app_nil_r.
Qed.

(** A flush over jobs and callbacks that do not call back into the
    scheduler: the jobs of the queue in id order, then the deduplicated
    post-flush callbacks in id order; afterwards nothing is left. *)
Lemma flushJobs_quiet s fuel :
  (forall j, quiet j) ->
  pendingPreFlushCallbacks s = [] ->
  activePostFlushCallbacks s = None ->
  (length (queue s) + length (pendingPostFlushCallbacks s) + 2 <= fuel)%nat ->
  exists s',
    flushJobs fuel s = Some s'
    /\ log s' = log s
                ++ ((λ j, (MainQueue, j)) <$>
                      filter (λ j, job_active j = true) (sort_by_id (queue s)))
                ++ ((λ j, (PostFlush, j)) <$>
                      sort_by_id (dedupe (pendingPostFlushCallbacks s)))
    /\ queue s' = [] /\ flushIndex s' = 0%nat
    /\ pendingPreFlushCallbacks s' = []
    /\ pendingPostFlushCallbacks s' = []
    /\ activePostFlushCallbacks s' = None
    /\ isFlushing s' = false /\ isFlushPending s' = false.
Proof.
  intros Hq Hpre Hact Hfuel.
  destruct fuel as [|[|fuel]]; [lia | lia |].
  cbn [flushJobs].
  rewrite flushPreFlushCallbacks_empty by done.
  set (s3 := set_queue (set_flags s true false)
               (sort_by_id (queue (set_flags s true false))) 0).
  destruct (flushJobs_loop_quiet (S fuel) s3)
    as (s4 & -> & Hlog4 & Hpre4 & Hpost4 & Hact4 & Hpend4).
  { intros j _. apply Hq. }
  { unfold s3. simpl. rewrite sort_by_id_Permutation. lia. }
  unfold s3 in Hlog4, Hpre4, Hpost4, Hact4, Hpend4.
  cbn [log pendingPreFlushCallbacks pendingPostFlushCallbacks
       activePostFlushCallbacks isFlushPending queue flushIndex
       set_queue set_flags] in Hlog4, Hpre4, Hpost4, Hact4, Hpend4.
  rewrite drop_0 in Hlog4.
  unfold flushPostFlushCallbacks.
  cbn [pendingPostFlushCallbacks activePostFlushCallbacks set_queue].
  rewrite Hpost4, Hact4, Hact.
  destruct (pendingPostFlushCallbacks s) as [|cb cbs] eqn:Hpending.
  - cbn [length Nat.ltb Nat.leb].
    cbn [queue pendingPreFlushCallbacks pendingPostFlushCallbacks
         set_flags set_queue length Nat.ltb Nat.leb orb].
    rewrite ?Hpre4, ?Hpost4, ?Hpre, ?Hpending. cbn [length Nat.ltb Nat.leb orb].
    eexists. split; [reflexivity|].
    cbn [log queue flushIndex pendingPreFlushCallbacks pendingPostFlushCallbacks
         activePostFlushCallbacks isFlushing isFlushPending set_flags set_queue].
    rewrite ?Hlog4, ?Hpre4, ?Hpost4, ?Hact4, ?Hpend4, ?Hpre, ?Hpending, ?Hact.
    cbn [dedupe foldl sort_by_id fmap list_fmap]. rewrite app_nil_r.
    repeat split; reflexivity.
  - assert (Hlt : (0 <? length (cb :: cbs))%nat = true) by reflexivity.
    rewrite Hlt.
    set (aq := sort_by_id (dedupe (cb :: cbs))).
    destruct (postFlush_loop_quiet (S fuel) (set_post (set_queue s4 [] 0) [] (Some aq) 0) aq)
      as (s6 & -> & Hlog6 & Hq6 & Hfi6 & Hpre6 & Hpost6 & Hpend6); [done | done | |].
    { cbn [postFlushIndex set_post]. unfold aq.
      rewrite sort_by_id_Permutation.
      pose proof (length_dedupe_le (cb :: cbs)). lia. }
    cbn [log queue flushIndex pendingPreFlushCallbacks pendingPostFlushCallbacks
         isFlushPending postFlushIndex set_post set_queue]
      in Hlog6, Hq6, Hfi6, Hpre6, Hpost6, Hpend6.
    rewrite drop_0 in Hlog6.
    cbn [queue pendingPreFlushCallbacks pendingPostFlushCallbacks
         set_flags set_post].
    rewrite ?Hq6, ?Hpre6, ?Hpost6, ?Hpre4, ?Hpre. cbn [length Nat.ltb Nat.leb orb].
    eexists. split; [reflexivity|].
    cbn [log queue flushIndex pendingPreFlushCallbacks pendingPostFlushCallbacks
         activePostFlushCallbacks isFlushing isFlushPending set_flags set_post].
    rewrite ?Hlog6, ?Hlog4, ?Hq6, ?Hfi6, ?Hpre6, ?Hpost6, ?Hpend6, ?Hpre4, ?Hpend4, ?Hpre.
    rewrite <- app_assoc.
    repeat split; reflexivity.
Qed.

(** The callbacks that a sequence of actions hands to
    [queuePreFlushCallback] or [queuePostFlushCallback]. *)
Definition callbacks_of (acts : list action) : list jobref :=
  omap (λ a, match a with
             | CallQueueJob _ => None
             | CallQueuePreFlushCallback cb | CallQueuePostFlushCallback cb => Some cb
             end) acts.

(** The scheduler between two flushes. *)
Definition resting (s : state) : Prop :=
  isFlushing s = false /\ flushIndex s = 0%nat /\ currentPreFlushParentJob s = None
  /\ pendingPreFlushCallbacks s = [] /\ activePreFlushCallbacks s = None
  /\ activePostFlushCallbacks s = None /\ log s = [].

Lemma length_splice_insert l i x : length (splice_insert l i x) = S (length l).
Proof. by rewrite splice_insert_Permutation. Qed.

Lemma queueFlush_resting s :
  resting s -> resting (queueFlush s)
  /\ queue (queueFlush s) = queue s
  /\ pendingPostFlushCallbacks (queueFlush s) = pendingPostFlushCallbacks s.
Proof.
  intros (Hf & Hi & Hp & Hpre & Hapre & Hapost & Hlog).
  unfold queueFlush. destruct (_ && _); by repeat split.
Qed.

Lemma perform_resting s a :
  resting s ->
  resting (perform s a)
  /\ pendingPostFlushCallbacks (perform s a)
     = pendingPostFlushCallbacks s ++ callbacks_of [a]
  /\ (length (queue (perform s a)) + length (callbacks_of [a])
      <= S (length (queue s)))%nat.
Proof.
  intros Hrest.
  pose proof Hrest as (Hf & Hi & Hp & Hpre & Hapre & Hapost & Hlog).
  destruct a as [j|cb|cb]; cbn [perform callbacks_of omap].
  - unfold queueJob. destruct (_ && _).
    + match goal with
      | |- context [queueFlush ?x] =>
          destruct (queueFlush_resting x) as (Hr & -> & ->)
      end.
      { by repeat split. }
      cbn [queue pendingPostFlushCallbacks set_queue].
      split; [done|]. split; [by rewrite app_nil_r|].
      destruct (job_id j); rewrite ?length_splice_insert, ?length_app; simpl; lia.
    + split; [done|]. split; [by rewrite app_nil_r|]. simpl. lia.
  - unfold queuePreFlushCallback, queueCallback. rewrite Hapre.
    match goal with
    | |- context [queueFlush ?x] =>
        destruct (queueFlush_resting x) as (Hr & -> & ->)
    end.
    { by repeat split. }
    cbn [queue pendingPostFlushCallbacks set_post]. split; [done|]. split; [done|].
    simpl. lia.
  - unfold queuePostFlushCallback, queueCallback. rewrite Hapost.
    match goal with
    | |- context [queueFlush ?x] =>
        destruct (queueFlush_resting x) as (Hr & -> & ->)
    end.
    { by repeat split. }
    cbn [queue pendingPostFlushCallbacks set_post]. split; [done|]. split; [done|].
    simpl. lia.
Qed.

Lemma callbacks_of_app l1 l2 :
  callbacks_of (l1 ++ l2) = callbacks_of l1 ++ callbacks_of l2.
Proof. unfold callbacks_of. apply omap_app. Qed.

Lemma performs_resting acts :
  let s := foldl perform initial_state acts in
  resting s
  /\ pendingPostFlushCallbacks s = callbacks_of acts
  /\ (length (queue s) + length (callbacks_of acts) <= length acts)%nat.
Proof.
  induction acts as [|a acts IH] using rev_ind; simpl.
  - by repeat split.
  - rewrite foldl_app. simpl. destruct IH as (Hrest & Hpost & Hlen).
    destruct (perform_resting _ a Hrest) as (Hrest' & Hpost' & Hlen').
    split; [done|]. rewrite callbacks_of_app, !length_app.
    split; [by rewrite Hpost', Hpost|].
    change (length [a]) with 1%nat. lia.
Qed.

(** X11: work queued between two flushes by functions that do not call
    back into the scheduler is run by the next flush in this order: first
    the jobs of the queue that are active, in ascending id order; then
    every callback handed to [queuePostFlushCallback] or
    [queuePreFlushCallback], each once however often it was queued, in
    ascending id order. The flush returns with all queues empty and no
    flush pending. *)
Theorem flushJobs_runs_jobs_then_callbacks (acts : list action) (fuel : nat) :
  (forall j, quiet j) ->
  (length acts + 2 <= fuel)%nat ->
  let s := foldl perform initial_state acts in
  pendingPostFlushCallbacks s = callbacks_of acts
  /\ exists s',
       flushJobs fuel s = Some s'
       /\ log s' = ((λ j, (MainQueue, j)) <$>
                      filter (λ j, job_active j = true) (sort_by_id (queue s)))
                   ++ ((λ j, (PostFlush, j)) <$>
                         sort_by_id (dedupe (callbacks_of acts)))
       /\ StronglySorted job_le (sort_by_id (queue s))
       /\ StronglySorted job_le (sort_by_id (dedupe (callbacks_of acts)))
       /\ queue s' = []
       /\ pendingPreFlushCallbacks s' = []
       /\ pendingPostFlushCallbacks s' = []
       /\ isFlushing s' = false /\ isFlushPending s' = false.
Proof.
  intros Hquiet Hfuel s.
  destruct (performs_resting acts) as (Hrest & Hpost & Hlen). fold s in Hrest, Hpost, Hlen.
  destruct Hrest as (Hf & Hi & Hp & Hpre & Hapre & Hapost & Hlog).
  split; [exact Hpost|].
  destruct (flushJobs_quiet s fuel Hquiet Hpre Hapost)
    as (s' & Hflush & Hlog' & Hq' & _ & Hpre' & Hpost' & _ & Hf' & Hpend').
  { rewrite Hpost. lia. }
  exists s'. split; [exact Hflush|].
  split; [by rewrite Hlog', Hlog, Hpost|].
  split; [apply sort_by_id_sorted|]. split; [apply sort_by_id_sorted|].
  done.
Qed.

Lemma findInsertionIndex_loop_ge turns q idv start end_ :
  (start <= findInsertionIndex_loop turns q idv start end_)%nat.
Proof.
  revert start end_. induction turns as [|turns IH]; intros start end_;
    cbn [findInsertionIndex_loop]; [lia|].
  destruct (start <? end_)%nat eqn:Hlt; [|lia].
  apply Nat.ltb_lt in Hlt.
  assert (Hmid : (start <= (start + end_) / 2)%nat).
  { apply Nat.div_le_lower_bound; lia. }
  destruct (id_lt _ _).
  - specialize (IH ((start + end_) / 2 + 1)%nat end_). lia.
  - apply IH.
Qed.

(** Outside a flush [findInsertionIndex] starts at index 1: the job at the
    head of the queue stays at the head. *)
Lemma queueJob_head s j h :
  queue s !! 0%nat = Some h -> queue (queueJob s j) !! 0%nat = Some h.
Proof.
  intros Hh. unfold queueJob. destruct (_ && _); [|done].
  match goal with
  | |- context [queueFlush ?x] => destruct (queueFlush_fields x) as (-> & _)
  end.
  cbn [queue set_queue]. destruct (job_id j) as [idv|].
  - unfold splice_insert, findInsertionIndex.
    pose proof (findInsertionIndex_loop_ge (length (queue s) - S (flushIndex s))
                  (queue s) idv (S (flushIndex s)) (length (queue s))) as Hge.
    destruct (findInsertionIndex_loop _ _ _ _ _) as [|p]; [lia|].
    destruct (queue s) as [|x q]; [done|]. exact Hh.
  - by apply lookup_app_l_Some.
Qed.

Lemma queueJobs_head j0 rest :
  queue (foldl queueJob initial_state (j0 :: rest)) !! 0%nat = Some j0.
Proof.
  induction rest as [|j rest IH] using rev_ind.
  - cbn [foldl]. unfold queueJob. cbn [queue initial_state length Nat.eqb orb
                                        currentPreFlushParentJob].
    rewrite bool_decide_eq_false_2 by done. cbn [negb andb].
    match goal with
    | |- context [queueFlush ?x] => destruct (queueFlush_fields x) as (-> & _)
    end.
    cbn [queue set_queue initial_state]. by destruct (job_id j0).
  - rewrite app_comm_cons, foldl_app. cbn [foldl]. by apply queueJob_head.
Qed.

Lemma invalidateJob_cases s j :
  NoDup (queue s) ->
  (j ∈ drop (S (flushIndex s)) (queue s)
   /\ invalidateJob s j
      = set_queue s (filter (λ y, y ≠ j) (queue s)) (flushIndex s))
  \/ ((j ∉ drop (S (flushIndex s)) (queue s)) /\ invalidateJob s j = s).
Proof.
  intros Hnd. unfold invalidateJob.
  destruct (indexOf (queue s) j) as [idx|] eqn:Hidx.
  - apply indexOf_Some in Hidx as [Hj _].
    destruct (flushIndex s <? idx)%nat eqn:Hlt.
    + apply Nat.ltb_lt in Hlt. left. split.
      * apply (list_elem_of_lookup_2 _ (idx - S (flushIndex s))%nat).
        rewrite lookup_drop. rewrite <- Hj. f_equal. lia.
      * by rewrite (delete_NoDup_filter _ idx j).
    + apply Nat.ltb_ge in Hlt. right. split; [|done].
      intros [k Hk]%list_elem_of_lookup_1. rewrite lookup_drop in Hk.
      pose proof (NoDup_lookup _ _ _ _ Hnd Hj Hk). lia.
  - right. split; [|done]. apply indexOf_None in Hidx.
    intros Hin. apply Hidx. by apply (subseteq_drop (S (flushIndex s))).
Qed.

(** X12: when no job calls back into the scheduler (no function of a
    job queues a job or a callback), [invalidateJob(job)] before a flush
    takes the job out of the queue, and the flush does not call it; every
    other queued job that is active is still called. The exception is the
    job that was queued first: outside a flush [flushIndex] is 0 and
    [invalidateJob] removes only at an index above [flushIndex], so the
    first job stays in the queue and is called. *)
Theorem invalidateJob_then_flush (j0 : jobref) (rest : list jobref) (j : jobref)
    (fuel : nat) :
  (forall x, quiet x) ->
  (length (j0 :: rest) + 2 <= fuel)%nat ->
  exists s',
    flushJobs fuel (invalidateJob (foldl queueJob initial_state (j0 :: rest)) j)
    = Some s'
    /\ forall p x,
         (p, x) ∈ log s'
         <-> p = MainQueue /\ x ∈ j0 :: rest /\ job_active x = true
             /\ (x = j -> j = j0).
Proof.
  intros Hquiet Hfuel.
  destruct (queueJobs_idle (j0 :: rest)) as (Hidle & Hnd & Hmem).
  pose proof (queueJobs_head j0 rest) as Hhead.
  set (s0 := foldl queueJob initial_state (j0 :: rest)) in *.
  destruct Hidle as (Hf & Hi & Hp & Hpre & Hpost & Hact & Hlog).
  assert (Hlen : (length (queue s0) <= length (j0 :: rest))%nat).
  { apply submseteq_length, NoDup_submseteq; [done|]. intros x. by rewrite Hmem. }
  destruct (queue s0) as [|h q] eqn:Hq; [done|].
  injection Hhead as ->.
  apply NoDup_cons in Hnd as [Hj0 Hndq].
  assert (Hqueue : exists s,
             invalidateJob s0 j = s
             /\ pendingPreFlushCallbacks s = [] /\ activePostFlushCallbacks s = None
             /\ pendingPostFlushCallbacks s = [] /\ log s = []
             /\ (length (queue s) <= length (j0 :: rest))%nat
             /\ forall x, x ∈ queue s <-> x ∈ j0 :: rest /\ (x = j -> j = j0)).
  { destruct (invalidateJob_cases s0 j) as [[Hin ->] | [Hnin ->]].
    - rewrite Hq. by apply NoDup_cons.
    - eexists. split; [reflexivity|].
      rewrite Hi, Hq in Hin. cbn [drop] in Hin. rewrite drop_0 in Hin.
      cbn [pendingPreFlushCallbacks activePostFlushCallbacks
           pendingPostFlushCallbacks log queue set_queue].
      split; [done|]. split; [done|]. split; [done|]. split; [done|]. split.
      + rewrite Hq. etransitivity; [apply length_filter|]. done.
      + intros x. rewrite Hq, list_elem_of_filter, <- Hmem. split.
        * intros [Hne Hx]. split; [done|]. by intros ->.
        * intros [Hx Himp]. split; [|done]. intros ->.
          specialize (Himp eq_refl). subst. done.
    - exists s0. split; [reflexivity|].
      rewrite Hi, Hq in Hnin. cbn [drop] in Hnin. rewrite drop_0 in Hnin.
      split; [done|]. split; [done|]. split; [done|]. split; [done|]. split.
      + by rewrite Hq.
      + intros x. rewrite Hq, <- Hmem. split.
        * intros Hx. split; [done|]. intros ->.
          apply elem_of_cons in Hx as [?|?]; done.
        * by intros [? _]. }
  destruct Hqueue as (s & -> & Hpre1 & Hact1 & Hpost1 & Hlog1 & Hlen1 & Hmem1).
  destruct (flushJobs_quiet s fuel Hquiet Hpre1 Hact1)
    as (s' & Hflush & Hlog' & _).
  { rewrite Hpost1. simpl in *. lia. }
  exists s'. split; [exact Hflush|].
  intros p x. rewrite Hlog', Hlog1, Hpost1. cbn [dedupe foldl sort_by_id fmap list_fmap app].
  rewrite app_nil_r, list_elem_of_fmap. split.
  - intros (x' & [= -> ->] & Hx').
    apply list_elem_of_filter in Hx' as [Ha Hx'].
    rewrite sort_by_id_Permutation in Hx'. apply Hmem1 in Hx' as [? ?]. done.
  - intros (-> & Hx & Ha & Himp). exists x. split; [done|].
    apply list_elem_of_filter. split; [done|].
    rewrite sort_by_id_Permutation. by apply Hmem1.
Qed.

End Jobs.

(** ** Concrete flushes *)

(** A render job with id 1 and a watcher callback without id. *)
Definition render_and_watcher : list Job :=
  [ {| id := Some 1%Z; active := true; allowRecurse := false; body := [] |};
    {| id := None; active := true; allowRecurse := true; body := [] |} ].

(** C4, on the code: the watcher callback 1 is handed to
    [queuePreFlushCallback] and the render job 0 to [queueJob]. The callback
    lands in [pendingPostFlushCallbacks], [pendingPreFlushCallbacks] stays
    empty, and the flush calls the render job first and the callback after
    the main queue, from the post-flush loop. *)
Lemma queuePreFlushCallback_runs_after_main_queue :
  let s := queueJob render_and_watcher
             (queuePreFlushCallback render_and_watcher initial_state 1) 0 in
  pendingPreFlushCallbacks s = []
  /\ pendingPostFlushCallbacks s = [1%nat]
  /\ log <$> flushJobs render_and_watcher 5 s
     = Some [(MainQueue, 0%nat); (PostFlush, 1%nat)].
Proof. vm_compute. repeat split; reflexivity. Qed.

(** A parent job with id 1 and a child job with id 2. *)
Definition parent_and_child : list Job :=
  [ {| id := Some 1%Z; active := true; allowRecurse := false; body := [] |};
    {| id := Some 2%Z; active := true; allowRecurse := false; body := [] |} ].

(** Queued child first, the parent still runs first. *)
Lemma flushJobs_runs_jobs_in_id_order_witness :
  exists s',
    flushJobs parent_and_child 4 (foldl (queueJob parent_and_child) initial_state [1; 0]%nat)
    = Some s'
    /\ StronglySorted (job_le parent_and_child) ((log s').*2)
    /\ NoDup (log s')
    /\ forall p j, (p, j) ∈ log s' <->
         p = MainQueue /\ j ∈ [1; 0]%nat /\ job_active parent_and_child j = true.
Proof.
  apply (proj1 (flushJobs_runs_jobs_in_id_order parent_and_child) [1; 0]%nat 4%nat).
  - intros j Hj. unfold quiet.
    apply elem_of_cons in Hj as [-> | Hj]; [reflexivity|].
    apply list_elem_of_singleton in Hj as ->. reflexivity.
  - simpl. lia.
Defined.

Example parent_before_child :
  log <$> flushJobs parent_and_child 4
            (foldl (queueJob parent_and_child) initial_state [1; 0]%nat)
  = Some [(MainQueue, 0%nat); (MainQueue, 1%nat)].
Proof. vm_compute. reflexivity. Qed.

(** A child job with id 2 whose function queues its parent, id 1. *)
Definition child_queues_parent : list Job :=
  [ {| id := Some 2%Z; active := true; allowRecurse := false;
       body := [CallQueueJob 1] |};
    {| id := Some 1%Z; active := true; allowRecurse := false; body := [] |} ].

(** C5 as stated: in every flush, whatever was queued and whenever, the jobs
    are called in ascending order of their ids. *)
Definition ascending_in_every_flush : Prop :=
  forall (jobs : list Job) (js : list jobref) (fuel : nat) (s' : state),
    flushJobs jobs fuel (foldl (queueJob jobs) initial_state js) = Some s' ->
    StronglySorted (job_le jobs) ((log s').*2).

(** C5 (as stated, refuted): the job with id 2 runs and queues the job with
    id 1; [findInsertionIndex] searches from [flushIndex + 1], the job goes
    behind the running one and is called in the same pass, after it. *)
Lemma flushJobs_job_queued_during_flush_runs_later :
  ~ ascending_in_every_flush.
Proof.
  intros Hclaim.
  specialize (Hclaim child_queues_parent [0%nat] 4%nat).
  assert (Hrun : flushJobs child_queues_parent 4
                   (foldl (queueJob child_queues_parent) initial_state [0%nat])
                 = Some {| isFlushing := false; isFlushPending := false;
                           queue := []; flushIndex := 0;
                           pendingPreFlushCallbacks := [];
                           activePreFlushCallbacks := None; preFlushIndex := 0;
                           pendingPostFlushCallbacks := [];
                           activePostFlushCallbacks := None; postFlushIndex := 0;
                           currentPreFlushParentJob := None;
                           log := [(MainQueue, 0%nat); (MainQueue, 1%nat)] |}).
  { vm_compute. reflexivity. }
  specialize (Hclaim _ Hrun). simpl in Hclaim.
  apply StronglySorted_inv in Hclaim as [_ Hall].
  apply Forall_cons in Hall as [Hle _].
  vm_compute in Hle. discriminate.
Qed.

(** Both jobs are queued before the flush: the parent runs, the child runs
    and queues the parent again, and the parent runs a second time in the
    same flush ([queueJob] looks for the job from [flushIndex] on only). *)
Example flushJobs_requeued_parent_runs_twice :
  log <$> flushJobs child_queues_parent 5
            (foldl (queueJob child_queues_parent) initial_state [0; 1]%nat)
  = Some [(MainQueue, 1%nat); (MainQueue, 0%nat); (MainQueue, 1%nat)].
Proof. vm_compute. reflexivity. Qed.

(** A job with [active === false] stays in the queue and is not called. *)
Example flushJobs_skips_inactive_job :
  log <$> flushJobs
            [ {| id := Some 1%Z; active := false; allowRecurse := false; body := [] |};
              {| id := Some 2%Z; active := true; allowRecurse := false; body := [] |} ]
            4
            (foldl (queueJob
                      [ {| id := Some 1%Z; active := false; allowRecurse := false;
                           body := [] |};
                        {| id := Some 2%Z; active := true; allowRecurse := false;
                           body := [] |} ])
               initial_state [1; 0]%nat)
  = Some [(MainQueue, 1%nat)].
Proof. vm_compute. reflexivity. Qed.

Lemma parent_and_child_quiet j : quiet parent_and_child j.
Proof. unfold quiet, job_body. by destruct j as [|[|j]]. Qed.

Lemma flushJobs_runs_jobs_then_callbacks_witness :
  exists s',
    flushJobs parent_and_child 6
      (foldl (perform parent_and_child) initial_state
         [CallQueuePostFlushCallback 1; CallQueueJob 1;
          CallQueuePostFlushCallback 1; CallQueueJob 0])
    = Some s'
    /\ log s' = [(MainQueue, 0%nat); (MainQueue, 1%nat); (PostFlush, 1%nat)].
Proof.
  destruct (flushJobs_runs_jobs_then_callbacks parent_and_child
              [CallQueuePostFlushCallback 1; CallQueueJob 1;
               CallQueuePostFlushCallback 1; CallQueueJob 0] 6
              parent_and_child_quiet)
    as (_ & s' & Hflush & Hlog & _).
  { simpl. lia. }
  exists s'. split; [exact Hflush|]. rewrite Hlog. reflexivity.
Defined.

Lemma invalidateJob_then_flush_witness :
  exists s',
    flushJobs parent_and_child 4
      (invalidateJob
         (foldl (queueJob parent_and_child) initial_state [1; 0]%nat) 0)
    = Some s'
    /\ (MainQueue, 1%nat) ∈ log s'
    /\ (MainQueue, 0%nat) ∉ log s'.
Proof.
  destruct (invalidateJob_then_flush parent_and_child 1%nat [0%nat] 0%nat 4
              parent_and_child_quiet)
    as (s' & Hflush & Hlog).
  { simpl. lia. }
  exists s'. split; [exact Hflush|]. split.
  - apply Hlog. split; [done|]. split; [by left|]. split; [reflexivity|].
    discriminate.
  - intros Hin. apply Hlog in Hin as (_ & _ & _ & Himp).
    by specialize (Himp eq_refl).
Defined.

End Scheduler.


(* ================================================================== *)
(** * Keyed children: runtime/renderer.js *)
(* ================================================================== *)

Module Renderer.

Local Open Scope nat_scope.

(** ** [getSequence] *)

(** [a < b] on array reads: a read outside the array gives [undefined],
    and a comparison with [undefined] is false. *)
Definition js_lt (a b : option nat) : bool :=
  match a, b with
  | Some x, Some y => x <? y
  | _, _ => false
  end.

(** <<
    u = 0;
    v = result.length - 1;
    while (u < v) {
        c = (u + v) >> 1;
        if (arr[result[c]] < arrI) { u = c + 1; } else { v = c; }
    }
    >>
    The loop halves [v - u]; [fuel] bounds the number of turns. *)
Fixpoint search_loop (fuel : nat) (arr result : list nat) (arrI u v : nat) : nat :=
  match fuel with
  | O => u
  | S fuel' =>
      if u <? v then
        let c := (u + v) / 2 in
        if js_lt (result !! c ≫= (arr !!.)) (Some arrI)
        then search_loop fuel' arr result arrI (c + 1) v
        else search_loop fuel' arr result arrI u c
      else u
  end.

(** One turn of the [for] loop, on the arrays [p] and [result]:
    <<
    const arrI = arr[i];
    if (arrI !== 0) {
        j = result[result.length - 1];
        if (arr[j] < arrI) { p[i] = j; result.push(i); continue; }
        u = 0; v = result.length - 1;
        while (u < v) { ... }
        if (arrI < arr[result[u]]) {
            if (u > 0) { p[i] = result[u - 1]; }
            result[u] = i;
        }
    }
    >>
    [result] starts as [[0]] and is only pushed to and overwritten, so
    its last element and [result[u - 1]] exist. *)
Definition getSequence_step (arr : list nat) (st : list nat * list nat) (i : nat)
  : list nat * list nat :=
  let '(p, result) := st in
  match arr !! i, last result with
  | Some arrI, Some j =>
      if bool_decide (arrI ≠ 0) then
        if js_lt (arr !! j) (Some arrI) then (<[i := j]> p, result ++ [i])
        else
          let u := search_loop (length result) arr result arrI 0 (length result - 1) in
          if js_lt (Some arrI) (result !! u ≫= (arr !!.)) then
            (if 0 <? u
             then match result !! (u - 1) with
                  | Some x => <[i := x]> p
                  | None => p
                  end
             else p,
             <[u := i]> result)
          else st
      else st
  | _, _ => st
  end.

(** <<
    u = result.length;
    v = result[u - 1];
    while (u-- > 0) { result[u] = v; v = p[v]; }
    >>
    [v] is an index of [p] as long as it is stored. *)
Fixpoint backtrack (p : list nat) (u : nat) (v : option nat) (result : list nat)
  : list nat :=
  match u, v with
  | S u', Some x => backtrack p u' (p !! x) (<[u' := x]> result)
  | _, _ => result
  end.

(** [getSequence(arr)]: [p = arr.slice()], [result = [0]]. *)
Definition getSequence (arr : list nat) : list nat :=
  let '(p, result) :=
    foldl (getSequence_step arr) (arr, [0]) (seq 0 (length arr)) in
  backtrack p (length result) (last result) result.

(** ** [patchKeyedChildren] *)

(** The fields of a virtual node that [isSameVNodeType] compares. *)
Record VNode : Type := {
  type : nat;
  tag : string;
  key : option string
}.

(** <<
    export const isSameVNodeType = (oldNode, newNode) =>
        oldNode.type === newNode.type &&
        oldNode.tag === newNode.tag &&
        oldNode.key === newNode.key;
    >> *)
Definition isSameVNodeType (oldNode newNode : VNode) : bool :=
  bool_decide (type oldNode = type newNode)
  && bool_decide (tag oldNode = tag newNode)
  && bool_decide (key oldNode = key newNode).

(** The calls that [patchKeyedChildren] makes, with children named by
    their position in [oldChildren] or [newChildren]; an anchor is the
    element of a new child ([Some]) or [parentAnchor] ([None]):
    - [patch(oldChildren[i], newChildren[j], container, null, ...)],
    - [patch(null, newChildren[j], container, anchor, ...)],
    - [unmount(oldChildren[i], ...)],
    - [move(newChildren[j], container, anchor)]. *)
Inductive operation : Type :=
| Patch (old new : nat)
| Mount (new : nat) (anchor : option nat)
| Unmount (old : nat)
| Move (new : nat) (anchor : option nat).

#[global] Instance operation_eq_dec : EqDecision operation.
Proof. solve_decision. Defined.

(** The two loops that skip the common start and the common end. The
    ends are kept exclusive: [e1] and [e2] here are [e1 + 1] and [e2 + 1]
    of the source, so that an empty range needs no negative number.
    <<
    while (i <= e1 && i <= e2) {
        if (isSameVNodeType(oldChildren[i], newChildren[i])) { patch(...); }
        else { break; }
        i++;
    }
    >> *)
Fixpoint sync_start (fuel : nat) (oldChildren newChildren : list VNode)
    (i e1 e2 : nat) : nat * list operation :=
  match fuel with
  | O => (i, [])
  | S fuel' =>
      if (i <? e1) && (i <? e2) then
        match oldChildren !! i, newChildren !! i with
        | Some oldNode, Some newNode =>
            if isSameVNodeType oldNode newNode then
              let '(i', ops) := sync_start fuel' oldChildren newChildren (S i) e1 e2 in
              (i', Patch i i :: ops)
            else (i, [])
        | _, _ => (i, [])
        end
      else (i, [])
  end.

(** <<
    while (i <= e1 && i <= e2) {
        if (isSameVNodeType(oldChildren[e1], newChildren[e2])) { patch(...); }
        else { break; }
        e1--; e2--;
    }
    >> *)
Fixpoint sync_end (fuel : nat) (oldChildren newChildren : list VNode)
    (i e1 e2 : nat) : nat * nat * list operation :=
  match fuel with
  | O => (e1, e2, [])
  | S fuel' =>
      if (i <? e1) && (i <? e2) then
        match oldChildren !! (e1 - 1), newChildren !! (e2 - 1) with
        | Some oldNode, Some newNode =>
            if isSameVNodeType oldNode newNode then
              let '(e1', e2', ops) :=
                sync_end fuel' oldChildren newChildren i (e1 - 1) (e2 - 1) in
              (e1', e2', Patch (e1 - 1) (e2 - 1) :: ops)
            else (e1, e2, [])
        | _, _ => (e1, e2, [])
        end
      else (e1, e2, [])
  end.

(** [newIndex + 1 < l2 ? newChildren[newIndex + 1].el : parentAnchor] *)
Definition anchor_after (l2 newIndex : nat) : option nat :=
  if newIndex + 1 <? l2 then Some (newIndex + 1) else None.

(** <<
    for (i = s2; i <= e2; i++) {
        const newChild = newChildren[i];
        if (newChild.key != null) { keyToNewIndexMap.set(newChild.key, i); }
    }
    >> *)
Definition keyToNewIndexMap (newChildren : list VNode) (s2 e2 : nat)
  : gmap string nat :=
  foldl (λ m i, match newChildren !! i with
                | Some {| key := Some k |} => <[k := i]> m
                | _ => m
                end)
        ∅ (seq s2 (e2 - s2)).

(** The state of the loop over the old children of the middle part. *)
Record matching : Type := {
  patched : nat;
  moved : bool;
  maxNewIndexSoFar : nat;
  newIndexToOldIndexMap : list nat;
  calls : list operation
}.

(** <<
    for (j = s2; j <= e2; j++) {
        if (newIndexToOldIndexMap[j - s2] === 0 &&
            isSameVNodeType(oldChild, newChildren[j])) { newIndex = j; break; }
    }
    >> *)
Definition find_unkeyed (newChildren : list VNode) (s2 e2 : nat)
    (map_ : list nat) (oldChild : VNode) : option nat :=
  List.find (λ j, bool_decide (map_ !! (j - s2) = Some 0)
                  && match newChildren !! j with
                     | Some newChild => isSameVNodeType oldChild newChild
                     | None => false
                     end)
            (seq s2 (e2 - s2)).

(** One turn of the loop over the old children [s1 .. e1]:
    <<
    if (patched >= toBePatched) { unmount(oldChild, parentComponent); }
    else {
        let newIndex;
        if (oldChild.key != null) { newIndex = keyToNewIndexMap.get(oldChild.key); }
        else { ... }
        if (newIndex === undefined) { unmount(oldChild, parentComponent); }
        else {
            newIndexToOldIndexMap[newIndex - s2] = i + 1;
            if (newIndex >= maxNewIndexSoFar) { maxNewIndexSoFar = newIndex; }
            else { moved = true; }
            patch(oldChild, newChildren[newIndex], container, null, ...);
            patched++;
        }
    }
    >> *)
Definition match_step (oldChildren newChildren : list VNode) (s2 e2 : nat)
    (keys : gmap string nat) (m : matching) (i : nat) : matching :=
  match oldChildren !! i with
  | None => m
  | Some oldChild =>
      let unmount :=
        {| patched := patched m; moved := moved m;
           maxNewIndexSoFar := maxNewIndexSoFar m;
           newIndexToOldIndexMap := newIndexToOldIndexMap m;
           calls := calls m ++ [Unmount i] |} in
      if e2 - s2 <=? patched m then unmount
      else
        let newIndex :=
          match key oldChild with
          | Some k => keys !! k
          | None => find_unkeyed newChildren s2 e2 (newIndexToOldIndexMap m) oldChild
          end in
        match newIndex with
        | None => unmount
        | Some j =>
            {| patched := S (patched m);
               moved := if maxNewIndexSoFar m <=? j then moved m else true;
               maxNewIndexSoFar :=
                 if maxNewIndexSoFar m <=? j then j else maxNewIndexSoFar m;
               newIndexToOldIndexMap := <[j - s2 := i + 1]> (newIndexToOldIndexMap m);
               calls := calls m ++ [Patch i j] |}
        end
  end.

(** The last loop, from [i = toBePatched - 1] down to [0]. [remaining] is
    [sequenceLastIndex + 1].
    <<
    if (newIndexToOldIndexMap[i] === 0) { patch(null, newChild, container, anchor, ...); }
    else if (moved) {
        if (sequenceLastIndex < 0 || i !== increasingNewIndexSequence[sequenceLastIndex]) {
            move(newChild, container, anchor);
        } else { sequenceLastIndex--; }
    }
    >> *)
Fixpoint move_loop (l2 s2 : nat) (map_ : list nat) (moved_ : bool)
    (increasingNewIndexSequence : list nat) (count remaining : nat)
  : list operation :=
  match count with
  | O => []
  | S i =>
      let newIndex := s2 + i in
      let anchor := anchor_after l2 newIndex in
      if bool_decide (map_ !! i = Some 0) then
        Mount newIndex anchor
          :: move_loop l2 s2 map_ moved_ increasingNewIndexSequence i remaining
      else if moved_ then
        if bool_decide (remaining = 0)
           || negb (bool_decide (increasingNewIndexSequence !! (remaining - 1) = Some i))
        then Move newIndex anchor
               :: move_loop l2 s2 map_ moved_ increasingNewIndexSequence i remaining
        else move_loop l2 s2 map_ moved_ increasingNewIndexSequence i (remaining - 1)
      else move_loop l2 s2 map_ moved_ increasingNewIndexSequence i remaining
  end.

(** The state after the loop over the old children of the middle part
    [s1 = s2 = i .. e1] and [.. e2]. *)
Definition match_old (oldChildren newChildren : list VNode) (i e1 e2 : nat)
  : matching :=
  foldl (match_step oldChildren newChildren i e2
           (keyToNewIndexMap newChildren i e2))
        {| patched := 0; moved := false; maxNewIndexSoFar := 0;
           newIndexToOldIndexMap := replicate (e2 - i) 0; calls := [] |}
        (seq i (e1 - i)).

(** [const increasingNewIndexSequence =
       moved ? getSequence(newIndexToOldIndexMap) : EMPTY_ARR;] *)
Definition increasingNewIndexSequence (m : matching) : list nat :=
  if moved m then getSequence (newIndexToOldIndexMap m) else [].

(** [patchKeyedChildren(oldChildren, newChildren, ...)]: the calls it
    makes, in order. *)
Definition patchKeyedChildren (oldChildren newChildren : list VNode)
  : list operation :=
  let l2 := length newChildren in
  let '(i, ops1) :=
    sync_start (length oldChildren) oldChildren newChildren 0
      (length oldChildren) l2 in
  let '(e1, e2, ops2) :=
    sync_end (length oldChildren) oldChildren newChildren i (length oldChildren) l2 in
  ops1 ++ ops2 ++
  if e1 <=? i then
    (* i > e1: mount the new children i .. e2 *)
    map (λ j, Mount j (if e2 <? l2 then Some e2 else None)) (seq i (e2 - i))
  else if e2 <=? i then
    (* i > e2: unmount the old children i .. e1 *)
    map Unmount (seq i (e1 - i))
  else
    let m := match_old oldChildren newChildren i e1 e2 in
    let sequence := increasingNewIndexSequence m in
    calls m
    ++ move_loop l2 i (newIndexToOldIndexMap m) (moved m) sequence
         (e2 - i) (length sequence).

(** ** [getSequence] finds a longest increasing subsequence *)

Section Sequence.

Variable arr : list nat.

(** [arr[i]], read as [0] outside the array. *)
Definition val (i : nat) : nat := default 0 (arr !! i).

(** [below a b]: index [b] may come right before index [a] in an
    increasing subsequence. *)
Definition below (a b : nat) : Prop := b < a /\ val b < val a.

(** The indices that the first [n] turns of the loop may put into
    [result]: those of nonzero entries, and index [0], with which
    [result] starts. *)
Definition ok (n x : nat) : Prop := x < n /\ (x = 0 \/ val x ≠ 0).

(** [rchain p k j l]: following [p] from [j] for [k] steps visits [l],
    and every step goes to a smaller index with a smaller entry. *)
Inductive rchain (p : list nat) : nat -> nat -> list nat -> Prop :=
| rchain_0 j : rchain p 0 j [j]
| rchain_S k j j' l :
    p !! j = Some j' -> below j j' -> rchain p k j' l ->
    rchain p (S k) j (j :: l).

(** What holds of [p] and [result] after the turns [0 .. n - 1]:
    - the entries at the indices in [result] increase strictly;
    - [result[k]] ends an increasing subsequence of length [k + 1],
      which [p] records;
    - among all increasing subsequences of length [k + 1] of the indices
      seen so far, that of [result[k]] ends with the least entry. *)
Record seq_inv (n : nat) (p result : list nat) : Prop := {
  si_nonempty : result ≠ [];
  si_p : length p = length arr;
  si_ok : forall k j, result !! k = Some j -> ok n j;
  si_sorted : forall k k' j j',
    k < k' -> result !! k = Some j -> result !! k' = Some j' -> val j < val j';
  si_chain : forall k j,
    result !! k = Some j -> exists l, rchain p k j l /\ Forall (ok n) l;
  si_opt : forall j rest,
    StronglySorted below (j :: rest) -> Forall (ok n) (j :: rest) ->
    exists t, result !! length rest = Some t /\ val t <= val j
}.

Lemma lookup_val i x : arr !! i = Some x -> val i = x.
Proof. unfold val. by intros ->. Qed.

Lemma lookup_valid i : i < length arr -> arr !! i = Some (val i).
Proof.
  intros Hi. destruct (lookup_lt_is_Some_2 arr i Hi) as [x Hx].
  by rewrite (lookup_val i x Hx).
Qed.

Lemma js_lt_val_l i a : i < length arr -> js_lt (arr !! i) (Some a) = (val i <? a).
Proof. intros Hi. by rewrite lookup_valid. Qed.

Lemma js_lt_val_r i a : i < length arr -> js_lt (Some a) (arr !! i) = (a <? val i).
Proof. intros Hi. by rewrite lookup_valid. Qed.

#[local] Instance below_trans : Transitive below.
Proof. intros a b c [H1 H2] [H3 H4]. split; lia. Qed.

Lemma rchain_head p k j l : rchain p k j l -> exists l', l = j :: l'.
Proof. destruct 1; eauto. Qed.

Lemma rchain_length p k j l : rchain p k j l -> length l = S k.
Proof. induction 1; simpl; lia. Qed.

Lemma rchain_sorted p k j l : rchain p k j l -> StronglySorted below l.
Proof.
  induction 1 as [j|k j j' l Hp Hb Hc IH].
  - repeat constructor.
  - constructor; [done|].
    destruct (rchain_head _ _ _ _ Hc) as [l' ->].
    apply StronglySorted_inv in IH as [_ Hall].
    constructor; [done|].
    eapply Forall_impl; [exact Hall|]. intros x Hx. by etrans.
Qed.

(** A chain does not depend on the part of [p] above its indices. *)
Lemma rchain_stable n p p' k j l :
  (forall x, x < n -> p' !! x = p !! x) ->
  rchain p k j l -> Forall (λ x, x < n) l -> rchain p' k j l.
Proof.
  intros Hp. induction 1 as [j|k j j' l Hj Hb Hc IH]; intros Hall.
  - constructor.
  - apply Forall_cons in Hall as [Hjn Hall].
    econstructor; [by rewrite Hp | done | by apply IH].
Qed.

Lemma ok_S n x : ok n x -> ok (S n) x.
Proof. intros [? ?]. split; [lia | done]. Qed.

Lemma ok_lt n x : ok n x -> x < n.
Proof. by intros [? _]. Qed.

(** An increasing subsequence of the first [n + 1] indices either
    avoids [n] or ends with it. *)
Lemma sorted_split n j rest :
  StronglySorted below (j :: rest) -> Forall (ok (S n)) (j :: rest) ->
  (j <> n /\ Forall (ok n) (j :: rest))
  \/ (j = n /\ Forall (ok n) rest /\ StronglySorted below rest
      /\ Forall (λ x, val x < val n) rest).
Proof.
  intros Hs Hall. apply StronglySorted_inv in Hs as [Hs Hb].
  assert (Hrest : forall m, j <= m -> Forall (ok m) rest).
  { intros m Hm. apply Forall_forall. intros x Hx.
    rewrite Forall_forall in Hb. destruct (Hb x Hx) as [Hlt _].
    apply Forall_cons in Hall as [_ Hall]. rewrite Forall_forall in Hall.
    destruct (Hall x Hx) as [_ Hnz]. split; [lia | done]. }
  destruct (decide (j = n)) as [->|Hne].
  - right. split; [done|]. split; [by apply Hrest|]. split; [done|].
    eapply Forall_impl; [exact Hb|]. by intros x [_ ?].
  - left. split; [done|].
    apply Forall_cons in Hall as [[Hj Hnz] _].
    constructor; [split; [lia | done] | apply Hrest; lia].
Qed.

(** The binary search returns the first position of [result] whose entry
    is not less than [arrI]. *)
Lemma search_loop_spec result arrI :
  (forall k j, result !! k = Some j -> j < length arr) ->
  (forall k k' j j',
     k < k' -> result !! k = Some j -> result !! k' = Some j' -> val j < val j') ->
  forall fuel u v,
    v - u <= fuel -> u <= v -> v < length result ->
    (forall k j, k < u -> result !! k = Some j -> val j < arrI) ->
    (forall j, result !! v = Some j -> arrI <= val j) ->
    u <= search_loop fuel arr result arrI u v <= v
    /\ (forall k j, k < search_loop fuel arr result arrI u v ->
                    result !! k = Some j -> val j < arrI)
    /\ (forall j, result !! search_loop fuel arr result arrI u v = Some j ->
                  arrI <= val j).
Proof.
  intros Hvalid Hsorted. induction fuel as [|fuel IH]; intros u v Hf Huv Hv Hlow Hhigh.
  - assert (u = v) as -> by lia. simpl. split; [lia|]. by split.
  - cbn [search_loop]. destruct (u <? v) eqn:Hlt.
    + apply Nat.ltb_lt in Hlt.
      assert (Hc1 : u <= (u + v) / 2) by (apply Nat.div_le_lower_bound; lia).
      assert (Hc2 : (u + v) / 2 < v) by (apply Nat.Div0.div_lt_upper_bound; lia).
      destruct (lookup_lt_is_Some_2 result ((u + v) / 2)) as [jc Hjc]; [lia|].
      rewrite Hjc. cbn [mbind option_bind].
      rewrite js_lt_val_l by by eapply Hvalid.
      destruct (val jc <? arrI) eqn:Hcmp.
      * apply Nat.ltb_lt in Hcmp.
        destruct (IH ((u + v) / 2 + 1) v) as (Hr & Hl & Hh); [lia | lia | done | | done |].
        { intros k j Hk Hj. destruct (decide (k = (u + v) / 2)) as [->|Hne].
          - congruence.
          - assert (val j < val jc); [|lia].
            eapply (Hsorted k ((u + v) / 2)); [lia | done | done]. }
        split; [lia|]. by split.
      * apply Nat.ltb_ge in Hcmp.
        destruct (IH u ((u + v) / 2)) as (Hr & Hl & Hh); [lia | lia | lia | done | |].
        { intros j Hj. congruence. }
        split; [lia|]. by split.
    + apply Nat.ltb_ge in Hlt. assert (u = v) as -> by lia.
      split; [lia|]. by split.
Qed.

(** How the optimality of [result] passes to the next turn: it is enough
    that no rank loses against its old entry, and that the new index
    extends what it can. *)
Lemma si_opt_step n p result (result' : list nat) :
  seq_inv n p result -> 1 <= n ->
  (forall k t, result !! k = Some t ->
     exists t', result' !! k = Some t' /\ val t' <= val t) ->
  (val n ≠ 0 -> forall m t, result !! m = Some t -> val t < val n ->
     exists t', result' !! S m = Some t' /\ val t' <= val n) ->
  (val n ≠ 0 -> exists t', result' !! 0 = Some t' /\ val t' <= val n) ->
  forall j rest,
    StronglySorted below (j :: rest) -> Forall (ok (S n)) (j :: rest) ->
    exists t, result' !! length rest = Some t /\ val t <= val j.
Proof.
  intros Hinv Hn1 HA HB HC j rest Hs Hall.
  destruct (sorted_split n j rest Hs Hall)
    as [[Hne Hall'] | (-> & Hall' & Hs' & Hvals)].
  - destruct (si_opt _ _ _ Hinv j rest Hs Hall') as (t & Ht & Hle).
    destruct (HA _ _ Ht) as (t' & Ht' & Hle'). exists t'. split; [done | lia].
  - assert (Hnz : val n ≠ 0).
    { apply Forall_cons in Hall as [[_ [?|?]] _]; [lia | done]. }
    destruct rest as [|j1 rest1].
    + by apply HC.
    + destruct (si_opt _ _ _ Hinv j1 rest1 Hs' Hall') as (t & Ht & Hle).
      apply Forall_cons in Hvals as [Hj1 _].
      apply (HB Hnz (length rest1) t Ht). lia.
Qed.

(** How a chain passes to the next turn. *)
Lemma chain_step n p p' l k j :
  (forall x, x < n -> p' !! x = p !! x) ->
  rchain p k j l -> Forall (ok n) l ->
  rchain p' k j l /\ Forall (ok (S n)) l.
Proof.
  intros Hp Hc Hall. split.
  - eapply rchain_stable; [done | done |].
    eapply Forall_impl; [done|]. apply ok_lt.
  - eapply Forall_impl; [done|]. apply ok_S.
Qed.

(** A turn that leaves the arrays as they are: the entry is [0], or it
    is already the entry of the position that the search found. *)
Lemma seq_inv_same n p result :
  seq_inv n p result -> 1 <= n ->
  (val n ≠ 0 ->
   exists u tu, result !! u = Some tu /\ val tu = val n
                /\ forall k t, k < u -> result !! k = Some t -> val t < val n) ->
  seq_inv (S n) p result.
Proof.
  intros Hinv Hn1 Hfound.
  pose proof Hinv as [Hne Hp Hok Hsorted Hchain Hopt].
  split; try done.
  - intros k j Hj. by apply ok_S, (Hok k).
  - intros k j Hj. destruct (Hchain k j Hj) as (l & Hc & Hall).
    exists l. by apply (chain_step n p p).
  - apply (si_opt_step n p result result Hinv Hn1).
    + intros k t Ht. eauto.
    + intros Hnz m t Ht Hlt.
      destruct (Hfound Hnz) as (u & tu & Hu & Htu & Hlow).
      assert (m < u).
      { destruct (decide (m < u)); [done|]. exfalso.
        destruct (decide (m = u)) as [->|].
        - assert (t = tu) by congruence. subst. lia.
        - assert (val tu < val t) by (eapply (Hsorted u m); [lia | done | done]).
          lia. }
      destruct (decide (S m = u)) as [<-|].
      * exists tu. split; [done | lia].
      * destruct (lookup_lt_is_Some_2 result (S m)) as [t' Ht'].
        { apply lookup_lt_Some in Hu. lia. }
        exists t'. split; [done|].
        assert (val t' < val n); [|lia]. eapply (Hlow (S m)); [lia | done].
    + intros Hnz. destruct (Hfound Hnz) as (u & tu & Hu & Htu & Hlow).
      destruct u as [|u]; [exists tu; split; [done | lia]|].
      destruct (lookup_lt_is_Some_2 result 0) as [t' Ht'].
      { apply lookup_lt_Some in Hu. lia. }
      exists t'. split; [done|].
      assert (val t' < val n); [|lia]. eapply (Hlow 0); [lia | done].
Qed.

(** A turn that pushes the index. *)
Lemma seq_inv_push n p result j :
  seq_inv n p result -> 1 <= n -> n < length arr ->
  last result = Some j -> val j < val n ->
  seq_inv (S n) (<[n := j]> p) (result ++ [n]).
Proof.
  intros Hinv Hn1 Hn Hlast Hpush.
  pose proof Hinv as [Hne Hp Hok Hsorted Hchain Hopt].
  rewrite last_lookup in Hlast.
  assert (HL : 0 < length result) by (destruct result; [done | simpl; lia]).
  assert (Hp' : forall x, x < n -> <[n := j]> p !! x = p !! x).
  { intros x Hx. apply list_lookup_insert_ne. lia. }
  assert (Hmax : forall k t, result !! k = Some t -> val t <= val j).
  { intros k t Ht. destruct (decide (k = pred (length result))) as [->|Hk].
    - assert (t = j) by congruence. subst. lia.
    - assert (val t < val j); [|lia].
      apply (Hsorted k (pred (length result))); [|done..].
      apply lookup_lt_Some in Ht. lia. }
  assert (Hokn : ok (S n) n).
  { split; [lia|]. right. lia. }
  split.
  - by destruct result.
  - by rewrite length_insert.
  - intros k x [[Hk Hx]|[-> <-]]%lookup_snoc_Some; [|done].
    by apply ok_S, (Hok k).
  - intros k k' x x' Hkk [[Hk Hx]|[-> <-]]%lookup_snoc_Some
      [[Hk' Hx']|[-> <-]]%lookup_snoc_Some.
    + by apply (Hsorted k k').
    + specialize (Hmax k x Hx). lia.
    + lia.
    + lia.
  - intros k x [[Hk Hx]|[-> <-]]%lookup_snoc_Some.
    + destruct (Hchain k x Hx) as (l & Hc & Hall).
      exists l. by apply (chain_step n p).
    + destruct (Hchain _ j Hlast) as (l & Hc & Hall).
      destruct (chain_step n p (<[n := j]> p) l _ j Hp' Hc Hall) as [Hc' Hall'].
      exists (n :: l). split; [|by constructor].
      replace (length result) with (S (pred (length result))) by lia.
      econstructor; [|  | exact Hc'].
      * apply list_lookup_insert_eq. lia.
      * split; [|done]. by apply (ok_lt _ _ (Hok _ _ Hlast)).
  - apply (si_opt_step n p result _ Hinv Hn1).
    + intros k t Ht. exists t. split; [|done].
      rewrite lookup_app_l; [done|]. by eapply lookup_lt_Some.
    + intros _ m t Ht Hlt. pose proof (lookup_lt_Some _ _ _ Ht) as Hm.
      destruct (decide (S m = length result)) as [Heq|Hneq].
      * exists n. split; [|done]. by apply list_lookup_middle.
      * destruct (lookup_lt_is_Some_2 result (S m)) as [t' Ht']; [lia|].
        exists t'. split; [rewrite lookup_app_l; [done | lia]|].
        specialize (Hmax _ _ Ht'). lia.
    + intros _. destruct (lookup_lt_is_Some_2 result 0) as [t' Ht']; [lia|].
      exists t'. split; [rewrite lookup_app_l; [done | lia]|].
      specialize (Hmax _ _ Ht'). lia.
Qed.

(** A turn that overwrites position [u] of [result]. *)
Lemma seq_inv_replace n p p' result u tu :
  seq_inv n p result -> 1 <= n -> n < length arr -> val n ≠ 0 ->
  result !! u = Some tu -> val n < val tu ->
  (forall k t, k < u -> result !! k = Some t -> val t < val n) ->
  length p' = length arr ->
  (forall x, x < n -> p' !! x = p !! x) ->
  (forall u', u = S u' -> exists x, result !! u' = Some x /\ p' !! n = Some x) ->
  seq_inv (S n) p' (<[u := n]> result).
Proof.
  intros Hinv Hn1 Hn Hnz Hu Hrep Hlow Hlen' Hp' Hpred.
  pose proof Hinv as [Hne Hp Hok Hsorted Hchain Hopt].
  pose proof (lookup_lt_Some _ _ _ Hu) as HuL.
  assert (Hokn : ok (S n) n).
  { split; [lia|]. by right. }
  split.
  - intros Heq. apply (f_equal length) in Heq. rewrite length_insert in Heq.
    destruct result; [done | simpl in Heq; lia].
  - done.
  - intros k x [(<- & <- & _)|[Hk Hx]]%list_lookup_insert_Some; [done|].
    by apply ok_S, (Hok k).
  - intros k k' x x' Hkk [(<- & <- & _)|[Hk Hx]]%list_lookup_insert_Some
      [(<- & <- & _)|[Hk' Hx']]%list_lookup_insert_Some.
    + lia.
    + assert (val tu < val x'); [|lia]. by apply (Hsorted u k').
    + by apply (Hlow k).
    + by apply (Hsorted k k').
  - intros k x [(<- & <- & _)|[Hk Hx]]%list_lookup_insert_Some.
    + destruct u as [|u'].
      * exists [n]. split; [constructor | by constructor].
      * destruct (Hpred u' eq_refl) as (x0 & Hx0 & Hpn).
        destruct (Hchain u' x0 Hx0) as (l & Hc & Hall).
        destruct (chain_step n p p' l _ x0 Hp' Hc Hall) as [Hc' Hall'].
        exists (n :: l). split; [|by constructor].
        econstructor; [exact Hpn | | exact Hc'].
        split; [by apply (ok_lt _ _ (Hok _ _ Hx0))|].
        apply (Hlow u'); [lia | done].
    + destruct (Hchain k x Hx) as (l & Hc & Hall).
      exists l. by apply (chain_step n p).
  - apply (si_opt_step n p result _ Hinv Hn1).
    + intros k t Ht. destruct (decide (k = u)) as [->|Hk].
      * exists n. split; [by apply list_lookup_insert_eq|].
        assert (t = tu) by congruence. subst. lia.
      * exists t. split; [|done]. by rewrite list_lookup_insert_ne.
    + intros _ m t Ht Hlt.
      assert (m < u).
      { destruct (decide (m < u)); [done|]. exfalso.
        destruct (decide (m = u)) as [->|].
        - assert (t = tu) by congruence. subst. lia.
        - assert (val tu < val t) by (eapply (Hsorted u m); [lia | done | done]).
          lia. }
      destruct (decide (S m = u)) as [<-|].
      * exists n. split; [by apply list_lookup_insert_eq | done].
      * destruct (lookup_lt_is_Some_2 result (S m)) as [t' Ht']; [lia|].
        exists t'. split; [by rewrite list_lookup_insert_ne|].
        assert (val t' < val n); [|lia]. eapply (Hlow (S m)); [lia | done].
    + intros _. destruct u as [|u'].
      * exists n. split; [by apply list_lookup_insert_eq | done].
      * destruct (lookup_lt_is_Some_2 result 0) as [t' Ht']; [lia|].
        exists t'. split; [by rewrite list_lookup_insert_ne|].
        assert (val t' < val n); [|lia]. eapply (Hlow 0); [lia | done].
Qed.

(** Every turn after the first keeps the invariant. *)
Lemma getSequence_step_inv n p result :
  seq_inv n p result -> 1 <= n -> n < length arr ->
  seq_inv (S n) (getSequence_step arr (p, result) n).1
                (getSequence_step arr (p, result) n).2.
Proof.
  intros Hinv Hn1 Hn.
  pose proof Hinv as [Hne Hp Hok Hsorted Hchain Hopt].
  assert (Hvalid : forall k j, result !! k = Some j -> j < length arr).
  { intros k j Hj. apply Hok in Hj as [? _]. lia. }
  assert (HL : 0 < length result) by (destruct result; [done | simpl; lia]).
  unfold getSequence_step. rewrite (lookup_valid n Hn).
  destruct (last result) as [j|] eqn:Hlast; [|by apply last_None in Hlast].
  case_bool_decide as Hnz.
  2: { cbn [fst snd]. apply seq_inv_same; [done | done |]. by intros ?. }
  pose proof Hlast as Hlast'. rewrite last_lookup in Hlast'.
  rewrite js_lt_val_l by by eapply Hvalid.
  destruct (val j <? val n) eqn:Hpush.
  { cbn [fst snd]. apply Nat.ltb_lt in Hpush. by apply seq_inv_push. }
  apply Nat.ltb_ge in Hpush.
  destruct (search_loop_spec result (val n) Hvalid Hsorted
              (length result) 0 (length result - 1))
    as (Hr & Hlow & Hhigh); [lia | lia | lia | intros; lia | |].
  { intros t Ht. replace (length result - 1) with (pred (length result)) in Ht by lia.
    assert (t = j) by congruence. by subst. }
  set (u := search_loop (length result) arr result (val n) 0 (length result - 1)) in *.
  destruct (lookup_lt_is_Some_2 result u) as [tu Htu]; [lia|].
  rewrite Htu. cbn [mbind option_bind].
  rewrite js_lt_val_r by by eapply Hvalid.
  specialize (Hhigh tu Htu).
  destruct (val n <? val tu) eqn:Hrep.
  - apply Nat.ltb_lt in Hrep. cbn [fst snd].
    apply (seq_inv_replace n p _ result u tu); try done.
    + destruct (0 <? u); [|done].
      destruct (result !! (u - 1)); [|done]. by rewrite length_insert.
    + intros x Hx. destruct (0 <? u); [|done].
      destruct (result !! (u - 1)); [|done].
      apply list_lookup_insert_ne. lia.
    + intros u' Hu'. rewrite Hu'. cbn [Nat.ltb Nat.leb].
      replace (S u' - 1) with u' by lia.
      destruct (lookup_lt_is_Some_2 result u') as [x Hx]; [lia|].
      exists x. split; [done|]. rewrite Hx.
      apply list_lookup_insert_eq. lia.
  - apply Nat.ltb_ge in Hrep. cbn [fst snd].
    apply seq_inv_same; [done | done |].
    intros _. exists u, tu. split; [done|]. split; [lia | done].
Qed.

(** The first turn changes nothing: [result] already holds index [0]. *)
Lemma getSequence_step_0 :
  0 < length arr -> getSequence_step arr (arr, [0]) 0 = (arr, [0]).
Proof.
  intros Hlen. unfold getSequence_step. rewrite (lookup_valid 0 Hlen).
  cbn [last]. case_bool_decide; [|done].
  rewrite js_lt_val_l, Nat.ltb_irrefl by done.
  cbn [length search_loop Nat.ltb Nat.leb Nat.sub lookup list_lookup mbind option_bind].
  by rewrite js_lt_val_r, Nat.ltb_irrefl.
Qed.

Lemma seq_inv_1 : 0 < length arr -> seq_inv 1 arr [0].
Proof.
  intros Hlen.
  assert (Hok0 : ok 1 0) by (split; [lia | by left]).
  split.
  - done.
  - done.
  - intros k j [-> <-]%list_lookup_singleton_Some. done.
  - intros k k' j j' Hkk [-> <-]%list_lookup_singleton_Some
      [-> <-]%list_lookup_singleton_Some. lia.
  - intros k j [-> <-]%list_lookup_singleton_Some.
    exists [0]. split; [constructor | by constructor].
  - intros j rest Hs Hall.
    apply StronglySorted_inv in Hs as [_ Hb].
    apply Forall_cons in Hall as [[Hj _] _].
    destruct rest as [|x rest].
    + assert (j = 0) as -> by lia. exists 0. split; [done | lia].
    + apply Forall_cons in Hb as [[Hx _] _]. lia.
Qed.

Lemma getSequence_fold_inv m :
  forall n p result,
    seq_inv n p result -> 1 <= n -> n + m <= length arr ->
    seq_inv (n + m) (foldl (getSequence_step arr) (p, result) (seq n m)).1
                    (foldl (getSequence_step arr) (p, result) (seq n m)).2.
Proof.
  induction m as [|m IH]; intros n p result Hinv Hn1 Hnm.
  - by rewrite Nat.add_0_r.
  - cbn [seq foldl].
    destruct (getSequence_step arr (p, result) n) as [p1 result1] eqn:Hstep.
    replace (n + S m) with (S n + m) by lia.
    apply IH; [|lia..].
    pose proof (getSequence_step_inv n p result Hinv Hn1) as Hinv1.
    rewrite Hstep in Hinv1. apply Hinv1. lia.
Qed.

(** The arrays when the loop is left. *)
Lemma getSequence_loop_inv :
  0 < length arr ->
  seq_inv (length arr)
    (foldl (getSequence_step arr) (arr, [0]) (seq 0 (length arr))).1
    (foldl (getSequence_step arr) (arr, [0]) (seq 0 (length arr))).2.
Proof.
  intros Hlen.
  assert (Hseq : seq 0 (length arr) = 0 :: seq 1 (length arr - 1)).
  { destruct (length arr); [lia|]. simpl. by rewrite Nat.sub_0_r. }
  pose proof (getSequence_fold_inv (length arr - 1) 1 arr [0]
                (seq_inv_1 Hlen)) as H.
  replace (1 + (length arr - 1)) with (length arr) in H by lia.
  rewrite Hseq. cbn [foldl]. rewrite getSequence_step_0 by done.
  apply H; lia.
Qed.

Lemma backtrack_S p u x result :
  backtrack p (S u) (Some x) result = backtrack p u (p !! x) (<[u := x]> result).
Proof. reflexivity. Qed.

(** The last loop writes the chain of the last index into [result]. *)
Lemma backtrack_rchain p k j l :
  rchain p k j l ->
  forall result,
    S k <= length result ->
    backtrack p (S k) (Some j) result = reverse l ++ drop (S k) result.
Proof.
  induction 1 as [j|k j j' l Hj Hb Hc IH]; intros result Hlen.
  - rewrite backtrack_S. destruct result as [|x result]; [simpl in Hlen; lia|].
    destruct (p !! j); reflexivity.
  - rewrite backtrack_S, Hj, IH by (rewrite length_insert; lia).
    rewrite reverse_cons, <- app_assoc. f_equal.
    rewrite drop_insert_ge by lia. rewrite Nat.sub_diag.
    destruct (lookup_lt_is_Some_2 result (S k)) as [y Hy]; [lia|].
    by rewrite (drop_S _ y _ Hy).
Qed.

(** [above a b]: index [b] may come right after index [a]. *)
Definition above (a b : nat) : Prop := a < b /\ val a < val b.

Lemma StronglySorted_reverse_flip (R : relation nat) l :
  StronglySorted R l -> StronglySorted (flip R) (reverse l).
Proof.
  induction 1 as [|x l Hs IH Hall]; [constructor|].
  rewrite reverse_cons. apply StronglySorted_app_2.
  - intros x1 x2 Hx1 Hx2%list_elem_of_singleton. subst x2.
    rewrite elem_of_reverse in Hx1.
    rewrite Forall_forall in Hall. unfold flip. by apply Hall.
  - done.
  - repeat constructor.
Qed.

(** [getSequence] returns an increasing subsequence of the indices
    [ok (length arr)], and no such subsequence is longer. *)
Lemma getSequence_longest :
  0 < length arr ->
  StronglySorted above (getSequence arr)
  /\ Forall (ok (length arr)) (getSequence arr)
  /\ forall l, StronglySorted above l -> Forall (ok (length arr)) l ->
               length l <= length (getSequence arr).
Proof.
  intros Hlen. pose proof (getSequence_loop_inv Hlen) as Hinv.
  unfold getSequence.
  destruct (foldl (getSequence_step arr) (arr, [0]) (seq 0 (length arr)))
    as [p result]. cbn [fst snd] in Hinv.
  pose proof Hinv as [Hne Hp Hok Hsorted Hchain Hopt].
  assert (HL : 0 < length result) by (destruct result; [done | simpl; lia]).
  destruct (last result) as [j|] eqn:Hlast; [|by apply last_None in Hlast].
  rewrite last_lookup in Hlast.
  destruct (Hchain _ j Hlast) as (l0 & Hc & Hall).
  assert (Hbt : backtrack p (length result) (Some j) result = reverse l0).
  { replace (length result) with (S (pred (length result))) at 1 by lia.
    rewrite (backtrack_rchain p _ j l0 Hc) by lia.
    by rewrite drop_ge, app_nil_r by lia. }
  rewrite Hbt.
  split; [|split].
  - apply (StronglySorted_reverse_flip below). by eapply rchain_sorted.
  - by apply Forall_reverse.
  - intros l Hs Hokl. rewrite length_reverse, (rchain_length _ _ _ _ Hc).
    destruct (reverse l) as [|j1 rest] eqn:Hrev.
    + apply (f_equal length) in Hrev. rewrite length_reverse in Hrev.
      simpl in Hrev. lia.
    + destruct (Hopt j1 rest) as (t & Ht & _).
      * rewrite <- Hrev. by apply (StronglySorted_reverse_flip above).
      * rewrite <- Hrev. by apply Forall_reverse.
      * apply lookup_lt_Some in Ht.
        apply (f_equal length) in Hrev. rewrite length_reverse in Hrev.
        simpl in Hrev. lia.
Qed.

End Sequence.

(** ** Which children [patchKeyedChildren] moves *)

(** The part that the two loops from the ends leave over:
    [(i, e1 + 1, e2 + 1)]. *)
Definition middle (oldChildren newChildren : list VNode) : nat * nat * nat :=
  let '(i, _) :=
    sync_start (length oldChildren) oldChildren newChildren 0
      (length oldChildren) (length newChildren) in
  let '(e1, e2, _) :=
    sync_end (length oldChildren) oldChildren newChildren i
      (length oldChildren) (length newChildren) in
  (i, e1, e2).

Lemma sync_start_no_move fuel oldChildren newChildren i e1 e2 x a :
  Move x a ∉ (sync_start fuel oldChildren newChildren i e1 e2).2.
Proof.
  revert i. induction fuel as [|fuel IH]; intros i; cbn [sync_start].
  - by intros ?%elem_of_nil.
  - destruct ((i <? e1) && (i <? e2)); [|by intros ?%elem_of_nil].
    destruct (oldChildren !! i) as [o|]; [|by intros ?%elem_of_nil].
    destruct (newChildren !! i) as [n|]; [|by intros ?%elem_of_nil].
    destruct (isSameVNodeType o n); [|by intros ?%elem_of_nil].
    specialize (IH (S i)).
    destruct (sync_start fuel oldChildren newChildren (S i) e1 e2) as [i' ops].
    cbn [snd] in *. by intros [?|?]%elem_of_cons.
Qed.

Lemma sync_end_no_move fuel oldChildren newChildren i e1 e2 x a :
  Move x a ∉ (sync_end fuel oldChildren newChildren i e1 e2).2.
Proof.
  revert e1 e2. induction fuel as [|fuel IH]; intros e1 e2; cbn [sync_end].
  - by intros ?%elem_of_nil.
  - destruct ((i <? e1) && (i <? e2)); [|by intros ?%elem_of_nil].
    destruct (oldChildren !! (e1 - 1)) as [o|]; [|by intros ?%elem_of_nil].
    destruct (newChildren !! (e2 - 1)) as [n|]; [|by intros ?%elem_of_nil].
    destruct (isSameVNodeType o n); [|by intros ?%elem_of_nil].
    specialize (IH (e1 - 1) (e2 - 1)).
    destruct (sync_end fuel oldChildren newChildren i (e1 - 1) (e2 - 1))
      as [[e1' e2'] ops].
    cbn [snd] in *. by intros [?|?]%elem_of_cons.
Qed.

Lemma match_step_keeps oldChildren newChildren s2 e2 keys m i x a :
  Move x a ∉ calls m ->
  (Move x a ∉ calls (match_step oldChildren newChildren s2 e2 keys m i))
  /\ length (newIndexToOldIndexMap
               (match_step oldChildren newChildren s2 e2 keys m i))
     = length (newIndexToOldIndexMap m).
Proof.
  intros Hm. unfold match_step.
  destruct (oldChildren !! i) as [oldChild|]; [|done].
  assert (Hun : Move x a ∉ calls m ++ [Unmount i]).
  { intros [?|[=]%list_elem_of_singleton]%elem_of_app. done. }
  destruct (e2 - s2 <=? patched m); [done|].
  destruct (match key oldChild with
            | Some k => keys !! k
            | None => find_unkeyed newChildren s2 e2 (newIndexToOldIndexMap m) oldChild
            end) as [j|]; [|done].
  cbn [calls newIndexToOldIndexMap]. split.
  - intros [?|[=]%list_elem_of_singleton]%elem_of_app. done.
  - by rewrite length_insert.
Qed.

Lemma match_old_keeps oldChildren newChildren i e1 e2 x a :
  (Move x a ∉ calls (match_old oldChildren newChildren i e1 e2))
  /\ length (newIndexToOldIndexMap (match_old oldChildren newChildren i e1 e2))
     = e2 - i.
Proof.
  unfold match_old.
  set (step := match_step oldChildren newChildren i e2
                 (keyToNewIndexMap newChildren i e2)).
  assert (H : forall l m,
             Move x a ∉ calls m ->
             (Move x a ∉ calls (foldl step m l))
             /\ length (newIndexToOldIndexMap (foldl step m l))
                = length (newIndexToOldIndexMap m)).
  { induction l as [|y l IH]; intros m Hm; [done|]. cbn [foldl].
    destruct (match_step_keeps oldChildren newChildren i e2
                (keyToNewIndexMap newChildren i e2) m y x a Hm) as [H1 H2].
    destruct (IH (step m y) H1) as [H3 H4]. split; [done|].
    by rewrite H4. }
  destruct (H (seq i (e1 - i))
              {| patched := 0; moved := false; maxNewIndexSoFar := 0;
                 newIndexToOldIndexMap := replicate (e2 - i) 0; calls := [] |})
    as [H1 H2].
  { by intros ?%elem_of_nil. }
  split; [done|]. rewrite H2. cbn [newIndexToOldIndexMap].
  by rewrite length_replicate.
Qed.

(** Without the flag nothing is moved. *)
Lemma move_loop_not_moved l2 s2 map_ sequence count remaining x a :
  Move x a ∉ move_loop l2 s2 map_ false sequence count remaining.
Proof.
  induction count as [|i IH]; cbn [move_loop]; [by intros ?%elem_of_nil|].
  case_bool_decide; [|done]. by intros [?|?]%elem_of_cons.
Qed.

(** With the flag, the last loop moves the matched children that are not
    in the sequence, provided the sequence increases and holds, apart
    from index [0], matched children only. *)
Lemma move_loop_moves l2 s2 (map_ sequence : list nat) :
  StronglySorted lt sequence ->
  (forall s, s ∈ sequence -> s = 0 \/ map_ !! s ≠ Some 0) ->
  forall count remaining,
    remaining <= length sequence ->
    (forall k s, sequence !! k = Some s -> (k < remaining <-> s < count)) ->
    forall x a,
      Move x a ∈ move_loop l2 s2 map_ true sequence count remaining
      <-> exists i, x = s2 + i /\ a = anchor_after l2 x /\ i < count
                    /\ map_ !! i ≠ Some 0 /\ i ∉ sequence.
Proof.
  intros Hsorted Hmatched.
  assert (Hlt : forall k k' s s',
            k < k' -> sequence !! k = Some s -> sequence !! k' = Some s' -> s < s').
  { intros k k' s s' Hkk Hs Hs'.
    pose proof (take_drop_middle _ _ _ Hs) as Hsplit.
    rewrite <- Hsplit in Hsorted.
    apply StronglySorted_app_1_r, StronglySorted_inv in Hsorted as [_ Hall].
    rewrite Forall_forall in Hall. apply Hall.
    apply list_elem_of_lookup. exists (k' - S k).
    rewrite lookup_drop. rewrite <- Hs'. f_equal. lia. }
  induction count as [|i IH]; intros remaining Hrem Hinv x a.
  { cbn [move_loop]. split; [by intros ?%elem_of_nil|].
    intros (i & _ & _ & ? & _). lia. }
  cbn [move_loop].
  assert (Hin : i ∈ sequence
                <-> 0 < remaining /\ sequence !! (remaining - 1) = Some i).
  { split.
    - intros (k & Hk)%list_elem_of_lookup.
      assert (k < remaining) by (apply (Hinv k i Hk); lia).
      destruct (decide (k = remaining - 1)) as [->|Hne]; [split; [lia | done]|].
      destruct (lookup_lt_is_Some_2 sequence (remaining - 1)) as [s' Hs'].
      { lia. }
      assert (i < s') by (apply (Hlt k (remaining - 1)); [lia | done | done]).
      assert (s' < S i) by (apply (Hinv (remaining - 1) s' Hs'); lia).
      lia.
    - intros [_ Hk]. by eapply list_elem_of_lookup_2. }
  assert (Hkeep : i ∉ sequence ->
                  forall k s, sequence !! k = Some s -> (k < remaining <-> s < i)).
  { intros Hni k s Hs. rewrite (Hinv k s Hs).
    assert (s ≠ i); [|lia]. intros ->. apply Hni. by eapply list_elem_of_lookup_2. }
  assert (Hrest : forall r,
                  (forall x a, Move x a ∈ move_loop l2 s2 map_ true sequence i r
                               <-> exists i', x = s2 + i' /\ a = anchor_after l2 x
                                     /\ i' < i /\ map_ !! i' ≠ Some 0 /\ i' ∉ sequence)
                  -> ~ (map_ !! i ≠ Some 0 /\ i ∉ sequence)
                  -> Move x a ∈ move_loop l2 s2 map_ true sequence i r
                     <-> exists i', x = s2 + i' /\ a = anchor_after l2 x
                           /\ i' < S i /\ map_ !! i' ≠ Some 0 /\ i' ∉ sequence).
  { intros r Hmem Hnot. rewrite Hmem. split.
    - intros (i' & ? & ? & ? & ? & ?). exists i'. repeat split; try done. lia.
    - intros (i' & ? & ? & ? & ? & ?). exists i'. repeat split; try done.
      destruct (decide (i' = i)) as [->|]; [|lia]. exfalso. by apply Hnot. }
  case_bool_decide as Hzero.
  - (* a new child is mounted *)
    rewrite elem_of_cons.
    destruct (decide (i ∈ sequence)) as [Hi|Hi].
    + destruct (Hmatched i Hi) as [->|?]; [|done].
      cbn [move_loop]. split.
      * intros [[=]|?%elem_of_nil]; done.
      * intros (i' & _ & _ & ? & Hm & _). assert (i' = 0) as -> by lia. done.
    + split.
      * intros [[=]|Hm].
        apply (Hrest remaining); [by apply IH; [|apply Hkeep] | tauto | done].
      * intros Hm. right.
        apply (Hrest remaining); [by apply IH; [|apply Hkeep] | tauto | done].
  - destruct (decide (i ∈ sequence)) as [Hi|Hi].
    + (* on the sequence: stays *)
      pose proof (proj1 Hin Hi) as [Hr Hk].
      rewrite bool_decide_eq_false_2 by lia.
      rewrite bool_decide_eq_true_2 by done. cbn [negb orb].
      apply Hrest; [|tauto]. apply IH; [lia|].
      intros k s Hs. split.
      * intros Hlt'. apply (Hlt k (remaining - 1)); [lia | done | done].
      * intros Hsi. assert (k < remaining) by (apply (Hinv k s Hs); lia).
        destruct (decide (k = remaining - 1)) as [->|]; [|lia].
        assert (s = i) by congruence. lia.
    + (* not on the sequence: moved *)
      assert (Hb : bool_decide (remaining = 0)
                   || negb (bool_decide (sequence !! (remaining - 1) = Some i)) = true).
      { destruct (decide (remaining = 0)) as [->|Hr]; [done|].
        rewrite (bool_decide_eq_false_2 (remaining = 0)) by done.
        rewrite bool_decide_eq_false_2; [done|].
        intros Hk. apply Hi, Hin. split; [lia | done]. }
      rewrite Hb, elem_of_cons. split.
      * intros [[= -> ->]|Hm].
        -- exists i. repeat split; try done. lia.
        -- apply IH in Hm; [|done|by apply Hkeep].
           destruct Hm as (i' & ? & ? & ? & ? & ?).
           exists i'. repeat split; try done. lia.
      * intros (i' & -> & -> & Hlt' & Hm & Hni).
        destruct (decide (i' = i)) as [->|]; [by left|].
        right. apply IH; [done|by apply Hkeep|].
        exists i'. repeat split; try done. lia.
Qed.

Lemma StronglySorted_weaken (R R' : relation nat) l :
  (forall a b, R a b -> R' a b) -> StronglySorted R l -> StronglySorted R' l.
Proof.
  intros HR. induction 1 as [|x l Hs IH Hall]; constructor; [done|].
  eapply Forall_impl; [done|]. apply HR.
Qed.

Lemma filter_all (P : nat -> Prop) `{!forall x, Decision (P x)} (l : list nat) :
  Forall P l -> filter P l = l.
Proof.
  induction 1 as [|x l Hx Hall IH]; [done|].
  by rewrite filter_cons, decide_True, IH.
Qed.

(** An increasing list loses at most its head, index [0], when the
    indices of zero entries are filtered out. *)
Lemma length_filter_nonzero arr s :
  StronglySorted (above arr) s ->
  Forall (λ x, x = 0 \/ val arr x ≠ 0) s ->
  length s <= S (length (filter (λ i, val arr i ≠ 0) s)).
Proof.
  intros Hs Hok. destruct s as [|x s]; [simpl; lia|].
  apply StronglySorted_inv in Hs as [_ Hall].
  apply Forall_cons in Hok as [_ Hok].
  assert (Hnz : Forall (λ i, val arr i ≠ 0) s).
  { rewrite Forall_forall in *. intros y Hy.
    destruct (Hok y Hy) as [->|?]; [|done].
    destruct (Hall 0 Hy) as [? _]. lia. }
  rewrite filter_cons, (filter_all _ s Hnz).
  destruct (decide (val arr x ≠ 0)); simpl; lia.
Qed.

(** The result of [getSequence] on a non-empty array:
    - its indices increase strictly, and so do their entries;
    - every index is that of a nonzero entry, or is [0];
    - no strictly increasing subsequence of nonzero entries is longer
      than the part of the result that consists of nonzero entries. *)
Lemma getSequence_nonzero arr :
  0 < length arr ->
  StronglySorted (above arr) (getSequence arr)
  /\ Forall (λ i, i < length arr /\ (i = 0 \/ val arr i ≠ 0)) (getSequence arr)
  /\ forall l,
       StronglySorted (above arr) l ->
       Forall (λ i, i < length arr /\ val arr i ≠ 0) l ->
       length l <= length (filter (λ i, val arr i ≠ 0) (getSequence arr)).
Proof.
  intros Hlen.
  destruct (getSequence_longest arr Hlen) as (Hs & Hok & Hmax).
  split; [done|]. split; [done|]. intros l Hl Hnz.
  destruct (decide (val arr 0 = 0)) as [H0|H0].
  - assert (Hl0 : StronglySorted (above arr) (0 :: l)).
    { constructor; [done|]. eapply Forall_impl; [exact Hnz|].
      intros x [_ Hx]. split; [|lia].
      destruct x; [done | lia]. }
    assert (Hok0 : Forall (ok arr (length arr)) (0 :: l)).
    { constructor; [split; [done | by left]|].
      eapply Forall_impl; [exact Hnz|]. intros x [? ?]. split; [done | by right]. }
    specialize (Hmax (0 :: l) Hl0 Hok0). simpl in Hmax.
    assert (length (getSequence arr)
            <= S (length (filter (λ i, val arr i ≠ 0) (getSequence arr)))).
    { apply length_filter_nonzero; [done|].
      eapply Forall_impl; [exact Hok|]. by intros x [_ ?]. }
    lia.
  - rewrite filter_all.
    + apply Hmax; [done|]. eapply Forall_impl; [exact Hnz|].
      intros x [? ?]. split; [done | by right].
    + eapply Forall_impl; [exact Hok|]. intros x [_ [->|?]]; done.
Qed.

(** The children that [patchKeyedChildren] moves are the matched
    children of the middle part that are not in the sequence. *)
Lemma patchKeyedChildren_moves oldChildren newChildren i e1 e2 x a :
  middle oldChildren newChildren = (i, e1, e2) ->
  Move x a ∈ patchKeyedChildren oldChildren newChildren
  <-> i < e1 /\ i < e2
      /\ moved (match_old oldChildren newChildren i e1 e2) = true
      /\ exists k,
           x = i + k /\ a = anchor_after (length newChildren) x /\ k < e2 - i
           /\ newIndexToOldIndexMap (match_old oldChildren newChildren i e1 e2) !! k
              ≠ Some 0
           /\ k ∉ getSequence
                    (newIndexToOldIndexMap (match_old oldChildren newChildren i e1 e2)).
Proof.
  unfold middle, patchKeyedChildren.
  pose proof (sync_start_no_move (length oldChildren) oldChildren newChildren 0
                (length oldChildren) (length newChildren) x a) as H1.
  destruct (sync_start (length oldChildren) oldChildren newChildren 0
              (length oldChildren) (length newChildren)) as [i0 ops1].
  pose proof (sync_end_no_move (length oldChildren) oldChildren newChildren i0
                (length oldChildren) (length newChildren) x a) as H2.
  destruct (sync_end (length oldChildren) oldChildren newChildren i0
              (length oldChildren) (length newChildren)) as [[e1' e2'] ops2].
  cbn [snd] in H1, H2. intros [= -> -> ->].
  rewrite !elem_of_app.
  destruct (match_old_keeps oldChildren newChildren i e1 e2 x a) as [H3 Hlen].
  set (m := match_old oldChildren newChildren i e1 e2) in *.
  destruct (e1 <=? i) eqn:He1.
  { apply Nat.leb_le in He1. split.
    - intros [?|[?|(j & [=] & _)%list_elem_of_fmap]]; done.
    - intros (? & _). lia. }
  destruct (e2 <=? i) eqn:He2.
  { apply Nat.leb_le in He2. split.
    - intros [?|[?|(j & [=] & _)%list_elem_of_fmap]]; done.
    - intros (_ & ? & _). lia. }
  apply Nat.leb_gt in He1, He2. rewrite elem_of_app.
  unfold increasingNewIndexSequence.
  destruct (moved m) eqn:Hmoved.
  - destruct (getSequence_longest (newIndexToOldIndexMap m)) as (Hs & Hok & _);
      [lia|].
    rewrite (move_loop_moves (length newChildren) i (newIndexToOldIndexMap m)
               (getSequence (newIndexToOldIndexMap m))).
    + split.
      * intros [?|[?|[?|Hm]]]; [done | done | done |].
        split; [lia|]. split; [lia|]. by split.
      * intros (_ & _ & _ & Hm). right. right. by right.
    + eapply StronglySorted_weaken; [|exact Hs]. by intros ? ? [? _].
    + intros s Hin. rewrite Forall_forall in Hok.
      destruct (Hok s Hin) as [_ [->|Hv]]; [by left|]. right.
      intros Hz. apply Hv. unfold val. by rewrite Hz.
    + done.
    + intros k s Hk. rewrite Forall_forall in Hok.
      destruct (Hok s (list_elem_of_lookup_2 _ _ _ Hk)) as [Hlt _].
      apply lookup_lt_Some in Hk. lia.
  - split.
    + intros [?|[?|[?|Hm]]]; [done | done | done |].
      by apply move_loop_not_moved in Hm.
    + intros (_ & _ & ? & _). done.
Qed.

(** ** Keyed reconciliation *)

Definition keyed (k : string) : VNode := {| type := 1; tag := "li"; key := Some k |}.

Definition ABCD : list VNode := [keyed "A"; keyed "B"; keyed "C"; keyed "D"].
Definition ACBD : list VNode := [keyed "A"; keyed "C"; keyed "B"; keyed "D"].
Definition ABC : list VNode := [keyed "A"; keyed "B"; keyed "C"].
Definition XCBY : list VNode := [keyed "X"; keyed "C"; keyed "B"; keyed "Y"].

(** From [[A, B, C]] to [[X, C, B, Y]] the new child [X] at position [0]
    is unmatched, and the children are moved: [newIndexToOldIndexMap] is
    [[0, 3, 2, 0]]. [getSequence] returns [[0, 2]]: index [0], with which
    [result] starts, stays in it although its entry is zero. *)
Lemma getSequence_returns_index_of_zero_entry :
  middle ABC XCBY = (0, 3, 4)
  /\ newIndexToOldIndexMap (match_old ABC XCBY 0 3 4) = [0; 3; 2; 0]
  /\ moved (match_old ABC XCBY 0 3 4) = true
  /\ getSequence [0; 3; 2; 0] = [0; 2]
  /\ [0; 3; 2; 0] !! 0 = Some 0.
Proof. vm_compute. done. Qed.

(** C3 (as amended): for a non-empty array, [getSequence] returns
    strictly increasing indices with strictly increasing entries; every
    index is that of a nonzero entry or is [0], and the indices of
    nonzero entries among them are as many as any strictly increasing
    subsequence of nonzero entries has. In the middle part [i .. e1],
    [i .. e2] of [patchKeyedChildren], a new child is moved exactly when
    the children are out of order ([moved]), it is matched and its index
    is not in [getSequence(newIndexToOldIndexMap)]; matched children in
    the sequence are not moved. From [[A, B, C, D]] to [[A, C, B, D]]
    there is one [move]. *)
Theorem patchKeyedChildren_moves_off_sequence
    (arr : list nat) (oldChildren newChildren : list VNode) (i e1 e2 : nat) :
  arr ≠ [] ->
  middle oldChildren newChildren = (i, e1, e2) ->
  (StronglySorted (above arr) (getSequence arr)
   /\ Forall (λ k, k < length arr /\ (k = 0 \/ val arr k ≠ 0)) (getSequence arr)
   /\ forall l,
        StronglySorted (above arr) l ->
        Forall (λ k, k < length arr /\ val arr k ≠ 0) l ->
        length l <= length (filter (λ k, val arr k ≠ 0) (getSequence arr)))
  /\ (forall x a,
        Move x a ∈ patchKeyedChildren oldChildren newChildren
        <-> i < e1 /\ i < e2
            /\ moved (match_old oldChildren newChildren i e1 e2) = true
            /\ exists k,
                 x = i + k /\ a = anchor_after (length newChildren) x /\ k < e2 - i
                 /\ newIndexToOldIndexMap
                      (match_old oldChildren newChildren i e1 e2) !! k ≠ Some 0
                 /\ k ∉ getSequence
                          (newIndexToOldIndexMap
                             (match_old oldChildren newChildren i e1 e2)))
  /\ patchKeyedChildren ABCD ACBD
     = [Patch 0 0; Patch 3 3; Patch 1 2; Patch 2 1; Move 1 (Some 2)].
Proof.
  intros Harr Hmiddle. split; [|split].
  - apply getSequence_nonzero. destruct arr; [done | simpl; lia].
  - intros x a. by apply patchKeyedChildren_moves.
  - vm_compute. reflexivity.
Qed.

Lemma patchKeyedChildren_moves_off_sequence_witness :
  Move 1 (Some 2) ∈ patchKeyedChildren ABCD ACBD
  /\ ~ Move 2 (Some 3) ∈ patchKeyedChildren ABCD ACBD.
Proof.
  assert (Harr : [3; 2] ≠ @nil nat) by done.
  destruct (patchKeyedChildren_moves_off_sequence [3; 2] ABCD ACBD 1 3 3
              Harr eq_refl) as (_ & Hmoves & _).
  split.
  - apply Hmoves. split; [lia|]. split; [lia|]. split; [reflexivity|].
    exists 0. split; [reflexivity|]. split; [reflexivity|]. split; [lia|].
    split; [by vm_compute|].
    vm_compute. by intros [=]%list_elem_of_singleton.
  - intros (_ & _ & _ & k & Hx & _ & _ & _ & Hk)%Hmoves.
    assert (k = 1) as -> by lia. apply Hk. vm_compute. by left.
Defined.

(** ** Which children [patchKeyedChildren] handles *)

(** The old child that a call disposes of, by patching it into a new
    child or by unmounting it; the new child that a call brings to the
    DOM, by patching or by mounting. *)
Definition old_of (op : operation) : option nat :=
  match op with
  | Patch o _ | Unmount o => Some o
  | _ => None
  end.

Definition new_of (op : operation) : option nat :=
  match op with
  | Patch _ n | Mount n _ => Some n
  | _ => None
  end.

Lemma sync_start_spec fuel oldChildren newChildren i0 e1 e2 :
  let '(i, ops) := sync_start fuel oldChildren newChildren i0 e1 e2 in
  i0 <= i /\ (i0 <= e1 -> i <= e1) /\ (i0 <= e2 -> i <= e2)
  /\ ops = map (λ k, Patch k k) (seq i0 (i - i0)).
Proof.
  revert i0. induction fuel as [|fuel IH]; intros i0; cbn [sync_start].
  { rewrite Nat.sub_diag. by repeat split. }
  assert (Hstop : i0 <= i0 /\ (i0 <= e1 -> i0 <= e1) /\ (i0 <= e2 -> i0 <= e2)
                  /\ @nil operation = map (λ k, Patch k k) (seq i0 (i0 - i0))).
  { rewrite Nat.sub_diag. by repeat split. }
  destruct ((i0 <? e1) && (i0 <? e2)) eqn:Hc; [|done].
  apply andb_true_iff in Hc as [H1%Nat.ltb_lt H2%Nat.ltb_lt].
  destruct (oldChildren !! i0) as [o|]; [|done].
  destruct (newChildren !! i0) as [n|]; [|done].
  destruct (isSameVNodeType o n); [|done].
  specialize (IH (S i0)).
  destruct (sync_start fuel oldChildren newChildren (S i0) e1 e2) as [i ops].
  destruct IH as (Hle & He1 & He2 & ->).
  split; [lia|]. split; [lia|]. split; [lia|].
  replace (i - i0) with (S (i - S i0)) by lia. reflexivity.
Qed.

Lemma reverse_seq_S a n : reverse (seq a (S n)) = (a + n) :: reverse (seq a n).
Proof. by rewrite seq_S, reverse_app. Qed.

Lemma sync_end_spec fuel oldChildren newChildren i e1 e2 :
  let '(e1', e2', ops) := sync_end fuel oldChildren newChildren i e1 e2 in
  e1' <= e1 /\ e2' <= e2 /\ e1 - e1' = e2 - e2'
  /\ (i <= e1 -> i <= e1') /\ (i <= e2 -> i <= e2')
  /\ omap old_of ops = reverse (seq e1' (e1 - e1'))
  /\ omap new_of ops = reverse (seq e2' (e2 - e2'))
  /\ Forall (λ op, exists o n, op = Patch o n) ops.
Proof.
  revert e1 e2. induction fuel as [|fuel IH]; intros e1 e2; cbn [sync_end].
  { rewrite !Nat.sub_diag. by repeat split. }
  assert (Hstop : e1 <= e1 /\ e2 <= e2 /\ e1 - e1 = e2 - e2
                  /\ (i <= e1 -> i <= e1) /\ (i <= e2 -> i <= e2)
                  /\ omap old_of [] = reverse (seq e1 (e1 - e1))
                  /\ omap new_of [] = reverse (seq e2 (e2 - e2))
                  /\ Forall (λ op, exists o n, op = Patch o n) []).
  { rewrite !Nat.sub_diag. by repeat split. }
  destruct ((i <? e1) && (i <? e2)) eqn:Hc; [|done].
  apply andb_true_iff in Hc as [H1%Nat.ltb_lt H2%Nat.ltb_lt].
  destruct (oldChildren !! (e1 - 1)) as [o|]; [|done].
  destruct (newChildren !! (e2 - 1)) as [n|]; [|done].
  destruct (isSameVNodeType o n); [|done].
  specialize (IH (e1 - 1) (e2 - 1)).
  destruct (sync_end fuel oldChildren newChildren i (e1 - 1) (e2 - 1))
    as [[e1' e2'] ops].
  destruct IH as (Hle1 & Hle2 & Heq & Hi1 & Hi2 & Hold & Hnew & Hall).
  split; [lia|]. split; [lia|]. split; [lia|]. split; [lia|]. split; [lia|].
  change (omap old_of (Patch (e1 - 1) (e2 - 1) :: ops))
    with ((e1 - 1) :: omap old_of ops).
  change (omap new_of (Patch (e1 - 1) (e2 - 1) :: ops))
    with ((e2 - 1) :: omap new_of ops).
  rewrite Hold, Hnew.
  replace (e1 - e1') with (S (e1 - 1 - e1')) by lia.
  replace (e2 - e2') with (S (e2 - 1 - e2')) by lia.
  rewrite !reverse_seq_S.
  split; [f_equal; lia|]. split; [f_equal; lia|].
  constructor; [by eexists _, _ | done].
Qed.

Lemma omap_old_of_Patch_diag l :
  omap old_of (map (λ k, Patch k k) l) = l
  /\ omap new_of (map (λ k, Patch k k) l) = l.
Proof.
  induction l as [|x l [IH1 IH2]]; [done|].
  change (x :: omap old_of (map (λ k, Patch k k) l) = x :: l
          /\ x :: omap new_of (map (λ k, Patch k k) l) = x :: l).
  by rewrite IH1, IH2.
Qed.

Lemma match_step_old oldChildren newChildren s2 e2 keys m i :
  is_Some (oldChildren !! i) ->
  omap old_of (calls (match_step oldChildren newChildren s2 e2 keys m i))
  = omap old_of (calls m) ++ [i].
Proof.
  intros [oldChild Ho]. unfold match_step. rewrite Ho.
  destruct (e2 - s2 <=? patched m); [cbn [calls]; by rewrite omap_app|].
  destruct (match key oldChild with
            | Some k => keys !! k
            | None => find_unkeyed newChildren s2 e2 (newIndexToOldIndexMap m) oldChild
            end) as [j|]; cbn [calls]; by rewrite omap_app.
Qed.

Lemma match_old_old oldChildren newChildren i e1 e2 :
  e1 <= length oldChildren ->
  omap old_of (calls (match_old oldChildren newChildren i e1 e2)) = seq i (e1 - i).
Proof.
  intros He1. unfold match_old.
  set (step := match_step oldChildren newChildren i e2
                 (keyToNewIndexMap newChildren i e2)).
  assert (H : forall l m,
             Forall (λ k, k < length oldChildren) l ->
             omap old_of (calls (foldl step m l)) = omap old_of (calls m) ++ l).
  { induction l as [|y l IH]; intros m Hl; cbn [foldl]; [by rewrite app_nil_r|].
    apply Forall_cons in Hl as [Hy Hl]. rewrite IH by done.
    unfold step at 1. rewrite match_step_old by by apply lookup_lt_is_Some_2.
    by rewrite <- app_assoc. }
  rewrite H; [done|]. apply Forall_forall. intros k Hk%elem_of_seq. lia.
Qed.

Lemma omap_cons_None {A B} (f : A -> option B) x l :
  f x = None -> omap f (x :: l) = omap f l.
Proof.
  intros H.
  change (omap f (x :: l))
    with (match f x with Some y => y :: omap f l | None => omap f l end).
  by rewrite H.
Qed.

Lemma omap_cons_Some {A B} (f : A -> option B) x y l :
  f x = Some y -> omap f (x :: l) = y :: omap f l.
Proof.
  intros H.
  change (omap f (x :: l))
    with (match f x with Some y => y :: omap f l | None => omap f l end).
  by rewrite H.
Qed.

Lemma move_loop_old l2 s2 map_ moved_ sequence count remaining :
  omap old_of (move_loop l2 s2 map_ moved_ sequence count remaining) = [].
Proof.
  revert remaining. induction count as [|i IH]; intros remaining;
    cbn [move_loop]; [done|].
  destruct (bool_decide (map_ !! i = Some 0)); [by rewrite omap_cons_None|].
  destruct moved_; [|done].
  destruct (_ || _); [by rewrite omap_cons_None | done].
Qed.

(** [keyToNewIndexMap] sends a key to a new child of the middle part that
    has this key. *)
Lemma keyToNewIndexMap_spec newChildren s2 e2 k j :
  keyToNewIndexMap newChildren s2 e2 !! k = Some j ->
  s2 <= j < e2
  /\ exists n, newChildren !! j = Some n /\ key n = Some k.
Proof.
  unfold keyToNewIndexMap.
  set (f := λ (m : gmap string nat) i,
              match newChildren !! i with
              | Some {| key := Some k |} => <[k := i]> m
              | _ => m
              end).
  assert (H : forall l m,
             foldl f m l !! k = Some j ->
             m !! k = Some j
             \/ (j ∈ l /\ exists n, newChildren !! j = Some n /\ key n = Some k)).
  { induction l as [|x l IH]; intros m; cbn [foldl]; [by left|].
    intros [Hm | (Hj & Hn)]%IH.
    - unfold f in Hm. destruct (newChildren !! x) as [[ty tg [k'|]]|] eqn:Hx;
        [|by left|by left].
      destruct (decide (k' = k)) as [->|Hne].
      + rewrite lookup_insert_eq in Hm. injection Hm as <-.
        right. split; [by left|]. by eexists.
      + rewrite lookup_insert_ne in Hm by done. by left.
    - right. split; [by right | done]. }
  intros [Hm | (Hj & Hn)]%H.
  - by rewrite lookup_empty in Hm.
  - apply elem_of_seq in Hj. split; [lia | done].
Qed.

Lemma isSameVNodeType_key o n : isSameVNodeType o n = true -> key o = key n.
Proof.
  unfold isSameVNodeType. intros [_ Hk%bool_decide_eq_true]%andb_true_iff. done.
Qed.

Lemma find_unkeyed_spec newChildren s2 e2 map_ oldChild j :
  find_unkeyed newChildren s2 e2 map_ oldChild = Some j ->
  s2 <= j < e2 /\ map_ !! (j - s2) = Some 0
  /\ exists n, newChildren !! j = Some n /\ key n = key oldChild.
Proof.
  unfold find_unkeyed. intros [Hin Hf]%List.find_some.
  apply list_elem_of_In, elem_of_seq in Hin.
  apply andb_true_iff in Hf as [Hz%bool_decide_eq_true Hs].
  split; [lia|]. split; [done|].
  destruct (newChildren !! j) as [n|]; [|done].
  exists n. split; [done|]. symmetry. by apply isSameVNodeType_key.
Qed.

(** No two children have the same key. *)
Definition distinct_keys (children : list VNode) : Prop :=
  forall a b ca cb k,
    children !! a = Some ca -> children !! b = Some cb ->
    key ca = Some k -> key cb = Some k -> a = b.

(** What holds in the loop over the old children of the middle part when
    the old children below [bound] are done: the new children patched so
    far are those with an entry in [newIndexToOldIndexMap], each once, and
    every entry stands for an old child below [bound] that has the key of
    the new child. *)
Record matched (oldChildren newChildren : list VNode) (s2 e2 bound : nat)
    (m : matching) : Prop := {
  matched_length : length (newIndexToOldIndexMap m) = e2 - s2;
  matched_new : forall d, d < e2 - s2 ->
    (newIndexToOldIndexMap m !! d ≠ Some 0 <-> s2 + d ∈ omap new_of (calls m));
  matched_range : forall x, x ∈ omap new_of (calls m) -> s2 <= x < e2;
  matched_nodup : NoDup (omap new_of (calls m));
  matched_entry : forall d v,
    newIndexToOldIndexMap m !! d = Some v -> v ≠ 0 ->
    exists o oc n,
      o < bound /\ oldChildren !! o = Some oc
      /\ newChildren !! (s2 + d) = Some n /\ key n = key oc
}.

Lemma matched_weaken oldChildren newChildren s2 e2 b b' m :
  b <= b' ->
  matched oldChildren newChildren s2 e2 b m ->
  matched oldChildren newChildren s2 e2 b' m.
Proof.
  intros Hb [H1 H2 H3 H4 H5]. split; try done.
  intros d v Hd Hv. destruct (H5 d v Hd Hv) as (o & oc & n & ? & ?).
  exists o, oc, n. split; [lia | done].
Qed.

Lemma match_step_matched oldChildren newChildren s2 e2 m o oc :
  distinct_keys oldChildren ->
  matched oldChildren newChildren s2 e2 o m ->
  oldChildren !! o = Some oc ->
  matched oldChildren newChildren s2 e2 (S o)
    (match_step oldChildren newChildren s2 e2
       (keyToNewIndexMap newChildren s2 e2) m o).
Proof.
  intros Hdist Hm Ho.
  assert (Hunmount :
            matched oldChildren newChildren s2 e2 (S o)
              {| patched := patched m; moved := moved m;
                 maxNewIndexSoFar := maxNewIndexSoFar m;
                 newIndexToOldIndexMap := newIndexToOldIndexMap m;
                 calls := calls m ++ [Unmount o] |}).
  { destruct (matched_weaken _ _ _ _ o (S o) m (Nat.le_succ_diag_r o) Hm)
      as [H1 H2 H3 H4 H5].
    split; cbn [newIndexToOldIndexMap calls]; rewrite ?omap_app;
      change (omap new_of [Unmount o]) with (@nil nat); rewrite ?app_nil_r;
      done. }
  unfold match_step. rewrite Ho.
  destruct (e2 - s2 <=? patched m); [done|].
  destruct (match key oc with
            | Some k => keyToNewIndexMap newChildren s2 e2 !! k
            | None => find_unkeyed newChildren s2 e2 (newIndexToOldIndexMap m) oc
            end) as [j|] eqn:Hj; [|done].
  destruct Hm as [Hlen Hnew Hrange Hnd Hentry].
  assert (Hfacts : s2 <= j < e2
                   /\ newIndexToOldIndexMap m !! (j - s2) = Some 0
                   /\ exists n, newChildren !! j = Some n /\ key n = key oc).
  { destruct (key oc) as [k|] eqn:Hk.
    - destruct (keyToNewIndexMap_spec _ _ _ _ _ Hj) as (Hr & n & Hn & Hkn).
      split; [done|]. split; [|by exists n; split; [|congruence]].
      destruct (lookup_lt_is_Some_2 (newIndexToOldIndexMap m) (j - s2)) as [v Hv];
        [lia|].
      destruct (decide (v = 0)) as [->|Hv0]; [done|].
      destruct (Hentry _ _ Hv Hv0) as (o' & oc' & n' & Hlt & Ho' & Hn' & Hkn').
      replace (s2 + (j - s2)) with j in Hn' by lia.
      assert (n' = n) as -> by congruence.
      assert (o' = o); [|lia].
      apply (Hdist o' o oc' oc k); congruence.
    - apply find_unkeyed_spec in Hj. by rewrite Hk in Hj. }
  destruct Hfacts as (Hr & Hzero & n & Hn & Hkn).
  split; cbn [newIndexToOldIndexMap calls]; rewrite ?omap_app;
    change (omap new_of [Patch o j]) with [j].
  - by rewrite length_insert.
  - intros d Hd. rewrite elem_of_app, list_elem_of_singleton.
    destruct (decide (d = j - s2)) as [->|Hne].
    + rewrite list_lookup_insert_eq by lia. split; [intros _; right; lia|].
      intros _ [=]. lia.
    + rewrite list_lookup_insert_ne by done. rewrite Hnew by done.
      split; [by left|]. intros [?|?]; [done | lia].
  - intros x [Hx | ->%list_elem_of_singleton]%elem_of_app; [by apply Hrange | done].
  - apply NoDup_app. split; [done|]. split; [|apply NoDup_singleton].
    intros x Hx ->%list_elem_of_singleton.
    assert (Hd : j - s2 < e2 - s2) by lia.
    apply (proj2 (Hnew (j - s2) Hd)); [|done].
    by replace (s2 + (j - s2)) with j by lia.
  - intros d v Hd Hv.
    destruct (decide (d = j - s2)) as [->|Hne].
    + exists o, oc, n. split; [lia|]. split; [done|].
      by replace (s2 + (j - s2)) with j by lia.
    + rewrite list_lookup_insert_ne in Hd by done.
      destruct (Hentry d v Hd Hv) as (o' & oc' & n' & ? & ?).
      exists o', oc', n'. split; [lia | done].
Qed.

Lemma match_old_matched oldChildren newChildren i e1 e2 :
  distinct_keys oldChildren ->
  i <= e1 <= length oldChildren ->
  matched oldChildren newChildren i e2 e1
    (match_old oldChildren newChildren i e1 e2).
Proof.
  intros Hdist He1. unfold match_old.
  set (step := match_step oldChildren newChildren i e2
                 (keyToNewIndexMap newChildren i e2)).
  assert (H : forall n b m,
             b + n <= length oldChildren ->
             matched oldChildren newChildren i e2 b m ->
             matched oldChildren newChildren i e2 (b + n) (foldl step m (seq b n))).
  { induction n as [|n IH]; intros b m Hb Hm; cbn [seq foldl].
    - by rewrite Nat.add_0_r.
    - replace (b + S n) with (S b + n) by lia. apply IH; [lia|].
      destruct (lookup_lt_is_Some_2 oldChildren b) as [oc Hoc]; [lia|].
      by apply (match_step_matched _ _ _ _ _ _ oc). }
  match goal with
  | |- matched _ _ _ _ _ (foldl _ ?m0 _) =>
      pose proof (H (e1 - i) i m0) as Hfold
  end.
  replace (i + (e1 - i)) with e1 in Hfold by lia.
  apply Hfold; [lia|]. split; cbn [newIndexToOldIndexMap calls].
  - apply length_replicate.
  - intros d Hd. rewrite lookup_replicate_2 by done. split; [done|].
    by intros ?%elem_of_nil.
  - by intros x ?%elem_of_nil.
  - constructor.
  - intros d v [-> _]%lookup_replicate. done.
Qed.

Lemma move_loop_new l2 s2 map_ moved_ sequence count remaining :
  omap new_of (move_loop l2 s2 map_ moved_ sequence count remaining)
  = map (λ d, s2 + d) (filter (λ d, map_ !! d = Some 0) (reverse (seq 0 count))).
Proof.
  revert remaining. induction count as [|i IH]; intros remaining;
    cbn [move_loop]; [done|].
  rewrite reverse_seq_S, filter_cons. cbn [Nat.add].
  case_bool_decide as Hz.
  - rewrite decide_True by done.
    rewrite (omap_cons_Some new_of _ (s2 + i)) by done.
    cbn [map]. by rewrite IH.
  - rewrite decide_False by done.
    destruct moved_; [|apply IH].
    destruct (_ || _); [|apply IH].
    rewrite omap_cons_None by done. apply IH.
Qed.

Lemma omap_new_of_Mount (f : nat -> option nat) l :
  omap new_of (map (λ j, Mount j (f j)) l) = l.
Proof.
  induction l as [|x l IH]; [done|]. cbn [map].
  rewrite (omap_cons_Some new_of _ x) by done. by rewrite IH.
Qed.

Lemma omap_new_of_Unmount l : omap new_of (map Unmount l) = [].
Proof.
  induction l as [|x l IH]; [done|]. cbn [map]. by rewrite omap_cons_None.
Qed.

Lemma omap_old_of_Mount (f : nat -> option nat) l :
  omap old_of (map (λ j, Mount j (f j)) l) = [].
Proof.
  induction l as [|x l IH]; [done|]. cbn [map]. by rewrite omap_cons_None.
Qed.

Lemma omap_old_of_Unmount l : omap old_of (map Unmount l) = l.
Proof.
  induction l as [|x l IH]; [done|]. cbn [map].
  rewrite (omap_cons_Some old_of _ x) by done. by rewrite IH.
Qed.

Lemma seq_three a b c :
  a <= b <= c -> seq 0 c = seq 0 a ++ seq a (b - a) ++ seq b (c - b).
Proof.
  intros H.
  replace c with (a + ((b - a) + (c - b))) at 1 by lia.
  rewrite seq_app, seq_app. cbn [Nat.add].
  by replace (a + (b - a)) with b by lia.
Qed.

(** The new children of the middle part are patched when they have an
    entry in [newIndexToOldIndexMap], and mounted by the last loop when
    they have none. *)
Lemma middle_new oldChildren newChildren i e1 e2 l2 sequence remaining :
  distinct_keys oldChildren ->
  i <= e1 <= length oldChildren ->
  let m := match_old oldChildren newChildren i e1 e2 in
  omap new_of (calls m)
  ++ omap new_of (move_loop l2 i (newIndexToOldIndexMap m) (moved m) sequence
                    (e2 - i) remaining)
  ≡ₚ seq i (e2 - i).
Proof.
  intros Hdist He1 m.
  destruct (match_old_matched oldChildren newChildren i e1 e2 Hdist He1)
    as [Hlen Hnew Hrange Hnd Hentry]. fold m in Hlen, Hnew, Hrange, Hnd, Hentry.
  rewrite move_loop_new.
  apply NoDup_Permutation.
  - apply NoDup_app. split; [done|]. split.
    + intros x Hx (d & -> & Hd)%list_elem_of_fmap.
      apply list_elem_of_filter in Hd as [Hz Hd].
      apply elem_of_reverse, elem_of_seq in Hd.
      apply (proj2 (Hnew d ltac:(lia))); done.
    + apply NoDup_fmap_2; [intros ? ? ?; lia|].
      apply NoDup_filter. rewrite reverse_Permutation. apply NoDup_seq.
  - apply NoDup_seq.
  - intros x. rewrite elem_of_app, elem_of_seq. split.
    + intros [Hx | (d & -> & Hd)%list_elem_of_fmap].
      * apply Hrange in Hx. lia.
      * apply list_elem_of_filter in Hd as [_ Hd].
        apply elem_of_reverse, elem_of_seq in Hd. lia.
    + intros Hx.
      destruct (decide (newIndexToOldIndexMap m !! (x - i) = Some 0)) as [Hz|Hz].
      * right. apply list_elem_of_fmap. exists (x - i). split; [lia|].
        apply list_elem_of_filter. split; [done|].
        apply elem_of_reverse, elem_of_seq. lia.
      * left. apply (Hnew (x - i)) in Hz; [|lia].
        by replace (i + (x - i)) with x in Hz by lia.
Qed.

(** X13: [patchKeyedChildren] disposes of every old child exactly once,
    by a [patch] into a new child or by [unmount]. If no two old children
    have the same key, it also brings every new child to the DOM exactly
    once, by a [patch] from an old child or by a mount ([patch] from
    [null]). *)
Theorem patchKeyedChildren_handles_every_child_once oldChildren newChildren :
  omap old_of (patchKeyedChildren oldChildren newChildren)
  ≡ₚ seq 0 (length oldChildren)
  /\ (distinct_keys oldChildren ->
      omap new_of (patchKeyedChildren oldChildren newChildren)
      ≡ₚ seq 0 (length newChildren)).
Proof.
  unfold patchKeyedChildren.
  pose proof (sync_start_spec (length oldChildren) oldChildren newChildren 0
                (length oldChildren) (length newChildren)) as Hs.
  destruct (sync_start (length oldChildren) oldChildren newChildren 0
              (length oldChildren) (length newChildren)) as [i ops1].
  destruct Hs as (_ & Hi1 & Hi2 & ->).
  specialize (Hi1 ltac:(lia)). specialize (Hi2 ltac:(lia)).
  pose proof (sync_end_spec (length oldChildren) oldChildren newChildren i
                (length oldChildren) (length newChildren)) as He.
  destruct (sync_end (length oldChildren) oldChildren newChildren i
              (length oldChildren) (length newChildren)) as [[e1 e2] ops2].
  destruct He as (He1 & He2 & Hdiff & Hie1 & Hie2 & Hold2 & Hnew2 & _).
  specialize (Hie1 Hi1). specialize (Hie2 Hi2).
  rewrite !omap_app, Nat.sub_0_r, Hold2, Hnew2.
  destruct (omap_old_of_Patch_diag (seq 0 i)) as [-> ->].
  split.
  - rewrite (seq_three i e1 (length oldChildren)) by lia.
    f_equiv. rewrite reverse_Permutation, (comm (++)). f_equiv.
    destruct (e1 <=? i) eqn:Hc1.
    { apply Nat.leb_le in Hc1. rewrite omap_old_of_Mount.
      by replace (e1 - i) with 0 by lia. }
    destruct (e2 <=? i) eqn:Hc2; [by rewrite omap_old_of_Unmount|].
    rewrite omap_app, match_old_old, move_loop_old by done.
    by rewrite app_nil_r.
  - intros Hdist.
    rewrite (seq_three i e2 (length newChildren)) by lia.
    f_equiv. rewrite reverse_Permutation, (comm (++)). f_equiv.
    destruct (e1 <=? i) eqn:Hc1; [by rewrite omap_new_of_Mount|].
    destruct (e2 <=? i) eqn:Hc2.
    { apply Nat.leb_le in Hc2. rewrite omap_new_of_Unmount.
      by replace (e2 - i) with 0 by lia. }
    rewrite omap_app. apply middle_new; [done | lia].
Qed.

Lemma patchKeyedChildren_handles_every_child_once_witness :
  omap new_of (patchKeyedChildren ABC XCBY) ≡ₚ [0; 1; 2; 3].
Proof.
  apply (proj2 (patchKeyedChildren_handles_every_child_once ABC XCBY)).
  intros a b ca cb k Ha Hb Hka Hkb.
  destruct a as [|[|[|a]]], b as [|[|[|b]]]; try done;
    cbn in Ha, Hb; simplify_eq; cbn in Hka, Hkb; congruence.
Defined.

(** Two old children with the same key: both are patched into the one
    new child that has this key. *)
Example patchKeyedChildren_duplicate_old_keys :
  patchKeyedChildren [keyed "A"; keyed "A"] [keyed "B"; keyed "A"; keyed "C"]
  = [Patch 0 1; Patch 1 1; Mount 2 None; Mount 0 (Some 1)].
Proof. vm_compute. reflexivity. Qed.

(** ** Lists that differ only at the end *)

Lemma sync_start_same fuel oldChildren newChildren i e1 e2 :
  (forall k o n, oldChildren !! k = Some o -> newChildren !! k = Some n ->
                 isSameVNodeType o n = true) ->
  e1 <= length oldChildren -> e2 <= length newChildren ->
  i <= min e1 e2 -> min e1 e2 - i <= fuel ->
  sync_start fuel oldChildren newChildren i e1 e2
  = (min e1 e2, map (λ k, Patch k k) (seq i (min e1 e2 - i))).
Proof.
  intros Hsame He1 He2. revert i.
  induction fuel as [|fuel IH]; intros i Hi Hfuel; cbn [sync_start].
  { replace (min e1 e2 - i) with 0 by lia. cbn [seq map]. f_equal. lia. }
  destruct ((i <? e1) && (i <? e2)) eqn:Hc.
  - apply andb_true_iff in Hc as [H1%Nat.ltb_lt H2%Nat.ltb_lt].
    destruct (lookup_lt_is_Some_2 oldChildren i) as [o Ho]; [lia|].
    destruct (lookup_lt_is_Some_2 newChildren i) as [n Hn]; [lia|].
    rewrite Ho, Hn, (Hsame i o n Ho Hn).
    rewrite IH by lia.
    replace (min e1 e2 - i) with (S (min e1 e2 - S i)) by lia. reflexivity.
  - apply andb_false_iff in Hc as [H1%Nat.ltb_ge | H2%Nat.ltb_ge];
      (replace (min e1 e2 - i) with 0 by lia); cbn [seq map]; f_equal; lia.
Qed.

Lemma sync_end_at_min fuel oldChildren newChildren e1 e2 :
  sync_end fuel oldChildren newChildren (min e1 e2) e1 e2 = (e1, e2, []).
Proof.
  destruct fuel; cbn [sync_end]; [done|].
  destruct ((min e1 e2 <? e1) && (min e1 e2 <? e2)) eqn:Hc; [|done].
  apply andb_true_iff in Hc as [H1%Nat.ltb_lt H2%Nat.ltb_lt]. lia.
Qed.

(** X16: when every old child has the type, tag and key of the new
    child at the same position, as far as both lists reach,
    [patchKeyedChildren] patches these pairs in place, then mounts the
    new children beyond the old list at the end of the container, or
    unmounts the old children beyond the new list; nothing is moved. In
    particular an unchanged list is only patched. *)
Theorem patchKeyedChildren_same_prefix oldChildren newChildren :
  (forall k o n, oldChildren !! k = Some o -> newChildren !! k = Some n ->
                 isSameVNodeType o n = true) ->
  patchKeyedChildren oldChildren newChildren
  = map (λ k, Patch k k) (seq 0 (min (length oldChildren) (length newChildren)))
    ++ map (λ j, Mount j None)
           (seq (length oldChildren) (length newChildren - length oldChildren))
    ++ map Unmount
           (seq (length newChildren) (length oldChildren - length newChildren)).
Proof.
  intros Hsame. unfold patchKeyedChildren.
  rewrite (sync_start_same _ _ _ 0 _ _ Hsame) by lia.
  rewrite sync_end_at_min, Nat.sub_0_r. cbn [app]. f_equal.
  destruct (length oldChildren <=? min (length oldChildren) (length newChildren))
    eqn:Hc1.
  - apply Nat.leb_le in Hc1.
    rewrite (proj2 (Nat.ltb_ge _ _) (Nat.le_refl (length newChildren))).
    replace (min (length oldChildren) (length newChildren))
      with (length oldChildren) by lia.
    replace (length oldChildren - length newChildren) with 0 by lia.
    cbn [seq map]. by rewrite app_nil_r.
  - apply Nat.leb_gt in Hc1.
    rewrite (proj2 (Nat.leb_le (length newChildren)
                      (min (length oldChildren) (length newChildren))))
      by lia.
    replace (min (length oldChildren) (length newChildren))
      with (length newChildren) by lia.
    replace (length newChildren - length oldChildren) with 0 by lia.
    reflexivity.
Qed.

Lemma patchKeyedChildren_same_prefix_witness :
  patchKeyedChildren ABC ABCD
  = [Patch 0 0; Patch 1 1; Patch 2 2; Mount 3 None].
Proof.
  rewrite (patchKeyedChildren_same_prefix ABC ABCD); [reflexivity|].
  intros k o n Ho Hn.
  destruct k as [|[|[|k]]]; cbn in Ho, Hn; simplify_eq; reflexivity.
Defined.

End Renderer.
